(** * CNTK text format reader: the parser of TextParser.cpp

    A shallow embedding of [Microsoft::MSR::CNTK::TextParser<ElemType>]
    (Source/Readers/CNTKTextFormatReader/TextParser.cpp) and the properties
    of its scanners, sample and row grammar, error budget and chunk cache.

    Conventions of the embedding.
    - A [char] is the integer value of the C++ [char]; nothing is assumed
      about its range, so the results hold for signed and unsigned [char].
    - While a sequence is read, the refillable window
      [m_buffer]/[m_pos]/[m_bufferEnd] together with [CanRead()] is the
      sequence of the bytes that are still to be read, those of the window
      and those of the file after them: [m_pos] is that list, [CanRead()]
      is its non-emptiness, [*m_pos] its head and [++m_pos] its tail.  The
      window itself, with the file and the two offsets, is the record
      [Reader.Window]: [LoadSequence] finds it where the bytes read have
      left it and puts it on the offset of the sequence as the source does,
      with [SetFileOffset] and [TryRefillBuffer].  Read errors of [fread]
      are not part of the model.
    - [size_t] values are in [Z]; a decrement that the source guards by
      [bytesToRead != 0] is written [bytesToRead - 1], the unguarded ones
      wrap modulo [2^64].
    - [stderr] is the list of the messages printed, one constructor of
      [Msg] per format string; the text of [GetFileInfo()] is not rendered.
    - [assert] is compiled out, as in a release build.
    - The element type and the [double] arithmetic of the real number
      scanner are the parameters of the class [RealArith]. *)

From Stdlib Require Import ZArith NArith List String Bool Lia QArith.
From stdpp Require Import base list gmap.
Import ListNotations.

Local Open Scope Z_scope.

(** ** Characters *)

Definition char := Z.

(** Modelled from the spec: TextReaderConstants.h is not among the sources;
    the significant bytes are those of the table of the input file format
    (space is the value delimiter, the byte [0x20] that ends an alias). *)
Definition ROW_DELIMITER : char := 10.
Definition CARRIAGE_RETURN : char := 13.
Definition COLUMN_DELIMITER : char := 9.
Definition VALUE_DELIMITER : char := 32.
Definition NAME_PREFIX : char := 124.
Definition INDEX_DELIMITER : char := 58.
Definition ESCAPE_SYMBOL : char := 35.

Definition isdigit (c : char) : bool := (48 <=? c) && (c <=? 57).
Definition isSign (c : char) : bool := (c =? 45) || (c =? 43).
Definition isE (c : char) : bool := (c =? 101) || (c =? 69).

Definition isDelimiter (c : char) : bool :=
  (c =? VALUE_DELIMITER) || (c =? NAME_PREFIX) || (c =? COLUMN_DELIMITER) ||
  (c =? INDEX_DELIMITER) || (c =? ROW_DELIMITER) || (c =? CARRIAGE_RETURN).

(** The bytes of a string literal, for examples. *)
Definition bytes_of (s : string) : list char :=
  map (fun a => Z.of_N (Ascii.N_of_ascii a)) (list_ascii_of_string s).

(** ** Machine integers *)

Definition SIZE_MAX : Z := 2 ^ 64 - 1.
Definition wrap64 (z : Z) : Z := z mod 2 ^ 64.

(** ** Arithmetic of the element type *)

(** [D] is [double], [E] is the template parameter [ElemType]. *)
Class RealArith (D E : Type) := {
  d_of_int : Z -> D;
  d_add : D -> D -> D;
  d_mul : D -> D -> D;
  d_div : D -> D -> D;
  d_neg : D -> D;
  d_pow10 : D -> D;
  d_cast : D -> E;
  e_zero : E
}.

(** Exact rational arithmetic, used to run the parser on examples. *)
Definition Q_pow10 (x : Q) : Q := Qpower (10 # 1) (Qnum x / Zpos (Qden x)).

#[export] Instance Q_RealArith : RealArith Q Q := {|
  d_of_int := inject_Z;
  d_add := Qplus;
  d_mul := Qmult;
  d_div := Qdiv;
  d_neg := Qopp;
  d_pow10 := Q_pow10;
  d_cast := fun q => Qred q;
  e_zero := 0%Q
|}.

(** ** Diagnostics *)

Inductive Msg : Type :=
| WarningNotification
| W_CouldNotReadRow (row : nat) (id : Z)
| W_ExhaustedSequence (id : Z) (numRowsRead expectedRowCount : nat)
| E_InputEmpty (stream : nat) (id : Z)
| W_MoreSamplesThanExpected (stream : nat) (samples expected : nat) (id : Z)
| I_FinishedLoading (id : Z) (numRowsRead expectedRowCount : nat)
| W_EmptyRow
| W_RowOverfull (numSampleRead streams : nat)
| W_RowExhausted
| W_UnexpectedNamePrefix (c : char)
| W_InvalidInputName (name : list char)
| W_InvalidCharAfterPrefix (c : char)
| W_NoValidInputName
| W_InputNameExhausted
| W_DenseExceeds (counter sampleSize : nat)
| W_DenseSparseSuffix (sampleSize counter : nat)
| W_DenseExhausted
| W_SparseIndexExceeds (index : Z) (sampleSize : nat)
| W_NoIndexDelimiter (c : char) (index : Z)
| W_SparseExhausted
| W_Uint64Unexpected (c : char)
| W_Uint64Overflow
| W_Uint64Exhausted
| W_RealUnexpected (c : char)
| W_RealAfterSign (c : char)
| W_RealAfterExponentSymbol (c : char)
| W_RealAfterExponentSign (c : char)
| W_RealExhausted.

(** What is thrown: a [RuntimeError] with its text, the [RuntimeError] of a
    sequence id that was not found (its text has a file offset), that of a
    seek that failed (its text has the position), the failure of
    [fopenOrDie], and [Undefined] where the source would read past the last
    byte, index a vector out of range, follow a null pointer or an end
    iterator. *)
Inductive Exn : Type :=
| RuntimeError (what : string)
| SequenceNotFound (id : Z)
| SeekFailed (offset : Z)
| OpenFailed
| Undefined.

Definition MaxErrorsMessage (filename : string) : string :=
  ("Reached the maximum number of allowed errors while reading the input file ("
     ++ filename ++ ").")%string.

Definition MalformedMessage : string := "Malformed input file. Bailing out.".

(** ** The parser *)

Inductive StorageType := dense | sparse_csc.

Record StreamInfo := {
  m_type : StorageType;
  m_sampleDimension : nat
}.

Record StreamDescriptor := {
  m_name : string;
  m_alias : list char;
  m_storageType : StorageType;
  sd_sampleDimension : nat
}.

(** Modelled from the spec: the enumeration [TraceLevel] is declared in
    TextParser.h, which is not among the sources; the spec orders it
    [Error < Warning < Info]. *)
Definition Error : nat := 0%nat.
Definition Warning : nat := 1%nat.
Definition Info : nat := 2%nat.

(** The members that parsing reads and never writes. *)
Record Config := {
  m_filename : string;
  m_streamInfos : list StreamInfo;
  m_aliasToIdMap : gmap (list char) nat;
  m_maxAliasLength : nat;
  m_traceLevel : nat
}.

(** ** The window on the file

    [TryRefillBuffer], [SetFileOffset] and the lines of [LoadSequence] that
    put [m_pos] on the first byte of a sequence.  [m_file] is the bytes of
    the file and the position of the stream; [m_buffer] is the bytes
    between [m_bufferStart] and [m_bufferEnd] (none while the pointers are
    null) and [m_pos] the distance of the pointer of that name from
    [m_bufferStart].  [fread] reads the bytes that are left, up to the
    count asked for, and [_fseeki64] fails for a negative offset only;
    the value [-1] that [TryRefillBuffer] compares [bytesRead] with is never
    returned by [fread]. *)
Module Reader.

Record FILE := {
  content : list char;
  position : Z
}.

Record Window := {
  m_file : FILE;
  m_buffer : list char;
  m_pos : nat;
  m_fileOffsetStart : Z;
  m_fileOffsetEnd : Z
}.

Definition fread (count : nat) (file : FILE) : list char * FILE :=
  let bytes := take count (drop (Z.to_nat (position file)) (content file)) in
  (bytes, {| content := content file;
             position := position file + Z.of_nat (length bytes) |}).

Definition _fseeki64 (file : FILE) (offset : Z) : option FILE :=
  if offset <? 0 then None
  else Some {| content := content file; position := offset |}.

Section Window.

(** The size of [m_buffer], a constant of TextReaderConstants.h. *)
Variable BUFFER_SIZE : nat.

(** [TryRefillBuffer]. *)
Definition TryRefillBuffer (w : Window) : bool * Window :=
  let '(bytes, file) := fread BUFFER_SIZE (m_file w) in
  let bytesRead := length bytes in
  if (bytesRead =? 0)%nat
  then (false, {| m_file := file; m_buffer := m_buffer w; m_pos := m_pos w;
                  m_fileOffsetStart := m_fileOffsetStart w;
                  m_fileOffsetEnd := m_fileOffsetEnd w |})
  else (true, {| m_file := file; m_buffer := bytes; m_pos := 0;
                 m_fileOffsetStart := m_fileOffsetEnd w;
                 m_fileOffsetEnd := m_fileOffsetEnd w + Z.of_nat bytesRead |}).

(** [SetFileOffset]; [None] is the [RuntimeError] of a seek that failed. *)
Definition SetFileOffset (offset : Z) (w : Window) : option Window :=
  match _fseeki64 (m_file w) offset with
  | None => None
  | Some file =>
      Some (snd (TryRefillBuffer
                   {| m_file := file; m_buffer := m_buffer w; m_pos := m_pos w;
                      m_fileOffsetStart := offset; m_fileOffsetEnd := offset |}))
  end.

(** The first lines of [LoadSequence], up to the assignment of [m_pos]. *)
Definition LoadSequence_seek (fileOffset : Z) (w : Window) : option Window :=
  match (if (fileOffset <? m_fileOffsetStart w) || (fileOffset >? m_fileOffsetEnd w)
         then SetFileOffset fileOffset w else Some w) with
  | None => None
  | Some w =>
      let bufferOffset := wrap64 (fileOffset - m_fileOffsetStart w) in
      Some {| m_file := m_file w; m_buffer := m_buffer w;
              m_pos := Z.to_nat bufferOffset;
              m_fileOffsetStart := m_fileOffsetStart w;
              m_fileOffsetEnd := m_fileOffsetEnd w |}
  end.

(** Modelled from the spec: [CanRead] is declared in TextParser.h, which is
    not among the sources; the spec has it true while [m_pos] is before the
    end of the window, or a refill succeeds. *)
Definition CanRead (w : Window) : bool * Window :=
  if (m_pos w <? length (m_buffer w))%nat then (true, w)
  else TryRefillBuffer w.

(** [++m_pos]. *)
Definition next (w : Window) : Window :=
  {| m_file := m_file w; m_buffer := m_buffer w; m_pos := S (m_pos w);
     m_fileOffsetStart := m_fileOffsetStart w;
     m_fileOffsetEnd := m_fileOffsetEnd w |}.

(** The window after [n] bytes were read from it, each of them found by
    [CanRead] and passed by [++m_pos]. *)
Fixpoint read (n : nat) (w : Window) : Window :=
  match n with
  | O => w
  | S n =>
      let r := CanRead w in
      if fst r then read n (next (snd r)) else snd r
  end.

End Window.

(** The bytes that are still to be read: those of the window from [m_pos]
    on, and those of the file from the position of the stream on. *)
Definition readable (w : Window) : list char :=
  drop (m_pos w) (m_buffer w)
  ++ drop (Z.to_nat (position (m_file w))) (content (m_file w)).

(** The window holds the bytes of the file between [m_fileOffsetStart] and
    [m_fileOffsetEnd], and the stream is at [m_fileOffsetEnd]. *)
Definition coherent (w : Window) : Prop :=
  0 ≤ m_fileOffsetStart w
  ∧ m_fileOffsetEnd w = m_fileOffsetStart w + Z.of_nat (length (m_buffer w))
  ∧ position (m_file w) = m_fileOffsetEnd w
  ∧ m_buffer w = take (length (m_buffer w))
                      (drop (Z.to_nat (m_fileOffsetStart w)) (content (m_file w)))
  ∧ (m_pos w ≤ length (m_buffer w))%nat.

(** The window that the constructor leaves: no file is open, the pointers
    are null and the offsets zero. *)
Definition closed : Window :=
  {| m_file := {| content := []; position := 0 |}; m_buffer := []; m_pos := 0;
     m_fileOffsetStart := 0; m_fileOffsetEnd := 0 |}.

(** The window [w] once [file] is open with its stream at [position], and
    both offsets are set to that position, as [Initialize] sets them. *)
Definition opened (file : list char) (position : Z) (w : Window) : Window :=
  {| m_file := {| content := file; position := position |};
     m_buffer := m_buffer w; m_pos := m_pos w;
     m_fileOffsetStart := position; m_fileOffsetEnd := position |}.

(** A bound on the bytes that are read from a window, however it is moved:
    they are bytes of the window, or of the file after them, or bytes of the
    file after a seek. *)
Definition extent (w : Window) : nat :=
  (length (m_buffer w) `max` length (content (m_file w))
   + length (content (m_file w)))%nat.

End Reader.

(** The members that parsing updates, and [stderr].  [m_pos] is the bytes
    that are still to be read.  [m_window] is the window on the file as the
    first lines of [LoadSequence] last left it (as the constructor and
    [Initialize] left it, before the first call); the bytes that were read
    since then have moved it on, see [window_now]. *)
Record PState := {
  m_pos : list char;
  m_numAllowedErrors : N;
  m_hadWarnings : bool;
  stderr : list Msg;
  m_window : Reader.Window
}.

Definition set_pos (input : list char) (s : PState) : PState :=
  {| m_pos := input; m_numAllowedErrors := m_numAllowedErrors s;
     m_hadWarnings := m_hadWarnings s; stderr := stderr s;
     m_window := m_window s |}.

Definition print (m : Msg) (s : PState) : PState :=
  {| m_pos := m_pos s; m_numAllowedErrors := m_numAllowedErrors s;
     m_hadWarnings := m_hadWarnings s; stderr := stderr s ++ [m];
     m_window := m_window s |}.

(** The window is [w], and [m_pos] the bytes that are to be read from it. *)
Definition set_window (w : Reader.Window) (s : PState) : PState :=
  {| m_pos := Reader.readable w; m_numAllowedErrors := m_numAllowedErrors s;
     m_hadWarnings := m_hadWarnings s; stderr := stderr s; m_window := w |}.

(** The bytes that were read since the window was set. *)
Definition bytes_read (s : PState) : nat :=
  length (Reader.readable (m_window s)) - length (m_pos s).

(** ** Computations that may throw *)

Inductive Result (St A : Type) : Type :=
| Ret (a : A) (s : St)
| Throw (e : Exn) (s : St)
| OutOfFuel.
Arguments Ret {St A} a s.
Arguments Throw {St A} e s.
Arguments OutOfFuel {St A}.

Definition M (A : Type) : Type := PState -> Result PState A.

Definition ret {A} (a : A) : M A := fun s => Ret a s.

Definition bind {A B} (m : M A) (k : A -> M B) : M B :=
  fun s => match m s with
           | Ret a s' => k a s'
           | Throw e s' => Throw e s'
           | OutOfFuel => OutOfFuel
           end.

Declare Scope M_scope.
Delimit Scope M_scope with M.
Bind Scope M_scope with M.
Notation "x ← y ; z" := (bind y (fun x => z))
  (at level 20, y at level 100, z at level 200, only parsing) : M_scope.
Notation "' x ← y ; z" := (bind y (fun x => z))
  (at level 20, x pattern, y at level 100, z at level 200, only parsing) : M_scope.
Notation "y ;; z" := (bind y (fun _ => z))
  (at level 100, z at level 200, only parsing, right associativity) : M_scope.
Local Open Scope M_scope.

Definition throw {A} (e : Exn) : M A := fun s => Throw e s.
Definition modify (f : PState -> PState) : M unit := fun s => Ret tt (f s).

(** ** The scanners

    A scanner loop [while (bytesToRead && CanRead())] that consumes one byte
    per iteration is a recursion on the bytes that remain.  It yields what the
    function returns ([Some] of the out-parameter for [true], [None] for
    [false]; no caller reads the out-parameter after [false]), where [m_pos]
    and [bytesToRead] are left, and the warning it asks for, if any. *)

Record Scan (A : Type) := MkScan {
  sc_result : option A;
  sc_rest : list char;
  sc_bytes : Z;
  sc_warning : option Msg
}.
Arguments MkScan {A} _ _ _ _.
Arguments sc_result {A} _.
Arguments sc_rest {A} _.
Arguments sc_bytes {A} _.
Arguments sc_warning {A} _.

(** [TryReadUint64], with [value] and [found] as they stand at the head of
    the loop. *)
Fixpoint TryReadUint64_loop (input : list char) (bytesToRead : Z)
    (value : Z) (found : bool) {struct input} : Scan Z :=
  if bytesToRead =? 0 then MkScan None input bytesToRead (Some W_Uint64Exhausted)
  else
    match input with
    | [] => MkScan None input bytesToRead (Some W_Uint64Exhausted)
    | c :: rest =>
        if negb (isdigit c) then
          if isDelimiter c
          then MkScan (if found then Some value else None) input bytesToRead None
          else MkScan None input bytesToRead (Some (W_Uint64Unexpected c))
        else
          let temp := value in
          let value := wrap64 (value * 10 + (c - 48)) in
          if temp >? value
          then MkScan None input bytesToRead (Some W_Uint64Overflow)
          else TryReadUint64_loop rest (bytesToRead - 1) value true
    end.

Definition TryReadUint64_scan (input : list char) (bytesToRead : Z) : Scan Z :=
  TryReadUint64_loop input bytesToRead 0 false.

(** [SkipToNextInput]. *)
Fixpoint SkipToNextInput_scan (input : list char) (bytesToRead : Z)
    {struct input} : list char * Z :=
  if bytesToRead =? 0 then (input, bytesToRead)
  else
    match input with
    | [] => (input, bytesToRead)
    | c :: rest =>
        if (c =? NAME_PREFIX) || (c =? ROW_DELIMITER)
        then (input, bytesToRead)
        else SkipToNextInput_scan rest (bytesToRead - 1)
    end.

(** The first loop of [TryReadRow], which skips the digits of a sequence id. *)
Fixpoint SkipSequenceId_scan (input : list char) (bytesToRead : Z)
    {struct input} : list char * Z :=
  if bytesToRead =? 0 then (input, bytesToRead)
  else
    match input with
    | [] => (input, bytesToRead)
    | c :: rest =>
        if isdigit c
        then SkipSequenceId_scan rest (bytesToRead - 1)
        else (input, bytesToRead)
    end.

(** [TryGetInputId]; [scratch] holds the bytes copied to [m_scratch]. *)
Fixpoint TryGetInputId_loop (aliasToIdMap : gmap (list char) nat)
    (maxAliasLength : nat) (input : list char) (bytesToRead : Z)
    (scratch : list char) {struct input} : Scan nat :=
  if bytesToRead =? 0
  then MkScan None input bytesToRead (Some W_InputNameExhausted)
  else
    match input with
    | [] => MkScan None input bytesToRead (Some W_InputNameExhausted)
    | c :: rest =>
        if (c <=? VALUE_DELIMITER) || (c =? NAME_PREFIX) then
          match scratch with
          | _ :: _ =>
              match aliasToIdMap !! scratch with
              | Some id => MkScan (Some id) input bytesToRead None
              | None => MkScan None input bytesToRead
                               (Some (W_InvalidInputName scratch))
              end
          | [] => MkScan None input bytesToRead
                         (Some (W_InvalidCharAfterPrefix c))
          end
        else if (length scratch <? maxAliasLength)%nat then
          TryGetInputId_loop aliasToIdMap maxAliasLength rest (bytesToRead - 1)
                             (scratch ++ [c])
        else MkScan None input bytesToRead (Some W_NoValidInputName)
    end.

(** The states of the real number scanner. *)
Inductive State :=
| Init | Sign | IntegralPart | Period | FractionalPart
| TheLetterE | ExponentSign | Exponent.

Section RealNumber.

Context {D E : Type} `{RA : RealArith D E}.

Definition digit_value (c : char) : D := d_of_int (c - 48).

(** [number * 10 + (c - '0')] *)
Definition push_digit (number : D) (c : char) : D :=
  d_add (d_mul number (d_of_int 10)) (digit_value c).

Definition signed (negative : bool) (x : D) : D :=
  if negative then d_neg x else x.

(** [TryReadRealNumber], with the locals as they stand at the head of the
    loop. *)
Fixpoint TryReadRealNumber_loop (input : list char) (bytesToRead : Z)
    (state : State) (coefficient number divider : D) (negative : bool)
    {struct input} : Scan E :=
  if bytesToRead =? 0 then MkScan None input bytesToRead (Some W_RealExhausted)
  else
    match input with
    | [] => MkScan None input bytesToRead (Some W_RealExhausted)
    | c :: rest =>
        let next state coefficient number divider negative :=
          TryReadRealNumber_loop rest (bytesToRead - 1)
                                 state coefficient number divider negative in
        let done (value : D) :=
          MkScan (Some (d_cast value)) input bytesToRead None in
        let fail (w : Msg) := MkScan None input bytesToRead (Some w) in
        match state with
        | Init =>
            if isdigit c then
              next IntegralPart coefficient (digit_value c) divider negative
            else if isSign c then
              next Sign coefficient number divider (c =? 45)
            else fail (W_RealUnexpected c)
        | Sign =>
            if isdigit c then
              next IntegralPart coefficient (digit_value c) divider negative
            else fail (W_RealAfterSign c)
        | IntegralPart =>
            if isdigit c then
              next IntegralPart coefficient (push_digit number c) divider negative
            else if c =? 46 then
              next Period coefficient number divider negative
            else if isE c then
              next TheLetterE (signed negative number) (d_of_int 0) divider negative
            else done (signed negative number)
        | Period =>
            if isdigit c then
              next FractionalPart number (digit_value c) (d_of_int 10) negative
            else done (signed negative number)
        | FractionalPart =>
            if isdigit c then
              next FractionalPart coefficient (push_digit number c)
                   (d_mul divider (d_of_int 10)) negative
            else if isE c then
              next TheLetterE
                   (signed negative (d_add coefficient (d_div number divider)))
                   number divider negative
            else
              done (signed negative (d_add coefficient (d_div number divider)))
        | TheLetterE =>
            if isdigit c then
              next Exponent coefficient (digit_value c) divider false
            else if isSign c then
              next ExponentSign coefficient number divider (c =? 45)
            else fail (W_RealAfterExponentSymbol c)
        | ExponentSign =>
            if isdigit c then
              next Exponent coefficient (digit_value c) divider negative
            else fail (W_RealAfterExponentSign c)
        | Exponent =>
            if isdigit c then
              next Exponent coefficient (push_digit number c) divider negative
            else
              let exponent := signed negative number in
              done (d_mul coefficient (d_pow10 exponent))
        end
    end.

Definition TryReadRealNumber_scan (input : list char) (bytesToRead : Z) : Scan E :=
  TryReadRealNumber_loop input bytesToRead Init
                         (d_of_int 0) (d_of_int 0) (d_of_int 0) false.

End RealNumber.

(** ** Sample buffers and descriptors *)

(** [InputStreamBuffer] with the members that [SparseInputStreamBuffer] adds;
    the buffer of a dense stream leaves those three as they are created. *)
Record InputStreamBuffer (E : Type) := MkBuffer {
  m_numberOfSamples : nat;
  m_buffer : list E;
  m_indices : list Z;
  m_nnzCounts : list Z;
  m_totalNnzCount : Z
}.
Arguments MkBuffer {E} _ _ _ _ _.
Arguments m_numberOfSamples {E} _.
Arguments m_buffer {E} _.
Arguments m_indices {E} _.
Arguments m_nnzCounts {E} _.
Arguments m_totalNnzCount {E} _.

(** The members of the indexer's [SequenceDescriptor] that the parser reads. *)
Record SequenceDescriptor := {
  seq_id : Z;
  seq_fileOffsetBytes : nat;
  seq_byteSize : Z;
  seq_numberOfSamples : nat
}.

(** The members of the indexer's [ChunkDescriptor] that the parser reads. *)
Record ChunkDescriptor := {
  chunk_id : Z;
  chunk_sequences : list SequenceDescriptor
}.

(** [TextDataChunk]. *)
Record TextDataChunk (E : Type) := MkChunk {
  m_sequenceMap : gmap Z (list (InputStreamBuffer E));
  m_id : Z;
  m_sequenceRequestCount : Z
}.
Arguments MkChunk {E} _ _ _.
Arguments m_sequenceMap {E} _.
Arguments m_id {E} _.
Arguments m_sequenceRequestCount {E} _.

Section Parser.

Context {D E : Type} `{RA : RealArith D E}.
Variable p : Config.

(** The size of [m_buffer], a constant of TextReaderConstants.h, which is
    not among the sources; it is not zero. *)
Variable BUFFER_SIZE : positive.

Abbreviation SequenceBuffer := (list (InputStreamBuffer E)).

(** [PrintWarningNotification]. *)
Definition PrintWarningNotification : M unit :=
  fun s =>
    if m_hadWarnings s && (m_traceLevel p <? Warning)%nat
    then Ret tt (print WarningNotification s)
    else Ret tt s.

(** Modelled from the spec: [ShouldWarn] is defined in TextParser.h, which
    is not among the sources.  The spec has a warning printed iff the trace
    level is at least [Warning] and a flag [had_warnings] that records that
    a warning was due. *)
Definition ShouldWarn : M bool :=
  fun s =>
    Ret (Warning <=? m_traceLevel p)%nat
        {| m_pos := m_pos s; m_numAllowedErrors := m_numAllowedErrors s;
           m_hadWarnings := true; stderr := stderr s;
           m_window := m_window s |}.

(** The idiom [if (ShouldWarn()) fprintf(stderr, ...)]. *)
Definition warn (m : Msg) : M unit :=
  b ← ShouldWarn; if b then modify (print m) else ret tt.

(** [IncrementNumberOfErrorsOrDie]. *)
Definition IncrementNumberOfErrorsOrDie : M unit :=
  fun s =>
    if (m_numAllowedErrors s =? 0)%N
    then (PrintWarningNotification;;
          throw (RuntimeError (MaxErrorsMessage (m_filename p)))) s
    else Ret tt {| m_pos := m_pos s;
                   m_numAllowedErrors := N.pred (m_numAllowedErrors s);
                   m_hadWarnings := m_hadWarnings s; stderr := stderr s;
                   m_window := m_window s |}.

(** Runs a scanner at [m_pos]: moves [m_pos], prints the warning, and
    returns the result with the new [bytesToRead]. *)
Definition run_scan {A} (scan : list char -> Scan A) : M (option A * Z) :=
  fun s =>
    let r := scan (m_pos s) in
    (modify (set_pos (sc_rest r));;
     match sc_warning r with Some w => warn w | None => ret tt end;;
     ret (sc_result r, sc_bytes r)) s.

Definition TryReadUint64 (bytesToRead : Z) : M (option Z * Z) :=
  run_scan (fun input => TryReadUint64_scan input bytesToRead).

Definition TryReadRealNumber (bytesToRead : Z) : M (option E * Z) :=
  run_scan (fun input => TryReadRealNumber_scan input bytesToRead).

Definition TryGetInputId (bytesToRead : Z) : M (option nat * Z) :=
  run_scan (fun input =>
    TryGetInputId_loop (m_aliasToIdMap p) (m_maxAliasLength p)
                       input bytesToRead []).

Definition SkipToNextInput (bytesToRead : Z) : M Z :=
  fun s =>
    let r := SkipToNextInput_scan (m_pos s) bytesToRead in
    Ret (snd r) (set_pos (fst r) s).

(** [TryReadDenseSample]; [values] is the vector passed by reference, returned
    as the function leaves it, and [counter] the local of that name. *)
Fixpoint TryReadDenseSample_loop (fuel : nat) (values : list E)
    (sampleSize counter : nat) (bytesToRead : Z)
    : M (bool * list E * Z) :=
  match fuel with
  | O => fun _ => OutOfFuel
  | S fuel => fun s =>
      let exhausted :=
        IncrementNumberOfErrorsOrDie;;
        warn W_DenseExhausted;;
        ret (false, values, bytesToRead) in
      if bytesToRead =? 0 then exhausted s
      else
        match m_pos s with
        | [] => exhausted s
        | c :: rest =>
            if (c <? VALUE_DELIMITER) || (c =? NAME_PREFIX) then
              if (sampleSize <? counter)%nat then
                (warn (W_DenseExceeds counter sampleSize);;
                 ret (false, values, bytesToRead)) s
              else if (counter <? sampleSize)%nat then
                (warn (W_DenseSparseSuffix sampleSize counter);;
                 ret (true, values ++ replicate (sampleSize - counter) e_zero,
                      bytesToRead)) s
              else Ret (true, values, bytesToRead) s
            else if c =? VALUE_DELIMITER then
              TryReadDenseSample_loop fuel values sampleSize counter
                                      (bytesToRead - 1) (set_pos rest s)
            else
              ('(r, bytesToRead) ← TryReadRealNumber bytesToRead;
               match r with
               | None => ret (false, values, bytesToRead)
               | Some value =>
                   TryReadDenseSample_loop fuel (values ++ [value]) sampleSize
                                           (S counter) bytesToRead
               end) s
        end
  end.

Definition TryReadDenseSample (fuel : nat) (values : list E) (sampleSize : nat)
    (bytesToRead : Z) : M (bool * list E * Z) :=
  TryReadDenseSample_loop fuel values sampleSize 0 bytesToRead.

(** Modelled from the spec: [IndexType] is declared in a header that is not
    among the sources; the spec has the indices and the counts of non-zero
    values as integers, so [static_cast<IndexType>] keeps the value. *)
Definition to_IndexType (z : Z) : Z := z.

(** [TryReadSparseSample]. *)
Fixpoint TryReadSparseSample (fuel : nat) (values : list E) (indices : list Z)
    (sampleSize : nat) (bytesToRead : Z)
    : M (bool * list E * list Z * Z) :=
  match fuel with
  | O => fun _ => OutOfFuel
  | S fuel => fun s =>
      let exhausted :=
        warn W_SparseExhausted;;
        ret (false, values, indices, bytesToRead) in
      if bytesToRead =? 0 then exhausted s
      else
        match m_pos s with
        | [] => exhausted s
        | c :: rest =>
            if (c <? VALUE_DELIMITER) || (c =? NAME_PREFIX) then
              Ret (true, values, indices, bytesToRead) s
            else if c =? VALUE_DELIMITER then
              TryReadSparseSample fuel values indices sampleSize
                                  (bytesToRead - 1) (set_pos rest s)
            else
              ('(r, bytesToRead) ← TryReadUint64 bytesToRead;
               match r with
               | None => ret (false, values, indices, bytesToRead)
               | Some index =>
                   if index >? Z.of_nat sampleSize then
                     warn (W_SparseIndexExceeds index sampleSize);;
                     ret (false, values, indices, bytesToRead)
                   else fun s =>
                     match m_pos s with
                     | [] => Throw Undefined s
                     | c :: rest =>
                         if negb (c =? INDEX_DELIMITER) then
                           (warn (W_NoIndexDelimiter c index);;
                            ret (false, values, indices, bytesToRead)) s
                         else
                           (modify (set_pos rest);;
                            '(r, bytesToRead) ←
                               TryReadRealNumber (wrap64 (bytesToRead - 1));
                            match r with
                            | None => ret (false, values, indices, bytesToRead)
                            | Some value =>
                                TryReadSparseSample fuel (values ++ [value])
                                  (indices ++ [to_IndexType index])
                                  sampleSize bytesToRead
                            end) s
                     end
               end) s
        end
  end.

(** [TryReadSample]. *)
Definition TryReadSample (fuel : nat) (sequence : SequenceBuffer)
    (bytesToRead : Z) : M (bool * SequenceBuffer * Z) :=
  fun s =>
    match m_pos s with
    | [] => Throw Undefined s
    | c :: rest =>
        if negb (c =? NAME_PREFIX) then
          (warn (W_UnexpectedNamePrefix c);;
           IncrementNumberOfErrorsOrDie;;
           ret (false, sequence, bytesToRead)) s
        else
          let bytesToRead := wrap64 (bytesToRead - 1) in
          let s := set_pos rest s in
          if negb (bytesToRead =? 0)
             && match rest with c' :: _ => c' =? ESCAPE_SYMBOL | [] => false end
          then Ret (false, sequence, bytesToRead - 1) (set_pos (tail rest) s)
          else
            ('(r, bytesToRead) ← TryGetInputId bytesToRead;
             match r with
             | None =>
                 IncrementNumberOfErrorsOrDie;;
                 ret (false, sequence, bytesToRead)
             | Some id =>
                 match m_streamInfos p !! id, sequence !! id with
                 | Some stream, Some data =>
                     match m_type stream with
                     | dense =>
                         let values := m_buffer data in
                         let size := length values in
                         '(ok, values, bytesToRead) ←
                            TryReadDenseSample fuel values
                              (m_sampleDimension stream) bytesToRead;
                         if negb ok then
                           let values :=
                             if (length values =? size)%nat then values
                             else resize size e_zero values in
                           let data :=
                             MkBuffer (m_numberOfSamples data) values
                                      (m_indices data) (m_nnzCounts data)
                                      (m_totalNnzCount data) in
                           IncrementNumberOfErrorsOrDie;;
                           ret (false, <[id := data]> sequence, bytesToRead)
                         else
                           let data :=
                             MkBuffer (S (m_numberOfSamples data)) values
                                      (m_indices data) (m_nnzCounts data)
                                      (m_totalNnzCount data) in
                           ret (true, <[id := data]> sequence, bytesToRead)
                     | sparse_csc =>
                         let values := m_buffer data in
                         let indices := m_indices data in
                         let size := length values in
                         '(ok, values, indices, bytesToRead) ←
                            TryReadSparseSample fuel values indices
                              (m_sampleDimension stream) bytesToRead;
                         if negb ok then
                           let values :=
                             if (length values =? size)%nat then values
                             else resize size e_zero values in
                           let indices :=
                             if (length indices =? size)%nat then indices
                             else resize size 0 indices in
                           let data :=
                             MkBuffer (m_numberOfSamples data) values indices
                                      (m_nnzCounts data) (m_totalNnzCount data) in
                           IncrementNumberOfErrorsOrDie;;
                           ret (false, <[id := data]> sequence, bytesToRead)
                         else
                           let count :=
                             to_IndexType (Z.of_nat (length values) - Z.of_nat size) in
                           let data :=
                             MkBuffer (S (m_numberOfSamples data)) values indices
                                      (m_nnzCounts data ++ [count])
                                      (m_totalNnzCount data + count) in
                           ret (true, <[id := data]> sequence, bytesToRead)
                     end
                 | _, _ => throw Undefined
                 end
             end) s
    end.

(** The second loop of [TryReadRow]. *)
Fixpoint TryReadRow_loop (fuel : nat) (sequence : SequenceBuffer)
    (bytesToRead : Z) (numSampleRead : nat)
    : M (bool * SequenceBuffer * Z) :=
  match fuel with
  | O => fun _ => OutOfFuel
  | S fuel' => fun s =>
      let exhausted :=
        warn W_RowExhausted;; ret (false, sequence, bytesToRead) in
      if bytesToRead =? 0 then exhausted s
      else
        match m_pos s with
        | [] => exhausted s
        | c :: rest =>
            if (c =? COLUMN_DELIMITER) || (c =? VALUE_DELIMITER)
               || (c =? CARRIAGE_RETURN) then
              TryReadRow_loop fuel' sequence (bytesToRead - 1) numSampleRead
                              (set_pos rest s)
            else if c =? ROW_DELIMITER then
              (modify (set_pos rest);;
               (if (numSampleRead =? 0)%nat then warn W_EmptyRow
                else if (length (m_streamInfos p) <? numSampleRead)%nat
                then warn (W_RowOverfull numSampleRead (length (m_streamInfos p)))
                else ret tt);;
               ret ((0 <? numSampleRead)%nat, sequence, bytesToRead - 1)) s
            else
              ('(ok, sequence, bytesToRead) ← TryReadSample fuel sequence bytesToRead;
               if ok then
                 TryReadRow_loop fuel' sequence bytesToRead (S numSampleRead)
               else
                 bytesToRead ← SkipToNextInput bytesToRead;
                 TryReadRow_loop fuel' sequence bytesToRead numSampleRead) s
        end
  end.

(** [TryReadRow]. *)
Definition TryReadRow (fuel : nat) (sequence : SequenceBuffer)
    (bytesToRead : Z) : M (bool * SequenceBuffer * Z) :=
  fun s =>
    let r := SkipSequenceId_scan (m_pos s) bytesToRead in
    TryReadRow_loop fuel sequence (snd r) 0 (set_pos (fst r) s).

(** The loop of [LoadSequence] over the rows; [remaining] rows are still to
    be read and [i] is the loop counter. *)
Fixpoint LoadSequence_rows (fuel : nat) (id : Z) (expectedRowCount : nat)
    (remaining i : nat) (sequence : SequenceBuffer) (bytesToRead : Z)
    (numRowsRead : nat) : M (SequenceBuffer * nat) :=
  match remaining with
  | O => ret (sequence, numRowsRead)
  | S remaining =>
      '(ok, sequence, bytesToRead) ← TryReadRow fuel sequence bytesToRead;
      numRowsRead ←
        (if ok then ret (S numRowsRead)
         else IncrementNumberOfErrorsOrDie;;
              warn (W_CouldNotReadRow (i + 1) id);;
              ret numRowsRead);
      if (bytesToRead =? 0) && (numRowsRead <? expectedRowCount)%nat then
        warn (W_ExhaustedSequence id numRowsRead expectedRowCount);;
        ret (sequence, numRowsRead)
      else
        LoadSequence_rows fuel id expectedRowCount remaining (S i)
                          sequence bytesToRead numRowsRead
  end.

(** The loop of [LoadSequence] that looks for empty and over-full inputs;
    it yields [hasEmptyInputs] and [hasDuplicateInputs]. *)
Fixpoint LoadSequence_check (id : Z) (expectedRowCount : nat) (i : nat)
    (sequence : SequenceBuffer) (hasEmptyInputs hasDuplicateInputs : bool)
    : M (bool * bool) :=
  match sequence with
  | [] => ret (hasEmptyInputs, hasDuplicateInputs)
  | data :: sequence =>
      hasEmptyInputs ←
        (if (m_numberOfSamples data =? 0)%nat
         then modify (print (E_InputEmpty i id));; ret true
         else ret hasEmptyInputs);
      hasDuplicateInputs ←
        (if (expectedRowCount <? m_numberOfSamples data)%nat
         then warn (W_MoreSamplesThanExpected i (m_numberOfSamples data)
                                              expectedRowCount id);;
              ret true
         else ret hasDuplicateInputs);
      LoadSequence_check id expectedRowCount (S i) sequence
                         hasEmptyInputs hasDuplicateInputs
  end.

(** Modelled from the spec: the constructors of [DenseInputStreamBuffer] and
    [SparseInputStreamBuffer] are in TextParser.h, which is not among the
    sources.  A new buffer holds no sample; the size passed for a dense
    stream is what the spec calls the allocation of the buffer. *)
Definition new_buffer : InputStreamBuffer E := MkBuffer 0 [] [] [] 0.

(** The end of [LoadSequence], from the check of the inputs on. *)
Definition LoadSequence_finish (sequenceDsc : SequenceDescriptor)
    (sequence : SequenceBuffer) (numRowsRead : nat) : M SequenceBuffer :=
  let expectedRowCount := seq_numberOfSamples sequenceDsc in
  '(hasEmptyInputs, hasDuplicateInputs) ←
     LoadSequence_check (seq_id sequenceDsc) expectedRowCount 0 sequence
                        false false;
  (if hasEmptyInputs
   then PrintWarningNotification;; throw (RuntimeError MalformedMessage)
   else ret tt);;
  (if hasDuplicateInputs then IncrementNumberOfErrorsOrDie else ret tt);;
  (if (Info <=? m_traceLevel p)%nat
   then modify (print (I_FinishedLoading (seq_id sequenceDsc) numRowsRead
                                         expectedRowCount))
   else ret tt);;
  ret sequence.

(** The window as a call of [LoadSequence] finds it: every byte that was
    read since the window was set was found by [CanRead] and passed by
    [++m_pos]. *)
Definition window_now (s : PState) : Reader.Window :=
  Reader.read (Pos.to_nat BUFFER_SIZE) (bytes_read s) (m_window s).

(** [LoadSequence] from [size_t bytesToRead = sequenceDsc.m_byteSize] on. *)
Definition LoadSequence_read (fuel : nat) (verifyId : bool)
    (sequenceDsc : SequenceDescriptor) : M SequenceBuffer :=
  let bytesToRead := seq_byteSize sequenceDsc in
  bytesToRead ←
    (if verifyId then
       '(r, bytesToRead) ← TryReadUint64 bytesToRead;
       match r with
       | Some id =>
           if id =? seq_id sequenceDsc then ret bytesToRead
           else PrintWarningNotification;;
                throw (SequenceNotFound (seq_id sequenceDsc))
       | None => PrintWarningNotification;;
                 throw (SequenceNotFound (seq_id sequenceDsc))
       end
     else ret bytesToRead);
  let sequence := map (fun _ => new_buffer) (m_streamInfos p) in
  let expectedRowCount := seq_numberOfSamples sequenceDsc in
  '(sequence, numRowsRead) ←
     LoadSequence_rows fuel (seq_id sequenceDsc) expectedRowCount
                       expectedRowCount 0 sequence bytesToRead 0;
  LoadSequence_finish sequenceDsc sequence numRowsRead.

(** [LoadSequence].  Its first lines put the window on the offset of the
    sequence, with [SetFileOffset] when the offset is outside the window;
    the bytes that are then read are those of the window from [m_pos] on
    and those that [CanRead] takes from the file after them. *)
Definition LoadSequence (fuel : nat) (verifyId : bool)
    (sequenceDsc : SequenceDescriptor) : M SequenceBuffer :=
  fun s =>
    let fileOffset := Z.of_nat (seq_fileOffsetBytes sequenceDsc) in
    match Reader.LoadSequence_seek (Pos.to_nat BUFFER_SIZE) fileOffset
                                   (window_now s) with
    | None => (PrintWarningNotification;; throw (SeekFailed fileOffset)) s
    | Some w => LoadSequence_read fuel verifyId sequenceDsc (set_window w s)
    end.

(** [LoadChunk]: [insert] keeps the sequence that the map already has for
    an id. *)
Fixpoint LoadChunk_sequences (fuel : nat) (verifyId : bool)
    (chunk : TextDataChunk E) (sequences : list SequenceDescriptor)
    : M (TextDataChunk E) :=
  match sequences with
  | [] => ret chunk
  | sequenceDescriptor :: sequences =>
      sequence ← LoadSequence fuel verifyId sequenceDescriptor;
      let map :=
        match m_sequenceMap chunk !! seq_id sequenceDescriptor with
        | Some _ => m_sequenceMap chunk
        | None => <[seq_id sequenceDescriptor := sequence]> (m_sequenceMap chunk)
        end in
      LoadChunk_sequences fuel verifyId
        (MkChunk map (m_id chunk) (m_sequenceRequestCount chunk)) sequences
  end.

Definition LoadChunk (fuel : nat) (skipSequenceIds : bool)
    (chunk : TextDataChunk E) (descriptor : ChunkDescriptor)
    : M (TextDataChunk E) :=
  LoadChunk_sequences fuel (negb skipSequenceIds) chunk
                      (chunk_sequences descriptor).

End Parser.

(** ** The chunk cache and the parser object *)

(** [std::map<size_t, TextChunkPtr>] as the list of its entries in the order
    of iteration (ascending keys); a [TextChunkPtr] is the index of the chunk
    among the chunks that [make_shared] has allocated. *)
Abbreviation ChunkCache := (list (Z * nat)).

Fixpoint cache_find (chunkId : Z) (cache : ChunkCache) : option nat :=
  match cache with
  | [] => None
  | (id, chunk) :: cache =>
      if id =? chunkId then Some chunk else cache_find chunkId cache
  end.

Fixpoint cache_erase (chunkId : Z) (cache : ChunkCache) : ChunkCache :=
  match cache with
  | [] => []
  | (id, chunk) :: cache =>
      if id =? chunkId then cache else (id, chunk) :: cache_erase chunkId cache
  end.

(** [m_chunkCache[chunkId] = chunk]. *)
Fixpoint cache_assign (chunkId : Z) (chunk : nat) (cache : ChunkCache)
    : ChunkCache :=
  match cache with
  | [] => [(chunkId, chunk)]
  | (id, chunk') :: cache' =>
      if id =? chunkId then (id, chunk) :: cache'
      else if chunkId <? id then (chunkId, chunk) :: cache
      else (id, chunk') :: cache_assign chunkId chunk cache'
  end.

(** Modelled from the spec: Indexer.h and Indexer.cpp are not among the
    sources.  The indexer yields the flag [has_sequence_ids], which it sets
    to false when the configuration says to skip the sequence ids, and the
    list of the chunk descriptors. *)
Record Indexer := {
  m_hasSequenceIds : bool;
  m_index : list ChunkDescriptor
}.

Definition HasSequenceIds (indexer : Indexer) : bool := m_hasSequenceIds indexer.
Definition GetIndex (indexer : Indexer) : list ChunkDescriptor := m_index indexer.

Record TextParser (E : Type) := MkParser {
  config : Config;
  state : PState;
  m_file : option (list char);
  m_indexer : option Indexer;
  m_chunkSizeBytes : Z;
  m_chunkCacheSize : Z;
  m_chunkCache : ChunkCache;
  m_skipSequenceIds : bool;
  chunks : list (TextDataChunk E)
}.
Arguments MkParser {E} _ _ _ _ _ _ _ _ _.
Arguments config {E} _.
Arguments state {E} _.
Arguments m_file {E} _.
Arguments m_indexer {E} _.
Arguments m_chunkSizeBytes {E} _.
Arguments m_chunkCacheSize {E} _.
Arguments m_chunkCache {E} _.
Arguments m_skipSequenceIds {E} _.
Arguments chunks {E} _.

(** What the constructor reads of a [TextConfigHelper]. *)
Record TextConfigHelper := {
  GetFilePath : string;
  GetStreams : list StreamDescriptor;
  GetTraceLevel : nat;
  GetMaxAllowedErrors : N;
  GetNumChunksToCache : Z;
  GetChunkSize : Z;
  ShouldSkipSequenceIds : bool
}.

(** Modelled from the spec: [attempt] is not among the sources; the spec has
    it retry transient failures of the file system, which the model does not
    have, so the body runs once. *)
Definition attempt {A : Type} (numRetries : nat) (body : A) : A := body.

(** The constructor sets [m_numRetries] to 5 and the parser never calls
    [SetNumRetries]. *)
Definition m_numRetries : nat := 5.

Section TextParser.

Context {D E : Type} `{RA : RealArith D E}.

(** Modelled from the spec: what [Indexer::Build] finds in the file, that
    is whether every row begins with a sequence id and the chunks of the
    file for a chunk size. *)
Variable rows_have_sequence_ids : list char -> bool.
Variable build_index : list char -> bool -> Z -> list ChunkDescriptor.

(** The size of [m_buffer], a constant of TextReaderConstants.h. *)
Variable BUFFER_SIZE : positive.

Definition Indexer_Build (file : list char) (skipSequenceIds : bool)
    (chunkSize : Z) : Indexer :=
  let hasSequenceIds :=
    if skipSequenceIds then false else rows_have_sequence_ids file in
  {| m_hasSequenceIds := hasSequenceIds;
     m_index := build_index file hasSequenceIds chunkSize |}.

(** The loop of the constructor over the streams. *)
Fixpoint TextParser_streams (streams : list StreamDescriptor) (i : nat)
    (maxAliasLength : nat) (aliasToIdMap : gmap (list char) nat)
    : nat * gmap (list char) nat :=
  match streams with
  | [] => (maxAliasLength, aliasToIdMap)
  | stream :: streams =>
      let alias := m_alias stream in
      let maxAliasLength :=
        if (maxAliasLength <? length alias)%nat then length alias
        else maxAliasLength in
      TextParser_streams streams (S i) maxAliasLength (<[alias := i]> aliasToIdMap)
  end.

(** [TextParser(filename, streams)]. *)
Definition TextParser_new (filename : string) (streams : list StreamDescriptor)
    : TextParser E :=
  let r := TextParser_streams streams 0 0 ∅ in
  MkParser
    {| m_filename := filename;
       m_streamInfos :=
         map (fun stream => {| m_type := m_storageType stream;
                               m_sampleDimension := sd_sampleDimension stream |})
             streams;
       m_aliasToIdMap := snd r;
       m_maxAliasLength := fst r;
       m_traceLevel := Error |}
    {| m_pos := []; m_numAllowedErrors := 0; m_hadWarnings := false;
       stderr := []; m_window := Reader.closed |}
    None None 0 0 [] false [].

Definition SetTraceLevel (traceLevel : nat) (parser : TextParser E) : TextParser E :=
  MkParser
    {| m_filename := m_filename (config parser);
       m_streamInfos := m_streamInfos (config parser);
       m_aliasToIdMap := m_aliasToIdMap (config parser);
       m_maxAliasLength := m_maxAliasLength (config parser);
       m_traceLevel := traceLevel |}
    (state parser) (m_file parser) (m_indexer parser) (m_chunkSizeBytes parser)
    (m_chunkCacheSize parser) (m_chunkCache parser) (m_skipSequenceIds parser)
    (chunks parser).

Definition set_state (s : PState) (parser : TextParser E) : TextParser E :=
  MkParser (config parser) s (m_file parser) (m_indexer parser)
    (m_chunkSizeBytes parser) (m_chunkCacheSize parser) (m_chunkCache parser)
    (m_skipSequenceIds parser) (chunks parser).

Definition SetMaxAllowedErrors (maxErrors : N) (parser : TextParser E) : TextParser E :=
  set_state {| m_pos := m_pos (state parser); m_numAllowedErrors := maxErrors;
               m_hadWarnings := m_hadWarnings (state parser);
               stderr := stderr (state parser);
               m_window := m_window (state parser) |} parser.

Definition SetSkipSequenceIds (skip : bool) (parser : TextParser E) : TextParser E :=
  MkParser (config parser) (state parser) (m_file parser) (m_indexer parser)
    (m_chunkSizeBytes parser) (m_chunkCacheSize parser) (m_chunkCache parser)
    skip (chunks parser).

Definition SetChunkCacheSize (size : Z) (parser : TextParser E) : TextParser E :=
  MkParser (config parser) (state parser) (m_file parser) (m_indexer parser)
    (m_chunkSizeBytes parser) size (m_chunkCache parser)
    (m_skipSequenceIds parser) (chunks parser).

Definition SetChunkSize (size : Z) (parser : TextParser E) : TextParser E :=
  MkParser (config parser) (state parser) (m_file parser) (m_indexer parser)
    size (m_chunkCacheSize parser) (m_chunkCache parser)
    (m_skipSequenceIds parser) (chunks parser).

Definition UTF16Message (filename : string) : string :=
  ("Found a UTF-16 BOM at the beginning of the input file (" ++ filename
     ++ "). UTF-16 encoding is currently not supported.")%string.

(** Modelled from the spec: [funicode] is not among the sources; it finds
    the byte-order mark of UTF-16 at the start of the file. *)
Definition funicode (file : list char) : bool :=
  match file with
  | a :: b :: _ => (a mod 256 =? 255) && (b mod 256 =? 254)
  | _ => false
  end.

(** Modelled from the spec: the indexer scans the file in a single pass,
    which leaves the stream at the end of the file; that is the position
    that [_ftelli64] reports to [Initialize]. *)
Definition position_after_indexing (file : list char) : Z :=
  Z.of_nat (length file).

(** [Initialize]; [disk] is what opening [m_filename] gives, [None] when the
    file cannot be opened.  [m_fileOffsetStart] and [m_fileOffsetEnd] are
    set to the position of the stream. *)
Definition Initialize (disk : option (list char)) (parser : TextParser E)
    : Result (TextParser E) unit :=
  match m_indexer parser with
  | Some _ => Ret tt parser
  | None =>
      match attempt m_numRetries disk with
      | None => Throw OpenFailed parser
      | Some file =>
          if funicode file
          then Throw (RuntimeError (UTF16Message (m_filename (config parser)))) parser
          else
            let indexer :=
              attempt m_numRetries
                (Indexer_Build file (m_skipSequenceIds parser)
                               (m_chunkSizeBytes parser)) in
            let position := position_after_indexing file in
            let window :=
              Reader.opened file position (m_window (state parser)) in
            Ret tt (MkParser (config parser) (set_window window (state parser))
                      (Some file) (Some indexer) (m_chunkSizeBytes parser)
                      (m_chunkCacheSize parser) (m_chunkCache parser)
                      (negb (HasSequenceIds indexer)) (chunks parser))
      end
  end.

(** [TextParser(const TextConfigHelper& helper)]. *)
Definition TextParser_of_config (disk : option (list char))
    (helper : TextConfigHelper) : Result (TextParser E) unit :=
  Initialize disk
    (SetSkipSequenceIds (ShouldSkipSequenceIds helper)
       (SetChunkSize (GetChunkSize helper)
          (SetChunkCacheSize (GetNumChunksToCache helper)
             (SetMaxAllowedErrors (GetMaxAllowedErrors helper)
                (SetTraceLevel (GetTraceLevel helper)
                   (TextParser_new (GetFilePath helper) (GetStreams helper))))))).

(** [numSequencesLeft] of the eviction loop of [GetChunk]. *)
Definition numSequencesLeft (chunk : TextDataChunk E) : Z :=
  let numSequencesUsed := wrap64 (0 + m_sequenceRequestCount chunk) in
  wrap64 (Z.of_nat (size (m_sequenceMap chunk)) - numSequencesUsed).

(** The eviction loop of [GetChunk], with [candidateId] and
    [minNumSequencesLeft] as they stand at the head of the loop.  Every
    pointer of the cache is one that [make_shared] returned; an entry whose
    chunk does not exist is passed over. *)
Fixpoint GetChunk_candidate (chunks : list (TextDataChunk E))
    (cache : ChunkCache) (candidateId minNumSequencesLeft : Z) : Z * Z :=
  match cache with
  | [] => (candidateId, minNumSequencesLeft)
  | (id, ptr) :: cache =>
      match chunks !! ptr with
      | Some chunk =>
          if numSequencesLeft chunk <? minNumSequencesLeft
          then GetChunk_candidate chunks cache id (numSequencesLeft chunk)
          else GetChunk_candidate chunks cache candidateId minNumSequencesLeft
      | None => GetChunk_candidate chunks cache candidateId minNumSequencesLeft
      end
  end.

(** [GetChunk]; it returns the pointer to the chunk. *)
Definition GetChunk (fuel : nat) (chunkId : Z) (parser : TextParser E)
    : Result (TextParser E) nat :=
  match cache_find chunkId (m_chunkCache parser) with
  | Some chunk => Ret chunk parser
  | None =>
      match m_indexer parser, m_file parser with
      | Some indexer, Some file =>
          match GetIndex indexer !! Z.to_nat chunkId with
          | None => Throw Undefined parser
          | Some chunkDescriptor =>
              let textChunk := MkChunk ∅ (chunk_id chunkDescriptor) 0 in
              match attempt m_numRetries
                      (LoadChunk (config parser) BUFFER_SIZE fuel
                                 (m_skipSequenceIds parser) textChunk
                                 chunkDescriptor (state parser)) with
              | OutOfFuel => OutOfFuel
              | Throw e s => Throw e (set_state s parser)
              | Ret textChunk s =>
                  let cache := m_chunkCache parser in
                  let cache :=
                    if (0 <? m_chunkCacheSize parser)
                       && (Z.of_nat (length cache) =? m_chunkCacheSize parser)
                    then
                      let candidateId :=
                        fst (GetChunk_candidate (chunks parser) cache
                                                SIZE_MAX SIZE_MAX) in
                      cache_erase candidateId cache
                    else cache in
                  let ptr := length (chunks parser) in
                  let cache :=
                    if 0 <? m_chunkCacheSize parser
                    then cache_assign chunkId ptr cache
                    else cache in
                  Ret ptr (MkParser (config parser) s (m_file parser)
                             (m_indexer parser) (m_chunkSizeBytes parser)
                             (m_chunkCacheSize parser) cache
                             (m_skipSequenceIds parser)
                             (chunks parser ++ [textChunk]))
              end
          end
      | _, _ => Throw Undefined parser
      end
  end.

(** [TextDataChunk::GetSequence] on the chunk that [chunk] points to: it
    counts the request and yields the buffers of the sequence. *)
Definition GetSequence (chunk : nat) (sequenceId : Z) (parser : TextParser E)
    : Result (TextParser E) (list (InputStreamBuffer E)) :=
  match chunks parser !! chunk with
  | None => Throw Undefined parser
  | Some c =>
      match m_sequenceMap c !! sequenceId with
      | None => Throw Undefined parser
      | Some sequence =>
          let c := MkChunk (m_sequenceMap c) (m_id c)
                           (wrap64 (m_sequenceRequestCount c + 1)) in
          Ret sequence
              (MkParser (config parser) (state parser) (m_file parser)
                 (m_indexer parser) (m_chunkSizeBytes parser)
                 (m_chunkCacheSize parser) (m_chunkCache parser)
                 (m_skipSequenceIds parser) (<[chunk := c]> (chunks parser)))
      end
  end.

End TextParser.

(** ** Numerals

    The strings after which the real number scanner is in one of its states,
    written as the grammar of the input format has them: a mantissa is an
    optional sign and digits, then possibly a period, then possibly digits;
    a numeral is a mantissa, or a mantissa without a bare period followed by
    an exponent marker, an optional sign and digits. *)

Inductive Mantissa :=
| Integral (sign : list char) (d : char) (ds : list char)
| WithPeriod (sign : list char) (d : char) (ds : list char)
| Fractional (sign : list char) (d : char) (ds : list char)
             (f : char) (fs : list char).

Inductive Numeral :=
| Plain (m : Mantissa)
| WithExponent (m : Mantissa) (e : char) (esign : list char)
               (x : char) (xs : list char).

(** The prefixes that still need a digit: nothing or a sign, and a mantissa
    with an exponent marker and possibly its sign. *)
Inductive Malformed :=
| NoDigits (sign : list char)
| NoExponent (m : Mantissa) (e : char) (esign : list char).

Definition opt_sign (sign : list char) : bool :=
  match sign with
  | [] => true
  | [c] => isSign c
  | _ => false
  end.

Definition is_minus (sign : list char) : bool :=
  match sign with
  | [c] => c =? 45
  | _ => false
  end.

Definition all_digits (ds : list char) : bool := forallb isdigit ds.

Definition mantissa_chars (m : Mantissa) : list char :=
  match m with
  | Integral sign d ds => sign ++ d :: ds
  | WithPeriod sign d ds => sign ++ d :: ds ++ [46]
  | Fractional sign d ds f fs => sign ++ d :: ds ++ 46 :: f :: fs
  end.

Definition mantissa_wf (m : Mantissa) : bool :=
  match m with
  | Integral sign d ds | WithPeriod sign d ds =>
      opt_sign sign && isdigit d && all_digits ds
  | Fractional sign d ds f fs =>
      opt_sign sign && isdigit d && all_digits ds && isdigit f && all_digits fs
  end.

Definition takes_exponent (m : Mantissa) : bool :=
  match m with
  | WithPeriod _ _ _ => false
  | _ => true
  end.

Definition numeral_chars (n : Numeral) : list char :=
  match n with
  | Plain m => mantissa_chars m
  | WithExponent m e esign x xs => mantissa_chars m ++ e :: esign ++ x :: xs
  end.

Definition numeral_wf (n : Numeral) : bool :=
  match n with
  | Plain m => mantissa_wf m
  | WithExponent m e esign x xs =>
      mantissa_wf m && takes_exponent m && isE e && opt_sign esign
      && isdigit x && all_digits xs
  end.

(** Whether [c] continues the numeral [n]. *)
Definition extends (n : Numeral) (c : char) : bool :=
  match n with
  | Plain (Integral _ _ _) => isdigit c || (c =? 46) || isE c
  | Plain (WithPeriod _ _ _) => isdigit c
  | Plain (Fractional _ _ _ _ _) => isdigit c || isE c
  | WithExponent _ _ _ _ _ => isdigit c
  end.

Definition malformed_chars (m : Malformed) : list char :=
  match m with
  | NoDigits sign => sign
  | NoExponent m e esign => mantissa_chars m ++ e :: esign
  end.

Definition malformed_wf (m : Malformed) : bool :=
  match m with
  | NoDigits sign => opt_sign sign
  | NoExponent m e esign =>
      mantissa_wf m && takes_exponent m && isE e && opt_sign esign
  end.

(** Whether [c] is what the prefix [m] needs next: a digit, or a sign where
    none was read. *)
Definition continues (m : Malformed) (c : char) : bool :=
  let sign := match m with NoDigits sign => sign | NoExponent _ _ esign => esign end in
  isdigit c || (match sign with [] => isSign c | _ => false end).

Section NumeralValue.

Context {D E : Type} `{RA : RealArith D E}.

(** The digits [ds] added to [number], one [number * 10 + digit] each. *)
Definition accumulate (number : D) (ds : list char) : D :=
  fold_left push_digit ds number.

(** [divider] after the first digit of the fraction and the digits [fs]. *)
Definition divider_of (fs : list char) : D :=
  fold_left (fun divider _ => d_mul divider (d_of_int 10)) fs (d_of_int 10).

Definition mantissa_value (m : Mantissa) : D :=
  match m with
  | Integral sign d ds | WithPeriod sign d ds =>
      signed (is_minus sign) (accumulate (digit_value d) ds)
  | Fractional sign d ds f fs =>
      signed (is_minus sign)
             (d_add (accumulate (digit_value d) ds)
                    (d_div (accumulate (digit_value f) fs) (divider_of fs)))
  end.

(** [coefficient * pow(10.0, exponent)] for a numeral with an exponent. *)
Definition numeral_value (n : Numeral) : D :=
  match n with
  | Plain m => mantissa_value m
  | WithExponent m e esign x xs =>
      d_mul (mantissa_value m)
            (d_pow10 (signed (is_minus esign) (accumulate (digit_value x) xs)))
  end.

End NumeralValue.

(** ** The error budget *)

Definition with_budget (n : N) (s : PState) : PState :=
  {| m_pos := m_pos s; m_numAllowedErrors := n;
     m_hadWarnings := m_hadWarnings s; stderr := stderr s;
     m_window := m_window s |}.

(** [n] hard parse anomalies in a row. *)
Fixpoint hard_anomalies (p : Config) (n : nat) : M unit :=
  match n with
  | O => ret tt
  | S n => IncrementNumberOfErrorsOrDie p;; hard_anomalies p n
  end.

(** [stderr] after [PrintWarningNotification]. *)
Definition with_notification (p : Config) (s : PState) : PState :=
  if m_hadWarnings s && (m_traceLevel p <? Warning)%nat
  then print WarningNotification s else s.

(** ** Specifications *)

(** What holds of a result: [Q] of a value returned with its state, [QE] of
    an exception thrown with its state; running out of fuel is excluded. *)
Definition ensures {St A : Type} (r : Result St A)
    (Q : A -> St -> Prop) (QE : Exn -> St -> Prop) : Prop :=
  match r with
  | Ret a s => Q a s
  | Throw e s => QE e s
  | OutOfFuel => False
  end.

(** The state after [if (ShouldWarn()) fprintf(stderr, ...)]. *)
Definition after_warning (p : Config) (w : Msg) (s : PState) : PState :=
  {| m_pos := m_pos s; m_numAllowedErrors := m_numAllowedErrors s;
     m_hadWarnings := true;
     stderr := if (Warning <=? m_traceLevel p)%nat then stderr s ++ [w]
               else stderr s;
     m_window := m_window s |}.

(** The budget does not grow, the flag of the warnings is not reset and
    nothing is taken back from [stderr]. *)
Definition le_log (s s' : PState) : Prop :=
  (m_numAllowedErrors s' <= m_numAllowedErrors s)%N
  ∧ (m_hadWarnings s = true -> m_hadWarnings s' = true)
  ∧ stderr s `prefix_of` stderr s'.

(** [le_log], and [m_pos] has only moved forward. *)
Definition le_state (s s' : PState) : Prop :=
  m_pos s' `suffix_of` m_pos s ∧ le_log s s'.

(** Whatever a call returns or throws, it leaves [m_window] as it is. *)
Definition keeps_window {A : Type} (s : PState) (r : Result PState A) : Prop :=
  match r with
  | Ret _ s' | Throw _ s' => m_window s' = m_window s
  | OutOfFuel => True
  end.

(** Between [s] and [s'] a warning was due: the flag is set and, when the
    trace level permits, a message was printed. *)
Definition warned (p : Config) (s s' : PState) : Prop :=
  m_hadWarnings s' = true
  ∧ ((Warning <= m_traceLevel p)%nat -> (length (stderr s) < length (stderr s'))%nat).

(** The exception of an exhausted budget. *)
Definition budget_exhausted (p : Config) (e : Exn) : Prop :=
  e = RuntimeError (MaxErrorsMessage (m_filename p)).

(** Whether [TryReadSample] finds the escape sequence [|#]. *)
Definition is_escape (input : list char) (bytesToRead : Z) : bool :=
  match input with
  | c :: c' :: _ =>
      (c =? NAME_PREFIX) && (c' =? ESCAPE_SYMBOL)
      && negb (wrap64 (bytesToRead - 1) =? 0)
  | _ => false
  end.

Definition sum_counts (counts : list Z) : Z := foldr Z.add 0 counts.

(** The invariant of the buffers of the dense streams. *)
Definition dense_invariant {E : Type} (p : Config)
    (sequence : list (InputStreamBuffer E)) : Prop :=
  ∀ id stream data,
    m_streamInfos p !! id = Some stream -> m_type stream = dense ->
    sequence !! id = Some data ->
    length (m_buffer data) = (m_numberOfSamples data * m_sampleDimension stream)%nat.

(** The invariant of the buffers of the sparse streams. *)
Definition sparse_invariant {E : Type} (p : Config)
    (sequence : list (InputStreamBuffer E)) : Prop :=
  ∀ id stream data,
    m_streamInfos p !! id = Some stream -> m_type stream = sparse_csc ->
    sequence !! id = Some data ->
    length (m_buffer data) = length (m_indices data)
    ∧ Z.of_nat (length (m_indices data)) = sum_counts (m_nnzCounts data)
    ∧ sum_counts (m_nnzCounts data) = m_totalNnzCount data
    ∧ length (m_nnzCounts data) = m_numberOfSamples data.

(** What [TryReadSample] has done to the buffers when it returns [true]:
    one sample more in the buffer of one stream, of [sample_dimension]
    values the last [pad] of which are zeros for a dense stream, of as many
    values as indices and their count for a sparse stream. *)
Definition accepted_sample {D E : Type} `{RA : RealArith D E} (p : Config)
    (sequence sequence' : list (InputStreamBuffer E)) : Prop :=
  ∃ id stream data,
    m_streamInfos p !! id = Some stream ∧ sequence !! id = Some data
    ∧ match m_type stream with
      | dense =>
          ∃ read pad,
            (length read + pad = m_sampleDimension stream)%nat
            ∧ sequence' =
              <[id := MkBuffer (S (m_numberOfSamples data))
                        (m_buffer data ++ read ++ replicate pad e_zero)
                        (m_indices data) (m_nnzCounts data)
                        (m_totalNnzCount data)]> sequence
      | sparse_csc =>
          ∃ values indices,
            length values = length indices
            ∧ Forall (λ i, 0 <= i <= Z.of_nat (m_sampleDimension stream)) indices
            ∧ sequence' =
              <[id := MkBuffer (S (m_numberOfSamples data))
                        (m_buffer data ++ values) (m_indices data ++ indices)
                        (m_nnzCounts data ++ [Z.of_nat (length values)])
                        (m_totalNnzCount data + Z.of_nat (length values))]>
                sequence
      end.

(** What [TryReadSample] has done to the state when it returns [false]:
    it has skipped an escape sequence and kept the budget, or it has taken
    from the budget, after a warning unless [m_pos] is on an index
    delimiter. *)
Definition rejected_sample (p : Config) (bytesToRead : Z) (s s' : PState) : Prop :=
  (is_escape (m_pos s) bytesToRead = true
   ∧ m_numAllowedErrors s' = m_numAllowedErrors s)
  ∨ ((m_numAllowedErrors s' < m_numAllowedErrors s)%N
     ∧ (warned p s s' ∨ head (m_pos s') = Some INDEX_DELIMITER)).

(** The buffers are as they were, or the sample was of a sparse stream
    whose values and indices were not of the same number. *)
Definition rolled_back {E : Type} (p : Config)
    (sequence sequence' : list (InputStreamBuffer E)) : Prop :=
  sequence' = sequence
  ∨ ∃ id stream data data',
      m_streamInfos p !! id = Some stream ∧ m_type stream = sparse_csc
      ∧ sequence !! id = Some data
      ∧ length (m_buffer data) ≠ length (m_indices data)
      ∧ sequence' = <[id := data']> sequence.

(** What [LoadSequence] throws: the budget is exhausted, an input is
    empty, the sequence id is not the expected one when it is verified, or
    the behaviour is undefined. *)
Definition load_exception (p : Config) (verifyId : bool) (e : Exn) : Prop :=
  budget_exhausted p e ∨ e = Undefined ∨ e = RuntimeError MalformedMessage
  ∨ (verifyId = true ∧ ∃ id, e = SequenceNotFound id).

(** A stream has more samples than the sequence has rows. *)
Definition has_duplicates {E : Type} (expectedRowCount : nat)
    (sequence : list (InputStreamBuffer E)) : Prop :=
  Exists (λ data, (expectedRowCount < m_numberOfSamples data)%nat) sequence.

(** A byte that [TryReadRow] passes over between samples. *)
Definition is_blank (c : char) : bool :=
  (c =? COLUMN_DELIMITER) || (c =? VALUE_DELIMITER) || (c =? CARRIAGE_RETURN).

(** [rows_read p fuel k sequence b s sequence' b' s']: [k] calls of
    [TryReadRow] in a row, from the buffers [sequence], the bytes to read
    [b] and the state [s], return [true] and leave bytes to read, and the
    last leaves [sequence'], [b'] and [s']. *)
Inductive rows_read {D E : Type} `{RA : RealArith D E} (p : Config) (fuel : nat)
  : nat → list (InputStreamBuffer E) → Z → PState →
    list (InputStreamBuffer E) → Z → PState → Prop :=
| rows_read_O sequence b s : rows_read p fuel 0 sequence b s sequence b s
| rows_read_S k sequence b s sequence1 b1 s1 sequence2 b2 s2 :
    TryReadRow p fuel sequence b s = Ret (true, sequence1, b1) s1 →
    b1 ≠ 0 →
    rows_read p fuel k sequence1 b1 s1 sequence2 b2 s2 →
    rows_read p fuel (S k) sequence b s sequence2 b2 s2.

(** A byte that ends an input name, and one that ends a sample. *)
Definition ends_name (c : char) : bool :=
  (c <=? VALUE_DELIMITER) || (c =? NAME_PREFIX).

Definition ends_sample (c : char) : bool :=
  (c <? VALUE_DELIMITER) || (c =? NAME_PREFIX).

(** The text of a dense sample after the name of its stream: every numeral
    of [items] after one value delimiter and as many more as the item says,
    then [trailing] value delimiters. *)
Fixpoint dense_text (items : list (nat * Numeral)) (trailing : nat) : list char :=
  match items with
  | [] => replicate trailing VALUE_DELIMITER
  | (k, n) :: items =>
      replicate (S k) VALUE_DELIMITER ++ numeral_chars n
        ++ dense_text items trailing
  end.

(** The values of the numerals of [items], in their order. *)
Definition dense_values {D E : Type} `{RA : RealArith D E}
    (items : list (nat * Numeral)) : list E :=
  map (λ item, d_cast (numeral_value item.2)) items.

(** ** Examples

    A parser over the rationals for one or two streams, the state a sequence
    is loaded from, and the descriptors of a file of two chunks of one
    sequence each. *)

Definition line_feed : string := String (Ascii.ascii_of_nat 10) EmptyString.

Definition example_stream (alias : string) (type : StorageType) (dimension : nat)
    : StreamDescriptor :=
  {| m_name := alias; m_alias := bytes_of alias; m_storageType := type;
     sd_sampleDimension := dimension |}.

Definition example_config (traceLevel : nat) (streams : list StreamDescriptor)
    : Config :=
  config (SetTraceLevel traceLevel (TextParser_new (E:=Q) "input.txt" streams)).

Definition example_state (input : string) (budget : N) : PState :=
  {| m_pos := bytes_of input; m_numAllowedErrors := budget;
     m_hadWarnings := false; stderr := [];
     m_window := Reader.opened (bytes_of input) 0 Reader.closed |}.

Definition example_sequence (input : string) (rows : nat) : SequenceDescriptor :=
  {| seq_id := 0; seq_fileOffsetBytes := 0;
     seq_byteSize := Z.of_nat (String.length input);
     seq_numberOfSamples := rows |}.

Definition example_file : string :=
  ("|x 1" ++ line_feed ++ "|x 2" ++ line_feed)%string.

(** A sequence of two rows after its id, the second of them a comment. *)
Definition example_empty_row : string :=
  ("0 |x 1" ++ line_feed ++ "|# note" ++ line_feed)%string.

Definition example_index (file : list char) (hasSequenceIds : bool)
    (chunkSize : Z) : list ChunkDescriptor :=
  [ {| chunk_id := 0;
       chunk_sequences := [ {| seq_id := 0; seq_fileOffsetBytes := 0;
                               seq_byteSize := 5; seq_numberOfSamples := 1 |} ] |};
    {| chunk_id := 1;
       chunk_sequences := [ {| seq_id := 1; seq_fileOffsetBytes := 5;
                               seq_byteSize := 5; seq_numberOfSamples := 1 |} ] |} ].

Definition example_helper (cacheSize : Z) (skip : bool) : TextConfigHelper :=
  {| GetFilePath := "input.txt";
     GetStreams := [example_stream "x" dense 1];
     GetTraceLevel := Warning; GetMaxAllowedErrors := 0;
     GetNumChunksToCache := cacheSize; GetChunkSize := 5;
     ShouldSkipSequenceIds := skip |}.

(** The size of the buffer in the examples: four bytes, so that a row of
    the example file spans two windows. *)
Definition example_buffer : positive := 4.

(** One call after another on the parser. *)
Definition and_then {St A B : Type} (r : Result St A)
    (k : A -> St -> Result St B) : Result St B :=
  match r with
  | Ret a s => k a s
  | Throw e s => Throw e s
  | OutOfFuel => OutOfFuel
  end.

(** A parser with a cache of one chunk asks for chunk 0 and its only
    sequence, once more for chunk 0, which is in the cache, and its sequence,
    and then for chunk 1. *)
Definition example_requests : Result (TextParser Q) nat :=
  and_then (TextParser_of_config (λ _, false) example_index
              (Some (bytes_of example_file)) (example_helper 1 true))
    (λ _ parser,
       and_then (GetChunk (RA:=Q_RealArith) example_buffer 20 0 parser)
         (λ chunk parser,
       and_then (GetSequence chunk 0 parser) (λ _ parser,
       and_then (GetChunk (RA:=Q_RealArith) example_buffer 20 0 parser)
         (λ chunk parser,
       and_then (GetSequence chunk 0 parser) (λ _ parser,
       GetChunk example_buffer 20 1 parser))))).

(** The number that the digits [ds] write after the digits of [value]. *)
Definition decimal (value : Z) (ds : list char) : Z :=
  fold_left (λ v c, v * 10 + (c - 48)) ds value.

(** The entries of the cache whose chunk exists, with [numSequencesLeft]. *)
Definition cached_left {E : Type} (chunks : list (TextDataChunk E))
    (cache : ChunkCache) (id left : Z) : Prop :=
  ∃ ptr chunk, (id, ptr) ∈ cache ∧ chunks !! ptr = Some chunk
               ∧ numSequencesLeft chunk = left.

(** ** Bytes read

    [consumed s s' b b']: between [s] and [s'] the bytes [taken] were read
    from [m_pos], one for each unit taken from [bytesToRead], which went
    from [b] to [b'] and not below zero.  [within s s' b]: at most [b] bytes
    were read. *)
Definition consumed (s s' : PState) (b b' : Z) : Prop :=
  ∃ taken, m_pos s = taken ++ m_pos s'
           ∧ b' = b - Z.of_nat (length taken) ∧ 0 ≤ b'.

Definition within (s s' : PState) (b : Z) : Prop :=
  ∃ taken, m_pos s = taken ++ m_pos s' ∧ Z.of_nat (length taken) ≤ b.

(** A byte that [SkipToNextInput] stops at. *)
Definition starts_input (c : char) : bool :=
  (c =? NAME_PREFIX) || (c =? ROW_DELIMITER).

(** The ids of the alias map are indices of [m_streamInfos]. *)
Definition valid_ids (p : Config) : Prop :=
  ∀ name id, m_aliasToIdMap p !! name = Some id →
             (id < length (m_streamInfos p))%nat.

(** The buffers of a sequence: one for each stream, with the invariants of
    the dense and of the sparse streams. *)
Definition well_formed_sequence {E : Type} (p : Config)
    (sequence : list (InputStreamBuffer E)) : Prop :=
  length sequence = length (m_streamInfos p)
  ∧ dense_invariant p sequence ∧ sparse_invariant p sequence.

(** What [LoadSequence] throws when no behaviour is undefined. *)
Definition sequence_error (p : Config) (verifyId : bool)
    (sequenceDsc : SequenceDescriptor) (e : Exn) : Prop :=
  budget_exhausted p e ∨ e = RuntimeError MalformedMessage
  ∨ (verifyId = true ∧ e = SequenceNotFound (seq_id sequenceDsc)).

(** The bytes [input] start with digits that write [id] modulo [2^64] and a
    delimiter. *)
Definition starts_with_id (input : list char) (id : Z) : Prop :=
  ∃ ds c rest, input = ds ++ c :: rest ∧ ds ≠ [] ∧ all_digits ds = true
               ∧ isDelimiter c = true ∧ id = wrap64 (decimal 0 ds).

(** ** The data of a sequence

    [DenseSequenceData] and [SparseSequenceData] with the members that
    [TextDataChunk::GetSequence] sets; [m_data] and [m_indices], pointers
    into the buffers, are the values they point to, and [m_chunk] is the
    pointer to the chunk. *)
Inductive SequenceData (E : Type) : Type :=
| DenseSequenceData (m_sampleLayout : nat) (m_data : list E)
    (m_numberOfSamples : nat) (m_chunk : nat) (m_id : Z)
| SparseSequenceData (m_indices : list Z) (m_nnzCounts : list Z)
    (m_totalNnzCount : Z) (m_data : list E)
    (m_numberOfSamples : nat) (m_chunk : nat) (m_id : Z).
Arguments DenseSequenceData {E} _ _ _ _ _.
Arguments SparseSequenceData {E} _ _ _ _ _ _ _.

(** The loop of [TextDataChunk::GetSequence] over the streams, from the
    stream [j] on; [None] is the undefined behaviour of [sequenceData[j]]
    out of range.  The constructor gives [m_streams[j]] the sample layout
    [TensorShape(m_sampleDimension)] with the dimension that it gives
    [m_streamInfos[j]], and neither is written again, so the layout is read
    from [m_streamInfos]. *)
Fixpoint GetSequence_streams {E : Type} (streamInfos : list StreamInfo) (j : nat)
    (sequenceData : list (InputStreamBuffer E)) (chunk : nat) (sequenceId : Z)
    (result : list (SequenceData E)) : option (list (SequenceData E)) :=
  match streamInfos with
  | [] => Some result
  | stream :: streamInfos =>
      match sequenceData !! j with
      | None => None
      | Some input =>
          let data :=
            match m_type stream with
            | dense =>
                DenseSequenceData (m_sampleDimension stream) (m_buffer input)
                                  (m_numberOfSamples input) chunk sequenceId
            | sparse_csc =>
                SparseSequenceData (m_indices input) (m_nnzCounts input)
                                   (m_totalNnzCount input) (m_buffer input)
                                   (m_numberOfSamples input) chunk sequenceId
            end in
          GetSequence_streams streamInfos (S j) sequenceData chunk sequenceId
                              (result ++ [data])
      end
  end.

(** [TextDataChunk::GetSequence] with the data it appends to [result]. *)
Definition TextDataChunk_GetSequence {E : Type} (chunk : nat) (sequenceId : Z)
    (result : list (SequenceData E)) (parser : TextParser E)
    : Result (TextParser E) (list (SequenceData E)) :=
  match chunks parser !! chunk with
  | None => Throw Undefined parser
  | Some c =>
      match m_sequenceMap c !! sequenceId with
      | None => Throw Undefined parser
      | Some sequenceData =>
          let c := MkChunk (m_sequenceMap c) (m_id c)
                           (wrap64 (m_sequenceRequestCount c + 1)) in
          let parser :=
            MkParser (config parser) (state parser) (m_file parser)
              (m_indexer parser) (m_chunkSizeBytes parser)
              (m_chunkCacheSize parser) (m_chunkCache parser)
              (m_skipSequenceIds parser) (<[chunk := c]> (chunks parser)) in
          match GetSequence_streams (m_streamInfos (config parser)) 0
                  sequenceData chunk sequenceId result with
          | None => Throw Undefined parser
          | Some result => Ret result parser
          end
      end
  end.

(** The data that [GetSequence] makes of the buffer [input] of a stream is
    consistent: a dense sequence has [m_numberOfSamples] times the sample
    layout values; a sparse one has one count for each sample (the
    assertion of the source), and as many values as indices, their number
    being the sum of the counts and [m_totalNnzCount]. *)
Definition consistent_data {E : Type} (stream : StreamInfo)
    (input : InputStreamBuffer E) (chunk : nat) (sequenceId : Z)
    (data : SequenceData E) : Prop :=
  match m_type stream with
  | dense =>
      data = DenseSequenceData (m_sampleDimension stream) (m_buffer input)
                               (m_numberOfSamples input) chunk sequenceId
      ∧ length (m_buffer input)
        = (m_numberOfSamples input * m_sampleDimension stream)%nat
  | sparse_csc =>
      data = SparseSequenceData (m_indices input) (m_nnzCounts input)
                                (m_totalNnzCount input) (m_buffer input)
                                (m_numberOfSamples input) chunk sequenceId
      ∧ length (m_nnzCounts input) = m_numberOfSamples input
      ∧ length (m_buffer input) = length (m_indices input)
      ∧ Z.of_nat (length (m_indices input)) = sum_counts (m_nnzCounts input)
      ∧ sum_counts (m_nnzCounts input) = m_totalNnzCount input
  end.

(** The sequences of a chunk are those of [sequences], each well formed
    and with a sample of every stream. *)
Definition loaded_chunk {E : Type} (p : Config) (chunk : TextDataChunk E)
    (sequences : list SequenceDescriptor) : Prop :=
  (∀ id, is_Some (m_sequenceMap chunk !! id)
         ↔ ∃ sequenceDsc, sequenceDsc ∈ sequences ∧ seq_id sequenceDsc = id)
  ∧ ∀ id sequence, m_sequenceMap chunk !! id = Some sequence →
      well_formed_sequence p sequence
      ∧ Forall (λ data, (0 < m_numberOfSamples data)%nat) sequence.

(** The byte sizes of the descriptors are [size_t] values. *)
Definition sizes_in_range (sequences : list SequenceDescriptor) : Prop :=
  Forall (λ sequenceDsc, 0 ≤ seq_byteSize sequenceDsc < 2 ^ 64) sequences.

(** ** More examples

    The parser of the example file once it is initialised, and once its
    first chunk is loaded; a window of four bytes on a file of ten. *)
Definition example_parser (cacheSize : Z) : TextParser Q :=
  match TextParser_of_config (λ _, false) example_index
          (Some (bytes_of example_file)) (example_helper cacheSize true) with
  | Ret _ parser => parser
  | _ => TextParser_new "input.txt" []
  end.

Definition example_loaded (cacheSize : Z) : TextParser Q :=
  match GetChunk (RA:=Q_RealArith) example_buffer 20 0
          (example_parser cacheSize) with
  | Ret _ parser => parser
  | _ => example_parser cacheSize
  end.

Definition example_window : Reader.Window :=
  {| Reader.m_file := {| Reader.content := bytes_of "0123456789";
                         Reader.position := 6 |};
     Reader.m_buffer := bytes_of "2345"; Reader.m_pos := 4;
     Reader.m_fileOffsetStart := 2; Reader.m_fileOffsetEnd := 6 |}.

(** Between [s] and [s'] the bytes read from [m_pos] are all of one line:
    none of them is a row delimiter. *)
Definition same_line (s s' : PState) : Prop :=
  ∃ taken, m_pos s = taken ++ m_pos s'
           ∧ Forall (λ c, c ≠ ROW_DELIMITER) taken.

(** From [s] to [s'] the parser read one row: bytes with no row delimiter
    among them, and the row delimiter after them. *)
Definition row_read (s s' : PState) : Prop :=
  ∃ line, m_pos s = line ++ ROW_DELIMITER :: m_pos s'
          ∧ Forall (λ c, c ≠ ROW_DELIMITER) line.

(** The samples that the buffers of a sequence hold, over all the streams. *)
Definition samples {E : Type} (sequence : list (InputStreamBuffer E)) : nat :=
  sum_list (map m_numberOfSamples sequence).

(** The bytes of a comment after its escape sequence: none of them is a name
    prefix or a row delimiter. *)
Definition is_comment (text : list char) : bool :=
  forallb (λ c, negb (starts_input c)) text.

(** The text of comments, each of them after the name prefix and the escape
    symbol. *)
Definition comments_text (comments : list (list char)) : list char :=
  concat (map (λ text, NAME_PREFIX :: ESCAPE_SYMBOL :: text) comments).

(** [LoadSequence] comes to its rows from [s] with [bytesToRead] bytes to
    read in the state [s0]: those of the descriptor in [s] itself when the
    sequence id is not verified, and what [TryReadUint64] leaves after the id
    of the descriptor when it is. *)
Definition rows_start (p : Config) (verifyId : bool)
    (sequenceDsc : SequenceDescriptor) (s : PState) (bytesToRead : Z)
    (s0 : PState) : Prop :=
  if verifyId
  then TryReadUint64 p (seq_byteSize sequenceDsc) s
       = Ret (Some (seq_id sequenceDsc), bytesToRead) s0
  else bytesToRead = seq_byteSize sequenceDsc ∧ s0 = s.

(* ===================================================================== *)
(** * Properties *)
(* ===================================================================== *)

(** ** The error budget *)

Lemma IncrementNumberOfErrorsOrDie_pos p s :
  m_numAllowedErrors s ≠ 0%N →
  IncrementNumberOfErrorsOrDie p s
  = Ret tt (with_budget (N.pred (m_numAllowedErrors s)) s).
Proof.
  intros Hn. unfold IncrementNumberOfErrorsOrDie.
  destruct (N.eqb_spec (m_numAllowedErrors s) 0) as [Heq|_]; [done|done].
Qed.

Lemma IncrementNumberOfErrorsOrDie_zero p s :
  m_numAllowedErrors s = 0%N →
  IncrementNumberOfErrorsOrDie p s
  = Throw (RuntimeError (MaxErrorsMessage (m_filename p))) (with_notification p s).
Proof.
  intros Hn. unfold IncrementNumberOfErrorsOrDie, with_notification.
  rewrite Hn. simpl. unfold bind, PrintWarningNotification, throw.
  by destruct (m_hadWarnings s && (m_traceLevel p <? Warning)%nat).
Qed.

Lemma hard_anomalies_within p k : ∀ n s,
  hard_anomalies p k (with_budget (n + N.of_nat k) s) = Ret tt (with_budget n s).
Proof.
  induction k as [|k IH]; intros n s.
  - simpl. by rewrite N.add_0_r.
  - cbn [hard_anomalies]. unfold bind.
    rewrite IncrementNumberOfErrorsOrDie_pos by (simpl; lia).
    cbn [with_budget m_numAllowedErrors m_pos m_hadWarnings stderr].
    replace (N.pred (n + N.of_nat (S k))) with (n + N.of_nat k)%N by lia.
    apply (IH n s).
Qed.

(** C2.  With the budget set to [n], [n] calls of
    [IncrementNumberOfErrorsOrDie] return and leave the budget at zero (and
    any [k] calls from a budget of [n + k] leave [n]); one more call prints
    the warning notification if one is pending and then throws the
    [RuntimeError] whose text is "Reached the maximum number of allowed
    errors while reading the input file (<name>).". *)
Theorem error_budget_exhaustion (p : Config) (s : PState) (n : N) (k : nat) :
  hard_anomalies p k (with_budget (n + N.of_nat k) s) = Ret tt (with_budget n s)
  ∧ hard_anomalies p (S (N.to_nat n)) (with_budget n s)
    = Throw (RuntimeError
               ("Reached the maximum number of allowed errors while reading the input file ("
                  ++ m_filename p ++ ")."))
            (with_notification p (with_budget 0 s)).
Proof.
  split; [apply hard_anomalies_within|].
  replace (S (N.to_nat n)) with (N.to_nat n + 1)%nat by lia.
  assert (Hsplit : ∀ a b s0, hard_anomalies p (a + b) s0
            = (hard_anomalies p a;; hard_anomalies p b) s0).
  { induction a as [|a IH]; intros b s0; simpl.
    - done.
    - unfold bind in *. by destruct (IncrementNumberOfErrorsOrDie p s0). }
  rewrite Hsplit. unfold bind at 1.
  pose proof (hard_anomalies_within p (N.to_nat n) 0%N s) as H0.
  rewrite N.add_0_l, N2Nat.id in H0. rewrite H0.
  cbn [hard_anomalies]. unfold bind.
  by rewrite IncrementNumberOfErrorsOrDie_zero.
Qed.

(** ** The unsigned integer scanner *)

(** C5.  The overflow test of [TryReadUint64] compares the value before and
    after a digit, and a product that wraps can still be the larger one: the
    twenty digits of 30000000000000000000, which is above [SIZE_MAX], are
    read as 11553255926290448384 and the function returns [true], without a
    warning, with [m_pos] on the delimiter. *)
Theorem TryReadUint64_misses_overflow (p : Config) (s : PState) :
  30000000000000000000 > SIZE_MAX
  ∧ TryReadUint64 p 21 (set_pos (bytes_of "30000000000000000000:") s)
    = Ret (Some 11553255926290448384, 1) (set_pos (bytes_of ":") s).
Proof. split; [done|]. by vm_compute. Qed.

(** ** The sparse index *)

Section SparseIndex.

Context {D E : Type} `{RA : RealArith D E}.

(** C1.  [TryReadSparseSample] rejects an index with [index > sampleSize]:
    for a stream of dimension 10 the pair [10:1] is accepted and the index
    10, which is not below the dimension, is appended to [indices]. *)
Theorem TryReadSparseSample_accepts_dimension (p : Config) (s : PState) :
  TryReadSparseSample p 6 [] [] 10 5 (set_pos (bytes_of "10:1|") s)
  = Ret (true, [d_cast (digit_value 49)], [10], 1) (set_pos (bytes_of "|") s).
Proof. by vm_compute. Qed.

End SparseIndex.

(** ** The real number scanner *)

Lemma isSign_not_digit c : isSign c = true → isdigit c = false.
Proof. unfold isSign, isdigit. lia. Qed.

Lemma isE_not_digit c : isE c = true → isdigit c = false.
Proof. unfold isE, isdigit. lia. Qed.

Lemma opt_sign_cases sign :
  opt_sign sign = true → sign = [] ∨ ∃ c, sign = [c] ∧ isSign c = true.
Proof.
  destruct sign as [|c [|]]; simpl; intros H; [by left| |done].
  right. by exists c.
Qed.

Section RealNumberScanner.

Context {D E : Type} `{RA : RealArith D E}.

Ltac scan_step :=
  cbn [TryReadRealNumber_loop app];
  rewrite (proj2 (Z.eqb_neq _ 0)) by lia.

Ltac reassoc :=
  repeat first [rewrite <- app_assoc | progress (cbn [app mantissa_chars])];
  done.

Lemma loop_IntegralPart_digits ds : ∀ b coefficient number divider negative rest,
  all_digits ds = true → Z.of_nat (length ds) < b →
  TryReadRealNumber_loop (ds ++ rest) b IntegralPart coefficient number divider negative
  = TryReadRealNumber_loop rest (b - Z.of_nat (length ds)) IntegralPart
      coefficient (accumulate number ds) divider negative.
Proof.
  induction ds as [|d ds IH]; intros b co num dv neg rest Hds Hb.
  - simpl. by rewrite Z.sub_0_r.
  - simpl in Hds. apply andb_prop in Hds as [Hd Hds].
    cbn [length] in Hb. scan_step. rewrite Hd.
    rewrite IH by (done || lia). cbn [accumulate fold_left length].
    f_equal. lia.
Qed.

Lemma loop_FractionalPart_digits ds : ∀ b coefficient number divider negative rest,
  all_digits ds = true → Z.of_nat (length ds) < b →
  TryReadRealNumber_loop (ds ++ rest) b FractionalPart coefficient number divider negative
  = TryReadRealNumber_loop rest (b - Z.of_nat (length ds)) FractionalPart
      coefficient (accumulate number ds)
      (fold_left (fun divider _ => d_mul divider (d_of_int 10)) ds divider)
      negative.
Proof.
  induction ds as [|d ds IH]; intros b co num dv neg rest Hds Hb.
  - simpl. by rewrite Z.sub_0_r.
  - simpl in Hds. apply andb_prop in Hds as [Hd Hds].
    cbn [length] in Hb. scan_step. rewrite Hd.
    rewrite IH by (done || lia). cbn [accumulate fold_left length].
    f_equal. lia.
Qed.

Lemma loop_Exponent_digits ds : ∀ b coefficient number divider negative rest,
  all_digits ds = true → Z.of_nat (length ds) < b →
  TryReadRealNumber_loop (ds ++ rest) b Exponent coefficient number divider negative
  = TryReadRealNumber_loop rest (b - Z.of_nat (length ds)) Exponent
      coefficient (accumulate number ds) divider negative.
Proof.
  induction ds as [|d ds IH]; intros b co num dv neg rest Hds Hb.
  - simpl. by rewrite Z.sub_0_r.
  - simpl in Hds. apply andb_prop in Hds as [Hd Hds].
    cbn [length] in Hb. scan_step. rewrite Hd.
    rewrite IH by (done || lia). cbn [accumulate fold_left length].
    f_equal. lia.
Qed.

(** The scanner after an optional sign and the first digit. *)
Lemma scan_sign_digit sign d rest b :
  opt_sign sign = true → isdigit d = true → Z.of_nat (length sign) + 1 < b →
  TryReadRealNumber_scan (E:=E) (sign ++ d :: rest) b
  = TryReadRealNumber_loop rest (b - Z.of_nat (length sign) - 1)
      IntegralPart (d_of_int 0) (digit_value d) (d_of_int 0) (is_minus sign).
Proof.
  intros Hs Hd Hb. unfold TryReadRealNumber_scan.
  destruct (opt_sign_cases _ Hs) as [->|(c & -> & Hc)]; cbn [length] in *.
  - scan_step. rewrite Hd. f_equal; lia.
  - scan_step. rewrite (isSign_not_digit _ Hc), Hc.
    scan_step. rewrite Hd. cbn [is_minus]. f_equal; lia.
Qed.

Lemma scan_Integral sign d ds rest b :
  mantissa_wf (Integral sign d ds) = true →
  Z.of_nat (length (mantissa_chars (Integral sign d ds))) < b →
  TryReadRealNumber_scan (E:=E) (mantissa_chars (Integral sign d ds) ++ rest) b
  = TryReadRealNumber_loop rest
      (b - Z.of_nat (length (mantissa_chars (Integral sign d ds))))
      IntegralPart (d_of_int 0) (accumulate (digit_value d) ds) (d_of_int 0)
      (is_minus sign).
Proof.
  cbn [mantissa_wf mantissa_chars]. intros Hwf Hb.
  apply andb_prop in Hwf as [Hwf Hds]. apply andb_prop in Hwf as [Hs Hd].
  rewrite length_app in *. cbn [length] in *.
  rewrite <- app_assoc. cbn [app].
  rewrite scan_sign_digit by (done || lia).
  rewrite loop_IntegralPart_digits by (done || lia).
  f_equal; lia.
Qed.

Lemma scan_WithPeriod sign d ds rest b :
  mantissa_wf (WithPeriod sign d ds) = true →
  Z.of_nat (length (mantissa_chars (WithPeriod sign d ds))) < b →
  TryReadRealNumber_scan (E:=E) (mantissa_chars (WithPeriod sign d ds) ++ rest) b
  = TryReadRealNumber_loop rest
      (b - Z.of_nat (length (mantissa_chars (WithPeriod sign d ds))))
      Period (d_of_int 0) (accumulate (digit_value d) ds) (d_of_int 0)
      (is_minus sign).
Proof.
  intros Hwf Hb.
  change (mantissa_chars (WithPeriod sign d ds))
    with (sign ++ d :: ds ++ [46]) in *.
  replace ((sign ++ d :: ds ++ [46]) ++ rest)
    with (mantissa_chars (Integral sign d ds) ++ 46 :: rest)
    by reassoc.
  assert (Hlen : length (sign ++ d :: ds ++ [46])
                 = S (length (mantissa_chars (Integral sign d ds)))).
  { cbn [mantissa_chars]. rewrite !length_app. cbn [length].
    rewrite length_app. cbn [length]. lia. }
  rewrite Hlen in *.
  rewrite scan_Integral by (done || lia).
  scan_step. replace (isdigit 46) with false by done. cbn [Z.eqb Pos.eqb].
  f_equal; lia.
Qed.

Lemma scan_Fractional sign d ds f fs rest b :
  mantissa_wf (Fractional sign d ds f fs) = true →
  Z.of_nat (length (mantissa_chars (Fractional sign d ds f fs))) < b →
  TryReadRealNumber_scan (E:=E) (mantissa_chars (Fractional sign d ds f fs) ++ rest) b
  = TryReadRealNumber_loop rest
      (b - Z.of_nat (length (mantissa_chars (Fractional sign d ds f fs))))
      FractionalPart (accumulate (digit_value d) ds)
      (accumulate (digit_value f) fs) (divider_of fs) (is_minus sign).
Proof.
  intros Hwf Hb. cbn [mantissa_wf] in Hwf.
  apply andb_prop in Hwf as [Hwf Hfs]. apply andb_prop in Hwf as [Hwf Hf].
  change (mantissa_chars (Fractional sign d ds f fs))
    with (sign ++ d :: ds ++ 46 :: f :: fs) in *.
  replace ((sign ++ d :: ds ++ 46 :: f :: fs) ++ rest)
    with (mantissa_chars (WithPeriod sign d ds) ++ f :: fs ++ rest)
    by reassoc.
  assert (Hlen : length (sign ++ d :: ds ++ 46 :: f :: fs)
                 = (length (mantissa_chars (WithPeriod sign d ds))
                    + 1 + length fs)%nat).
  { cbn [mantissa_chars]. rewrite !length_app. cbn [length].
    rewrite !length_app. cbn [length]. lia. }
  rewrite Hlen in *.
  rewrite scan_WithPeriod by (done || lia).
  scan_step. rewrite Hf.
  rewrite loop_FractionalPart_digits by (done || lia).
  unfold divider_of. f_equal; lia.
Qed.

(** The scanner from [TheLetterE] over an optional sign and digits. *)
Lemma loop_exponent esign x xs rest b coefficient number divider negative :
  opt_sign esign = true → isdigit x = true → all_digits xs = true →
  Z.of_nat (length (esign ++ x :: xs)) < b →
  TryReadRealNumber_loop (E:=E) (esign ++ x :: xs ++ rest) b TheLetterE
                         coefficient number divider negative
  = TryReadRealNumber_loop rest (b - Z.of_nat (length (esign ++ x :: xs)))
      Exponent coefficient (accumulate (digit_value x) xs) divider
      (is_minus esign).
Proof.
  intros Hs Hx Hxs Hb. rewrite length_app in *. cbn [length] in *.
  destruct (opt_sign_cases _ Hs) as [->|(c & -> & Hc)]; cbn [length] in *.
  - scan_step. rewrite Hx.
    rewrite loop_Exponent_digits by (done || lia). cbn [is_minus].
    f_equal; lia.
  - scan_step. rewrite (isSign_not_digit _ Hc), Hc.
    scan_step. rewrite Hx.
    rewrite loop_Exponent_digits by (done || lia). cbn [is_minus].
    f_equal; lia.
Qed.

Lemma isE_not_period c : isE c = true → (c =? 46) = false.
Proof. unfold isE. lia. Qed.

Lemma loop_exponent_end esign x xs c rest b coefficient number divider negative :
  opt_sign esign = true → isdigit x = true → all_digits xs = true →
  isdigit c = false → Z.of_nat (length (esign ++ x :: xs)) < b →
  TryReadRealNumber_loop (E:=E) (esign ++ x :: xs ++ c :: rest) b TheLetterE
                         coefficient number divider negative
  = MkScan
      (Some (d_cast (d_mul coefficient
         (d_pow10 (signed (is_minus esign) (accumulate (digit_value x) xs))))))
      (c :: rest) (b - Z.of_nat (length (esign ++ x :: xs))) None.
Proof.
  intros Hs Hx Hxs Hc Hb. rewrite loop_exponent by done.
  scan_step. by rewrite Hc.
Qed.

Lemma scan_numeral (n : Numeral) (c : char) (rest : list char) (b : Z) :
  numeral_wf n = true → extends n c = false →
  Z.of_nat (length (numeral_chars n)) < b →
  TryReadRealNumber_scan (E:=E) (numeral_chars n ++ c :: rest) b
  = MkScan (Some (d_cast (numeral_value n))) (c :: rest)
           (b - Z.of_nat (length (numeral_chars n))) None.
Proof.
  intros Hwf Hext Hb. destruct n as [m|m e esign x xs].
  - cbn [numeral_wf numeral_chars numeral_value] in *.
    destruct m as [sign d ds|sign d ds|sign d ds f fs]; cbn [extends] in Hext.
    + apply orb_false_elim in Hext as [Hext HE].
      apply orb_false_elim in Hext as [Hd Hp].
      rewrite scan_Integral by done. scan_step. by rewrite Hd, Hp, HE.
    + rewrite scan_WithPeriod by done. scan_step. by rewrite Hext.
    + apply orb_false_elim in Hext as [Hd HE].
      rewrite scan_Fractional by done. scan_step. by rewrite Hd, HE.
  - cbn [numeral_wf numeral_chars extends numeral_value] in *.
    repeat match goal with
           | H : _ && _ = true |- _ => apply andb_prop in H as [? ?]
           end.
    replace ((mantissa_chars m ++ e :: esign ++ x :: xs) ++ c :: rest)
      with (mantissa_chars m ++ e :: esign ++ x :: xs ++ c :: rest)
      by (repeat first [rewrite <- app_assoc | progress (cbn [app])]; done).
    rewrite length_app in *. cbn [length] in *.
    destruct m as [sign d ds|sign d ds|sign d ds f fs]; [|done|].
    + rewrite scan_Integral by (done || lia). scan_step.
      rewrite (isE_not_digit e), (isE_not_period e) by done.
      replace (isE e) with true by done.
      rewrite loop_exponent_end by (done || lia).
      cbn [mantissa_value]. f_equal; lia.
    + rewrite scan_Fractional by (done || lia). scan_step.
      rewrite (isE_not_digit e) by done.
      replace (isE e) with true by done.
      rewrite loop_exponent_end by (done || lia).
      cbn [mantissa_value]. f_equal; lia.
Qed.

Lemma scan_malformed (m : Malformed) (c : char) (rest : list char) (b : Z) :
  malformed_wf m = true → continues m c = false →
  Z.of_nat (length (malformed_chars m)) < b →
  ∃ w, TryReadRealNumber_scan (E:=E) (malformed_chars m ++ c :: rest) b
       = MkScan None (c :: rest) (b - Z.of_nat (length (malformed_chars m)))
                (Some w).
Proof.
  intros Hwf Hcont Hb. unfold continues in Hcont.
  apply orb_false_elim in Hcont as [Hd Hsign].
  assert (Htail : ∀ sign b' coefficient number divider negative state,
    opt_sign sign = true → Z.of_nat (length sign) < b' →
    match sign with [] => isSign c | _ => false end = false →
    (state = Init ∨ state = TheLetterE) →
    ∃ w, TryReadRealNumber_loop (E:=E) (sign ++ c :: rest) b' state
           coefficient number divider negative
         = MkScan None (c :: rest) (b' - Z.of_nat (length sign)) (Some w)).
  { intros sign b' co num dv neg state Hs Hb' Hc Hstate.
    destruct (opt_sign_cases _ Hs) as [->|(c' & -> & Hc')]; cbn [length] in *.
    - destruct Hstate as [-> | ->]; scan_step; rewrite Hd, Hc;
        eexists; f_equal; lia.
    - destruct Hstate as [-> | ->]; scan_step;
        rewrite (isSign_not_digit c'), Hc' by done;
        scan_step; rewrite Hd; eexists; f_equal; lia. }
  destruct m as [sign|m e esign]; cbn [malformed_wf malformed_chars] in *.
  - unfold TryReadRealNumber_scan. apply Htail; auto.
  - repeat match goal with
           | H : _ && _ = true |- _ => apply andb_prop in H as [? ?]
           end.
    replace ((mantissa_chars m ++ e :: esign) ++ c :: rest)
      with (mantissa_chars m ++ e :: esign ++ c :: rest)
      by (repeat first [rewrite <- app_assoc | progress (cbn [app])]; done).
    rewrite length_app in *. cbn [length] in *.
    destruct m as [sign d ds|sign d ds|sign d ds f fs]; [|done|].
    + rewrite scan_Integral by (done || lia). scan_step.
      rewrite (isE_not_digit e), (isE_not_period e) by done.
      replace (isE e) with true by done.
      edestruct Htail as [w ->]; [done| |done|by right|]; [lia|].
      eexists. f_equal; lia.
    + rewrite scan_Fractional by (done || lia). scan_step.
      rewrite (isE_not_digit e) by done.
      replace (isE e) with true by done.
      edestruct Htail as [w ->]; [done| |done|by right|]; [lia|].
      eexists. f_equal; lia.
Qed.

End RealNumberScanner.

Section RealNumberClaim.

Context {D E : Type} `{RA : RealArith D E}.

(** C4.  After a numeral (digits, digits and a period, digits with a
    fraction, or one of these but the bare period with an exponent) the
    first character that does not continue it makes [TryReadRealNumber]
    return [true] with the accumulated value, [m_pos] on that character and
    [bytesToRead] less the length of the numeral.  After a prefix that still
    needs a digit (nothing, a sign, an exponent marker, an exponent marker
    and a sign) a character that is not one makes it return [false], with a
    warning due.  A period after the digits of the integral part needs no
    digit. *)
Theorem TryReadRealNumber_terminator (p : Config) (s : PState) (c : char)
    (rest : list char) (bytesToRead : Z) :
  (∀ n : Numeral,
     numeral_wf n = true → extends n c = false →
     m_pos s = numeral_chars n ++ c :: rest →
     Z.of_nat (length (numeral_chars n)) < bytesToRead →
     TryReadRealNumber p bytesToRead s
     = Ret (Some (d_cast (numeral_value n)),
            bytesToRead - Z.of_nat (length (numeral_chars n)))
           (set_pos (c :: rest) s))
  ∧ (∀ m : Malformed,
       malformed_wf m = true → continues m c = false →
       m_pos s = malformed_chars m ++ c :: rest →
       Z.of_nat (length (malformed_chars m)) < bytesToRead →
       ∃ s', TryReadRealNumber (E:=E) p bytesToRead s
             = Ret (None, bytesToRead - Z.of_nat (length (malformed_chars m))) s'
             ∧ m_pos s' = c :: rest ∧ m_hadWarnings s' = true).
Proof.
  split.
  - intros n Hwf Hext Hpos Hb.
    unfold TryReadRealNumber, run_scan. rewrite Hpos, scan_numeral by done.
    done.
  - intros m Hwf Hcont Hpos Hb.
    unfold TryReadRealNumber, run_scan. rewrite Hpos.
    destruct (scan_malformed (E:=E) m c rest bytesToRead Hwf Hcont Hb) as [w ->].
    cbn [sc_rest sc_warning sc_result sc_bytes].
    unfold bind, modify, warn, bind, ShouldWarn, ret, modify.
    destruct (Warning <=? m_traceLevel p)%nat; eexists; split; done.
Qed.

End RealNumberClaim.

(** The numeral [-1.5e2] before a space, and the bare sign [-] before a
    space. *)
Lemma TryReadRealNumber_terminator_witness :
  let p := {| m_filename := "f"; m_streamInfos := []; m_aliasToIdMap := ∅;
              m_maxAliasLength := 0; m_traceLevel := Warning |} in
  let s input := {| m_pos := bytes_of input; m_numAllowedErrors := 0;
                    m_hadWarnings := false; stderr := [];
                    m_window := Reader.opened (bytes_of input) 0 Reader.closed |} in
  TryReadRealNumber (RA:=Q_RealArith) p 10 (s "-1.5e2 7"%string)
  = Ret (Some (-150)%Q, 4) (set_pos (bytes_of " 7") (s "-1.5e2 7"%string))
  ∧ ∃ s', TryReadRealNumber (RA:=Q_RealArith) p 10 (s "- 7"%string) = Ret (None, 9) s'
          ∧ m_pos s' = bytes_of " 7" ∧ m_hadWarnings s' = true.
Proof.
  intros p s. split.
  - apply (proj1 (TryReadRealNumber_terminator (RA:=Q_RealArith) p
                    (s "-1.5e2 7"%string) 32 (bytes_of "7") 10)
             (WithExponent (Fractional [45] 49 [] 53 []) 101 [] 50 []));
      reflexivity.
  - apply (proj2 (TryReadRealNumber_terminator (RA:=Q_RealArith) p
                    (s "- 7"%string) 32 (bytes_of "7") 10)
             (NoDigits [45])); reflexivity.
Defined.

(** C4, as the spec has it, fails for the period state: after [1.] the
    byte [x] is not a digit, and [TryReadRealNumber] returns [true] with the
    value 1, no warning, and [m_pos] on the [x]. *)
Lemma TryReadRealNumber_period_without_digit :
  TryReadRealNumber (RA:=Q_RealArith)
    (example_config Warning [example_stream "x" dense 1]) 3
    (example_state "1.x" 0)
  = Ret (Some 1%Q, 1) (set_pos (bytes_of "x") (example_state "1.x" 0)).
Proof. by vm_compute. Qed.

(** ** Reasoning about results *)

Ltac state_simpl :=
  cbn [m_pos m_numAllowedErrors m_hadWarnings stderr
       set_pos print after_warning with_budget] in *.

Lemma ensures_bind {A B} (m : M A) (k : A → M B) s Q QE :
  ensures (m s) (λ a s', ensures (k a s') Q QE) QE → ensures (bind m k s) Q QE.
Proof. unfold bind. by destruct (m s). Qed.

Lemma ensures_mono {St A} (r : Result St A) (Q Q' : A → St → Prop)
    (QE QE' : Exn → St → Prop) :
  ensures r Q QE → (∀ a s, Q a s → Q' a s) → (∀ e s, QE e s → QE' e s) →
  ensures r Q' QE'.
Proof. destruct r; simpl; auto. Qed.

Lemma ensures_ret {A} (a : A) s (Q : A → PState → Prop) QE :
  Q a s → ensures (ret a s) Q QE.
Proof. done. Qed.

Lemma warn_eq p w s : warn p w s = Ret tt (after_warning p w s).
Proof.
  unfold warn, bind, ShouldWarn, after_warning.
  by destruct (Warning <=? m_traceLevel p)%nat.
Qed.

Lemma run_scan_eq {A} p (scan : list char → Scan A) s :
  run_scan p scan s
  = Ret (sc_result (scan (m_pos s)), sc_bytes (scan (m_pos s)))
        (match sc_warning (scan (m_pos s)) with
         | Some w => after_warning p w (set_pos (sc_rest (scan (m_pos s))) s)
         | None => set_pos (sc_rest (scan (m_pos s))) s
         end).
Proof.
  unfold run_scan, bind, modify. destruct (sc_warning (scan (m_pos s))).
  - by rewrite warn_eq.
  - done.
Qed.

Lemma le_log_refl s : le_log s s.
Proof. unfold le_log. split; [lia|]. split; [done|]. done. Qed.

Lemma le_log_trans s1 s2 s3 : le_log s1 s2 → le_log s2 s3 → le_log s1 s3.
Proof.
  intros (?&?&?) (?&?&?). split; [lia|]. split; [auto|]. by etrans.
Qed.

Lemma le_state_refl s : le_state s s.
Proof. split; [done|apply le_log_refl]. Qed.

Lemma le_state_trans s1 s2 s3 : le_state s1 s2 → le_state s2 s3 → le_state s1 s3.
Proof.
  intros [? ?] [? ?]. split; [by etrans|by eapply le_log_trans].
Qed.

Lemma le_state_length s s' : le_state s s' → (length (m_pos s') ≤ length (m_pos s))%nat.
Proof. intros [[k ->] _]. rewrite length_app. lia. Qed.

Lemma le_log_set_pos input s : le_log s (set_pos input s).
Proof. unfold le_log. state_simpl. split; [lia|done]. Qed.

Lemma le_log_after_warning p w s : le_log s (after_warning p w s).
Proof.
  unfold le_log. state_simpl. split; [lia|]. split; [done|].
  destruct (Warning <=? m_traceLevel p)%nat; [by apply prefix_app_r|done].
Qed.

Lemma le_log_print w s : le_log s (print w s).
Proof.
  unfold le_log. state_simpl. split; [lia|]. split; [done|by apply prefix_app_r].
Qed.

Lemma le_log_with_notification p s : le_log s (with_notification p s).
Proof.
  unfold with_notification.
  destruct (_ && _); [apply le_log_print|apply le_log_refl].
Qed.

Lemma le_log_pred s :
  le_log s (with_budget (N.pred (m_numAllowedErrors s)) s).
Proof. unfold le_log. state_simpl. split; [lia|done]. Qed.

Lemma le_state_set_pos input s :
  input `suffix_of` m_pos s → le_state s (set_pos input s).
Proof. intros. split; [done|apply le_log_set_pos]. Qed.

Lemma le_state_same_pos s s' : m_pos s' = m_pos s → le_log s s' → le_state s s'.
Proof. intros Hp ?. split; [by rewrite Hp|done]. Qed.

Lemma warned_after_warning p w s : warned p s (after_warning p w s).
Proof.
  split; [done|]. intros Hl. state_simpl.
  apply Nat.leb_le in Hl. rewrite Hl, length_app. cbn [length]. lia.
Qed.

Lemma warned_le_log_r p s1 s2 s3 : warned p s1 s2 → le_log s2 s3 → warned p s1 s3.
Proof.
  intros [Hw Hl] (_&Hh&Hp). split; [auto|]. intros Hlvl.
  apply prefix_length in Hp. specialize (Hl Hlvl). lia.
Qed.

Lemma warned_le_log_l p s1 s2 s3 : le_log s1 s2 → warned p s2 s3 → warned p s1 s3.
Proof.
  intros (_&_&Hp) [Hw Hl]. split; [auto|]. intros Hlvl.
  apply prefix_length in Hp. specialize (Hl Hlvl). lia.
Qed.

(** [IncrementNumberOfErrorsOrDie] either takes one from the budget or
    throws. *)
Lemma IncrementNumberOfErrorsOrDie_spec p s :
  ensures (IncrementNumberOfErrorsOrDie p s)
    (λ _ s', s' = with_budget (N.pred (m_numAllowedErrors s)) s
             ∧ m_numAllowedErrors s ≠ 0%N)
    (λ e s', budget_exhausted p e ∧ s' = with_notification p s
             ∧ m_numAllowedErrors s = 0%N).
Proof.
  destruct (N.eq_dec (m_numAllowedErrors s) 0%N) as [H0|H0].
  - by rewrite IncrementNumberOfErrorsOrDie_zero.
  - by rewrite IncrementNumberOfErrorsOrDie_pos.
Qed.

(** ** What the scanners leave *)

Ltac destruct_ifs :=
  repeat match goal with
         | |- context [if ?x then _ else _] =>
             match type of x with bool => destruct x end
         end.

Lemma suffix_length_lt {A} (x : A) l1 l2 :
  l1 `suffix_of` l2 → (length l1 < length (x :: l2))%nat.
Proof. intros H. apply suffix_length in H. simpl. lia. Qed.

Section ScannerFacts.

Context {D E : Type} `{RA : RealArith D E}.

Lemma TryReadRealNumber_loop_suffix input : ∀ b state co num dv neg,
  sc_rest (TryReadRealNumber_loop (E:=E) input b state co num dv neg)
  `suffix_of` input.
Proof.
  induction input as [|c rest IH]; intros b state co num dv neg;
    cbn [TryReadRealNumber_loop].
  - by destruct (b =? 0).
  - destruct (b =? 0); [done|].
    destruct state;
      destruct_ifs;
      cbn [sc_rest]; try done; by apply suffix_cons_r.
Qed.

Lemma TryReadRealNumber_loop_warning input : ∀ b state co num dv neg,
  match sc_result (TryReadRealNumber_loop (E:=E) input b state co num dv neg) with
  | Some _ => sc_warning (TryReadRealNumber_loop (E:=E) input b state co num dv neg) = None
  | None => is_Some (sc_warning (TryReadRealNumber_loop (E:=E) input b state co num dv neg))
  end.
Proof.
  induction input as [|c rest IH]; intros b state co num dv neg;
    cbn [TryReadRealNumber_loop].
  - destruct (b =? 0); cbn [sc_result sc_warning]; by eexists.
  - destruct (b =? 0); [cbn [sc_result sc_warning]; by eexists|].
    destruct state;
      destruct_ifs;
      cbn [sc_result sc_warning]; first [done | by eexists | apply IH].
Qed.

(** A real number that was read took at least one byte. *)
Lemma TryReadRealNumber_scan_Some input b v :
  sc_result (TryReadRealNumber_scan (E:=E) input b) = Some v →
  ∃ c rest, input = c :: rest
            ∧ sc_rest (TryReadRealNumber_scan (E:=E) input b) `suffix_of` rest.
Proof.
  unfold TryReadRealNumber_scan. destruct input as [|c rest];
    cbn [TryReadRealNumber_loop].
  - by destruct (b =? 0).
  - destruct (b =? 0); [done|]. intros Hv. exists c, rest. split; [done|].
    revert Hv.
    destruct_ifs; cbn [sc_result]; try done; intros _;
      apply TryReadRealNumber_loop_suffix.
Qed.

Lemma TryReadUint64_loop_suffix input : ∀ b value found,
  sc_rest (TryReadUint64_loop input b value found) `suffix_of` input.
Proof.
  induction input as [|c rest IH]; intros b value found; cbn [TryReadUint64_loop].
  - by destruct (b =? 0).
  - destruct (b =? 0); [done|].
    destruct_ifs; cbn [sc_rest negb]; try done.
    apply suffix_cons_r, IH.
Qed.

Lemma wrap64_range z : 0 ≤ wrap64 z < 2 ^ 64.
Proof. unfold wrap64. apply Z.mod_pos_bound. lia. Qed.

Lemma TryReadUint64_loop_range input : ∀ b value found v,
  0 ≤ value < 2 ^ 64 →
  sc_result (TryReadUint64_loop input b value found) = Some v → 0 ≤ v < 2 ^ 64.
Proof.
  induction input as [|c rest IH]; intros b value found v Hvalue;
    cbn [TryReadUint64_loop].
  - by destruct (b =? 0).
  - destruct (b =? 0); [done|].
    destruct (isdigit c); cbn [negb].
    + destruct (_ >? _); [done|]. apply IH, wrap64_range.
    + destruct (isDelimiter c); [|done]. destruct found; [|done].
      cbn [sc_result]. by intros [= <-].
Qed.

(** What [TryReadUint64] has found when it returns [true]: [m_pos] is on a
    delimiter, a digit was read if none had been, and the value is a
    [size_t]. *)
Lemma TryReadUint64_loop_Some input : ∀ b value found v,
  sc_result (TryReadUint64_loop input b value found) = Some v →
  (∃ c rest, sc_rest (TryReadUint64_loop input b value found) = c :: rest
             ∧ isDelimiter c = true)
  ∧ sc_warning (TryReadUint64_loop input b value found) = None
  ∧ (found = false →
     (length (sc_rest (TryReadUint64_loop input b value found)) < length input)%nat
     ∧ 0 ≤ v < 2 ^ 64).
Proof.
  induction input as [|c rest IH]; intros b value found v;
    cbn [TryReadUint64_loop].
  - by destruct (b =? 0).
  - destruct (b =? 0); [done|].
    destruct (isdigit c); cbn [negb].
    + destruct (_ >? _); [done|]. intros Hv.
      destruct (IH _ _ _ _ Hv) as (Hd & Hw & _). split; [done|]. split; [done|].
      intros _. split.
      * apply suffix_length_lt, TryReadUint64_loop_suffix.
      * eapply TryReadUint64_loop_range; [apply wrap64_range|exact Hv].
    + destruct (isDelimiter c) eqn:Hdel; [|done]. cbn [sc_result sc_rest sc_warning].
      destruct found; [|done]. intros _. split; [by exists c, rest|]. done.
Qed.

(** When [TryReadUint64] returns [false] without a warning, [m_pos] has not
    moved and is on a delimiter. *)
Lemma TryReadUint64_scan_None input b :
  sc_result (TryReadUint64_scan input b) = None →
  is_Some (sc_warning (TryReadUint64_scan input b))
  ∨ ∃ c rest, input = c :: rest ∧ isDelimiter c = true
              ∧ sc_rest (TryReadUint64_scan input b) = input.
Proof.
  unfold TryReadUint64_scan.
  assert (Hfound : ∀ input b value,
    sc_result (TryReadUint64_loop input b value true) = None →
    is_Some (sc_warning (TryReadUint64_loop input b value true))).
  { clear. induction input as [|c rest IH]; intros b value;
      cbn [TryReadUint64_loop].
    - destruct (b =? 0); by eexists.
    - destruct (b =? 0); [by eexists|].
      destruct (isdigit c); cbn [negb].
      + destruct (_ >? _); [by eexists|]. apply IH.
      + destruct (isDelimiter c); [done|by eexists]. }
  destruct input as [|c rest]; cbn [TryReadUint64_loop].
  - destruct (b =? 0); left; by eexists.
  - destruct (b =? 0); [left; by eexists|].
    destruct (isdigit c); cbn [negb].
    + destruct (_ >? _); [left; by eexists|]. intros H. left. by apply Hfound.
    + destruct (isDelimiter c) eqn:Hdel; [|left; by eexists].
      intros _. right. by exists c, rest.
Qed.

Lemma TryGetInputId_loop_suffix aliasToIdMap maxAliasLength input : ∀ b scratch,
  sc_rest (TryGetInputId_loop aliasToIdMap maxAliasLength input b scratch)
  `suffix_of` input.
Proof.
  induction input as [|c rest IH]; intros b scratch; cbn [TryGetInputId_loop].
  - by destruct (b =? 0).
  - destruct (b =? 0); [done|].
    destruct (_ || _).
    + destruct scratch; [done|]. by destruct (aliasToIdMap !! _).
    + destruct (_ <? _)%nat; [|done]. apply suffix_cons_r, IH.
Qed.

(** [TryGetInputId] returns [true] with an id of the alias map and [false]
    with a warning. *)
Lemma TryGetInputId_loop_result aliasToIdMap maxAliasLength input : ∀ b scratch,
  match sc_result (TryGetInputId_loop aliasToIdMap maxAliasLength input b scratch) with
  | Some id => ∃ name, aliasToIdMap !! name = Some id
  | None => is_Some (sc_warning
               (TryGetInputId_loop aliasToIdMap maxAliasLength input b scratch))
  end.
Proof.
  induction input as [|c rest IH]; intros b scratch; cbn [TryGetInputId_loop].
  - destruct (b =? 0); by eexists.
  - destruct (b =? 0); [by eexists|].
    destruct (_ || _).
    + destruct scratch as [|x scratch]; [by eexists|].
      destruct (aliasToIdMap !! _) eqn:Hl; cbn [sc_result sc_warning];
        by eexists.
    + destruct (_ <? _)%nat; [|by eexists]. apply IH.
Qed.

Lemma SkipToNextInput_scan_suffix input : ∀ b,
  fst (SkipToNextInput_scan input b) `suffix_of` input.
Proof.
  induction input as [|c rest IH]; intros b; cbn [SkipToNextInput_scan].
  - by destruct (b =? 0).
  - destruct (b =? 0); [done|]. destruct (_ || _); [done|].
    apply suffix_cons_r, IH.
Qed.

Lemma SkipSequenceId_scan_suffix input : ∀ b,
  fst (SkipSequenceId_scan input b) `suffix_of` input.
Proof.
  induction input as [|c rest IH]; intros b; cbn [SkipSequenceId_scan].
  - by destruct (b =? 0).
  - destruct (b =? 0); [done|]. destruct (isdigit c); [|done].
    apply suffix_cons_r, IH.
Qed.

End ScannerFacts.

(** ** Dense and sparse samples *)

Lemma bind_Ret {A B} (m : M A) (k : A → M B) s a s' :
  m s = Ret a s' → bind m k s = k a s'.
Proof. unfold bind. by intros ->. Qed.

Lemma bind_Throw {A B} (m : M A) (k : A → M B) s e s' :
  m s = Throw e s' → bind m k s = Throw e s'.
Proof. unfold bind. by intros ->. Qed.

Section Samples.

Context {D E : Type} `{RA : RealArith D E}.
Variable p : Config.

(** The state after a scanner has run. *)
Lemma run_scan_le_state {A} (scan : list char → Scan A) s :
  sc_rest (scan (m_pos s)) `suffix_of` m_pos s →
  le_state s (match sc_warning (scan (m_pos s)) with
              | Some w => after_warning p w (set_pos (sc_rest (scan (m_pos s))) s)
              | None => set_pos (sc_rest (scan (m_pos s))) s
              end).
Proof.
  intros Hs. destruct (sc_warning _).
  - split; [done|]. eapply le_log_trans; [apply le_log_set_pos|].
    apply le_log_after_warning.
  - by apply le_state_set_pos.
Qed.

(** The end of a loop whose input is exhausted after
    [IncrementNumberOfErrorsOrDie] and a warning. *)
Lemma ensures_exhausted {A} (w : Msg) (a : A) s (Q : A → PState → Prop) :
  (∀ s', le_state s s' → warned p s s' → Q a s') →
  ensures ((IncrementNumberOfErrorsOrDie p;; warn p w;; ret a) s) Q
          (λ e s', le_state s s' ∧ budget_exhausted p e).
Proof.
  intros HQ. apply ensures_bind.
  eapply ensures_mono; [apply IncrementNumberOfErrorsOrDie_spec| |].
  - intros _ s1 [-> _]. apply ensures_bind. rewrite warn_eq. simpl.
    apply HQ.
    + apply le_state_same_pos; [done|].
      eapply le_log_trans; [apply le_log_pred|apply le_log_after_warning].
    + eapply warned_le_log_l; [apply le_log_pred|apply warned_after_warning].
  - intros e s1 (He & -> & _). split; [|done].
    apply le_state_same_pos; [|apply le_log_with_notification].
    unfold with_notification. by destruct (_ && _).
Qed.

Lemma TryReadDenseSample_loop_spec fuel : ∀ values sampleSize counter b s,
  (length (m_pos s) < fuel)%nat →
  ensures (TryReadDenseSample_loop p fuel values sampleSize counter b s)
    (λ r s',
       le_state s s'
       ∧ ∃ read pad, r.1.2 = values ++ read ++ replicate pad e_zero
           ∧ if r.1.1 then (counter + length read + pad = sampleSize)%nat
             else pad = 0%nat ∧ warned p s s')
    (λ e s', le_state s s' ∧ budget_exhausted p e).
Proof.
  induction fuel as [|fuel IH]; intros values sampleSize counter b s Hfuel;
    [lia|].
  cbn [TryReadDenseSample_loop].
  assert (Hexh : ensures
    ((IncrementNumberOfErrorsOrDie p;; warn p W_DenseExhausted;;
      ret (false, values, b)) s)
    (λ r s', le_state s s'
       ∧ ∃ read pad, r.1.2 = values ++ read ++ replicate pad e_zero
           ∧ if r.1.1 then (counter + length read + pad = sampleSize)%nat
             else pad = 0%nat ∧ warned p s s')
    (λ e s', le_state s s' ∧ budget_exhausted p e)).
  { apply ensures_exhausted. intros s' Hle Hw. split; [done|].
    exists [], 0%nat. cbn. by rewrite app_nil_r. }
  destruct (b =? 0); [done|].
  destruct (m_pos s) as [|c rest] eqn:Hpos; [done|].
  destruct (_ || _).
  - destruct (sampleSize <? counter)%nat eqn:Hgt.
    + apply ensures_bind. rewrite warn_eq. simpl. split.
      * apply le_state_same_pos; [done|apply le_log_after_warning].
      * exists [], 0%nat. cbn. rewrite app_nil_r. split; [done|].
        split; [done|apply warned_after_warning].
    + destruct (counter <? sampleSize)%nat eqn:Hlt.
      * apply ensures_bind. rewrite warn_eq. simpl. split.
        -- apply le_state_same_pos; [done|apply le_log_after_warning].
        -- exists [], (sampleSize - counter)%nat. cbn. split; [done|].
           apply Nat.ltb_lt in Hlt. lia.
      * simpl. split; [apply le_state_refl|].
        exists [], 0%nat. cbn. rewrite app_nil_r. split; [done|].
        apply Nat.ltb_ge in Hgt, Hlt. lia.
  - destruct (c =? VALUE_DELIMITER).
    + eapply ensures_mono; [apply IH| |].
      * cbn [m_pos set_pos]. cbn [length] in Hfuel. lia.
      * intros r s' (Hle & read & pad & Hv & Hok). split.
        -- eapply le_state_trans; [|exact Hle].
           apply le_state_set_pos. rewrite Hpos. by apply suffix_cons_r.
        -- exists read, pad. split; [done|].
           destruct r.1.1; [done|]. destruct Hok as [? Hw]. split; [done|].
           eapply warned_le_log_l; [apply le_log_set_pos|exact Hw].
      * intros e s' [Hle He]. split; [|done].
        eapply le_state_trans; [|exact Hle].
        apply le_state_set_pos. rewrite Hpos. by apply suffix_cons_r.
    + unfold TryReadRealNumber.
      erewrite bind_Ret by apply run_scan_eq. rewrite Hpos.
      pose proof (TryReadRealNumber_loop_suffix (E:=E) (c :: rest) b Init
                    (d_of_int 0) (d_of_int 0) (d_of_int 0) false) as Hsuf.
      pose proof (TryReadRealNumber_loop_warning (E:=E) (c :: rest) b Init
                    (d_of_int 0) (d_of_int 0) (d_of_int 0) false) as Hwarn.
      pose proof (TryReadRealNumber_scan_Some (E:=E) (c :: rest) b) as Hsome.
      fold (TryReadRealNumber_scan (E:=E) (c :: rest) b) in Hsuf, Hwarn.
      destruct (TryReadRealNumber_scan (E:=E) (c :: rest) b)
        as [[value|] rest' b' w]; cbn [sc_result sc_rest sc_bytes sc_warning] in *.
      * subst w. destruct (Hsome _ eq_refl) as (c0 & rest0 & [= <- <-] & Hrest).
        eapply ensures_mono; [apply IH| |].
        -- cbn [m_pos set_pos]. apply suffix_length in Hrest.
           cbn [length] in Hfuel. lia.
        -- intros r s' (Hle & read & pad & Hv & Hok). split.
           ++ eapply le_state_trans; [|exact Hle].
              apply le_state_set_pos. by rewrite Hpos.
           ++ exists (value :: read), pad. split.
              { rewrite Hv. by rewrite <- app_assoc. }
              destruct r.1.1; [cbn [length]; lia|].
              destruct Hok as [? Hw]. split; [done|].
              eapply warned_le_log_l; [apply le_log_set_pos|exact Hw].
        -- intros e s' [Hle He]. split; [|done].
           eapply le_state_trans; [|exact Hle].
           apply le_state_set_pos. by rewrite Hpos.
      * destruct Hwarn as [w' ->]. simpl. split.
        -- split; [by rewrite Hpos|].
           eapply le_log_trans; [apply le_log_set_pos|apply le_log_after_warning].
        -- exists [], 0%nat. cbn. rewrite app_nil_r. split; [done|].
           split; [done|].
           eapply warned_le_log_l; [apply le_log_set_pos|apply warned_after_warning].
Qed.

Lemma ensures_warn_ret {A} (w : Msg) (a : A) s Q QE :
  Q a (after_warning p w s) → ensures ((warn p w;; ret a) s) Q QE.
Proof. intros HQ. unfold bind. by rewrite warn_eq. Qed.

Lemma sparse_silent_delimiter c :
  (c <? VALUE_DELIMITER) || (c =? NAME_PREFIX) = false →
  (c =? VALUE_DELIMITER) = false → isDelimiter c = true → c = INDEX_DELIMITER.
Proof.
  unfold isDelimiter, VALUE_DELIMITER, NAME_PREFIX, COLUMN_DELIMITER,
    INDEX_DELIMITER, ROW_DELIMITER, CARRIAGE_RETURN. lia.
Qed.

Lemma TryReadSparseSample_spec fuel : ∀ values indices sampleSize b s,
  (length (m_pos s) < fuel)%nat →
  ensures (TryReadSparseSample p fuel values indices sampleSize b s)
    (λ r s',
       le_state s s'
       ∧ ∃ vs ixs, r.1.1.2 = values ++ vs ∧ r.1.2 = indices ++ ixs
           ∧ length vs = length ixs
           ∧ Forall (λ i, 0 ≤ i ≤ Z.of_nat sampleSize) ixs
           ∧ (r.1.1.1 = false →
              warned p s s' ∨ head (m_pos s') = Some INDEX_DELIMITER))
    (λ e s', False).
Proof.
  induction fuel as [|fuel IH]; intros values indices sampleSize b s Hfuel;
    [lia|].
  cbn [TryReadSparseSample].
  assert (Hnil : ∀ s', le_state s s' →
            (warned p s s' ∨ head (m_pos s') = Some INDEX_DELIMITER) →
            le_state s s'
            ∧ ∃ vs ixs, values = values ++ vs ∧ indices = indices ++ ixs
                ∧ length vs = length ixs
                ∧ Forall (λ i, 0 ≤ i ≤ Z.of_nat sampleSize) ixs
                ∧ (false = false →
                   warned p s s' ∨ head (m_pos s') = Some INDEX_DELIMITER)).
  { intros s' Hle Hw. split; [done|]. exists [], [].
    rewrite !app_nil_r. by repeat split. }
  assert (Hexh : ensures
    ((warn p W_SparseExhausted;; ret (false, values, indices, b)) s)
    (λ r s', le_state s s'
       ∧ ∃ vs ixs, r.1.1.2 = values ++ vs ∧ r.1.2 = indices ++ ixs
           ∧ length vs = length ixs
           ∧ Forall (λ i, 0 ≤ i ≤ Z.of_nat sampleSize) ixs
           ∧ (r.1.1.1 = false →
              warned p s s' ∨ head (m_pos s') = Some INDEX_DELIMITER))
    (λ e s', False)).
  { apply ensures_warn_ret, Hnil.
    - apply le_state_same_pos; [done|apply le_log_after_warning].
    - left. apply warned_after_warning. }
  destruct (b =? 0); [done|].
  destruct (m_pos s) as [|c rest] eqn:Hpos; [done|].
  destruct (_ || _) eqn:Hterm.
  { cbn. split; [apply le_state_refl|]. exists [], [].
    rewrite !app_nil_r. by repeat split. }
  destruct (c =? VALUE_DELIMITER) eqn:Hvd.
  { eapply ensures_mono; [apply IH| |done].
    - cbn [m_pos set_pos]. cbn [length] in Hfuel. lia.
    - intros r s' (Hle & vs & ixs & Hv & Hi & Hlen & Hall & Hok). split.
      + eapply le_state_trans; [|exact Hle].
        apply le_state_set_pos. rewrite Hpos. by apply suffix_cons_r.
      + exists vs, ixs. by repeat split. }
  unfold TryReadUint64.
  erewrite bind_Ret by apply run_scan_eq. rewrite Hpos.
  pose proof (TryReadUint64_loop_suffix (c :: rest) b 0 false) as Hsuf.
  pose proof (TryReadUint64_loop_Some (c :: rest) b 0 false) as Hsome.
  pose proof (TryReadUint64_scan_None (c :: rest) b) as Hnone.
  fold (TryReadUint64_scan (c :: rest) b) in Hsuf, Hsome.
  destruct (TryReadUint64_scan (c :: rest) b) as [[index|] rest' b' w];
    cbn [sc_result sc_rest sc_bytes sc_warning] in *.
  - clear Hnone.
    destruct (Hsome _ eq_refl) as ((c1 & rest1 & -> & Hdel) & -> & Hfound).
    destruct (Hfound eq_refl) as [Hshort Hrange]. clear Hsome Hfound.
    assert (Hle1 : le_state s (set_pos (c1 :: rest1) s)).
    { apply le_state_set_pos. by rewrite Hpos. }
    destruct (index >? Z.of_nat sampleSize) eqn:Hindex.
    { apply ensures_warn_ret, Hnil.
      - split; [by rewrite Hpos|].
        eapply le_log_trans; [apply le_log_set_pos|apply le_log_after_warning].
      - left. eapply warned_le_log_l; [apply le_log_set_pos|].
        apply warned_after_warning. }
    cbn [m_pos set_pos].
    destruct (c1 =? INDEX_DELIMITER) eqn:Hc1; cbn [negb].
    2:{ apply ensures_warn_ret, Hnil.
        - split; [by rewrite Hpos|].
          eapply le_log_trans; [apply le_log_set_pos|apply le_log_after_warning].
        - left. eapply warned_le_log_l; [apply le_log_set_pos|].
          apply warned_after_warning. }
    unfold bind at 1, modify at 1. unfold TryReadRealNumber.
    erewrite bind_Ret by apply run_scan_eq. cbn [m_pos set_pos].
    pose proof (TryReadRealNumber_loop_suffix (E:=E) rest1 (wrap64 (b' - 1)) Init
                  (d_of_int 0) (d_of_int 0) (d_of_int 0) false) as Hsuf1.
    pose proof (TryReadRealNumber_loop_warning (E:=E) rest1 (wrap64 (b' - 1)) Init
                  (d_of_int 0) (d_of_int 0) (d_of_int 0) false) as Hwarn.
    fold (TryReadRealNumber_scan (E:=E) rest1 (wrap64 (b' - 1))) in Hsuf1, Hwarn.
    assert (Hrest1 : rest1 `suffix_of` m_pos s).
    { rewrite Hpos. etrans; [|exact Hsuf]. by apply suffix_cons_r. }
    destruct (TryReadRealNumber_scan (E:=E) rest1 (wrap64 (b' - 1)))
      as [[value|] rest2 b2 w]; cbn [sc_result sc_rest sc_bytes sc_warning] in *.
    + subst w.
      assert (Hrest2 : rest2 `suffix_of` m_pos s) by (by etrans).
      eapply ensures_mono; [apply IH| |done].
      * cbn [m_pos set_pos]. apply suffix_length in Hsuf1.
        cbn [length] in Hshort, Hfuel. lia.
      * intros r s' (Hle & vs & ixs & Hv & Hi & Hlen & Hall & Hok). split.
        -- eapply le_state_trans; [|exact Hle].
           split; [done|exact (le_log_refl s)].
        -- exists (value :: vs), (index :: ixs). repeat split.
           ++ rewrite Hv. by rewrite <- app_assoc.
           ++ rewrite Hi. unfold to_IndexType. by rewrite <- app_assoc.
           ++ cbn [length]. by rewrite Hlen.
           ++ constructor; [|done]. lia.
           ++ done.
    + destruct Hwarn as [w' ->]. apply Hnil.
      * split; [state_simpl; by etrans|exact (le_log_after_warning p w' s)].
      * left. exact (warned_after_warning p w' s).
  - clear Hsome.
    destruct (Hnone eq_refl) as [[w' ->]|(c0 & rest0 & [= <- <-] & Hdel & ->)].
    + apply Hnil.
      * split; [by rewrite Hpos|].
        eapply le_log_trans; [apply le_log_set_pos|apply le_log_after_warning].
      * left. eapply warned_le_log_l; [apply le_log_set_pos|].
        apply warned_after_warning.
    + apply Hnil.
      * destruct w as [w|].
        -- split; [state_simpl; by rewrite Hpos|exact (le_log_after_warning p w s)].
        -- split; [state_simpl; by rewrite Hpos|exact (le_log_refl s)].
      * right. rewrite (sparse_silent_delimiter c Hterm Hvd Hdel).
        by destruct w.
Qed.

Lemma restore_resize {A} (x : A) (l k : list A) :
  (if (length (l ++ k) =? length l)%nat then l ++ k
   else resize (length l) x (l ++ k)) = l.
Proof.
  destruct (Nat.eqb_spec (length (l ++ k)) (length l)) as [Heq|_].
  - rewrite length_app in Heq. destruct k; [by rewrite app_nil_r|simpl in Heq; lia].
  - by rewrite resize_app_le, resize_all.
Qed.

Lemma buffer_eta (data : InputStreamBuffer E) :
  MkBuffer (m_numberOfSamples data) (m_buffer data) (m_indices data)
           (m_nnzCounts data) (m_totalNnzCount data) = data.
Proof. by destruct data. Qed.

Lemma ensures_Increment_ret {A} (a : A) s0 s (Q : A → PState → Prop) :
  le_state s0 s →
  (m_numAllowedErrors s ≠ 0%N →
   Q a (with_budget (N.pred (m_numAllowedErrors s)) s)) →
  ensures ((IncrementNumberOfErrorsOrDie p;; ret a) s) Q
          (λ e s', le_state s0 s' ∧ (budget_exhausted p e ∨ e = Undefined)).
Proof.
  intros Hle HQ. apply ensures_bind.
  eapply ensures_mono; [apply IncrementNumberOfErrorsOrDie_spec| |].
  - intros _ s1 [-> Hn]. by apply HQ.
  - intros e s1 (He & -> & _). split; [|by left].
    eapply le_state_trans; [exact Hle|].
    apply le_state_same_pos; [|apply le_log_with_notification].
    unfold with_notification. by destruct (_ && _).
Qed.

Lemma suffix_tail_cons {A} (l k : list A) x : l `suffix_of` k → tail l `suffix_of` x :: k.
Proof.
  intros H. apply suffix_cons_r. etrans; [|exact H].
  destruct l; [done|]. by apply suffix_cons_r.
Qed.

Lemma TryReadSample_spec fuel sequence b s :
  (length (m_pos s) ≤ fuel)%nat →
  ensures (TryReadSample p fuel sequence b s)
    (λ r s',
       le_state s s'
       ∧ (∀ c rest, m_pos s = c :: rest →
            if c =? NAME_PREFIX then m_pos s' `suffix_of` rest
            else r.1.1 = false ∧ r.2 = b ∧ m_pos s' = c :: rest)
       ∧ if r.1.1 then accepted_sample p sequence r.1.2
         else rolled_back p sequence r.1.2 ∧ rejected_sample p b s s')
    (λ e s', le_state s s' ∧ (budget_exhausted p e ∨ e = Undefined)).
Proof.
  intros Hfuel. unfold TryReadSample.
  destruct (m_pos s) as [|c rest] eqn:Hpos.
  { split; [apply le_state_refl|by right]. }
  destruct (c =? NAME_PREFIX) eqn:Hc; cbn [negb].
  2:{ (* not a name prefix *)
    apply ensures_bind. rewrite warn_eq. cbn [ensures].
    apply ensures_Increment_ret.
    { apply le_state_same_pos; [done|apply le_log_after_warning]. }
    intros Hn. split; [|split].
    - apply le_state_same_pos; [done|].
      eapply le_log_trans; [apply le_log_after_warning|apply le_log_pred].
    - intros c0 rest0 [= <- <-]. rewrite Hc. state_simpl. by rewrite Hpos.
    - cbn [fst snd]. split; [by left|]. right. split.
      + state_simpl. lia.
      + left. eapply warned_le_log_r; [apply warned_after_warning|].
        apply le_log_pred. }
  apply Z.eqb_eq in Hc. subst c.
  destruct (negb (wrap64 (b - 1) =? 0) && _) eqn:Hesc.
  { (* the escape sequence *)
    cbn [ensures fst snd]. split; [|split].
    - split; [|exact (le_log_refl s)]. state_simpl. rewrite Hpos.
      by apply suffix_tail_cons.
    - intros c0 rest0 [= <- <-]. rewrite Z.eqb_refl. state_simpl.
      destruct rest; [done|]. by apply suffix_cons_r.
    - split; [by left|]. left. split; [|done].
      rewrite Hpos. unfold is_escape. destruct rest as [|c' rest]; [by rewrite andb_false_r in Hesc|].
      apply andb_prop in Hesc as [-> ->]. done. }
  clear Hesc. unfold TryGetInputId.
  erewrite bind_Ret by apply run_scan_eq. cbn [m_pos set_pos].
  pose proof (TryGetInputId_loop_suffix (m_aliasToIdMap p) (m_maxAliasLength p)
                rest (wrap64 (b - 1)) []) as Hsuf.
  pose proof (TryGetInputId_loop_result (m_aliasToIdMap p) (m_maxAliasLength p)
                rest (wrap64 (b - 1)) []) as Hres.
  destruct (TryGetInputId_loop (m_aliasToIdMap p) (m_maxAliasLength p)
              rest (wrap64 (b - 1)) []) as [[id|] rest1 b1 w];
    cbn [sc_result sc_rest sc_bytes sc_warning] in *.
  2:{ (* no input id *)
    destruct Hres as [w' ->].
    set (s1 := after_warning p w' (set_pos rest1 (set_pos rest s))).
    assert (Hle1 : le_state s s1).
    { split; [subst s1; state_simpl; rewrite Hpos; by apply suffix_cons_r|].
      exact (le_log_after_warning p w' s). }
    assert (Hw1 : warned p s s1) by exact (warned_after_warning p w' s).
    apply ensures_Increment_ret; [done|].
    intros Hn. split; [|split].
    - eapply le_state_trans; [exact Hle1|].
      apply le_state_same_pos; [done|apply le_log_pred].
    - intros c0 rest0 [= <- <-]. rewrite Z.eqb_refl. subst s1. by state_simpl.
    - cbn [fst snd]. split; [by left|]. right. split.
      + subst s1. state_simpl. lia.
      + left. eapply warned_le_log_r; [exact Hw1|apply le_log_pred]. }
  set (s1 := match w with
             | Some w0 => after_warning p w0 (set_pos rest1 (set_pos rest s))
             | None => set_pos rest1 (set_pos rest s)
             end).
  assert (Hpos1 : m_pos s1 = rest1) by (subst s1; by destruct w).
  assert (Hle1 : le_state s s1).
  { split; [rewrite Hpos1, Hpos; by apply suffix_cons_r|].
    subst s1. destruct w as [w|];
      [exact (le_log_after_warning p w s)|exact (le_log_refl s)]. }
  assert (Hfuel1 : (length (m_pos s1) < fuel)%nat).
  { rewrite Hpos1. apply suffix_length in Hsuf. cbn [length] in Hfuel. lia. }
  destruct (m_streamInfos p !! id) as [stream|] eqn:Hstream;
    [|by split; [|right]].
  destruct (sequence !! id) as [data|] eqn:Hdata; [|by split; [|right]].
  destruct (m_type stream) eqn:Htype.
  - (* a dense stream *)
    apply ensures_bind. unfold TryReadDenseSample.
    eapply ensures_mono; [by apply TryReadDenseSample_loop_spec| |].
    2:{ intros e s' [Hle He]. split; [by eapply le_state_trans|by left]. }
    intros [[ok values] b2] s2 (Hle2 & read & pad & Hvalues & Hok).
    cbn [fst snd] in Hvalues, Hok. subst values.
    destruct ok; cbn [negb].
    + cbn [ensures fst snd]. split; [by eapply le_state_trans|]. split.
      * intros c0 rest0 [= <- <-]. rewrite Z.eqb_refl. destruct Hle2 as [Hs2 _].
        rewrite Hpos1 in Hs2. by etrans.
      * exists id, stream, data. repeat split; try done. rewrite Htype.
        exists read, pad. split; [lia|done].
    + destruct Hok as [-> Hw]. cbn [replicate]. rewrite app_nil_r.
      rewrite restore_resize, buffer_eta, list_insert_id by done.
      apply ensures_Increment_ret; [by eapply le_state_trans|].
      intros Hn. split; [|split].
      * eapply le_state_trans; [by eapply le_state_trans|].
        apply le_state_same_pos; [done|apply le_log_pred].
      * intros c0 rest0 [= <- <-]. rewrite Z.eqb_refl. state_simpl. destruct Hle2 as [Hs2 _].
        rewrite Hpos1 in Hs2. by etrans.
      * cbn [fst snd]. split; [by left|]. right. split.
        -- state_simpl. destruct Hle1 as (_&?&_), Hle2 as (_&?&_). lia.
        -- left. eapply warned_le_log_r; [|apply le_log_pred].
           eapply warned_le_log_l; [apply Hle1|done].
  - (* a sparse stream *)
    apply ensures_bind.
    eapply ensures_mono; [by apply TryReadSparseSample_spec| |done].
    intros [[[ok values] indices] b2] s2
      (Hle2 & vs & ixs & Hvalues & Hindices & Hlen & Hall & Hok).
    cbn [fst snd] in Hvalues, Hindices, Hok. subst values indices.
    destruct ok; cbn [negb].
    + cbn [ensures fst snd]. split; [by eapply le_state_trans|]. split.
      * intros c0 rest0 [= <- <-]. rewrite Z.eqb_refl. destruct Hle2 as [Hs2 _].
        rewrite Hpos1 in Hs2. by etrans.
      * exists id, stream, data. repeat split; try done. rewrite Htype.
        exists vs, ixs. split; [done|]. split; [done|].
        unfold to_IndexType.
        replace (Z.of_nat (length (m_buffer data ++ vs))
                 - Z.of_nat (length (m_buffer data)))
          with (Z.of_nat (length vs)) by (rewrite length_app; lia).
        done.
    + rewrite restore_resize.
      apply ensures_Increment_ret; [by eapply le_state_trans|].
      intros Hn. split; [|split].
      * eapply le_state_trans; [by eapply le_state_trans|].
        apply le_state_same_pos; [done|apply le_log_pred].
      * intros c0 rest0 [= <- <-]. rewrite Z.eqb_refl. state_simpl. destruct Hle2 as [Hs2 _].
        rewrite Hpos1 in Hs2. by etrans.
      * cbn [fst snd]. split.
        -- destruct (decide (length (m_buffer data) = length (m_indices data)))
             as [Heq|Hne].
           ++ left. rewrite Heq, restore_resize, buffer_eta.
              by apply list_insert_id.
           ++ right. by eexists id, stream, data, _.
        -- right. split.
           ++ state_simpl. destruct Hle1 as (_&?&_), Hle2 as (_&?&_). lia.
           ++ destruct (Hok eq_refl) as [Hw|Hh]; [left|by right].
              eapply warned_le_log_r; [|apply le_log_pred].
              eapply warned_le_log_l; [apply Hle1|done].
Qed.

Lemma sum_counts_app l k : sum_counts (l ++ k) = sum_counts l + sum_counts k.
Proof.
  unfold sum_counts. induction l as [|x l IH]; simpl; [done|].
  rewrite IH. lia.
Qed.

(** [TryReadSample] keeps the invariant of the dense buffers: a sample that
    is accepted has added [sample_dimension] values to one buffer, and when
    the call returns [false] every dense buffer is as it was. *)
Lemma TryReadSample_dense_invariant (fuel : nat)
    (sequence : list (InputStreamBuffer E)) (bytesToRead : Z) (s : PState) :
  dense_invariant p sequence →
  (length (m_pos s) ≤ fuel)%nat →
  ensures (TryReadSample p fuel sequence bytesToRead s)
    (λ r s',
       dense_invariant p r.1.2
       ∧ if r.1.1 then accepted_sample p sequence r.1.2
         else ∀ id stream, m_streamInfos p !! id = Some stream →
                m_type stream = dense → r.1.2 !! id = sequence !! id)
    (λ e s', budget_exhausted p e ∨ e = Undefined).
Proof.
  intros Hinv Hfuel.
  eapply ensures_mono; [by apply TryReadSample_spec| |by intros e s' [_ ?]].
  intros [[ok sequence'] b'] s' (_ & _ & Hpost). cbn [fst snd] in *.
  destruct ok.
  - split; [|done].
    destruct Hpost as (id & stream & data & Hs & Hd & Hacc).
    intros id' stream' data' Hs' Hdense' Hd'.
    destruct (decide (id' = id)) as [->|Hne].
    + assert (stream' = stream) as -> by congruence.
      rewrite Hdense' in Hacc. destruct Hacc as (read & pad & Hlen & ->).
      rewrite list_lookup_insert_eq in Hd' by (by eapply lookup_lt_Some).
      injection Hd' as <-. cbn [m_buffer m_numberOfSamples].
      rewrite !length_app, length_replicate, (Hinv id stream data) by done.
      lia.
    + assert (sequence' !! id' = sequence !! id') as Hsame.
      { destruct (m_type stream).
        - destruct Hacc as (? & ? & _ & ->). by apply list_lookup_insert_ne.
        - destruct Hacc as (? & ? & _ & _ & ->). by apply list_lookup_insert_ne. }
      rewrite Hsame in Hd'. by eapply Hinv.
  - destruct Hpost as [[->|(id & stream & data & data' & Hs & Hsparse & Hd & _ & ->)] _].
    + done.
    + assert (Hsame : ∀ id' stream', m_streamInfos p !! id' = Some stream' →
                m_type stream' = dense →
                <[id := data']> sequence !! id' = sequence !! id').
      { intros id' stream' Hs' Hdense'. apply list_lookup_insert_ne.
        intros ->. congruence. }
      split; [|done].
      intros id' stream' data'' Hs' Hdense' Hd'.
      rewrite (Hsame id' stream') in Hd' by done. by eapply Hinv.
Qed.


End Samples.

(** ** Rows and sequences *)

Lemma elem_of_suffix {A} (x : A) l1 l2 : l1 `suffix_of` l2 → x ∈ l1 → x ∈ l2.
Proof. intros [k ->] H. apply elem_of_app. by right. Qed.

Lemma SkipToNextInput_scan_progress c rest b :
  b ≠ 0 → (c =? NAME_PREFIX) = false → (c =? ROW_DELIMITER) = false →
  fst (SkipToNextInput_scan (c :: rest) b) `suffix_of` rest.
Proof.
  intros Hb Hnp Hrd. cbn [SkipToNextInput_scan].
  rewrite (proj2 (Z.eqb_neq b 0)), Hnp, Hrd by done. cbn [orb].
  apply SkipToNextInput_scan_suffix.
Qed.

(** ** The window during the reads *)

Lemma TryRefillBuffer_extent B w :
  (Reader.extent (Reader.TryRefillBuffer B w).2 ≤ Reader.extent w)%nat.
Proof.
  unfold Reader.TryRefillBuffer, Reader.fread, Reader.extent.
  set (left := drop (Z.to_nat (Reader.position (Reader.m_file w)))
                    (Reader.content (Reader.m_file w))).
  destruct (length (take B left) =? 0)%nat eqn:Hread;
    cbn [snd Reader.m_buffer Reader.m_file Reader.content]; [lia|].
  assert (length (take B left) ≤ length (Reader.content (Reader.m_file w)))%nat.
  { rewrite length_take. subst left. rewrite length_drop. lia. }
  lia.
Qed.

Lemma CanRead_extent B w :
  (Reader.extent (Reader.CanRead B w).2 ≤ Reader.extent w)%nat.
Proof.
  unfold Reader.CanRead. destruct (_ <? _)%nat; [done|].
  apply TryRefillBuffer_extent.
Qed.

Lemma read_extent B n : ∀ w,
  (Reader.extent (Reader.read B n w) ≤ Reader.extent w)%nat.
Proof.
  induction n as [|n IH]; intros w; cbn [Reader.read]; [done|].
  pose proof (CanRead_extent B w) as Hle.
  destruct (Reader.CanRead B w).1; [|done].
  etrans; [apply IH|]. by cbn.
Qed.

Lemma LoadSequence_seek_extent B fileOffset w w' :
  Reader.LoadSequence_seek B fileOffset w = Some w' →
  (Reader.extent w' ≤ Reader.extent w)%nat.
Proof.
  unfold Reader.LoadSequence_seek, Reader.SetFileOffset, Reader._fseeki64.
  destruct (_ || _).
  - destruct (fileOffset <? 0); [done|]. intros [= <-].
    etrans; [|apply (TryRefillBuffer_extent B
      {| Reader.m_file := {| Reader.content := Reader.content (Reader.m_file w);
                             Reader.position := fileOffset |};
         Reader.m_buffer := Reader.m_buffer w; Reader.m_pos := Reader.m_pos w;
         Reader.m_fileOffsetStart := fileOffset;
         Reader.m_fileOffsetEnd := fileOffset |})].
    done.
  - by intros [= <-].
Qed.

Lemma LoadSequence_seek_Some B fileOffset w :
  0 ≤ fileOffset → is_Some (Reader.LoadSequence_seek B fileOffset w).
Proof.
  intros Hoffset.
  unfold Reader.LoadSequence_seek, Reader.SetFileOffset, Reader._fseeki64.
  rewrite (proj2 (Z.ltb_ge fileOffset 0)) by done. by destruct (_ || _).
Qed.

Lemma readable_extent w : (length (Reader.readable w) ≤ Reader.extent w)%nat.
Proof.
  unfold Reader.readable, Reader.extent. rewrite length_app, !length_drop. lia.
Qed.

Lemma keeps_window_bind {A B} (m : M A) (k : A → M B) s :
  keeps_window s (m s) → (∀ a s1, keeps_window s1 (k a s1)) →
  keeps_window s (bind m k s).
Proof.
  unfold bind. destruct (m s) as [a s1|e s1|]; cbn [keeps_window]; [|done|done].
  intros H1 H2. specialize (H2 a s1).
  destruct (k a s1); cbn [keeps_window] in *; congruence.
Qed.

Lemma keeps_window_at {A} s s1 (r : Result PState A) :
  m_window s1 = m_window s → keeps_window s1 r → keeps_window s r.
Proof. intros H. destruct r; cbn [keeps_window]; congruence. Qed.

Lemma ensures_keeps_window {A} s (r : Result PState A) Q QE :
  ensures r Q QE → keeps_window s r →
  ensures r (λ a s', Q a s' ∧ m_window s' = m_window s)
            (λ e s', QE e s' ∧ m_window s' = m_window s).
Proof. by destruct r. Qed.

Section KeepsWindow.

Context {D E : Type} `{RA : RealArith D E}.
Variable p : Config.

Lemma warn_keeps_window w s : keeps_window s (warn p w s).
Proof. by rewrite warn_eq. Qed.

Lemma PrintWarningNotification_keeps_window s :
  keeps_window s (PrintWarningNotification p s).
Proof. unfold PrintWarningNotification. by destruct (_ && _). Qed.

Lemma IncrementNumberOfErrorsOrDie_keeps_window s :
  keeps_window s (IncrementNumberOfErrorsOrDie p s).
Proof.
  unfold IncrementNumberOfErrorsOrDie. destruct (_ =? _)%N; [|done].
  apply keeps_window_bind; [apply PrintWarningNotification_keeps_window|done].
Qed.

Lemma run_scan_keeps_window {A} (scan : list char → Scan A) s :
  keeps_window s (run_scan p scan s).
Proof. rewrite run_scan_eq. by destruct (sc_warning _). Qed.

Ltac keeps_window :=
  repeat first
    [ done
    | apply warn_keeps_window
    | apply PrintWarningNotification_keeps_window
    | apply IncrementNumberOfErrorsOrDie_keeps_window
    | apply run_scan_keeps_window
    | apply keeps_window_bind; [|intros]
    | solve [eapply keeps_window_at; [|eauto]; reflexivity]
    | match goal with
      | |- keeps_window ?s (bind _ _ ?s1) =>
          lazymatch s1 with
          | s => fail
          | _ => apply (keeps_window_at s s1 _ eq_refl)
          end
      | |- keeps_window _ ((let '(_, _) := ?x in _) _) => destruct x
      | |- keeps_window _ (match ?x with _ => _ end _) => destruct x
      | |- keeps_window _ (match ?x with _ => _ end) => destruct x
      | |- keeps_window _ ((if ?b then _ else _) _) => destruct b
      | |- keeps_window _ (if ?b then _ else _) => destruct b
      end ].

Lemma TryReadDenseSample_loop_keeps_window fuel : ∀ (values : list E) sampleSize
    counter b s,
  keeps_window s (TryReadDenseSample_loop p fuel values sampleSize counter b s).
Proof.
  induction fuel as [|fuel IH]; intros values sampleSize counter b s; [done|].
  cbn [TryReadDenseSample_loop]. unfold TryReadRealNumber. keeps_window.
Qed.

Lemma TryReadSparseSample_keeps_window fuel : ∀ (values : list E) indices
    sampleSize b s,
  keeps_window s (TryReadSparseSample p fuel values indices sampleSize b s).
Proof.
  induction fuel as [|fuel IH]; intros values indices sampleSize b s; [done|].
  cbn [TryReadSparseSample]. unfold TryReadUint64, TryReadRealNumber.
  keeps_window.
Qed.

Lemma TryReadSample_keeps_window fuel (sequence : list (InputStreamBuffer E)) b s :
  keeps_window s (TryReadSample p fuel sequence b s).
Proof.
  pose proof TryReadDenseSample_loop_keeps_window.
  pose proof TryReadSparseSample_keeps_window.
  unfold TryReadSample, TryGetInputId, TryReadDenseSample. keeps_window.
Qed.

Lemma TryReadRow_loop_keeps_window fuel : ∀ (sequence : list (InputStreamBuffer E))
    b n s,
  keeps_window s (TryReadRow_loop p fuel sequence b n s).
Proof.
  pose proof TryReadSample_keeps_window.
  induction fuel as [|fuel IH]; intros sequence b n s; [done|].
  cbn [TryReadRow_loop]. unfold SkipToNextInput. keeps_window.
Qed.

Lemma TryReadRow_keeps_window fuel (sequence : list (InputStreamBuffer E)) b s :
  keeps_window s (TryReadRow p fuel sequence b s).
Proof.
  unfold TryReadRow.
  eapply keeps_window_at; [|apply TryReadRow_loop_keeps_window]. done.
Qed.

Lemma LoadSequence_rows_keeps_window fuel id expectedRowCount remaining :
  ∀ i (sequence : list (InputStreamBuffer E)) b numRowsRead s,
  keeps_window s (LoadSequence_rows p fuel id expectedRowCount remaining i
                                    sequence b numRowsRead s).
Proof.
  pose proof TryReadRow_keeps_window.
  induction remaining as [|remaining IH]; intros i sequence b numRowsRead s;
    cbn [LoadSequence_rows]; keeps_window.
Qed.

Lemma LoadSequence_check_keeps_window id expectedRowCount
    (sequence : list (InputStreamBuffer E)) : ∀ i hasEmptyInputs hasDuplicateInputs s,
  keeps_window s (LoadSequence_check p id expectedRowCount i sequence
                                     hasEmptyInputs hasDuplicateInputs s).
Proof.
  induction sequence as [|data sequence IH];
    intros i hasEmptyInputs hasDuplicateInputs s; cbn [LoadSequence_check];
    keeps_window.
Qed.

Lemma LoadSequence_finish_keeps_window sequenceDsc
    (sequence : list (InputStreamBuffer E)) numRowsRead s :
  keeps_window s (LoadSequence_finish p sequenceDsc sequence numRowsRead s).
Proof.
  pose proof LoadSequence_check_keeps_window.
  unfold LoadSequence_finish. keeps_window.
Qed.

Lemma LoadSequence_read_keeps_window fuel verifyId sequenceDsc s :
  keeps_window s (LoadSequence_read (E:=E) p fuel verifyId sequenceDsc s).
Proof.
  pose proof LoadSequence_rows_keeps_window.
  pose proof LoadSequence_finish_keeps_window.
  unfold LoadSequence_read, TryReadUint64. keeps_window.
Qed.

End KeepsWindow.

Lemma le_log_set_window w s : le_log s (set_window w s).
Proof. unfold le_log. cbn [m_numAllowedErrors m_hadWarnings stderr set_window]. split; [lia|done]. Qed.

Section Rows.

Context {D E : Type} `{RA : RealArith D E}.
Variable p : Config.
Variable BUFFER_SIZE : positive.

Lemma TryReadRow_loop_spec fuel : ∀ (sequence : list (InputStreamBuffer E)) b n s,
  (length (m_pos s) < fuel)%nat →
  ensures (TryReadRow_loop p fuel sequence b n s)
    (λ r s', le_state s s'
             ∧ if r.1.1 then ROW_DELIMITER ∈ m_pos s else warned p s s')
    (λ e s', le_state s s' ∧ (budget_exhausted p e ∨ e = Undefined)).
Proof.
  induction fuel as [|fuel IH]; intros sequence b n s Hfuel; [lia|].
  cbn [TryReadRow_loop].
  assert (Hexh : ensures
    ((warn p W_RowExhausted;; ret (false, sequence, b)) s)
    (λ r s', le_state s s'
             ∧ if r.1.1 then ROW_DELIMITER ∈ m_pos s else warned p s s')
    (λ e s', le_state s s' ∧ (budget_exhausted p e ∨ e = Undefined))).
  { apply ensures_warn_ret. split; [|apply warned_after_warning].
    apply le_state_same_pos; [done|apply le_log_after_warning]. }
  destruct (b =? 0) eqn:Hb; [done|]. apply Z.eqb_neq in Hb.
  destruct (m_pos s) as [|c rest] eqn:Hpos; [done|]. clear Hexh.
  cbn [length] in Hfuel.
  assert (Hrest : le_state s (set_pos rest s)).
  { apply le_state_set_pos. rewrite Hpos. by apply suffix_cons_r. }
  destruct (_ || _).
  { eapply ensures_mono; [apply IH| |].
    - cbn [m_pos set_pos]. lia.
    - intros r s' [Hle Hrow]. split; [by eapply le_state_trans|].
      destruct r.1.1; [|done]. apply elem_of_cons. by right.
    - intros e s' [Hle He]. split; [by eapply le_state_trans|done]. }
  destruct (c =? ROW_DELIMITER) eqn:Hrd.
  { apply Z.eqb_eq in Hrd. subst c.
    unfold bind at 1, modify at 1. apply ensures_bind.
    assert (Hin : ROW_DELIMITER ∈ ROW_DELIMITER :: rest) by apply list_elem_of_here.
    destruct n as [|n]; cbn [Nat.eqb].
    - change (0 <? 0)%nat with false.
      rewrite warn_eq. cbn [ensures fst snd]. split.
      + eapply le_state_trans; [exact Hrest|].
        apply le_state_same_pos; [done|apply le_log_after_warning].
      + exact (warned_after_warning p W_EmptyRow s).
    - change (0 <? S n)%nat with true.
      destruct (_ <? _)%nat.
      + rewrite warn_eq. cbn [ensures]. split; [|done].
        eapply le_state_trans; [exact Hrest|].
        apply le_state_same_pos; [done|apply le_log_after_warning].
      + cbn [ensures]. by split. }
  apply ensures_bind.
  eapply ensures_mono; [apply TryReadSample_spec| |].
  { rewrite Hpos. cbn [length]. lia. }
  2:{ done. }
  intros [[ok sequence1] b1] s1 (Hle1 & Hpos1 & _). cbn [fst snd] in *.
  specialize (Hpos1 c rest Hpos).
  destruct ok.
  - destruct (c =? NAME_PREFIX); [|by destruct Hpos1].
    eapply ensures_mono; [apply IH| |].
    + apply suffix_length in Hpos1. lia.
    + intros r s' [Hle Hrow]. split; [by eapply le_state_trans|].
      destruct r.1.1.
      * eapply elem_of_suffix; [|exact Hrow]. by apply suffix_cons_r.
      * eapply warned_le_log_l; [apply Hle1|done].
    + intros e s' [Hle He]. split; [by eapply le_state_trans|done].
  - unfold bind at 1, SkipToNextInput at 1.
    assert (Hskip : fst (SkipToNextInput_scan (m_pos s1) b1) `suffix_of` rest).
    { destruct (c =? NAME_PREFIX) eqn:Hnp.
      - etrans; [apply SkipToNextInput_scan_suffix|done].
      - destruct Hpos1 as (_ & -> & ->).
        by apply SkipToNextInput_scan_progress. }
    assert (Hle2 : le_state s (set_pos (fst (SkipToNextInput_scan (m_pos s1) b1)) s1)).
    { eapply le_state_trans; [exact Hle1|].
      apply le_state_set_pos, SkipToNextInput_scan_suffix. }
    eapply ensures_mono; [apply IH| |].
    + cbn [m_pos set_pos]. apply suffix_length in Hskip. lia.
    + intros r s' [Hle Hrow]. split; [by eapply le_state_trans|].
      destruct r.1.1.
      * cbn [m_pos set_pos] in Hrow.
        eapply elem_of_suffix; [|exact Hrow]. by apply suffix_cons_r.
      * eapply warned_le_log_l; [apply Hle2|done].
    + intros e s' [Hle He]. split; [by eapply le_state_trans|done].
Qed.

Lemma TryReadRow_spec fuel (sequence : list (InputStreamBuffer E)) b s :
  (length (m_pos s) < fuel)%nat →
  ensures (TryReadRow p fuel sequence b s)
    (λ r s', le_state s s'
             ∧ if r.1.1 then ROW_DELIMITER ∈ m_pos s else warned p s s')
    (λ e s', le_state s s' ∧ (budget_exhausted p e ∨ e = Undefined)).
Proof.
  intros Hfuel. unfold TryReadRow.
  pose proof (SkipSequenceId_scan_suffix (m_pos s) b) as Hsuf.
  assert (Hle : le_state s (set_pos (fst (SkipSequenceId_scan (m_pos s) b)) s))
    by (by apply le_state_set_pos).
  eapply ensures_mono; [apply TryReadRow_loop_spec| |].
  - cbn [m_pos set_pos]. apply suffix_length in Hsuf. lia.
  - intros r s' [Hle' Hrow]. split; [by eapply le_state_trans|].
    destruct r.1.1; [|done]. by eapply elem_of_suffix.
  - intros e s' [Hle' He]. split; [by eapply le_state_trans|done].
Qed.

Lemma LoadSequence_rows_spec fuel id expectedRowCount remaining :
  ∀ i (sequence : list (InputStreamBuffer E)) b numRowsRead s,
  (length (m_pos s) < fuel)%nat →
  ensures (LoadSequence_rows p fuel id expectedRowCount remaining i sequence b
                             numRowsRead s)
    (λ r s', le_state s s')
    (λ e s', le_state s s' ∧ (budget_exhausted p e ∨ e = Undefined)).
Proof.
  induction remaining as [|remaining IH]; intros i sequence b k s Hfuel;
    cbn [LoadSequence_rows].
  { apply le_state_refl. }
  apply ensures_bind.
  eapply ensures_mono; [by apply TryReadRow_spec| |done].
  intros [[ok sequence1] b1] s1 [Hle1 _]. cbn [fst snd].
  assert (Hfuel1 : (length (m_pos s1) < fuel)%nat).
  { apply le_state_length in Hle1. lia. }
  assert (Hcont : ∀ k' s2, le_state s s2 → (length (m_pos s2) < fuel)%nat →
    ensures
      ((if (b1 =? 0) && (k' <? expectedRowCount)%nat
        then warn p (W_ExhaustedSequence id k' expectedRowCount);;
             ret (sequence1, k')
        else LoadSequence_rows p fuel id expectedRowCount remaining (S i)
                               sequence1 b1 k') s2)
      (λ r s', le_state s s')
      (λ e s', le_state s s' ∧ (budget_exhausted p e ∨ e = Undefined))).
  { intros k' s2 Hle2 Hfuel2. destruct (_ && _).
    - apply ensures_warn_ret. eapply le_state_trans; [exact Hle2|].
      apply le_state_same_pos; [done|apply le_log_after_warning].
    - eapply ensures_mono; [by apply IH| |].
      + intros r s' Hle. by eapply le_state_trans.
      + intros e s' [Hle He]. split; [by eapply le_state_trans|done]. }
  apply ensures_bind. destruct ok.
  - cbn [ensures]. by apply Hcont.
  - apply ensures_bind.
    eapply ensures_mono; [apply IncrementNumberOfErrorsOrDie_spec| |].
    + intros _ s2 [-> Hn]. apply ensures_bind. rewrite warn_eq. cbn [ensures].
      apply Hcont; [|done].
      eapply le_state_trans; [exact Hle1|].
      apply le_state_same_pos; [done|].
      eapply le_log_trans; [apply le_log_pred|apply le_log_after_warning].
    + intros e s2 (He & -> & _). split; [|by left].
      eapply le_state_trans; [exact Hle1|].
      apply le_state_same_pos; [|apply le_log_with_notification].
      unfold with_notification. by destruct (_ && _).
Qed.

Lemma LoadSequence_check_spec id expectedRowCount
    (sequence : list (InputStreamBuffer E)) :
  ∀ i hasEmptyInputs hasDuplicateInputs s,
  ensures (LoadSequence_check p id expectedRowCount i sequence
                              hasEmptyInputs hasDuplicateInputs s)
    (λ r s', le_state s s'
       ∧ (hasDuplicateInputs = true ∨ has_duplicates expectedRowCount sequence
          → r.2 = true)
       ∧ (has_duplicates expectedRowCount sequence → warned p s s'))
    (λ e s', False).
Proof.
  induction sequence as [|data sequence' IH]; intros i hE hD s;
    cbn [LoadSequence_check].
  { cbn [ensures snd]. split; [apply le_state_refl|]. split.
    - intros [?|H]; [done|]. by apply Exists_nil in H.
    - intros H. by apply Exists_nil in H. }
  apply ensures_bind.
  set (s1 := if (m_numberOfSamples data =? 0)%nat
             then print (E_InputEmpty i id) s else s).
  assert (Hle1 : le_state s s1).
  { subst s1. destruct (_ =? _)%nat; [|apply le_state_refl].
    apply le_state_same_pos; [done|apply le_log_print]. }
  assert (Hrun : ∀ Q, 
    (∀ hE', Q hE' s1) →
    ensures ((if (m_numberOfSamples data =? 0)%nat
              then modify (print (E_InputEmpty i id));; ret true
              else ret hE) s) Q (λ _ _, False)).
  { intros Q HQ. subst s1. destruct (_ =? _)%nat; apply HQ. }
  apply Hrun. intros hE'. apply ensures_bind.
  destruct (expectedRowCount <? m_numberOfSamples data)%nat eqn:Hdup.
  - apply ensures_warn_ret.
    eapply ensures_mono; [apply IH| |done].
    intros r s' (Hle & Hr & _). split; [|split].
    + eapply le_state_trans; [exact Hle1|].
      eapply le_state_trans; [|exact Hle].
      apply le_state_same_pos; [done|apply le_log_after_warning].
    + intros _. apply Hr. by left.
    + intros _. eapply warned_le_log_l; [apply Hle1|].
      eapply warned_le_log_r; [apply warned_after_warning|apply Hle].
  - apply ensures_ret.
    eapply ensures_mono; [apply IH| |done].
    apply Nat.ltb_ge in Hdup.
    intros r s' (Hle & Hr & Hw). split; [|split].
    + by eapply le_state_trans.
    + intros [?|H]; [apply Hr; by left|].
      apply Exists_cons in H as [H|H]; [lia|]. apply Hr. by right.
    + intros H. apply Exists_cons in H as [H|H]; [lia|].
      eapply warned_le_log_l; [apply Hle1|by apply Hw].
Qed.

Lemma LoadSequence_finish_spec sequenceDsc
    (sequence : list (InputStreamBuffer E)) numRowsRead s :
  ensures (LoadSequence_finish p sequenceDsc sequence numRowsRead s)
    (λ r s', le_state s s'
       ∧ (has_duplicates (seq_numberOfSamples sequenceDsc) sequence →
          (m_numAllowedErrors s' < m_numAllowedErrors s)%N ∧ warned p s s'))
    (λ e s', le_state s s'
       ∧ (budget_exhausted p e ∨ e = RuntimeError MalformedMessage)).
Proof.
  unfold LoadSequence_finish. apply ensures_bind.
  eapply ensures_mono; [apply LoadSequence_check_spec| |done].
  intros [hE hD] s1 (Hle1 & Hdup & Hw). cbn [snd] in Hdup.
  destruct hE.
  { apply ensures_bind. unfold bind, PrintWarningNotification, throw.
    fold (with_notification p s1).
    assert (Hle2 : le_state s (with_notification p s1)).
    { eapply le_state_trans; [exact Hle1|].
      apply le_state_same_pos; [|apply le_log_with_notification].
      unfold with_notification. by destruct (_ && _). }
    unfold with_notification in *. destruct (_ && _); cbn [ensures]; auto. }
  apply ensures_bind. cbn [ensures]. apply ensures_bind.
  assert (Hinfo : ∀ s2, le_state s s2 →
    (has_duplicates (seq_numberOfSamples sequenceDsc) sequence →
     (m_numAllowedErrors s2 < m_numAllowedErrors s)%N ∧ warned p s s2) →
    ensures
      (((if (Info <=? m_traceLevel p)%nat
         then modify (print (I_FinishedLoading (seq_id sequenceDsc) numRowsRead
                               (seq_numberOfSamples sequenceDsc)))
         else ret ());; ret sequence) s2)
      (λ r s', le_state s s'
         ∧ (has_duplicates (seq_numberOfSamples sequenceDsc) sequence →
            (m_numAllowedErrors s' < m_numAllowedErrors s)%N ∧ warned p s s'))
      (λ e s', le_state s s'
         ∧ (budget_exhausted p e ∨ e = RuntimeError MalformedMessage))).
  { intros s2 Hle2 Hd2. apply ensures_bind.
    destruct (Info <=? m_traceLevel p)%nat; cbn [ensures]; [|by split].
    split.
    - eapply le_state_trans; [exact Hle2|].
      apply le_state_same_pos; [done|apply le_log_print].
    - intros H. destruct (Hd2 H) as [Hn Hw2]. split; [done|].
      eapply warned_le_log_r; [exact Hw2|apply le_log_print]. }
  destruct hD.
  - eapply ensures_mono; [apply IncrementNumberOfErrorsOrDie_spec| |].
    + intros _ s2 [-> Hn]. apply Hinfo.
      * eapply le_state_trans; [exact Hle1|].
        apply le_state_same_pos; [done|apply le_log_pred].
      * intros H. split.
        -- state_simpl. destruct Hle1 as (_ & ? & _). lia.
        -- eapply warned_le_log_r; [by apply Hw|apply le_log_pred].
    + intros e s2 (He & -> & _). split; [|by left].
      eapply le_state_trans; [exact Hle1|].
      apply le_state_same_pos; [|apply le_log_with_notification].
      unfold with_notification. by destruct (_ && _).
  - cbn [ensures]. apply Hinfo; [done|].
    intros H. by specialize (Hdup (or_intror H)).
Qed.

Lemma LoadSequence_read_spec fuel verifyId sequenceDsc s :
  (length (m_pos s) < fuel)%nat →
  ensures (LoadSequence_read (E:=E) p fuel verifyId sequenceDsc s)
    (λ r s', le_log s s')
    (λ e s', le_log s s' ∧ load_exception p verifyId e).
Proof.
  intros Hfuel0. unfold LoadSequence_read.
  pose (s0 := s).
  assert (Hle0 : le_log s s0) by apply le_log_refl.
  apply ensures_bind.
  assert (Hid : ensures
    ((if verifyId
      then '(r, bytesToRead) ← TryReadUint64 p (seq_byteSize sequenceDsc);
           match r with
           | Some id =>
               if id =? seq_id sequenceDsc then ret bytesToRead
               else PrintWarningNotification p;;
                    throw (SequenceNotFound (seq_id sequenceDsc))
           | None => PrintWarningNotification p;;
                     throw (SequenceNotFound (seq_id sequenceDsc))
           end
      else ret (seq_byteSize sequenceDsc)) s0)
    (λ _ s1, le_state s0 s1)
    (λ e s1, le_log s s1 ∧ load_exception p verifyId e)).
  { destruct verifyId; [|apply le_state_refl].
    unfold TryReadUint64. erewrite bind_Ret by apply run_scan_eq.
    pose proof (TryReadUint64_loop_suffix (m_pos s0) (seq_byteSize sequenceDsc)
                  0 false) as Hsuf.
    fold (TryReadUint64_scan (m_pos s0) (seq_byteSize sequenceDsc)) in Hsuf.
    pose proof (run_scan_le_state p
                  (λ input, TryReadUint64_scan input (seq_byteSize sequenceDsc))
                  s0 Hsuf) as Hle1.
    cbn beta in Hle1.
    set (s1 := match sc_warning _ with Some _ => _ | None => _ end) in *.
    assert (Hthrow : ensures
      ((PrintWarningNotification p;;
        throw (A:=Z) (SequenceNotFound (seq_id sequenceDsc))) s1)
      (λ _ s2, le_state s0 s2)
      (λ e s2, le_log s s2 ∧ load_exception p true e)).
    { unfold bind, PrintWarningNotification, throw.
      fold (with_notification p s1).
      assert (le_log s (with_notification p s1)).
      { eapply le_log_trans; [exact Hle0|].
        eapply le_log_trans; [apply Hle1|apply le_log_with_notification]. }
      unfold with_notification in *.
      destruct (_ && _); cbn [ensures]; (split; [done|]);
        right; right; right; eauto. }
    destruct (sc_result _) as [id|]; [|done].
    destruct (id =? seq_id sequenceDsc); [done|done]. }
  eapply ensures_mono; [exact Hid| |done].
  intros b1 s1 Hle1. apply ensures_bind.
  eapply ensures_mono; [apply LoadSequence_rows_spec| |].
  - apply le_state_length in Hle1. subst s0. lia.
  - intros [sequence numRowsRead] s2 Hle2.
    eapply ensures_mono; [apply LoadSequence_finish_spec| |].
    + intros r s3 [Hle3 _].
      eapply le_log_trans; [exact Hle0|]. eapply le_log_trans; [apply Hle1|].
      eapply le_log_trans; [apply Hle2|apply Hle3].
    + intros e s3 [Hle3 He]. split.
      * eapply le_log_trans; [exact Hle0|]. eapply le_log_trans; [apply Hle1|].
        eapply le_log_trans; [apply Hle2|apply Hle3].
      * destruct He as [?|?]; [by left|by right; right; left].
  - intros e s2 [Hle2 He]. split.
    + eapply le_log_trans; [exact Hle0|]. eapply le_log_trans; [apply Hle1|].
      apply Hle2.
    + destruct He as [?|?]; [by left|by right; left].
Qed.

(** The first lines of [LoadSequence]: the seek does not fail, and the
    sequence is read from the window that it leaves. *)
Lemma LoadSequence_seeks fuel verifyId sequenceDsc s :
  ∃ w,
    Reader.LoadSequence_seek (Pos.to_nat BUFFER_SIZE)
      (Z.of_nat (seq_fileOffsetBytes sequenceDsc)) (window_now BUFFER_SIZE s)
    = Some w
    ∧ LoadSequence (E:=E) p BUFFER_SIZE fuel verifyId sequenceDsc s
      = LoadSequence_read p fuel verifyId sequenceDsc (set_window w s)
    ∧ (Reader.extent w ≤ Reader.extent (m_window s))%nat.
Proof.
  destruct (LoadSequence_seek_Some (Pos.to_nat BUFFER_SIZE)
              (Z.of_nat (seq_fileOffsetBytes sequenceDsc))
              (window_now BUFFER_SIZE s)) as [w Hseek]; [lia|].
  exists w. split; [done|]. split.
  - unfold LoadSequence. by rewrite Hseek.
  - etrans; [by eapply LoadSequence_seek_extent|]. apply read_extent.
Qed.

Lemma LoadSequence_spec fuel verifyId sequenceDsc s :
  (Reader.extent (m_window s) < fuel)%nat →
  ensures (LoadSequence (E:=E) p BUFFER_SIZE fuel verifyId sequenceDsc s)
    (λ r s', le_log s s'
             ∧ (Reader.extent (m_window s') ≤ Reader.extent (m_window s))%nat)
    (λ e s', le_log s s' ∧ load_exception p verifyId e).
Proof.
  intros Hfuel.
  destruct (LoadSequence_seeks fuel verifyId sequenceDsc s) as (w & _ & -> & Hw).
  pose proof (readable_extent w) as Hreadable.
  eapply ensures_mono;
    [apply ensures_keeps_window;
       [apply LoadSequence_read_spec|apply LoadSequence_read_keeps_window]| |].
  - cbn [m_pos set_window]. lia.
  - intros r s' [Hle ->]. split; [|done].
    eapply le_log_trans; [apply le_log_set_window|exact Hle].
  - intros e s' [[Hle He] _]. split; [|done].
    eapply le_log_trans; [apply le_log_set_window|exact Hle].
Qed.

Lemma LoadChunk_sequences_spec fuel verifyId sequences :
  ∀ (chunk : TextDataChunk E) s,
  (Reader.extent (m_window s) < fuel)%nat →
  ensures (LoadChunk_sequences p BUFFER_SIZE fuel verifyId chunk sequences s)
    (λ r s', le_log s s')
    (λ e s', le_log s s' ∧ load_exception p verifyId e).
Proof.
  induction sequences as [|sequenceDsc sequences IH]; intros chunk s Hfuel;
    cbn [LoadChunk_sequences].
  { apply le_log_refl. }
  apply ensures_bind.
  eapply ensures_mono; [by apply LoadSequence_spec| |done].
  intros sequence s1 [Hle1 Hw1]. cbn beta in Hle1.
  eapply ensures_mono; [apply IH; lia| |].
  - intros r s2 Hle2. cbn beta in Hle2. by eapply le_log_trans.
  - intros e s2 [Hle2 He]. split; [by eapply le_log_trans|done].
Qed.

End Rows.

(** ** Skipping the sequence ids *)

Section SkipSequenceIds.

Context {D E : Type} `{RA : RealArith D E}.
Variable rows_have_sequence_ids : list char → bool.
Variable build_index : list char → bool → Z → list ChunkDescriptor.
Variable BUFFER_SIZE : positive.

Lemma Initialize_skip disk (parser parser' : TextParser E) :
  m_indexer parser = None →
  m_skipSequenceIds parser = true →
  Initialize rows_have_sequence_ids build_index disk parser = Ret tt parser' →
  m_skipSequenceIds parser' = true ∧ config parser' = config parser.
Proof.
  intros Hindexer Hskip. unfold Initialize, attempt. rewrite Hindexer, Hskip.
  destruct disk as [file|]; [|done].
  destruct (funicode file); [done|]. by intros [= <-].
Qed.

(** C9.  When the configuration has [skip_sequence_ids] set and the parser is
    built from it, [m_skipSequenceIds] is still set after [Initialize] (the
    indexer, told to skip the ids, reports that the file has none), so
    [LoadChunk] is the loop of [LoadSequence] with [verifyId = false] over
    the sequences of the chunk, and [GetChunk] never fails for a sequence id
    that was not found, whatever the file holds. *)
Theorem skip_sequence_ids_honoured (disk : option (list char))
    (helper : TextConfigHelper) (parser : TextParser E) :
  ShouldSkipSequenceIds helper = true →
  TextParser_of_config rows_have_sequence_ids build_index disk helper
  = Ret tt parser →
  m_skipSequenceIds parser = true
  ∧ (∀ fuel chunk descriptor,
       LoadChunk (config parser) BUFFER_SIZE fuel (m_skipSequenceIds parser)
                 chunk descriptor
       = LoadChunk_sequences (E:=E) (config parser) BUFFER_SIZE fuel false chunk
                             (chunk_sequences descriptor))
  ∧ (∀ fuel chunkId,
       (Reader.extent (m_window (state parser)) < fuel)%nat →
       ensures (GetChunk BUFFER_SIZE fuel chunkId parser)
               (λ _ _, True) (λ e _, ∀ id, e ≠ SequenceNotFound id)).
Proof.
  intros Hskip Hinit. unfold TextParser_of_config in Hinit.
  apply Initialize_skip in Hinit as [Hskip' _]; [|done|by rewrite Hskip].
  split; [done|]. split.
  - intros fuel chunk descriptor. unfold LoadChunk. by rewrite Hskip'.
  - intros fuel chunkId Hfuel. unfold GetChunk, attempt.
    destruct (cache_find _ _); [done|].
    destruct (m_indexer parser) as [indexer|]; [|done].
    destruct (m_file parser) as [file|]; [|done].
    destruct (GetIndex indexer !! Z.to_nat chunkId) as [descriptor|]; [|done].
    unfold LoadChunk. rewrite Hskip'. cbn [negb].
    pose proof (LoadChunk_sequences_spec (config parser) BUFFER_SIZE fuel false
                  (chunk_sequences descriptor)
                  (MkChunk ∅ (chunk_id descriptor) 0) (state parser) Hfuel) as H.
    destruct (LoadChunk_sequences _ _ _ _ _ _ _) as [chunk s|e s|];
      cbn [ensures] in *; [done| |done].
    destruct H as [_ He]. intros id ->.
    destruct He as [He|[He|[He|[? _]]]]; done.
Qed.

End SkipSequenceIds.

(** ** Empty rows *)

Lemma is_blank_not_digit c : is_blank c = true → isdigit c = false.
Proof.
  unfold is_blank, isdigit, COLUMN_DELIMITER, VALUE_DELIMITER, CARRIAGE_RETURN.
  lia.
Qed.

Lemma SkipSequenceId_scan_digits digits : ∀ rest b,
  all_digits digits = true → Z.of_nat (length digits) < b →
  match rest with c :: _ => isdigit c = false | [] => True end →
  SkipSequenceId_scan (digits ++ rest) b = (rest, b - Z.of_nat (length digits)).
Proof.
  induction digits as [|d digits IH]; intros rest b Hd Hb Hrest.
  - cbn [app length]. rewrite Z.sub_0_r.
    destruct rest as [|c rest]; cbn [SkipSequenceId_scan].
    + by destruct (b =? 0).
    + rewrite Hrest. by destruct (b =? 0).
  - cbn [all_digits forallb] in Hd. apply andb_prop in Hd as [Hd Hds].
    cbn [app length SkipSequenceId_scan] in *.
    rewrite (proj2 (Z.eqb_neq b 0)), Hd by lia.
    rewrite IH by (done || lia). f_equal. lia.
Qed.

Section EmptyRows.

Context {D E : Type} `{RA : RealArith D E}.
Variable p : Config.

Lemma rows_read_le_state fuel k (sequence : list (InputStreamBuffer E)) b s
    sequence' b' s' :
  rows_read p fuel k sequence b s sequence' b' s' →
  (length (m_pos s) < fuel)%nat → le_state s s'.
Proof.
  induction 1 as [|k sequence b s sequence1 b1 s1 sequence2 b2 s2 Hrow Hb1 _ IH];
    intros Hfuel; [apply le_state_refl|].
  pose proof (TryReadRow_spec p fuel sequence b s Hfuel) as Hspec.
  rewrite Hrow in Hspec. destruct Hspec as [Hle _].
  eapply le_state_trans; [exact Hle|]. apply IH.
  apply le_state_length in Hle. lia.
Qed.

Lemma LoadSequence_rows_after fuel id expectedRowCount k
    (sequence : list (InputStreamBuffer E)) b s sequence' b' s' :
  rows_read p fuel k sequence b s sequence' b' s' →
  ∀ remaining i numRowsRead,
  LoadSequence_rows p fuel id expectedRowCount (k + remaining) i sequence b
                    numRowsRead s
  = LoadSequence_rows p fuel id expectedRowCount remaining (k + i) sequence' b'
                      (k + numRowsRead) s'.
Proof.
  induction 1 as [|k sequence b s sequence1 b1 s1 sequence2 b2 s2 Hrow Hb1 _ IH];
    intros remaining i numRowsRead; [done|].
  cbn [Nat.add LoadSequence_rows]. erewrite bind_Ret by exact Hrow.
  cbn iota beta. unfold bind at 1, ret at 1.
  rewrite (proj2 (Z.eqb_neq b1 0)) by done. cbn [andb].
  rewrite IH. f_equal; lia.
Qed.

End EmptyRows.

(** ** Soft parse anomalies *)


Section SoftAnomalies.

Context {D E : Type} `{RA : RealArith D E}.
Variable p : Config.




(** The loop of [TryReadDenseSample] at the end of a sample. *)
Lemma TryReadDenseSample_loop_end fuel (values : list E) sampleSize counter b s
    c rest :
  m_pos s = c :: rest → b ≠ 0 → ends_sample c = true →
  TryReadDenseSample_loop p (S fuel) values sampleSize counter b s
  = if (sampleSize <? counter)%nat
    then Ret (false, values, b)
             (after_warning p (W_DenseExceeds counter sampleSize) s)
    else if (counter <? sampleSize)%nat
    then Ret (true, values ++ replicate (sampleSize - counter) e_zero, b)
             (after_warning p (W_DenseSparseSuffix sampleSize counter) s)
    else Ret (true, values, b) s.
Proof.
  intros Hpos Hb Hc. cbn [TryReadDenseSample_loop].
  rewrite (proj2 (Z.eqb_neq b 0)), Hpos by done.
  unfold ends_sample in Hc. rewrite Hc.
  destruct (_ <? _)%nat; [unfold bind; by rewrite warn_eq|].
  destruct (_ <? _)%nat; [unfold bind; by rewrite warn_eq|done].
Qed.

(** The loop of [TryReadRow] at the end of a row. *)
Lemma TryReadRow_loop_end fuel (sequence : list (InputStreamBuffer E)) b n s rest :
  m_pos s = ROW_DELIMITER :: rest → b ≠ 0 →
  TryReadRow_loop p (S fuel) sequence b n s
  = Ret ((0 <? n)%nat, sequence, b - 1)
        (if (n =? 0)%nat then after_warning p W_EmptyRow (set_pos rest s)
         else if (length (m_streamInfos p) <? n)%nat
         then after_warning p (W_RowOverfull n (length (m_streamInfos p)))
                            (set_pos rest s)
         else set_pos rest s).
Proof.
  intros Hpos Hb. cbn [TryReadRow_loop].
  rewrite (proj2 (Z.eqb_neq b 0)), Hpos by done.
  change ((ROW_DELIMITER =? COLUMN_DELIMITER) || (ROW_DELIMITER =? VALUE_DELIMITER)
          || (ROW_DELIMITER =? CARRIAGE_RETURN)) with false.
  cbn iota. rewrite Z.eqb_refl. unfold bind, modify.
  destruct (n =? 0)%nat; [by rewrite warn_eq|].
  destruct (_ <? _)%nat; [by rewrite warn_eq|done].
Qed.



End SoftAnomalies.


(** ** The chunk cache *)

(** C8.  With a cache of one chunk, after chunk 0 was loaded and its only
    sequence requested twice (the second time from the cached chunk),
    [numSequencesLeft] of the cached chunk is [SIZE_MAX]: the eviction loop
    of [GetChunk], which looks for a value below [SIZE_MAX], finds no
    candidate, nothing is erased, and the cache holds two chunks, more than
    its size, once chunk 1 is loaded. *)
Theorem GetChunk_cache_exceeds_its_size :
  ∃ chunk parser,
    example_requests = Ret chunk parser
    ∧ m_chunkCacheSize parser = 1
    ∧ m_chunkCacheSize parser < Z.of_nat (length (m_chunkCache parser))
    ∧ m_chunkCache parser = [(0, 0%nat); (1, 1%nat)]
    ∧ (numSequencesLeft <$> chunks parser !! 0%nat) = Some SIZE_MAX
    ∧ GetChunk_candidate (take 1 (chunks parser)) [(0, 0%nat)] SIZE_MAX SIZE_MAX
      = (SIZE_MAX, SIZE_MAX).
Proof.
  eexists _, _. split; [by vm_compute|]. by vm_compute.
Qed.

(** ** The theorems on examples *)

Lemma one_buffer_lookup {E} (data data' : InputStreamBuffer E) id :
  [data] !! id = Some data' → id = 0%nat ∧ data' = data.
Proof. destruct id as [|id]; [by intros [= <-]|by destruct id]. Qed.



(** A parser built with [skip_sequence_ids] set for a file whose rows all
    begin with a sequence id. *)
Lemma skip_sequence_ids_honoured_witness :
  ∃ parser : TextParser Q,
    TextParser_of_config (λ _, true) example_index
      (Some (bytes_of example_file)) (example_helper 1 true) = Ret tt parser
    ∧ m_skipSequenceIds parser = true.
Proof.
  assert (H : ∃ parser : TextParser Q,
            TextParser_of_config (λ _, true) example_index
              (Some (bytes_of example_file)) (example_helper 1 true)
            = Ret tt parser) by (eexists; vm_compute; reflexivity).
  destruct H as [parser H]. exists parser. split; [exact H|].
  exact (proj1 (skip_sequence_ids_honoured (RA:=Q_RealArith) (λ _, true)
                  example_index example_buffer (Some (bytes_of example_file))
                  (example_helper 1 true) parser eq_refl H)).
Defined.

(** ** What holds of the unsigned integer scanner and of the cache *)

Lemma decimal_nonneg ds : ∀ value,
  0 ≤ value → all_digits ds = true → value ≤ decimal value ds.
Proof.
  induction ds as [|d ds IH]; intros value Hv Hds; cbn [decimal fold_left].
  - lia.
  - cbn [all_digits forallb] in Hds. apply andb_prop in Hds as [Hd Hds].
    unfold isdigit in Hd. etrans; [|apply IH; [lia|done]]. lia.
Qed.

(** Digits whose number fits in 64 bits, before a delimiter, are read as
    that number. *)
Lemma TryReadUint64_loop_in_range ds : ∀ value found c rest b,
  0 ≤ value → all_digits ds = true → decimal value ds < 2 ^ 64 →
  isDelimiter c = true → Z.of_nat (length ds) < b →
  TryReadUint64_loop (ds ++ c :: rest) b value found
  = MkScan (if found || negb (Nat.eqb (length ds) 0)
            then Some (decimal value ds) else None)
           (c :: rest) (b - Z.of_nat (length ds)) None.
Proof.
  induction ds as [|d ds IH]; intros value found c rest b Hv Hds Hfit Hc Hb;
    cbn [app TryReadUint64_loop length] in *;
    rewrite (proj2 (Z.eqb_neq b 0)) by lia.
  - assert (isdigit c = false) as ->.
    { unfold isDelimiter, isdigit, VALUE_DELIMITER, NAME_PREFIX,
        COLUMN_DELIMITER, INDEX_DELIMITER, ROW_DELIMITER, CARRIAGE_RETURN in *.
      lia. }
    cbn [negb]. rewrite Hc, orb_false_r. cbn [decimal fold_left].
    f_equal. lia.
  - cbn [all_digits forallb] in Hds. apply andb_prop in Hds as [Hd Hds].
    rewrite Hd. cbn [negb]. cbn [decimal fold_left] in Hfit.
    assert (Hd' : 0 ≤ d - 48 ≤ 9) by (unfold isdigit in Hd; lia).
    pose proof (decimal_nonneg ds (value * 10 + (d - 48))) as Hle.
    assert (Hsmall : wrap64 (value * 10 + (d - 48)) = value * 10 + (d - 48)).
    { unfold wrap64. apply Z.mod_small.
      specialize (Hle ltac:(lia) Hds). fold (decimal (value * 10 + (d - 48)) ds) in Hfit.
      lia. }
    rewrite Hsmall.
    assert ((value >? value * 10 + (d - 48)) = false) as -> by lia.
    rewrite IH; [|lia|done|done|done|lia].
    cbn [orb decimal fold_left]. rewrite orb_true_r. f_equal. lia.
Qed.

Lemma cache_find_elem_of chunkId chunk (cache : ChunkCache) :
  (chunkId, chunk) ∈ cache → is_Some (cache_find chunkId cache).
Proof.
  induction cache as [|[id ptr] cache IH]; intros Hin; [by apply elem_of_nil in Hin|].
  cbn [cache_find]. destruct (Z.eqb_spec id chunkId) as [->|Hne]; [by eexists|].
  apply elem_of_cons in Hin as [[= ? ?]|Hin]; [congruence|by apply IH].
Qed.

Lemma cache_erase_length chunkId (cache : ChunkCache) :
  is_Some (cache_find chunkId cache) →
  S (length (cache_erase chunkId cache)) = length cache.
Proof.
  induction cache as [|[id ptr] cache IH]; cbn [cache_find cache_erase length];
    intros [v Hv]; [done|].
  destruct (id =? chunkId); [done|]. cbn [length]. f_equal. apply IH. by eexists.
Qed.

Lemma cache_assign_length chunkId chunk (cache : ChunkCache) :
  cache_find chunkId cache = None →
  length (cache_assign chunkId chunk cache) = S (length cache).
Proof.
  induction cache as [|[id ptr] cache IH]; cbn [cache_find cache_assign length];
    [done|].
  destruct (id =? chunkId); [done|]. intros Hnone.
  destruct (chunkId <? id); [done|]. cbn [length]. f_equal. by apply IH.
Qed.

Lemma cache_erase_find_None chunkId chunkId' (cache : ChunkCache) :
  cache_find chunkId cache = None →
  cache_find chunkId (cache_erase chunkId' cache) = None.
Proof.
  induction cache as [|[id ptr] cache IH]; cbn [cache_find cache_erase]; [done|].
  destruct (id =? chunkId) eqn:Hid; [done|]. intros Hnone.
  destruct (id =? chunkId'); [done|]. cbn [cache_find]. rewrite Hid. by apply IH.
Qed.

Section Cache.

Context {D E : Type} `{RA : RealArith D E}.
Variable BUFFER_SIZE : positive.

Lemma numSequencesLeft_range (chunk : TextDataChunk E) :
  0 ≤ numSequencesLeft chunk ≤ SIZE_MAX.
Proof.
  unfold numSequencesLeft, SIZE_MAX.
  pose proof (wrap64_range (Z.of_nat (size (m_sequenceMap chunk))
                            - wrap64 (0 + m_sequenceRequestCount chunk))).
  lia.
Qed.

(** The eviction loop: the minimum stays where it was, above or equal to
    every cached chunk, or it is below, the value of a cached chunk and at
    most that of every cached chunk. *)
Lemma GetChunk_candidate_spec (chunks : list (TextDataChunk E)) cache :
  ∀ candidateId minNumSequencesLeft,
  let r := GetChunk_candidate chunks cache candidateId minNumSequencesLeft in
  (∀ id left, cached_left chunks cache id left → r.2 ≤ left)
  ∧ (r = (candidateId, minNumSequencesLeft)
     ∨ (r.2 < minNumSequencesLeft ∧ cached_left chunks cache r.1 r.2)).
Proof.
  induction cache as [|[id ptr] cache IH]; intros cand m; cbn [GetChunk_candidate].
  { split; [|by left]. intros id left (? & ? & Hin & _). by apply elem_of_nil in Hin. }
  assert (Hweaken : ∀ id' left, cached_left chunks cache id' left →
            cached_left chunks ((id, ptr) :: cache) id' left).
  { intros id' left (ptr' & chunk' & Hin & ? & ?). exists ptr', chunk'.
    split; [|done]. apply elem_of_cons. by right. }
  assert (Hcons : ∀ id' left, cached_left chunks ((id, ptr) :: cache) id' left →
            (id' = id ∧ ∃ chunk, chunks !! ptr = Some chunk
                                 ∧ numSequencesLeft chunk = left)
            ∨ cached_left chunks cache id' left).
  { intros id' left (ptr' & chunk' & Hin & ? & ?).
    apply elem_of_cons in Hin as [[= -> ->]|Hin]; [left; eauto|].
    right. by exists ptr', chunk'. }
  destruct (chunks !! ptr) as [chunk|] eqn:Hchunk.
  - destruct (Z.ltb_spec (numSequencesLeft chunk) m) as [Hlt|Hge].
    + specialize (IH id (numSequencesLeft chunk)). cbn zeta in IH.
      destruct IH as [Hmin Hcase]. split.
      * intros id' left Hc. apply Hcons in Hc as [(-> & chunk' & Hc' & <-)|Hc];
          [|by eapply Hmin].
        assert (chunk' = chunk) as -> by congruence.
        destruct Hcase as [->|[? _]]; cbn [snd]; lia.
      * right. destruct Hcase as [->|[Hlt' Hc]]; cbn [fst snd].
        -- split; [done|]. exists ptr, chunk. split; [apply list_elem_of_here|done].
        -- split; [lia|by apply Hweaken].
    + specialize (IH cand m). cbn zeta in IH. destruct IH as [Hmin Hcase]. split.
      * intros id' left Hc. apply Hcons in Hc as [(-> & chunk' & Hc' & <-)|Hc];
          [|by eapply Hmin].
        assert (chunk' = chunk) as -> by congruence.
        destruct Hcase as [->|[? _]]; cbn [snd]; lia.
      * destruct Hcase as [?|[? ?]]; [by left|right]. split; [done|by apply Hweaken].
  - specialize (IH cand m). cbn zeta in IH. destruct IH as [Hmin Hcase]. split.
    + intros id' left Hc. apply Hcons in Hc as [(-> & chunk' & Hc' & <-)|Hc];
        [congruence|by eapply Hmin].
    + destruct Hcase as [?|[? ?]]; [by left|right]. split; [done|by apply Hweaken].
Qed.

(** X24.  With a cache size of zero [GetChunk] puts nothing in the cache:
    a cache that is empty stays empty, and every call that returns has
    loaded the chunk anew, behind the chunks that exist. *)
Theorem GetChunk_cache_disabled fuel chunkId (parser parser' : TextParser E) chunk :
  m_chunkCacheSize parser = 0 → m_chunkCache parser = [] →
  GetChunk BUFFER_SIZE fuel chunkId parser = Ret chunk parser' →
  m_chunkCache parser' = [] ∧ m_chunkCacheSize parser' = 0
  ∧ chunk = length (chunks parser)
  ∧ length (chunks parser') = S (length (chunks parser)).
Proof.
  intros Hsize Hcache. unfold GetChunk, attempt. rewrite Hsize, Hcache.
  cbn [cache_find].
  destruct (m_indexer parser); [|done]. destruct (m_file parser); [|done].
  destruct (_ !! _); [|done]. destruct (LoadChunk _ _ _ _ _ _ _); [|done|done].
  cbn [Z.ltb Z.compare andb]. intros [= <- <-].
  cbn [m_chunkCache m_chunkCacheSize chunks]. rewrite length_app. cbn [length].
  repeat split; try done. lia.
Qed.

(** X25.  As long as a cached chunk has fewer than [SIZE_MAX] sequences
    left, [GetChunk] keeps the cache within its size, and a miss on a full
    cache erases one chunk that has the fewest sequences left before it
    inserts the new one. *)
Theorem GetChunk_cache_bounded fuel chunkId (parser parser' : TextParser E) chunk :
  (Z.of_nat (length (m_chunkCache parser)) ≤ m_chunkCacheSize parser) →
  (∃ id left, cached_left (chunks parser) (m_chunkCache parser) id left
              ∧ left < SIZE_MAX) →
  GetChunk BUFFER_SIZE fuel chunkId parser = Ret chunk parser' →
  Z.of_nat (length (m_chunkCache parser')) ≤ m_chunkCacheSize parser'
  ∧ m_chunkCacheSize parser' = m_chunkCacheSize parser
  ∧ (cache_find chunkId (m_chunkCache parser) = None →
     Z.of_nat (length (m_chunkCache parser)) = m_chunkCacheSize parser →
     ∃ candidateId left,
       cached_left (chunks parser) (m_chunkCache parser) candidateId left
       ∧ (∀ id' left', cached_left (chunks parser) (m_chunkCache parser) id' left'
                       → left ≤ left')
       ∧ m_chunkCache parser'
         = cache_assign chunkId chunk (cache_erase candidateId (m_chunkCache parser))
       ∧ length (m_chunkCache parser') = length (m_chunkCache parser)).
Proof.
  intros Hbound (id0 & left0 & Hcached & Hleft). unfold GetChunk, attempt.
  destruct (cache_find chunkId (m_chunkCache parser)) eqn:Hfind.
  { intros [= <- <-]. done. }
  destruct (m_indexer parser); [|done]. destruct (m_file parser); [|done].
  destruct (_ !! _); [|done]. destruct (LoadChunk _ _ _ _ _ _ _); [|done|done].
  assert (Hpos : (0 <? m_chunkCacheSize parser) = true).
  { apply Z.ltb_lt. destruct Hcached as (ptr & ? & Hin & _).
    destruct (m_chunkCache parser); [by apply elem_of_nil in Hin|].
    cbn [length] in Hbound. lia. }
  rewrite Hpos. cbn [andb].
  pose proof (GetChunk_candidate_spec (chunks parser) (m_chunkCache parser)
                SIZE_MAX SIZE_MAX) as [Hmin Hcase].
  cbn zeta in Hmin, Hcase.
  destruct (GetChunk_candidate (chunks parser) (m_chunkCache parser)
              SIZE_MAX SIZE_MAX) as [candidateId left] eqn:Hcand.
  cbn [fst snd] in *.
  destruct Hcase as [[= -> ->]|[Hlt Hc]].
  { specialize (Hmin _ _ Hcached). lia. }
  assert (Hsome : is_Some (cache_find candidateId (m_chunkCache parser))).
  { destruct Hc as (ptr & ? & Hin & _). by eapply cache_find_elem_of. }
  pose proof (cache_erase_length _ _ Hsome) as Hlen.
  destruct (Z.eqb_spec (Z.of_nat (length (m_chunkCache parser)))
                       (m_chunkCacheSize parser)) as [Hfull|Hnot].
  - intros [= <- <-]. cbn [m_chunkCache m_chunkCacheSize].
    rewrite cache_assign_length by (by apply cache_erase_find_None).
    split; [lia|]. split; [done|]. intros _ _.
    exists candidateId, left. by repeat split.
  - intros [= <- <-]. cbn [m_chunkCache m_chunkCacheSize].
    rewrite cache_assign_length by done.
    split; [lia|]. split; [done|]. intros _ ?. lia.
Qed.

End Cache.

(* ===================================================================== *)
(** * Further properties of the parser *)
(* ===================================================================== *)

(** ** The scanners *)

Lemma decimal_congruence ds : ∀ a b,
  wrap64 a = wrap64 b → wrap64 (decimal a ds) = wrap64 (decimal b ds).
Proof.
  induction ds as [|d ds IH]; intros a b Hab; cbn [decimal fold_left]; [done|].
  apply IH. unfold wrap64 in *.
  rewrite (Z.add_mod (a * 10)), (Z.add_mod (b * 10)) by lia.
  rewrite (Z.mul_mod a), (Z.mul_mod b) by lia. by rewrite Hab.
Qed.

Lemma wrap64_idemp z : wrap64 (wrap64 z) = wrap64 z.
Proof. unfold wrap64. apply Z.mod_mod. lia. Qed.

(** What the loop of [TryReadUint64] has read when it returns [true]. *)
Lemma TryReadUint64_loop_true input : ∀ b value found v,
  sc_result (TryReadUint64_loop input b value found) = Some v →
  ∃ ds c rest,
    input = ds ++ c :: rest ∧ all_digits ds = true ∧ isDelimiter c = true
    ∧ (if ds is [] then found = true ∧ v = value
       else v = wrap64 (decimal value ds))
    ∧ TryReadUint64_loop input b value found
      = MkScan (Some v) (c :: rest) (b - Z.of_nat (length ds)) None
    ∧ b - Z.of_nat (length ds) ≠ 0.
Proof.
  induction input as [|c rest IH]; intros b value found v;
    cbn [TryReadUint64_loop].
  - by destruct (b =? 0).
  - destruct (Z.eqb_spec b 0) as [|Hb]; [done|].
    destruct (isdigit c) eqn:Hdigit; cbn [negb].
    + destruct (_ >? _); [done|]. intros Hv.
      destruct (IH _ _ _ _ Hv) as (ds & c' & rest' & -> & Hds & Hc & Hval & Heq & Hb').
      exists (c :: ds), c', rest'. split; [done|].
      split; [by cbn [all_digits forallb]; rewrite Hdigit|]. split; [done|].
      split; [|split].
      * destruct ds as [|d ds].
        -- destruct Hval as [_ ->]. done.
        -- rewrite Hval. cbn [decimal fold_left].
           apply (decimal_congruence (d :: ds)), wrap64_idemp.
      * rewrite Heq. f_equal. cbn [length]. lia.
      * cbn [length]. lia.
    + destruct (isDelimiter c) eqn:Hdel; [|done]. destruct found; [|done].
      cbn [sc_result]. intros [= <-]. exists [], c, rest.
      repeat split; try done. cbn [length]. f_equal. lia. cbn [length]. lia.
Qed.

(** X1.  Digits that write a number below [2^64], followed by a delimiter
    within the bytes to read, are read by [TryReadUint64] as that number:
    it returns [true], [m_pos] is on the delimiter, [bytesToRead] has gone
    down by the number of digits, and nothing is printed. *)
Theorem TryReadUint64_reads_decimal (p : Config) (s : PState)
    (ds : list char) (c : char) (rest : list char) (b : Z) :
  m_pos s = ds ++ c :: rest → ds ≠ [] → all_digits ds = true →
  decimal 0 ds < 2 ^ 64 → isDelimiter c = true → Z.of_nat (length ds) < b →
  TryReadUint64 p b s
  = Ret (Some (decimal 0 ds), b - Z.of_nat (length ds)) (set_pos (c :: rest) s).
Proof.
  intros Hpos Hne Hds Hfit Hc Hb. unfold TryReadUint64.
  rewrite run_scan_eq. unfold TryReadUint64_scan. rewrite Hpos.
  rewrite TryReadUint64_loop_in_range by (done || lia).
  destruct ds; [done|]. done.
Qed.

(** X2.  Whenever [TryReadUint64] returns [true], it has read one or more
    digits, [m_pos] is on the delimiter that follows them, still within the
    bytes to read, nothing was printed, and the value is the number the
    digits write modulo [2^64]. *)
Theorem TryReadUint64_true_inv (p : Config) (s s' : PState) (b b' v : Z) :
  TryReadUint64 p b s = Ret (Some v, b') s' →
  ∃ ds c rest,
    m_pos s = ds ++ c :: rest ∧ ds ≠ [] ∧ all_digits ds = true
    ∧ isDelimiter c = true ∧ v = wrap64 (decimal 0 ds)
    ∧ b' = b - Z.of_nat (length ds) ∧ b' ≠ 0 ∧ s' = set_pos (c :: rest) s.
Proof.
  unfold TryReadUint64. rewrite run_scan_eq. unfold TryReadUint64_scan.
  intros [= Hres Hbytes Hs].
  destruct (TryReadUint64_loop_true _ _ _ _ _ Hres)
    as (ds & c & rest & Hpos & Hds & Hc & Hval & Heq & Hb').
  rewrite Heq in Hbytes, Hs. cbn [sc_bytes sc_rest sc_warning] in *.
  exists ds, c, rest. destruct ds as [|d ds]; [by destruct Hval|].
  subst b' s'. by repeat split.
Qed.

Section RealNumberOutcome.

Context {D E : Type} `{RA : RealArith D E}.

(** The bytes that the loop of [TryReadRealNumber] takes: one for each unit
    of [bytesToRead], and on [true] a byte is left unread within the bytes
    to read. *)
Lemma TryReadRealNumber_loop_taken input : ∀ b state co num dv neg,
  ∃ taken,
    input = taken ++ sc_rest (TryReadRealNumber_loop (E:=E) input b state co num dv neg)
    ∧ sc_bytes (TryReadRealNumber_loop (E:=E) input b state co num dv neg)
      = b - Z.of_nat (length taken)
    ∧ (0 ≤ b →
       0 ≤ sc_bytes (TryReadRealNumber_loop (E:=E) input b state co num dv neg))
    ∧ (is_Some (sc_result (TryReadRealNumber_loop (E:=E) input b state co num dv neg)) →
       sc_rest (TryReadRealNumber_loop (E:=E) input b state co num dv neg) ≠ []
       ∧ sc_bytes (TryReadRealNumber_loop (E:=E) input b state co num dv neg) ≠ 0).
Proof.
  induction input as [|c rest IH]; intros b state co num dv neg;
    cbn [TryReadRealNumber_loop].
  - exists []. destruct (b =? 0); cbn [sc_rest sc_bytes sc_result app length];
      (split; [done|]; split; [lia|]; split; [done|]; by intros [? ?]).
  - destruct (Z.eqb_spec b 0) as [Hb|Hb].
    { exists []. cbn [sc_rest sc_bytes sc_result app length].
      split; [done|]. split; [lia|]. split; [done|]. by intros [? ?]. }
    destruct state; destruct_ifs;
      lazymatch goal with
      | |- context [TryReadRealNumber_loop rest (b - 1) ?st ?x ?y ?z ?n] =>
          destruct (IH (b - 1) st x y z n) as (taken & Heq & Hbytes & Hpos & Hsome);
          exists (c :: taken); cbn [app length];
          (split; [by rewrite <- Heq|]); (split; [lia|]);
          (split; [intros; apply Hpos; lia|done])
      | |- _ =>
          exists []; cbn [sc_rest sc_bytes sc_result app length];
          (split; [done|]); (split; [lia|]); (split; [done|]);
          first [by intros [? ?] | done]
      end.
Qed.

(** X3.  [TryReadRealNumber] always returns, having taken one byte for each
    unit of [bytesToRead].  When it returns [true] it has read at least one
    byte, printed nothing, and left [m_pos] on a byte that is still within
    the bytes to read; when it returns [false] a warning was due. *)
Theorem TryReadRealNumber_outcome (p : Config) (s : PState) (b : Z) :
  ∃ r b' s' taken,
    TryReadRealNumber (E:=E) p b s = Ret (r, b') s'
    ∧ m_pos s = taken ++ m_pos s' ∧ b' = b - Z.of_nat (length taken)
    ∧ match r with
      | Some _ =>
          taken ≠ [] ∧ m_pos s' ≠ [] ∧ b' ≠ 0 ∧ s' = set_pos (m_pos s') s
      | None => ∃ w, s' = after_warning p w (set_pos (m_pos s') s)
      end.
Proof.
  unfold TryReadRealNumber. rewrite run_scan_eq.
  pose proof (TryReadRealNumber_loop_taken (m_pos s) b Init
                (d_of_int 0) (d_of_int 0) (d_of_int 0) false)
    as (taken & Heq & Hbytes & _ & Hsome).
  pose proof (TryReadRealNumber_loop_warning (E:=E) (m_pos s) b Init
                (d_of_int 0) (d_of_int 0) (d_of_int 0) false) as Hwarn.
  pose proof (TryReadRealNumber_scan_Some (E:=E) (m_pos s) b) as Hfirst.
  fold (TryReadRealNumber_scan (E:=E) (m_pos s) b) in *.
  destruct (TryReadRealNumber_scan (E:=E) (m_pos s) b) as [[v|] rest' b' w];
    cbn [sc_result sc_rest sc_bytes sc_warning] in *.
  - subst w. eexists (Some v), b', _, taken. split; [done|].
    cbn [m_pos set_pos]. split; [done|]. split; [done|].
    destruct (Hsome ltac:(by eexists)) as [Hrest Hb']. split; [|done].
    destruct (Hfirst v eq_refl) as (c & rest & Hpos & Hsuf).
    intros ->. cbn [app] in Heq. apply suffix_length in Hsuf.
    rewrite Hpos in Heq. rewrite <- Heq in Hsuf. cbn [length] in Hsuf. lia.
  - destruct Hwarn as [w' ->]. eexists None, b', _, taken. split; [done|].
    cbn [m_pos after_warning set_pos]. split; [done|]. split; [done|].
    by exists w'.
Qed.

End RealNumberOutcome.

(** What the loop of [TryGetInputId] has read when it returns [true]. *)
Lemma TryGetInputId_loop_true aliasToIdMap maxAliasLength input :
  ∀ b scratch id,
  (length scratch ≤ maxAliasLength)%nat →
  sc_result (TryGetInputId_loop aliasToIdMap maxAliasLength input b scratch)
  = Some id →
  ∃ name c rest,
    input = name ++ c :: rest ∧ scratch ++ name ≠ []
    ∧ (length (scratch ++ name) ≤ maxAliasLength)%nat
    ∧ forallb (λ x, negb (ends_name x)) name = true ∧ ends_name c = true
    ∧ aliasToIdMap !! (scratch ++ name) = Some id
    ∧ TryGetInputId_loop aliasToIdMap maxAliasLength input b scratch
      = MkScan (Some id) (c :: rest) (b - Z.of_nat (length name)) None
    ∧ b - Z.of_nat (length name) ≠ 0.
Proof.
  induction input as [|c rest IH]; intros b scratch id Hlen;
    cbn [TryGetInputId_loop].
  - by destruct (b =? 0).
  - destruct (Z.eqb_spec b 0) as [|Hb]; [done|].
    destruct ((c <=? VALUE_DELIMITER) || (c =? NAME_PREFIX)) eqn:Hc.
    + destruct scratch as [|x scratch']; [done|].
      destruct (aliasToIdMap !! (x :: scratch')) as [id'|] eqn:Hmap; [|done].
      cbn [sc_result]. intros [= ->]. exists [], c, rest.
      rewrite app_nil_r. cbn [app length forallb].
      repeat split; try done. f_equal. lia. lia.
    + destruct (Nat.ltb_spec (length scratch) maxAliasLength) as [Hlt|]; [|done].
      intros Hid. destruct (IH (b - 1) (scratch ++ [c]) id) as
        (name & c' & rest' & -> & Hne & Hlen' & Hname & Hc' & Hmap & Heq & Hb');
        [rewrite length_app; cbn [length]; lia|done|].
      rewrite <- app_assoc in Hne, Hlen', Hmap. cbn [app] in Hne, Hlen', Hmap.
      exists (c :: name), c', rest'. cbn [app length forallb].
      unfold ends_name at 1. rewrite Hc. cbn [negb andb].
      repeat split; try done.
      * rewrite Heq. f_equal. lia.
      * lia.
Qed.

(** X4.  Whenever [TryGetInputId] returns [true], it has read a name of one
    byte at least and [m_maxAliasLength] bytes at most, none of which ends a
    name, that the alias map has with the id returned; [m_pos] is on the
    byte that ends the name, still within the bytes to read, and nothing was
    printed. *)
Theorem TryGetInputId_true_inv (p : Config) (s s' : PState) (b b' : Z) (id : nat) :
  TryGetInputId p b s = Ret (Some id, b') s' →
  ∃ name c rest,
    m_pos s = name ++ c :: rest ∧ name ≠ []
    ∧ (length name ≤ m_maxAliasLength p)%nat
    ∧ forallb (λ x, negb (ends_name x)) name = true ∧ ends_name c = true
    ∧ m_aliasToIdMap p !! name = Some id
    ∧ b' = b - Z.of_nat (length name) ∧ b' ≠ 0 ∧ s' = set_pos (c :: rest) s.
Proof.
  unfold TryGetInputId. rewrite run_scan_eq. intros [= Hres Hbytes Hs].
  destruct (TryGetInputId_loop_true _ _ _ _ [] _ (Nat.le_0_l _) Hres)
    as (name & c & rest & Hpos & Hne & Hlen & Hname & Hc & Hmap & Heq & Hb').
  rewrite Heq in Hbytes, Hs. cbn [sc_bytes sc_rest sc_warning app] in *.
  exists name, c, rest. subst b' s'. by repeat split.
Qed.

(** The loop of [TryGetInputId] on a name that the alias map has. *)
Lemma TryGetInputId_loop_known aliasToIdMap maxAliasLength name :
  ∀ scratch c rest b id,
  forallb (λ x, negb (ends_name x)) name = true →
  (length (scratch ++ name) ≤ maxAliasLength)%nat →
  ends_name c = true → scratch ++ name ≠ [] →
  aliasToIdMap !! (scratch ++ name) = Some id →
  Z.of_nat (length name) < b →
  TryGetInputId_loop aliasToIdMap maxAliasLength (name ++ c :: rest) b scratch
  = MkScan (Some id) (c :: rest) (b - Z.of_nat (length name)) None.
Proof.
  induction name as [|x name IH]; intros scratch c rest b id Hname Hlen Hc Hne Hmap Hb;
    cbn [app TryGetInputId_loop length] in *;
    rewrite (proj2 (Z.eqb_neq b 0)) by lia.
  - unfold ends_name in Hc. rewrite Hc. rewrite app_nil_r in *.
    destruct scratch; [done|]. rewrite Hmap. f_equal. lia.
  - cbn [forallb] in Hname. apply andb_prop in Hname as [Hx Hname].
    apply negb_true_iff in Hx. unfold ends_name in Hx. rewrite Hx.
    rewrite length_app in Hlen. cbn [length] in Hlen.
    rewrite (proj2 (Nat.ltb_lt _ _)) by lia.
    replace (scratch ++ x :: name) with ((scratch ++ [x]) ++ name) in *
      by (by rewrite <- app_assoc).
    rewrite (IH _ _ _ _ id); [f_equal; lia|done| |done|done|done|lia].
    rewrite !length_app. cbn [length]. lia.
Qed.

(** The bytes that [SkipToNextInput] passes over. *)
Lemma SkipToNextInput_scan_skipped input : ∀ b,
  ∃ skipped,
    input = skipped ++ fst (SkipToNextInput_scan input b)
    ∧ snd (SkipToNextInput_scan input b) = b - Z.of_nat (length skipped)
    ∧ forallb (λ c, negb (starts_input c)) skipped = true
    ∧ (0 ≤ b → 0 ≤ snd (SkipToNextInput_scan input b))
    ∧ (snd (SkipToNextInput_scan input b) = 0
       ∨ match fst (SkipToNextInput_scan input b) with
         | [] => True
         | c :: _ => starts_input c = true
         end).
Proof.
  induction input as [|c rest IH]; intros b; cbn [SkipToNextInput_scan].
  - exists []. destruct (b =? 0); cbn [fst snd app length forallb];
      (split; [done|]); (split; [lia|]); (split; [done|]); (split; [done|]);
      by right.
  - destruct (Z.eqb_spec b 0) as [->|Hb].
    { exists []. cbn [fst snd app length forallb].
      split; [done|]. split; [lia|]. split; [done|]. split; [done|]. by left. }
    fold (starts_input c). destruct (starts_input c) eqn:Hc.
    + exists []. cbn [fst snd app length forallb].
      split; [done|]. split; [lia|]. split; [done|]. split; [done|]. by right.
    + destruct (IH (b - 1)) as (skipped & Heq & Hbytes & Hall & Hpos & Hend).
      exists (c :: skipped). cbn [app length forallb]. rewrite Hc. cbn [negb andb].
      split; [by rewrite <- Heq|]. split; [lia|]. split; [done|].
      split; [intros; apply Hpos; lia|done].
Qed.

(** X5.  [SkipToNextInput] passes over bytes that are neither a name prefix
    nor a row delimiter, one for each unit of [bytesToRead], and stops on
    the first name prefix or row delimiter, at the end of the input or when
    no byte is left to read; it prints nothing. *)
Theorem SkipToNextInput_stops (s : PState) (b : Z) :
  ∃ skipped b' s',
    SkipToNextInput b s = Ret b' s'
    ∧ m_pos s = skipped ++ m_pos s' ∧ s' = set_pos (m_pos s') s
    ∧ b' = b - Z.of_nat (length skipped)
    ∧ forallb (λ c, negb (starts_input c)) skipped = true
    ∧ (b' = 0 ∨ match m_pos s' with
                | [] => True
                | c :: _ => starts_input c = true
                end).
Proof.
  destruct (SkipToNextInput_scan_skipped (m_pos s) b)
    as (skipped & Heq & Hbytes & Hall & _ & Hend).
  exists skipped, (snd (SkipToNextInput_scan (m_pos s) b)),
    (set_pos (fst (SkipToNextInput_scan (m_pos s) b)) s).
  unfold SkipToNextInput. cbn [m_pos set_pos]. by repeat split.
Qed.

(** ** The constructor and the input names *)

Lemma TextParser_streams_max streams : ∀ i maxAliasLength aliasToIdMap,
  (maxAliasLength ≤ (TextParser_streams streams i maxAliasLength aliasToIdMap).1)%nat
  ∧ ∀ stream, stream ∈ streams →
      (length (m_alias stream)
       ≤ (TextParser_streams streams i maxAliasLength aliasToIdMap).1)%nat.
Proof.
  induction streams as [|stream streams IH]; intros i m map;
    cbn [TextParser_streams fst].
  - split; [done|]. intros ? Hin. by apply elem_of_nil in Hin.
  - destruct (IH (S i)
                (if (m <? length (m_alias stream))%nat
                 then length (m_alias stream) else m)
                (<[m_alias stream := i]> map)) as [Hle Hall].
    split.
    + destruct (Nat.ltb_spec m (length (m_alias stream))); lia.
    + intros stream' Hin. apply elem_of_cons in Hin as [->|Hin]; [|by apply Hall].
      destruct (Nat.ltb_spec m (length (m_alias stream))); lia.
Qed.

Lemma TextParser_streams_lookup_other streams alias : ∀ i maxAliasLength aliasToIdMap,
  (∀ stream, stream ∈ streams → m_alias stream ≠ alias) →
  (TextParser_streams streams i maxAliasLength aliasToIdMap).2 !! alias
  = aliasToIdMap !! alias.
Proof.
  induction streams as [|stream streams IH]; intros i m map Hother;
    cbn [TextParser_streams snd]; [done|].
  rewrite IH.
  - apply lookup_insert_ne, Hother, list_elem_of_here.
  - intros stream' Hin. apply Hother, elem_of_cons. by right.
Qed.

Lemma TextParser_streams_lookup_last streams : ∀ i maxAliasLength aliasToIdMap j stream,
  streams !! j = Some stream →
  (∀ j' stream', (j < j')%nat → streams !! j' = Some stream' →
                 m_alias stream' ≠ m_alias stream) →
  (TextParser_streams streams i maxAliasLength aliasToIdMap).2 !! m_alias stream
  = Some (i + j)%nat.
Proof.
  induction streams as [|stream0 streams IH]; intros i m map j stream Hj Hlast;
    cbn [TextParser_streams]; [done|].
  destruct j as [|j].
  - injection Hj as ->. rewrite TextParser_streams_lookup_other.
    + rewrite lookup_insert_eq. f_equal. lia.
    + intros stream' Hin. apply list_elem_of_lookup in Hin as [j' Hj'].
      by apply (Hlast (S j') stream'); [lia|].
  - cbn [lookup list_lookup] in Hj. rewrite (IH _ _ _ j stream Hj).
    + f_equal. lia.
    + intros j' stream' Hlt Hj'. apply (Hlast (S j') stream'); [lia|done].
Qed.

Lemma TextParser_streams_ids streams : ∀ i maxAliasLength aliasToIdMap alias id,
  (TextParser_streams streams i maxAliasLength aliasToIdMap).2 !! alias = Some id →
  aliasToIdMap !! alias = Some id ∨ (i ≤ id < i + length streams)%nat.
Proof.
  induction streams as [|stream streams IH]; intros i m map alias id;
    cbn [TextParser_streams snd length]; [by left|].
  intros Hid. apply IH in Hid as [Hid|Hid]; [|right; lia].
  destruct (decide (m_alias stream = alias)) as [<-|Hne].
  - rewrite lookup_insert_eq in Hid. injection Hid as <-. right. lia.
  - rewrite lookup_insert_ne in Hid by done. by left.
Qed.

(** The alias map that the constructor builds has ids of streams only. *)
Lemma TextParser_new_valid_ids {E : Type} filename streams :
  valid_ids (config (TextParser_new (E:=E) filename streams)).
Proof.
  intros alias id. cbn. rewrite length_map. intros Hid.
  apply TextParser_streams_ids in Hid as [Hid|Hid]; [done|lia].
Qed.

(** X6.  The constructor and [TryGetInputId] agree on the aliases: the
    alias of the stream number [j], when no later stream has the same alias
    and the alias is one byte at least and holds no byte that ends a name,
    is read by [TryGetInputId] as the id [j], whose [StreamInfo] has the
    storage type and the dimension that the stream was declared with. *)
Theorem declared_alias_is_recognised {E : Type} (filename : string)
    (streams : list StreamDescriptor) (j : nat) (stream : StreamDescriptor)
    (s : PState) (c : char) (rest : list char) (b : Z) :
  streams !! j = Some stream →
  (∀ j' stream', (j < j')%nat → streams !! j' = Some stream' →
                 m_alias stream' ≠ m_alias stream) →
  m_alias stream ≠ [] →
  forallb (λ x, negb (ends_name x)) (m_alias stream) = true →
  m_pos s = m_alias stream ++ c :: rest → ends_name c = true →
  Z.of_nat (length (m_alias stream)) < b →
  TryGetInputId (config (TextParser_new (E:=E) filename streams)) b s
  = Ret (Some j, b - Z.of_nat (length (m_alias stream))) (set_pos (c :: rest) s)
  ∧ m_streamInfos (config (TextParser_new (E:=E) filename streams)) !! j
    = Some {| m_type := m_storageType stream;
              m_sampleDimension := sd_sampleDimension stream |}.
Proof.
  intros Hj Hlast Hne Hname Hpos Hc Hb. split.
  - unfold TryGetInputId. rewrite run_scan_eq, Hpos.
    rewrite (TryGetInputId_loop_known _ _ (m_alias stream) [] c rest b j);
      [done|done| |done|done| |done].
    + cbn. apply TextParser_streams_max, list_elem_of_lookup. by exists j.
    + cbn. by rewrite (TextParser_streams_lookup_last streams 0 0 ∅ j stream).
  - cbn. by rewrite list_lookup_fmap, Hj.
Qed.

(** ** The bytes that a sequence is read from *)

Lemma consumed_refl s s' b : m_pos s' = m_pos s → 0 ≤ b → consumed s s' b b.
Proof. intros Hpos Hb. exists []. rewrite Hpos. cbn [app length]. split; [done|lia]. Qed.

Lemma consumed_trans s1 s2 s3 b1 b2 b3 :
  consumed s1 s2 b1 b2 → consumed s2 s3 b2 b3 → consumed s1 s3 b1 b3.
Proof.
  intros (t1 & H1 & -> & ?) (t2 & H2 & -> & ?). exists (t1 ++ t2).
  rewrite H1, H2, <- app_assoc, length_app. split; [done|lia].
Qed.

Lemma consumed_cons s s' c b :
  m_pos s = c :: m_pos s' → 0 < b → consumed s s' b (b - 1).
Proof. intros Hpos Hb. exists [c]. rewrite Hpos. cbn [app length]. split; [done|lia]. Qed.

Lemma consumed_within s s' b b' : consumed s s' b b' → within s s' b.
Proof. intros (taken & ? & -> & ?). exists taken. split; [done|lia]. Qed.

Lemma consumed_within_trans s1 s2 s3 b1 b2 :
  consumed s1 s2 b1 b2 → within s2 s3 b2 → within s1 s3 b1.
Proof.
  intros (t1 & H1 & -> & ?) (t2 & H2 & ?). exists (t1 ++ t2).
  rewrite H1, H2, <- app_assoc, length_app. split; [done|lia].
Qed.

Lemma consumed_le s s' b b' : consumed s s' b b' → 0 ≤ b' ≤ b.
Proof. intros (taken & _ & -> & ?). lia. Qed.

Lemma consumed_pos s s' t t' b b' :
  m_pos t = m_pos s → m_pos t' = m_pos s' → consumed s s' b b' → consumed t t' b b'.
Proof. unfold consumed. by intros -> ->. Qed.

Lemma within_pos s s' t t' b :
  m_pos t = m_pos s → m_pos t' = m_pos s' → within s s' b → within t t' b.
Proof. unfold within. by intros -> ->. Qed.

Lemma m_pos_with_notification p s : m_pos (with_notification p s) = m_pos s.
Proof. unfold with_notification. by destruct (_ && _). Qed.

(** [IncrementNumberOfErrorsOrDie] leaves [m_pos] where it is. *)
Lemma IncrementNumberOfErrorsOrDie_m_pos p s :
  ensures (IncrementNumberOfErrorsOrDie p s)
    (λ _ s', m_pos s' = m_pos s)
    (λ e s', m_pos s' = m_pos s ∧ budget_exhausted p e).
Proof.
  eapply ensures_mono; [apply IncrementNumberOfErrorsOrDie_spec| |].
  - by intros _ s' [-> _].
  - intros e s' (He & -> & _). split; [apply m_pos_with_notification|done].
Qed.

(** A scanner that takes one byte for each unit of [bytesToRead]. *)
Lemma run_scan_consumed {A} p (scan : list char → Scan A) s b :
  (∃ taken, m_pos s = taken ++ sc_rest (scan (m_pos s))
            ∧ sc_bytes (scan (m_pos s)) = b - Z.of_nat (length taken)
            ∧ 0 ≤ sc_bytes (scan (m_pos s))) →
  ∃ s', run_scan p scan s
        = Ret (sc_result (scan (m_pos s)), sc_bytes (scan (m_pos s))) s'
        ∧ consumed s s' b (sc_bytes (scan (m_pos s)))
        ∧ m_pos s' = sc_rest (scan (m_pos s)).
Proof.
  intros (taken & Hpos & Hbytes & Hle). rewrite run_scan_eq. eexists.
  split; [done|].
  assert (Hrest : ∀ s', m_pos s' = sc_rest (scan (m_pos s)) →
            consumed s s' b (sc_bytes (scan (m_pos s)))).
  { intros s' Hs'. exists taken. by rewrite Hs'. }
  destruct (sc_warning (scan (m_pos s))); (split; [by apply Hrest|done]).
Qed.

Lemma TryReadUint64_loop_taken input : ∀ b value found,
  ∃ taken,
    input = taken ++ sc_rest (TryReadUint64_loop input b value found)
    ∧ sc_bytes (TryReadUint64_loop input b value found)
      = b - Z.of_nat (length taken)
    ∧ (0 ≤ b → 0 ≤ sc_bytes (TryReadUint64_loop input b value found)).
Proof.
  induction input as [|c rest IH]; intros b value found; cbn [TryReadUint64_loop].
  - exists []. destruct (b =? 0); cbn [sc_rest sc_bytes app length];
      (split; [done|split; [lia|done]]).
  - destruct (Z.eqb_spec b 0) as [Hb|Hb].
    { exists []. cbn [sc_rest sc_bytes app length]. split; [done|]. split; [lia|done]. }
    destruct (isdigit c); cbn [negb].
    + destruct (_ >? _).
      { exists []. cbn [sc_rest sc_bytes app length]. split; [done|]. split; [lia|done]. }
      destruct (IH (b - 1) (wrap64 (value * 10 + (c - 48))) true)
        as (taken & Heq & Hbytes & Hpos).
      exists (c :: taken). cbn [app length]. split; [by rewrite <- Heq|].
      split; [lia|]. intros. apply Hpos. lia.
    + exists []. destruct (isDelimiter c); cbn [sc_rest sc_bytes app length];
        (split; [done|split; [lia|done]]).
Qed.

Lemma TryGetInputId_loop_taken aliasToIdMap maxAliasLength input : ∀ b scratch,
  ∃ taken,
    input = taken ++ sc_rest (TryGetInputId_loop aliasToIdMap maxAliasLength
                                                 input b scratch)
    ∧ sc_bytes (TryGetInputId_loop aliasToIdMap maxAliasLength input b scratch)
      = b - Z.of_nat (length taken)
    ∧ (0 ≤ b →
       0 ≤ sc_bytes (TryGetInputId_loop aliasToIdMap maxAliasLength input b scratch)).
Proof.
  induction input as [|c rest IH]; intros b scratch; cbn [TryGetInputId_loop].
  - exists []. destruct (b =? 0); cbn [sc_rest sc_bytes app length];
      (split; [done|split; [lia|done]]).
  - destruct (Z.eqb_spec b 0) as [Hb|Hb].
    { exists []. cbn [sc_rest sc_bytes app length]. split; [done|]. split; [lia|done]. }
    destruct (_ || _).
    + exists []. destruct scratch; [|destruct (aliasToIdMap !! _)];
        cbn [sc_rest sc_bytes app length]; (split; [done|split; [lia|done]]).
    + destruct (_ <? _)%nat.
      * destruct (IH (b - 1) (scratch ++ [c])) as (taken & Heq & Hbytes & Hpos).
        exists (c :: taken). cbn [app length]. split; [by rewrite <- Heq|].
        split; [lia|]. intros. apply Hpos. lia.
      * exists []. cbn [sc_rest sc_bytes app length]. split; [done|]. split; [lia|done].
Qed.

Lemma SkipSequenceId_scan_taken input : ∀ b,
  ∃ taken,
    input = taken ++ fst (SkipSequenceId_scan input b)
    ∧ snd (SkipSequenceId_scan input b) = b - Z.of_nat (length taken)
    ∧ (0 ≤ b → 0 ≤ snd (SkipSequenceId_scan input b)).
Proof.
  induction input as [|c rest IH]; intros b; cbn [SkipSequenceId_scan].
  - exists []. destruct (b =? 0); cbn [fst snd app length];
      (split; [done|split; [lia|done]]).
  - destruct (Z.eqb_spec b 0) as [Hb|Hb].
    { exists []. cbn [fst snd app length]. split; [done|]. split; [lia|done]. }
    destruct (isdigit c).
    + destruct (IH (b - 1)) as (taken & Heq & Hbytes & Hpos).
      exists (c :: taken). cbn [app length]. split; [by rewrite <- Heq|].
      split; [lia|]. intros. apply Hpos. lia.
    + exists []. cbn [fst snd app length]. split; [done|]. split; [lia|done].
Qed.

Section BytesRead.

Context {D E : Type} `{RA : RealArith D E}.
Variable p : Config.

Lemma TryReadRealNumber_consumed b s :
  0 ≤ b →
  ∃ r b' s',
    TryReadRealNumber (E:=E) p b s = Ret (r, b') s' ∧ consumed s s' b b'
    ∧ (is_Some r → (length (m_pos s') < length (m_pos s))%nat).
Proof.
  intros Hb. unfold TryReadRealNumber.
  destruct (TryReadRealNumber_loop_taken (E:=E) (m_pos s) b Init
              (d_of_int 0) (d_of_int 0) (d_of_int 0) false)
    as (taken & Heq & Hbytes & Hpos & _).
  destruct (run_scan_consumed p (λ input, TryReadRealNumber_scan (E:=E) input b) s b)
    as (s' & Hrun & Hcons & Hrest).
  { exists taken. split; [done|]. split; [done|]. by apply Hpos. }
  eexists _, _, s'. split; [exact Hrun|]. split; [done|].
  intros [v Hv]. apply TryReadRealNumber_scan_Some in Hv as (c & rest & Hs & Hsuf).
  apply suffix_length in Hsuf. rewrite Hrest.
  apply (f_equal length) in Hs. cbn [length] in Hs. lia.
Qed.

Lemma TryReadUint64_consumed b s :
  0 ≤ b →
  ∃ r b' s',
    TryReadUint64 p b s = Ret (r, b') s' ∧ consumed s s' b b'
    ∧ (is_Some r →
       (length (m_pos s') < length (m_pos s))%nat ∧ m_pos s' ≠ [] ∧ b' ≠ 0).
Proof.
  intros Hb. unfold TryReadUint64.
  destruct (TryReadUint64_loop_taken (m_pos s) b 0 false)
    as (taken & Heq & Hbytes & Hpos).
  destruct (run_scan_consumed p (λ input, TryReadUint64_scan input b) s b)
    as (s' & Hrun & Hcons & Hrest).
  { exists taken. split; [done|]. split; [done|]. by apply Hpos. }
  eexists _, _, s'. split; [exact Hrun|]. split; [done|].
  intros [v Hv].
  destruct (TryReadUint64_loop_true _ _ _ _ _ Hv)
    as (ds & c & rest & Hs & _ & _ & Hval & Hloop & Hb').
  unfold TryReadUint64_scan in *. rewrite Hrest, Hloop. cbn [sc_rest sc_bytes].
  split; [|done]. rewrite Hs. destruct ds as [|d ds]; [by destruct Hval|].
  rewrite length_app. cbn [length]. lia.
Qed.

Lemma TryGetInputId_consumed b s :
  0 ≤ b →
  ∃ r b' s',
    TryGetInputId p b s = Ret (r, b') s' ∧ consumed s s' b b'
    ∧ ∀ id, r = Some id → ∃ name, m_aliasToIdMap p !! name = Some id.
Proof.
  intros Hb. unfold TryGetInputId.
  destruct (TryGetInputId_loop_taken (m_aliasToIdMap p) (m_maxAliasLength p)
              (m_pos s) b []) as (taken & Heq & Hbytes & Hpos).
  destruct (run_scan_consumed p
              (λ input, TryGetInputId_loop (m_aliasToIdMap p) (m_maxAliasLength p)
                                           input b []) s b)
    as (s' & Hrun & Hcons & Hrest).
  { exists taken. split; [done|]. split; [done|]. by apply Hpos. }
  eexists _, _, s'. split; [exact Hrun|]. split; [done|].
  intros id Hid.
  pose proof (TryGetInputId_loop_result (m_aliasToIdMap p) (m_maxAliasLength p)
                (m_pos s) b []) as Hres.
  by rewrite Hid in Hres.
Qed.

(** The end of a loop whose input is exhausted. *)
Lemma ensures_exhausted_consumed {A} (w : Msg) (a : A) s b
    (Q : A → PState → Prop) :
  0 ≤ b → (∀ s', m_pos s' = m_pos s → Q a s') →
  ensures ((IncrementNumberOfErrorsOrDie p;; warn p w;; ret a) s) Q
          (λ e s', within s s' b ∧ budget_exhausted p e).
Proof.
  intros Hb HQ. apply ensures_bind.
  eapply ensures_mono; [apply IncrementNumberOfErrorsOrDie_m_pos| |].
  - intros [] s1 Hs1. cbn beta in Hs1. apply ensures_warn_ret. by apply HQ.
  - intros e s1 [Hs1 He]. split; [|done].
    eapply consumed_within, consumed_refl; [done|lia].
Qed.

Lemma TryReadDenseSample_loop_consumed fuel : ∀ values sampleSize counter b s,
  (length (m_pos s) < fuel)%nat → 0 ≤ b →
  ensures (TryReadDenseSample_loop p fuel values sampleSize counter b s)
    (λ r s', consumed s s' b r.2)
    (λ e s', within s s' b ∧ budget_exhausted p e).
Proof.
  induction fuel as [|fuel IH]; intros values sampleSize counter b s Hfuel Hb;
    [lia|].
  cbn [TryReadDenseSample_loop].
  assert (Hexh : ensures
    ((IncrementNumberOfErrorsOrDie p;; warn p W_DenseExhausted;;
      ret (false, values, b)) s)
    (λ r s', consumed s s' b r.2)
    (λ e s', within s s' b ∧ budget_exhausted p e)).
  { apply ensures_exhausted_consumed; [done|]. intros s' Hs'.
    by apply consumed_refl. }
  destruct (Z.eqb_spec b 0) as [|Hb0]; [done|].
  destruct (m_pos s) as [|c rest] eqn:Hpos; [done|].
  destruct (_ || _).
  - destruct (sampleSize <? counter)%nat.
    + apply ensures_warn_ret. by apply consumed_refl.
    + destruct (counter <? sampleSize)%nat.
      * apply ensures_warn_ret. by apply consumed_refl.
      * by apply consumed_refl.
  - destruct (c =? VALUE_DELIMITER).
    + assert (Hstep : consumed s (set_pos rest s) b (b - 1)).
      { apply (consumed_cons _ _ c); [done|lia]. }
      eapply ensures_mono; [apply IH| |].
      * cbn [m_pos set_pos]. cbn [length] in Hfuel. lia.
      * lia.
      * intros r s' Hcons. by eapply consumed_trans.
      * intros e s' [Hw He]. split; [|done]. by eapply consumed_within_trans.
    + destruct (TryReadRealNumber_consumed b s Hb)
        as ([value|] & b' & s1 & Hrun & Hcons & Hlt).
      * erewrite bind_Ret by exact Hrun.
        eapply ensures_mono; [apply IH| |].
        -- specialize (Hlt ltac:(by eexists)). rewrite Hpos in Hlt. lia.
        -- apply consumed_le in Hcons. lia.
        -- intros r s' Hcons'. by eapply consumed_trans.
        -- intros e s' [Hw He]. split; [|done]. by eapply consumed_within_trans.
      * erewrite bind_Ret by exact Hrun. exact Hcons.
Qed.

Lemma wrap64_small z : 0 ≤ z < 2 ^ 64 → wrap64 z = z.
Proof. intros. unfold wrap64. by apply Z.mod_small. Qed.

Lemma wrap64_pred b : 0 < b < 2 ^ 64 → wrap64 (b - 1) = b - 1.
Proof. intros. unfold wrap64. apply Z.mod_small. lia. Qed.

Lemma TryReadSparseSample_consumed fuel : ∀ values indices sampleSize b s,
  (length (m_pos s) < fuel)%nat → 0 ≤ b < 2 ^ 64 →
  ensures (TryReadSparseSample p fuel values indices sampleSize b s)
    (λ r s', consumed s s' b r.2)
    (λ e s', False).
Proof.
  induction fuel as [|fuel IH]; intros values indices sampleSize b s Hfuel Hb;
    [lia|].
  cbn [TryReadSparseSample].
  destruct (Z.eqb_spec b 0) as [|Hb0].
  { apply ensures_warn_ret. cbn [snd]. apply consumed_refl; [done|lia]. }
  destruct (m_pos s) as [|c rest] eqn:Hpos.
  { apply ensures_warn_ret. cbn [snd]. apply consumed_refl; [done|lia]. }
  destruct (_ || _); [cbn [ensures snd]; apply consumed_refl; [done|lia]|].
  destruct (c =? VALUE_DELIMITER).
  { assert (Hstep : consumed s (set_pos rest s) b (b - 1)).
    { apply (consumed_cons _ _ c); [done|lia]. }
    eapply ensures_mono; [apply IH| |done].
    - cbn [m_pos set_pos]. cbn [length] in Hfuel. lia.
    - lia.
    - intros r s' Hcons. by eapply consumed_trans. }
  destruct (TryReadUint64_consumed b s ltac:(lia))
    as ([index|] & b1 & s1 & Hrun & Hcons1 & Hsome);
    erewrite bind_Ret by exact Hrun; [|exact Hcons1].
  destruct (Hsome ltac:(by eexists)) as (Hlt1 & Hne1 & Hb1).
  pose proof (consumed_le _ _ _ _ Hcons1) as Hle1.
  destruct (index >? Z.of_nat sampleSize).
  { apply ensures_warn_ret. by eapply consumed_pos; [| |exact Hcons1]. }
  destruct (m_pos s1) as [|c1 rest1] eqn:Hpos1; [done|].
  destruct (negb (c1 =? INDEX_DELIMITER)).
  { apply ensures_warn_ret. eapply consumed_pos; [| |exact Hcons1]; [done|].
    by rewrite Hpos1. }
  assert (Hstep : consumed s (set_pos rest1 s1) b (b1 - 1)).
  { eapply consumed_trans; [exact Hcons1|].
    apply (consumed_cons _ _ c1); [by rewrite Hpos1|lia]. }
  rewrite wrap64_pred by lia.
  apply ensures_bind. cbn [modify ensures].
  destruct (TryReadRealNumber_consumed (b1 - 1) (set_pos rest1 s1) ltac:(lia))
    as ([value|] & b2 & s2 & Hrun2 & Hcons2 & Hlt2);
    erewrite bind_Ret by exact Hrun2; [|by eapply consumed_trans].
  specialize (Hlt2 ltac:(by eexists)). cbn [m_pos set_pos] in Hlt2.
  eapply ensures_mono; [apply IH| |done].
  - rewrite Hpos in Hlt1. cbn [length] in Hfuel, Hlt1. lia.
  - apply consumed_le in Hcons2. lia.
  - intros r s' Hcons. eapply consumed_trans; [|exact Hcons].
    by eapply consumed_trans.
Qed.

Lemma ensures_Increment_consumed {A} (a : A) s0 s b b'
    (Q : A → PState → Prop) :
  consumed s0 s b b' → (∀ s', m_pos s' = m_pos s → Q a s') →
  ensures ((IncrementNumberOfErrorsOrDie p;; ret a) s) Q
          (λ e s', within s0 s' b ∧ budget_exhausted p e).
Proof.
  intros Hcons HQ. apply ensures_bind.
  eapply ensures_mono; [apply IncrementNumberOfErrorsOrDie_m_pos| |].
  - intros [] s1 Hs1. cbn beta in Hs1. by apply HQ.
  - intros e s1 [Hs1 He]. split; [|done].
    eapply consumed_within, consumed_pos; [| |exact Hcons]; done.
Qed.

(** [TryReadSample] takes one byte for each unit of [bytesToRead], keeps one
    buffer for each stream, and throws only when the budget is exhausted. *)
Lemma TryReadSample_consumed fuel (sequence : list (InputStreamBuffer E)) b s :
  (length (m_pos s) ≤ fuel)%nat → 0 < b < 2 ^ 64 → m_pos s ≠ [] →
  valid_ids p → length sequence = length (m_streamInfos p) →
  ensures (TryReadSample p fuel sequence b s)
    (λ r s', consumed s s' b r.2 ∧ length r.1.2 = length sequence)
    (λ e s', within s s' b ∧ budget_exhausted p e).
Proof.
  intros Hfuel Hb Hne Hvalid Hlen. unfold TryReadSample.
  destruct (m_pos s) as [|c rest] eqn:Hpos; [done|].
  destruct (negb (c =? NAME_PREFIX)).
  { apply ensures_bind. rewrite warn_eq. cbn [ensures].
    apply (ensures_Increment_consumed _ s _ b b).
    - apply consumed_refl; [done|lia].
    - intros s' Hs'. cbn [fst snd]. split; [|done].
      apply consumed_refl; [by rewrite Hs'|lia]. }
  rewrite wrap64_pred by lia. cbn zeta.
  assert (Hstep : consumed s (set_pos rest s) b (b - 1)).
  { apply (consumed_cons _ _ c); [done|lia]. }
  destruct (negb (b - 1 =? 0) && _) eqn:Hesc.
  { apply andb_prop in Hesc as [Hb1 Hrest]. apply negb_true_iff, Z.eqb_neq in Hb1.
    destruct rest as [|c' rest']; [done|]. cbn [ensures fst snd tail]. split; [|done].
    eapply consumed_trans; [exact Hstep|].
    apply (consumed_cons _ _ c'); [done|lia]. }
  destruct (TryGetInputId_consumed (b - 1) (set_pos rest s) ltac:(lia))
    as ([id|] & b1 & s1 & Hrun & Hcons1 & Hid);
    erewrite bind_Ret by exact Hrun.
  2:{ apply (ensures_Increment_consumed _ s s1 b b1).
      - by eapply consumed_trans.
      - intros s' Hs'. cbn [fst snd]. split; [|done].
        eapply consumed_pos; [| |eapply consumed_trans; [exact Hstep|exact Hcons1]];
          done. }
  destruct (Hid id eq_refl) as [name Hname]. apply Hvalid in Hname.
  assert (Hs1 : consumed s s1 b b1) by (by eapply consumed_trans).
  assert (Hfuel1 : (length (m_pos s1) < fuel)%nat).
  { destruct Hcons1 as (taken & Htaken & _). cbn [m_pos set_pos] in Htaken.
    apply (f_equal length) in Htaken. rewrite length_app in Htaken.
    cbn [length] in Hfuel. lia. }
  pose proof (consumed_le _ _ _ _ Hcons1) as Hle1.
  destruct (lookup_lt_is_Some_2 (m_streamInfos p) id Hname) as [stream ->].
  destruct (lookup_lt_is_Some_2 sequence id ltac:(lia)) as [data ->].
  destruct (m_type stream).
  - apply ensures_bind. unfold TryReadDenseSample.
    eapply ensures_mono;
      [apply TryReadDenseSample_loop_consumed; [exact Hfuel1|lia]| |].
    + intros [[ok values] b2] s2 Hcons2. cbn [fst snd] in Hcons2.
      assert (Hs2 : consumed s s2 b b2) by (by eapply consumed_trans).
      destruct ok; cbn [negb].
      * cbn [ret ensures fst snd]. by rewrite length_insert.
      * apply (ensures_Increment_consumed _ s s2 b b2); [done|].
        intros s' Hs'. cbn [fst snd]. rewrite length_insert. split; [|done].
        by eapply consumed_pos; [| |exact Hs2].
    + intros e s2 [Hw He]. split; [|done]. by eapply consumed_within_trans.
  - apply ensures_bind.
    eapply ensures_mono;
      [apply TryReadSparseSample_consumed; [exact Hfuel1|lia]| |done].
    intros [[[ok values] indices] b2] s2 Hcons2. cbn [fst snd] in Hcons2.
    assert (Hs2 : consumed s s2 b b2) by (by eapply consumed_trans).
    destruct ok; cbn [negb].
    * cbn [ret ensures fst snd]. by rewrite length_insert.
    * apply (ensures_Increment_consumed _ s s2 b b2); [done|].
      intros s' Hs'. cbn [fst snd]. rewrite length_insert. split; [|done].
      by eapply consumed_pos; [| |exact Hs2].
Qed.

End BytesRead.

(** ** The buffers of a sequence *)

Lemma ensures_and {St A} (r : Result St A) (Q1 Q2 : A → St → Prop)
    (QE1 QE2 : Exn → St → Prop) :
  ensures r Q1 QE1 → ensures r Q2 QE2 →
  ensures r (λ a s, Q1 a s ∧ Q2 a s) (λ e s, QE1 e s ∧ QE2 e s).
Proof. by destruct r. Qed.

Section WellFormed.

Context {D E : Type} `{RA : RealArith D E}.
Variable p : Config.
Variable BUFFER_SIZE : positive.

Lemma accepted_sample_well_formed (sequence sequence' : list (InputStreamBuffer E)) :
  accepted_sample p sequence sequence' →
  well_formed_sequence p sequence → well_formed_sequence p sequence'.
Proof.
  intros (id & stream & data & Hs & Hd & Hacc) (Hlen & Hdense & Hsparse).
  assert (Hother : ∀ id', id' ≠ id → sequence' !! id' = sequence !! id').
  { intros id' Hne. destruct (m_type stream).
    - destruct Hacc as (? & ? & _ & ->). by apply list_lookup_insert_ne.
    - destruct Hacc as (? & ? & _ & _ & ->). by apply list_lookup_insert_ne. }
  split; [|split].
  - destruct (m_type stream).
    + destruct Hacc as (? & ? & _ & ->). by rewrite length_insert.
    + destruct Hacc as (? & ? & _ & _ & ->). by rewrite length_insert.
  - intros id' stream' data' Hs' Hdense' Hd'.
    destruct (decide (id' = id)) as [->|Hne].
    + assert (stream' = stream) as -> by congruence.
      rewrite Hdense' in Hacc. destruct Hacc as (read & pad & Hread & ->).
      rewrite list_lookup_insert_eq in Hd' by (by eapply lookup_lt_Some).
      injection Hd' as <-. cbn [m_buffer m_numberOfSamples].
      rewrite !length_app, length_replicate, (Hdense id stream data) by done.
      lia.
    + rewrite Hother in Hd' by done. by eapply Hdense.
  - intros id' stream' data' Hs' Hsparse' Hd'.
    destruct (decide (id' = id)) as [->|Hne].
    + assert (stream' = stream) as -> by congruence.
      rewrite Hsparse' in Hacc. destruct Hacc as (vs & ixs & Hvs & _ & ->).
      rewrite list_lookup_insert_eq in Hd' by (by eapply lookup_lt_Some).
      injection Hd' as <-.
      cbn [m_buffer m_indices m_nnzCounts m_totalNnzCount m_numberOfSamples].
      destruct (Hsparse id stream data Hs Hsparse' Hd) as (H1 & H2 & H3 & H4).
      rewrite !length_app, sum_counts_app. cbn [length sum_counts foldr].
      repeat split; lia.
    + rewrite Hother in Hd' by done. by eapply Hsparse.
Qed.

Lemma rolled_back_well_formed (sequence sequence' : list (InputStreamBuffer E)) :
  rolled_back p sequence sequence' →
  well_formed_sequence p sequence → sequence' = sequence.
Proof.
  intros [->|(id & stream & data & data' & Hs & Hsparse & Hd & Hne & ->)]
    (_ & _ & Hinv); [done|].
  by destruct (Hinv id stream data Hs Hsparse Hd) as (? & _).
Qed.

Hypothesis Hvalid : valid_ids p.

(** [TryReadSample] on well-formed buffers. *)
Lemma TryReadSample_well_formed fuel (sequence : list (InputStreamBuffer E)) b s
    c rest :
  m_pos s = c :: rest → (length (m_pos s) ≤ fuel)%nat → 0 < b < 2 ^ 64 →
  well_formed_sequence p sequence →
  ensures (TryReadSample p fuel sequence b s)
    (λ r s',
       consumed s s' b r.2 ∧ well_formed_sequence p r.1.2
       ∧ (r.1.1 = false → r.1.2 = sequence)
       ∧ if c =? NAME_PREFIX then m_pos s' `suffix_of` rest
         else r.1.1 = false ∧ r.2 = b ∧ m_pos s' = c :: rest)
    (λ e s', within s s' b ∧ budget_exhausted p e).
Proof.
  intros Hpos Hfuel Hb Hwf.
  eapply ensures_mono;
    [apply ensures_and;
       [apply (TryReadSample_consumed p fuel sequence b s)
       |apply (TryReadSample_spec p fuel sequence b s)]| |];
    try done.
  - by rewrite Hpos.
  - apply Hwf.
  - intros [[ok sequence'] b'] s' [[Hcons Hlen] (_ & Hstep & Hpost)].
    cbn [fst snd] in *. split; [done|]. specialize (Hstep c rest Hpos).
    destruct ok.
    + split; [by eapply accepted_sample_well_formed|]. done.
    + destruct Hpost as [Hback _].
      rewrite (rolled_back_well_formed _ _ Hback Hwf). done.
  - by intros e s' [[? ?] _].
Qed.

Lemma TryReadRow_loop_well_formed fuel :
  ∀ (sequence : list (InputStreamBuffer E)) b n s,
  (length (m_pos s) < fuel)%nat → 0 ≤ b < 2 ^ 64 →
  well_formed_sequence p sequence →
  ensures (TryReadRow_loop p fuel sequence b n s)
    (λ r s', consumed s s' b r.2 ∧ well_formed_sequence p r.1.2)
    (λ e s', within s s' b ∧ budget_exhausted p e).
Proof.
  induction fuel as [|fuel IH]; intros sequence b n s Hfuel Hb Hwf; [lia|].
  cbn [TryReadRow_loop].
  destruct (Z.eqb_spec b 0) as [|Hb0].
  { apply ensures_warn_ret. cbn [fst snd]. split; [|done].
    apply consumed_refl; [done|lia]. }
  destruct (m_pos s) as [|c rest] eqn:Hpos.
  { apply ensures_warn_ret. cbn [fst snd]. split; [|done].
    apply consumed_refl; [done|lia]. }
  cbn [length] in Hfuel.
  assert (Hrest : consumed s (set_pos rest s) b (b - 1)).
  { apply (consumed_cons _ _ c); [done|lia]. }
  destruct (_ || _).
  { eapply ensures_mono; [apply IH| |].
    - cbn [m_pos set_pos]. lia.
    - lia.
    - done.
    - intros r s' [Hcons Hwf']. split; [by eapply consumed_trans|done].
    - intros e s' [Hw He]. split; [by eapply consumed_within_trans|done]. }
  destruct (c =? ROW_DELIMITER) eqn:Hrd.
  { unfold bind at 1, modify at 1. apply ensures_bind.
    assert (Hend : ∀ s', m_pos s' = rest → consumed s s' b (b - 1)).
    { intros s' Hs'. by eapply consumed_pos; [| |exact Hrest]. }
    destruct (n =? 0)%nat.
    - rewrite warn_eq. cbn [ensures fst snd]. split; [by apply Hend|done].
    - destruct (_ <? _)%nat.
      + rewrite warn_eq. cbn [ensures fst snd]. split; [by apply Hend|done].
      + cbn [ensures ret fst snd]. split; [by apply Hend|done]. }
  apply ensures_bind.
  eapply ensures_mono;
    [apply (TryReadSample_well_formed (S fuel) sequence b s c rest)| |];
    try done.
  { rewrite Hpos. cbn [length]. lia. }
  { lia. }
  intros [[ok sequence1] b1] s1 (Hcons1 & Hwf1 & _ & Hstep). cbn [fst snd] in *.
  pose proof (consumed_le _ _ _ _ Hcons1) as Hle1.
  destruct ok.
  - destruct (c =? NAME_PREFIX); [|by destruct Hstep].
    eapply ensures_mono; [apply IH| |].
    + apply suffix_length in Hstep. lia.
    + lia.
    + done.
    + intros r s' [Hcons Hwf']. split; [by eapply consumed_trans|done].
    + intros e s' [Hw He]. split; [by eapply consumed_within_trans|done].
  - unfold bind at 1, SkipToNextInput at 1.
    assert (Hskip : fst (SkipToNextInput_scan (m_pos s1) b1) `suffix_of` rest).
    { destruct (c =? NAME_PREFIX) eqn:Hnp.
      - etrans; [apply SkipToNextInput_scan_suffix|done].
      - destruct Hstep as (_ & -> & ->).
        by apply SkipToNextInput_scan_progress. }
    destruct (SkipToNextInput_scan_skipped (m_pos s1) b1)
      as (skipped & Heq & Hbytes & _ & Hpos2 & _).
    assert (Hcons2 : consumed s (set_pos (fst (SkipToNextInput_scan (m_pos s1) b1)) s1)
                       b (snd (SkipToNextInput_scan (m_pos s1) b1))).
    { eapply consumed_trans; [exact Hcons1|]. exists skipped.
      cbn [m_pos set_pos]. split; [done|]. split; [done|]. apply Hpos2. lia. }
    pose proof (consumed_le _ _ _ _ Hcons2) as Hle2.
    eapply ensures_mono; [apply IH| |].
    + cbn [m_pos set_pos]. apply suffix_length in Hskip. lia.
    + lia.
    + done.
    + intros r s' [Hcons Hwf']. split; [by eapply consumed_trans|done].
    + intros e s' [Hw He]. split; [by eapply consumed_within_trans|done].
Qed.

Lemma TryReadRow_well_formed fuel (sequence : list (InputStreamBuffer E)) b s :
  (length (m_pos s) < fuel)%nat → 0 ≤ b < 2 ^ 64 →
  well_formed_sequence p sequence →
  ensures (TryReadRow p fuel sequence b s)
    (λ r s', consumed s s' b r.2 ∧ well_formed_sequence p r.1.2)
    (λ e s', within s s' b ∧ budget_exhausted p e).
Proof.
  intros Hfuel Hb Hwf. unfold TryReadRow.
  pose proof (SkipSequenceId_scan_suffix (m_pos s) b) as Hsuf.
  destruct (SkipSequenceId_scan_taken (m_pos s) b) as (taken & Heq & Hbytes & Hpos).
  assert (Hcons : consumed s (set_pos (fst (SkipSequenceId_scan (m_pos s) b)) s)
                    b (snd (SkipSequenceId_scan (m_pos s) b))).
  { exists taken. cbn [m_pos set_pos]. split; [done|]. split; [done|].
    apply Hpos. lia. }
  pose proof (consumed_le _ _ _ _ Hcons) as Hle.
  eapply ensures_mono; [apply TryReadRow_loop_well_formed| |].
  - cbn [m_pos set_pos]. apply suffix_length in Hsuf. lia.
  - lia.
  - done.
  - intros r s' [Hcons' Hwf']. split; [by eapply consumed_trans|done].
  - intros e s' [Hw He]. split; [by eapply consumed_within_trans|done].
Qed.

Lemma LoadSequence_rows_well_formed fuel id expectedRowCount remaining :
  ∀ i (sequence : list (InputStreamBuffer E)) b numRowsRead s,
  (length (m_pos s) < fuel)%nat → 0 ≤ b < 2 ^ 64 →
  well_formed_sequence p sequence →
  ensures (LoadSequence_rows p fuel id expectedRowCount remaining i sequence b
                             numRowsRead s)
    (λ r s', within s s' b ∧ well_formed_sequence p r.1)
    (λ e s', within s s' b ∧ budget_exhausted p e).
Proof.
  induction remaining as [|remaining IH]; intros i sequence b k s Hfuel Hb Hwf;
    cbn [LoadSequence_rows].
  { cbn [ret ensures fst]. split; [|done].
    eapply consumed_within, consumed_refl; [done|lia]. }
  apply ensures_bind.
  eapply ensures_mono; [by apply TryReadRow_well_formed| |done].
  intros [[ok sequence1] b1] s1 [Hcons1 Hwf1]. cbn [fst snd] in *.
  pose proof (consumed_le _ _ _ _ Hcons1) as Hle1.
  assert (Hfuel1 : (length (m_pos s1) < fuel)%nat).
  { destruct Hcons1 as (taken & Htaken & _). apply (f_equal length) in Htaken.
    rewrite length_app in Htaken. lia. }
  assert (Hcont : ∀ k' s2, m_pos s2 = m_pos s1 →
    ensures
      ((if (b1 =? 0) && (k' <? expectedRowCount)%nat
        then warn p (W_ExhaustedSequence id k' expectedRowCount);;
             ret (sequence1, k')
        else LoadSequence_rows p fuel id expectedRowCount remaining (S i)
                               sequence1 b1 k') s2)
      (λ r s', within s s' b ∧ well_formed_sequence p r.1)
      (λ e s', within s s' b ∧ budget_exhausted p e)).
  { intros k' s2 Hs2.
    assert (Hcons2 : consumed s s2 b b1) by (by eapply consumed_pos; [| |exact Hcons1]).
    destruct (_ && _).
    - apply ensures_warn_ret. cbn [fst]. split; [|done].
      eapply consumed_within, consumed_pos; [| |exact Hcons2]; done.
    - eapply ensures_mono; [apply IH| |].
      + by rewrite Hs2.
      + lia.
      + done.
      + intros r s' [Hw Hwf']. split; [by eapply consumed_within_trans|done].
      + intros e s' [Hw He]. split; [by eapply consumed_within_trans|done]. }
  apply ensures_bind. destruct ok.
  - cbn [ensures ret]. by apply Hcont.
  - apply ensures_bind.
    eapply ensures_mono; [apply IncrementNumberOfErrorsOrDie_m_pos| |].
    + intros [] s2 Hs2. cbn beta in Hs2. apply ensures_bind. rewrite warn_eq.
      cbn [ensures ret]. by apply Hcont.
    + intros e s2 [Hs2 He]. split; [|done].
      eapply consumed_within, consumed_pos; [| |exact Hcons1]; done.
Qed.

(** The check of the inputs prints and does not move [m_pos]; it finds
    whether an input is empty. *)
Lemma LoadSequence_check_empty id expectedRowCount
    (sequence : list (InputStreamBuffer E)) :
  ∀ i hasEmptyInputs hasDuplicateInputs s,
  ensures (LoadSequence_check p id expectedRowCount i sequence
                              hasEmptyInputs hasDuplicateInputs s)
    (λ r s', m_pos s' = m_pos s
       ∧ r.1 = hasEmptyInputs
               || existsb (λ data, (m_numberOfSamples data =? 0)%nat) sequence)
    (λ e s', False).
Proof.
  induction sequence as [|data sequence IH]; intros i hasEmpty hasDup s;
    cbn [LoadSequence_check existsb].
  { cbn [ret ensures fst]. by rewrite orb_false_r. }
  apply ensures_bind.
  assert (Hnext : ∀ hasEmpty' hasDup' s1, m_pos s1 = m_pos s →
    hasEmpty' = hasEmpty || (m_numberOfSamples data =? 0)%nat →
    ensures (LoadSequence_check p id expectedRowCount (S i) sequence
                                hasEmpty' hasDup' s1)
      (λ r s', m_pos s' = m_pos s
         ∧ r.1 = hasEmpty || ((m_numberOfSamples data =? 0)%nat
                              || existsb (λ data, (m_numberOfSamples data =? 0)%nat)
                                         sequence))
      (λ e s', False)).
  { intros hasEmpty' hasDup' s1 Hs1 ->.
    eapply ensures_mono; [apply IH| |done].
    intros r s' [Hs' ->]. split; [congruence|]. by rewrite orb_assoc. }
  assert (Hdup : ∀ hasEmpty' s1, m_pos s1 = m_pos s →
    hasEmpty' = hasEmpty || (m_numberOfSamples data =? 0)%nat →
    ensures
      (bind (if (expectedRowCount <? m_numberOfSamples data)%nat
             then warn p (W_MoreSamplesThanExpected i (m_numberOfSamples data)
                                                    expectedRowCount id);;
                  ret true
             else ret hasDup)
         (λ hasDuplicateInputs,
            LoadSequence_check p id expectedRowCount (S i) sequence
                               hasEmpty' hasDuplicateInputs) s1)
      (λ r s', m_pos s' = m_pos s
         ∧ r.1 = hasEmpty || ((m_numberOfSamples data =? 0)%nat
                              || existsb (λ data, (m_numberOfSamples data =? 0)%nat)
                                         sequence))
      (λ e s', False)).
  { intros hasEmpty' s1 Hs1 Heq. apply ensures_bind. destruct (_ <? _)%nat.
    - apply ensures_warn_ret. by apply Hnext.
    - cbn [ret ensures]. by apply Hnext. }
  destruct (m_numberOfSamples data =? 0)%nat.
  - apply ensures_bind. cbn [modify ensures ret]. apply Hdup; [done|].
    by rewrite orb_true_r.
  - cbn [ret ensures]. apply Hdup; [done|]. by rewrite orb_false_r.
Qed.

Lemma LoadSequence_finish_nonempty sequenceDsc
    (sequence : list (InputStreamBuffer E)) numRowsRead s :
  ensures (LoadSequence_finish p sequenceDsc sequence numRowsRead s)
    (λ r s', m_pos s' = m_pos s ∧ r = sequence
       ∧ Forall (λ data, (0 < m_numberOfSamples data)%nat) sequence)
    (λ e s', m_pos s' = m_pos s
       ∧ (budget_exhausted p e ∨ e = RuntimeError MalformedMessage)).
Proof.
  unfold LoadSequence_finish. apply ensures_bind.
  eapply ensures_mono; [apply LoadSequence_check_empty| |done].
  intros [hasEmpty hasDup] s1 [Hs1 Hempty]. cbn [fst orb] in Hempty.
  destruct hasEmpty.
  { apply ensures_bind, ensures_bind. unfold PrintWarningNotification.
    destruct (_ && _); cbn [ensures throw]; (split; [done|by right]). }
  assert (Hall : Forall (λ data, (0 < m_numberOfSamples data)%nat) sequence).
  { apply Forall_forall. intros data Hin.
    destruct (m_numberOfSamples data) as [|k] eqn:Hk; [|lia].
    assert (existsb (λ data, (m_numberOfSamples data =? 0)%nat) sequence = true)
      as Hex; [|congruence].
    apply existsb_exists. exists data. split; [by apply list_elem_of_In|].
    by rewrite Hk. }
  apply ensures_bind. cbn [ret ensures]. apply ensures_bind.
  assert (Hlast : ∀ s2, m_pos s2 = m_pos s →
    ensures
      (bind (if (Info <=? m_traceLevel p)%nat
             then modify (print (I_FinishedLoading (seq_id sequenceDsc) numRowsRead
                                   (seq_numberOfSamples sequenceDsc)))
             else ret tt) (λ _, ret sequence) s2)
      (λ r s', m_pos s' = m_pos s ∧ r = sequence
         ∧ Forall (λ data, (0 < m_numberOfSamples data)%nat) sequence)
      (λ e s', m_pos s' = m_pos s
         ∧ (budget_exhausted p e ∨ e = RuntimeError MalformedMessage))).
  { intros s2 Hs2. apply ensures_bind.
    destruct (_ <=? _)%nat; cbn [modify ret ensures]; by repeat split. }
  destruct hasDup.
  - eapply ensures_mono; [apply IncrementNumberOfErrorsOrDie_m_pos| |].
    + intros [] s2 Hs2. cbn beta in Hs2. apply Hlast. congruence.
    + intros e s2 [Hs2 He]. split; [congruence|by left].
  - cbn [ret ensures]. by apply Hlast.
Qed.

Lemma new_buffers_well_formed :
  well_formed_sequence p (map (λ _, new_buffer (E:=E)) (m_streamInfos p)).
Proof.
  split; [by rewrite length_map|]. split.
  - intros id stream data _ _ Hd. rewrite list_lookup_fmap in Hd.
    destruct (m_streamInfos p !! id); [|done]. by injection Hd as <-.
  - intros id stream data _ _ Hd. rewrite list_lookup_fmap in Hd.
    destruct (m_streamInfos p !! id); [|done]. by injection Hd as <-.
Qed.

(** [LoadSequence], once the window is set, with an alias map of valid
    ids. *)
Lemma LoadSequence_read_safe fuel verifyId sequenceDsc s0 :
  (length (m_pos s0) < fuel)%nat → 0 ≤ seq_byteSize sequenceDsc < 2 ^ 64 →
  ensures (LoadSequence_read (E:=E) p fuel verifyId sequenceDsc s0)
    (λ r s',
       within s0 s' (seq_byteSize sequenceDsc)
       ∧ well_formed_sequence p r
       ∧ Forall (λ data, (0 < m_numberOfSamples data)%nat) r
       ∧ (verifyId = true → starts_with_id (m_pos s0) (seq_id sequenceDsc)))
    (λ e s',
       within s0 s' (seq_byteSize sequenceDsc)
       ∧ sequence_error p verifyId sequenceDsc e).
Proof.
  intros Hfuel0 Hsize. unfold LoadSequence_read.
  apply ensures_bind.
  assert (Hid : ensures
    ((if verifyId
      then '(r, bytesToRead) ← TryReadUint64 p (seq_byteSize sequenceDsc);
           match r with
           | Some id =>
               if id =? seq_id sequenceDsc then ret bytesToRead
               else PrintWarningNotification p;;
                    throw (SequenceNotFound (seq_id sequenceDsc))
           | None => PrintWarningNotification p;;
                     throw (SequenceNotFound (seq_id sequenceDsc))
           end
      else ret (seq_byteSize sequenceDsc)) s0)
    (λ b1 s1, consumed s0 s1 (seq_byteSize sequenceDsc) b1
              ∧ (verifyId = true →
                 starts_with_id (m_pos s0) (seq_id sequenceDsc)))
    (λ e s1, within s0 s1 (seq_byteSize sequenceDsc)
             ∧ sequence_error p verifyId sequenceDsc e)).
  { destruct verifyId.
    2:{ cbn [ret ensures]. split; [|done]. apply consumed_refl; [done|lia]. }
    destruct (TryReadUint64_consumed p (seq_byteSize sequenceDsc) s0 ltac:(lia))
      as (r & b1 & s1 & Hrun & Hcons1 & _).
    erewrite bind_Ret by exact Hrun.
    assert (Hthrow : ensures
      ((PrintWarningNotification p;;
        throw (A:=Z) (SequenceNotFound (seq_id sequenceDsc))) s1)
      (λ b1 s1, consumed s0 s1 (seq_byteSize sequenceDsc) b1
                ∧ (true = true → starts_with_id (m_pos s0) (seq_id sequenceDsc)))
      (λ e s2, within s0 s2 (seq_byteSize sequenceDsc)
               ∧ sequence_error p true sequenceDsc e)).
    { unfold bind, PrintWarningNotification, throw.
      destruct (_ && _); cbn [ensures];
        (split; [by eapply consumed_within, consumed_pos; [| |exact Hcons1]
                |by right; right]). }
    destruct r as [id|]; [|done].
    destruct (Z.eqb_spec id (seq_id sequenceDsc)) as [<-|]; [|done].
    cbn [ret ensures]. split; [done|]. intros _.
    unfold TryReadUint64 in Hrun. rewrite run_scan_eq in Hrun.
    injection Hrun as Hres _ _.
    destruct (TryReadUint64_loop_true _ _ _ _ _ Hres)
      as (ds & c & rest & Hpos & Hds & Hc & Hval & _).
    exists ds, c, rest. destruct ds as [|d ds]; [by destruct Hval|].
    by repeat split. }
  eapply ensures_mono; [exact Hid| |done].
  intros b1 s1 [Hcons1 Hstarts]. apply ensures_bind.
  pose proof (consumed_le _ _ _ _ Hcons1) as Hle1.
  eapply ensures_mono; [apply LoadSequence_rows_well_formed| |].
  - destruct Hcons1 as (taken & Htaken & _). apply (f_equal length) in Htaken.
    rewrite length_app in Htaken. lia.
  - lia.
  - apply new_buffers_well_formed.
  - intros [sequence numRowsRead] s2 [Hw2 Hwf2]. cbn [fst] in Hwf2.
    eapply ensures_mono; [apply LoadSequence_finish_nonempty| |].
    + intros r s3 (Hs3 & -> & Hall). split; [|done].
      eapply within_pos; [| |eapply consumed_within_trans; [exact Hcons1|exact Hw2]];
        done.
    + intros e s3 [Hs3 He]. split.
      * eapply within_pos; [| |eapply consumed_within_trans; [exact Hcons1|exact Hw2]];
          done.
      * destruct He as [?|?]; [by left|by right; left].
  - intros e s2 [Hw2 He]. split; [by eapply consumed_within_trans|by left].
Qed.

(** [LoadSequence] with an alias map of valid ids: [w] is the window that
    its first lines leave. *)
Lemma LoadSequence_safe fuel verifyId sequenceDsc s :
  (Reader.extent (m_window s) < fuel)%nat →
  0 ≤ seq_byteSize sequenceDsc < 2 ^ 64 →
  ∃ w,
    Reader.LoadSequence_seek (Pos.to_nat BUFFER_SIZE)
      (Z.of_nat (seq_fileOffsetBytes sequenceDsc)) (window_now BUFFER_SIZE s)
    = Some w
    ∧ ensures (LoadSequence (E:=E) p BUFFER_SIZE fuel verifyId sequenceDsc s)
        (λ r s',
           within (set_window w s) s' (seq_byteSize sequenceDsc)
           ∧ well_formed_sequence p r
           ∧ Forall (λ data, (0 < m_numberOfSamples data)%nat) r
           ∧ (verifyId = true →
              starts_with_id (Reader.readable w) (seq_id sequenceDsc))
           ∧ (Reader.extent (m_window s') ≤ Reader.extent (m_window s))%nat)
        (λ e s',
           within (set_window w s) s' (seq_byteSize sequenceDsc)
           ∧ sequence_error p verifyId sequenceDsc e).
Proof.
  intros Hfuel Hsize.
  destruct (LoadSequence_seeks p BUFFER_SIZE fuel verifyId sequenceDsc s)
    as (w & Hseek & -> & Hw).
  exists w. split; [done|].
  pose proof (readable_extent w) as Hreadable.
  eapply ensures_mono;
    [apply ensures_keeps_window;
       [apply LoadSequence_read_safe|apply LoadSequence_read_keeps_window]| |].
  - cbn [m_pos set_window]. lia.
  - done.
  - intros r s' [(Hwithin & Hwf & Hall & Hid) ->]. done.
  - by intros e s' [H _].
Qed.

End WellFormed.

Lemma SetTraceLevel_valid_ids {E : Type} traceLevel (parser : TextParser E) :
  valid_ids (config parser) → valid_ids (config (SetTraceLevel traceLevel parser)).
Proof. done. Qed.

Lemma example_config_valid_ids traceLevel streams :
  valid_ids (example_config traceLevel streams).
Proof. apply SetTraceLevel_valid_ids, TextParser_new_valid_ids. Qed.

Lemma take_length_take {A} (n : nat) (l : list A) :
  take (length (take n l)) l = take n l.
Proof.
  rewrite length_take. destruct (Nat.le_ge_cases n (length l)).
  - by rewrite Nat.min_l.
  - rewrite Nat.min_r by done. by rewrite !take_ge by lia.
Qed.

Lemma take_drop_app {A} (n : nat) (l : list A) :
  take n l ++ drop (length (take n l)) l = l.
Proof. rewrite <- (take_length_take n l) at 1. apply take_drop. Qed.

Lemma read_content B n : ∀ w,
  Reader.content (Reader.m_file (Reader.read B n w))
  = Reader.content (Reader.m_file w).
Proof.
  induction n as [|n IH]; intros w; cbn [Reader.read]; [done|].
  assert (Hcan : Reader.content (Reader.m_file (Reader.CanRead B w).2)
                 = Reader.content (Reader.m_file w)).
  { unfold Reader.CanRead, Reader.TryRefillBuffer, Reader.fread.
    destruct (_ <? _)%nat; [done|]. by destruct (_ =? _)%nat. }
  destruct (Reader.CanRead B w).1; [|done]. by rewrite IH.
Qed.

(** The first lines of [LoadSequence], for a window that is coherent with
    the file and an offset inside the file: the bytes to read are those of
    the file from the offset on. *)
Lemma LoadSequence_seek_in_file B w fileOffset w' :
  (0 < B)%nat → Reader.coherent w →
  0 ≤ fileOffset < Z.of_nat (length (Reader.content (Reader.m_file w))) →
  fileOffset < 2 ^ 64 →
  Reader.LoadSequence_seek B fileOffset w = Some w' →
  Reader.readable w'
  = drop (Z.to_nat fileOffset) (Reader.content (Reader.m_file w)).
Proof.
  intros Hsize (Hstart & Hend & Hposition & Hbuffer & Hle) Hoffset Hmax.
  unfold Reader.LoadSequence_seek.
  destruct ((fileOffset <? Reader.m_fileOffsetStart w)
            || (fileOffset >? Reader.m_fileOffsetEnd w)) eqn:Hout.
  - unfold Reader.SetFileOffset, Reader._fseeki64.
    rewrite (proj2 (Z.ltb_ge fileOffset 0)) by lia.
    unfold Reader.TryRefillBuffer, Reader.fread.
    cbn [Reader.m_file Reader.position Reader.content Reader.m_fileOffsetEnd].
    set (left := drop (Z.to_nat fileOffset) (Reader.content (Reader.m_file w))).
    assert (Hleft : (0 < length left)%nat).
    { unfold left. rewrite length_drop. lia. }
    destruct (take B left) as [|c bytes] eqn:Hbytes.
    { destruct left; [cbn [length] in Hleft; lia|]. destruct B; [lia|done]. }
    cbn [length Nat.eqb snd Reader.m_file Reader.m_buffer Reader.m_fileOffsetStart
         Reader.m_fileOffsetEnd].
    rewrite Z.sub_diag. change (wrap64 0) with 0. change (Z.to_nat 0) with 0%nat.
    intros [= <-].
    assert (Hsplit : (c :: bytes) ++ drop (length (c :: bytes)) left = left).
    { rewrite <- Hbytes. apply take_drop_app. }
    unfold Reader.readable.
    cbn [Reader.m_pos Reader.m_buffer Reader.m_file Reader.position Reader.content
         drop].
    etrans; [|exact Hsplit]. f_equal. unfold left. rewrite drop_drop.
    f_equal. cbn [length]. lia.
  - apply orb_false_elim in Hout as [Hlo Hhi].
    apply Z.ltb_ge in Hlo. assert (fileOffset ≤ Reader.m_fileOffsetEnd w) by lia.
    rewrite wrap64_small by lia. intros [= <-].
    unfold Reader.readable.
    cbn [Reader.m_pos Reader.m_buffer Reader.m_file].
    set (k := Z.to_nat (fileOffset - Reader.m_fileOffsetStart w)).
    set (L := drop (Z.to_nat (Reader.m_fileOffsetStart w))
                   (Reader.content (Reader.m_file w))) in *.
    replace (drop (Z.to_nat (Reader.position (Reader.m_file w)))
                  (Reader.content (Reader.m_file w)))
      with (drop (length (Reader.m_buffer w)) L).
    2:{ unfold L. rewrite drop_drop. f_equal. lia. }
    replace (drop (Z.to_nat fileOffset) (Reader.content (Reader.m_file w)))
      with (drop k L).
    2:{ unfold L, k. rewrite drop_drop. f_equal. lia. }
    rewrite Hbuffer at 1.
    rewrite <- (take_drop (length (Reader.m_buffer w)) L) at 3.
    rewrite drop_app_le; [done|].
    rewrite <- Hbuffer. unfold k. lia.
Qed.

Section Sequences.

Context {D E : Type} `{RA : RealArith D E}.

(** X7.  When the window that [LoadSequence] finds is coherent with the
    file and the offset of the sequence is inside the file, the sequence is
    read from the bytes of its descriptor only: whether the call returns or
    throws, [m_pos] is left in the file after [m_fileOffsetBytes] and at
    most [m_byteSize] bytes further on. *)
Theorem LoadSequence_reads_its_bytes (p : Config) (BUFFER_SIZE : positive)
    (fuel : nat) (verifyId : bool) (sequenceDsc : SequenceDescriptor)
    (s : PState) :
  valid_ids p → (Reader.extent (m_window s) < fuel)%nat →
  0 ≤ seq_byteSize sequenceDsc < 2 ^ 64 →
  Reader.coherent (window_now BUFFER_SIZE s) →
  (seq_fileOffsetBytes sequenceDsc
   < length (Reader.content (Reader.m_file (m_window s))))%nat →
  Z.of_nat (seq_fileOffsetBytes sequenceDsc) < 2 ^ 64 →
  ensures (LoadSequence (E:=E) p BUFFER_SIZE fuel verifyId sequenceDsc s)
    (λ _ s', ∃ taken,
       drop (seq_fileOffsetBytes sequenceDsc)
            (Reader.content (Reader.m_file (m_window s)))
       = taken ++ m_pos s'
       ∧ Z.of_nat (length taken) ≤ seq_byteSize sequenceDsc)
    (λ _ s', ∃ taken,
       drop (seq_fileOffsetBytes sequenceDsc)
            (Reader.content (Reader.m_file (m_window s)))
       = taken ++ m_pos s'
       ∧ Z.of_nat (length taken) ≤ seq_byteSize sequenceDsc).
Proof.
  intros Hvalid Hfuel Hsize Hcoherent Hoffset Hmax.
  destruct (LoadSequence_safe p BUFFER_SIZE Hvalid fuel verifyId sequenceDsc s
              Hfuel Hsize) as (w & Hseek & Hsafe).
  apply LoadSequence_seek_in_file in Hseek; [|lia|done| |done].
  2:{ unfold window_now. rewrite read_content. lia. }
  unfold window_now in Hseek. rewrite read_content, Nat2Z.id in Hseek.
  assert (Hwithin : ∀ s', within (set_window w s) s' (seq_byteSize sequenceDsc) →
            ∃ taken,
              drop (seq_fileOffsetBytes sequenceDsc)
                   (Reader.content (Reader.m_file (m_window s)))
              = taken ++ m_pos s'
              ∧ Z.of_nat (length taken) ≤ seq_byteSize sequenceDsc).
  { intros s' (taken & Htaken & Hlen). exists taken.
    cbn [m_pos set_window] in Htaken. by rewrite <- Hseek, Htaken. }
  eapply ensures_mono; [exact Hsafe| |].
  - intros r s' [Hw _]. by apply Hwithin.
  - intros e s' [Hw _]. by apply Hwithin.
Qed.


(** X9.  The buffers that [LoadSequence] returns are one for each stream,
    each with one sample at least, the dense ones with
    [m_numberOfSamples * m_sampleDimension] values and the sparse ones with
    as many values as indices, their number the sum of [m_nnzCounts] and
    [m_totalNnzCount], and one count for each sample. *)
Theorem LoadSequence_result_well_formed (p : Config) (BUFFER_SIZE : positive)
    (fuel : nat) (verifyId : bool) (sequenceDsc : SequenceDescriptor)
    (s s' : PState) (sequence : list (InputStreamBuffer E)) :
  valid_ids p → (Reader.extent (m_window s) < fuel)%nat →
  0 ≤ seq_byteSize sequenceDsc < 2 ^ 64 →
  LoadSequence p BUFFER_SIZE fuel verifyId sequenceDsc s = Ret sequence s' →
  length sequence = length (m_streamInfos p)
  ∧ Forall (λ data, (0 < m_numberOfSamples data)%nat) sequence
  ∧ dense_invariant p sequence ∧ sparse_invariant p sequence.
Proof.
  intros Hvalid Hfuel Hsize Hload.
  destruct (LoadSequence_safe p BUFFER_SIZE Hvalid fuel verifyId sequenceDsc s
              Hfuel Hsize) as (w & _ & Hsafe).
  rewrite Hload in Hsafe. cbn [ensures] in Hsafe.
  destruct Hsafe as (_ & (Hlen & Hdense & Hsparse) & Hall & _). done.
Qed.

(** X10.  When the window that [LoadSequence] finds is coherent with the
    file and the offset of the sequence is inside the file, [LoadSequence]
    with [verifyId] returns only for a sequence whose bytes in the file
    start with digits that write the id of the descriptor (modulo [2^64])
    and a delimiter. *)
Theorem LoadSequence_verifies_id (p : Config) (BUFFER_SIZE : positive)
    (fuel : nat) (sequenceDsc : SequenceDescriptor)
    (s s' : PState) (sequence : list (InputStreamBuffer E)) :
  Reader.coherent (window_now BUFFER_SIZE s) →
  (seq_fileOffsetBytes sequenceDsc
   < length (Reader.content (Reader.m_file (m_window s))))%nat →
  Z.of_nat (seq_fileOffsetBytes sequenceDsc) < 2 ^ 64 →
  LoadSequence p BUFFER_SIZE fuel true sequenceDsc s = Ret sequence s' →
  ∃ ds c rest,
    drop (seq_fileOffsetBytes sequenceDsc)
         (Reader.content (Reader.m_file (m_window s)))
    = ds ++ c :: rest
    ∧ ds ≠ [] ∧ all_digits ds = true ∧ isDelimiter c = true
    ∧ seq_id sequenceDsc = wrap64 (decimal 0 ds).
Proof.
  intros Hcoherent Hoffset Hmax.
  destruct (LoadSequence_seeks p BUFFER_SIZE fuel true sequenceDsc s)
    as (w & Hseek & -> & _).
  apply LoadSequence_seek_in_file in Hseek; [|lia|done| |done].
  2:{ unfold window_now. rewrite read_content. lia. }
  unfold window_now in Hseek. rewrite read_content, Nat2Z.id in Hseek.
  rewrite <- Hseek.
  unfold LoadSequence_read. unfold bind at 1.
  unfold bind at 1, TryReadUint64. rewrite run_scan_eq.
  cbn [m_pos set_window]. unfold TryReadUint64_scan.
  destruct (sc_result _) as [id|] eqn:Hres.
  2:{ unfold bind, PrintWarningNotification, throw. by destruct (_ && _). }
  destruct (Z.eqb_spec id (seq_id sequenceDsc)) as [<-|].
  2:{ unfold bind, PrintWarningNotification, throw. by destruct (_ && _). }
  intros _.
  destruct (TryReadUint64_loop_true _ _ _ _ _ Hres)
    as (ds & c & rest & Hpos & Hds & Hc & Hval & _).
  exists ds, c, rest. destruct ds as [|d ds]; [by destruct Hval|].
  by repeat split.
Qed.

End Sequences.

(** ** Chunks *)

Section Chunks.

Context {D E : Type} `{RA : RealArith D E}.
Variable p : Config.
Variable BUFFER_SIZE : positive.
Hypothesis Hvalid : valid_ids p.

Lemma LoadChunk_sequences_safe fuel verifyId sequences :
  ∀ (chunk : TextDataChunk E) s before,
  (Reader.extent (m_window s) < fuel)%nat → sizes_in_range sequences →
  loaded_chunk p chunk before →
  ensures (LoadChunk_sequences p BUFFER_SIZE fuel verifyId chunk sequences s)
    (λ r s', loaded_chunk p r (before ++ sequences)
             ∧ m_id r = m_id chunk
             ∧ m_sequenceRequestCount r = m_sequenceRequestCount chunk)
    (λ e s', ∃ sequenceDsc, sequenceDsc ∈ sequences
                            ∧ sequence_error p verifyId sequenceDsc e).
Proof.
  induction sequences as [|sequenceDsc sequences IH];
    intros chunk s before Hfuel Hsizes Hloaded; cbn [LoadChunk_sequences].
  { cbn [ret ensures]. by rewrite app_nil_r. }
  apply Forall_cons in Hsizes as [Hsize Hsizes].
  apply ensures_bind.
  destruct (LoadSequence_safe p BUFFER_SIZE Hvalid fuel verifyId sequenceDsc s
              Hfuel Hsize) as (w & _ & Hsafe).
  eapply ensures_mono; [exact Hsafe| |].
  2:{ intros e s1 [_ He]. exists sequenceDsc. split; [apply list_elem_of_here|done]. }
  intros sequence s1 (_ & Hwf & Hall & _ & Hw1).
  eapply ensures_mono; [apply (IH _ _ (before ++ [sequenceDsc])); [lia|done|]| |].
  - destruct Hloaded as [Hdom Hseqs].
    destruct (m_sequenceMap chunk !! seq_id sequenceDsc) as [old|] eqn:Hold;
      (split; cbn [m_sequenceMap]).
    + intros id. rewrite Hdom. split.
      * intros (d & Hd & Hid). exists d. split; [|done].
        apply elem_of_app. by left.
      * intros (d & Hd & Hid). apply elem_of_app in Hd as [Hd|Hd]; [by exists d|].
        apply list_elem_of_singleton in Hd as ->. apply Hdom.
        rewrite <- Hid. by eexists.
    + intros id sequence' Hlookup. by apply (Hseqs id).
    + intros id. destruct (decide (id = seq_id sequenceDsc)) as [->|Hne].
      * rewrite lookup_insert_eq. split; [|by eexists].
        intros _. exists sequenceDsc. split; [|done].
        apply elem_of_app. right. apply list_elem_of_here.
      * rewrite lookup_insert_ne by done. rewrite Hdom. split.
        -- intros (d & Hd & Hid). exists d. split; [|done].
           apply elem_of_app. by left.
        -- intros (d & Hd & Hid). apply elem_of_app in Hd as [Hd|Hd]; [by exists d|].
           apply list_elem_of_singleton in Hd as ->. done.
    + intros id sequence' Hlookup.
      destruct (decide (id = seq_id sequenceDsc)) as [->|Hne].
      * rewrite lookup_insert_eq in Hlookup. by injection Hlookup as <-.
      * rewrite lookup_insert_ne in Hlookup by done. by apply (Hseqs id).
  - intros r s2 (Hloaded' & Hid & Hcount). rewrite <- app_assoc in Hloaded'. done.
  - intros e s2 (d & Hd & He). exists d. split; [|done].
    apply elem_of_cons. by right.
Qed.

End Chunks.

Lemma cache_find_assign chunkId chunk (cache : ChunkCache) :
  cache_find chunkId (cache_assign chunkId chunk cache) = Some chunk.
Proof.
  induction cache as [|[id chunk'] cache IH]; cbn [cache_assign cache_find].
  - by rewrite Z.eqb_refl.
  - destruct (Z.eqb_spec id chunkId) as [->|Hne].
    + cbn [cache_find]. by rewrite Z.eqb_refl.
    + destruct (chunkId <? id); cbn [cache_find].
      * by rewrite Z.eqb_refl.
      * by rewrite (proj2 (Z.eqb_neq id chunkId)).
Qed.

Section GetChunk.

Context {D E : Type} `{RA : RealArith D E}.
Variable BUFFER_SIZE : positive.

(** X11.  [LoadChunk] into a new chunk, with an alias map of valid ids and
    fuel for the bytes of the window and of the file, returns or throws an
    error of one of the sequences.  The chunk it returns maps the ids of the
    sequences of the descriptor, and no other id, to buffers that are well
    formed and have a sample of every stream; its id and its count of
    requests are those of the new chunk. *)
Theorem LoadChunk_loads_descriptor (p : Config) (fuel : nat)
    (skipSequenceIds : bool) (id : Z) (descriptor : ChunkDescriptor) (s : PState) :
  valid_ids p → (Reader.extent (m_window s) < fuel)%nat →
  sizes_in_range (chunk_sequences descriptor) →
  ensures (LoadChunk (E:=E) p BUFFER_SIZE fuel skipSequenceIds (MkChunk ∅ id 0)
                     descriptor s)
    (λ chunk s',
       loaded_chunk p chunk (chunk_sequences descriptor)
       ∧ m_id chunk = id ∧ m_sequenceRequestCount chunk = 0)
    (λ e s',
       ∃ sequenceDsc, sequenceDsc ∈ chunk_sequences descriptor
         ∧ sequence_error p (negb skipSequenceIds) sequenceDsc e).
Proof.
  intros Hvalid Hfuel Hsizes. unfold LoadChunk.
  apply (LoadChunk_sequences_safe p BUFFER_SIZE Hvalid fuel (negb skipSequenceIds)
           (chunk_sequences descriptor) (MkChunk ∅ id 0) s []); [done|done|].
  split.
  - intros id'. cbn [m_sequenceMap]. rewrite lookup_empty. split.
    + by intros [? ?].
    + intros (d & Hd & _). by apply elem_of_nil in Hd.
  - intros id' sequence. cbn [m_sequenceMap]. by rewrite lookup_empty.
Qed.

(** X12.  After [GetChunk] has returned a chunk, with a cache size above
    zero, the chunk is in the cache: the next [GetChunk] for the same id
    returns the same chunk and leaves the parser as it is, without loading
    anything. *)
Theorem GetChunk_again (fuel fuel' : nat) (chunkId : Z)
    (parser parser' : TextParser E) (chunk : nat) :
  0 < m_chunkCacheSize parser →
  GetChunk BUFFER_SIZE fuel chunkId parser = Ret chunk parser' →
  GetChunk BUFFER_SIZE fuel' chunkId parser' = Ret chunk parser'.
Proof.
  intros Hsize. unfold GetChunk at 1, attempt.
  destruct (cache_find chunkId (m_chunkCache parser)) as [cached|] eqn:Hfind.
  { intros [= <- <-]. unfold GetChunk. by rewrite Hfind. }
  destruct (m_indexer parser); [|done]. destruct (m_file parser); [|done].
  destruct (_ !! _); [|done]. destruct (LoadChunk _ _ _ _ _ _ _); [|done|done].
  rewrite (proj2 (Z.ltb_lt 0 (m_chunkCacheSize parser)) Hsize).
  intros [= <- <-]. unfold GetChunk. cbn [m_chunkCache].
  by rewrite cache_find_assign.
Qed.

(** X13.  [GetChunk] never raises the error budget, never resets the flag
    of the warnings and never takes back what was printed, whether it
    returns or throws; with fuel for the bytes of the window and of the
    file it does one of the two. *)
Theorem GetChunk_keeps_log (fuel : nat) (chunkId : Z) (parser : TextParser E) :
  (Reader.extent (m_window (state parser)) < fuel)%nat →
  ensures (GetChunk BUFFER_SIZE fuel chunkId parser)
    (λ _ parser',
       (m_numAllowedErrors (state parser') ≤ m_numAllowedErrors (state parser))%N
       ∧ (m_hadWarnings (state parser) = true →
          m_hadWarnings (state parser') = true)
       ∧ stderr (state parser) `prefix_of` stderr (state parser'))
    (λ _ parser',
       (m_numAllowedErrors (state parser') ≤ m_numAllowedErrors (state parser))%N
       ∧ (m_hadWarnings (state parser) = true →
          m_hadWarnings (state parser') = true)
       ∧ stderr (state parser) `prefix_of` stderr (state parser')).
Proof.
  intros Hfuel. unfold GetChunk, attempt.
  destruct (cache_find _ _); [apply le_log_refl|].
  destruct (m_indexer parser); [|apply le_log_refl].
  destruct (m_file parser); [|apply le_log_refl].
  destruct (_ !! _) as [descriptor|]; [|apply le_log_refl].
  pose proof (LoadChunk_sequences_spec (config parser) BUFFER_SIZE fuel
                (negb (m_skipSequenceIds parser)) (chunk_sequences descriptor)
                (MkChunk ∅ (chunk_id descriptor) 0) (state parser) Hfuel) as Hload.
  unfold LoadChunk.
  destruct (LoadChunk_sequences _ _ _ _ _ _ _) as [chunk s|e s|];
    cbn [ensures] in *; [exact Hload|apply Hload|done].
Qed.

(** X14.  A [GetChunk] that misses the cache, for a parser with an alias
    map of valid ids and a chunk id of the index, returns a pointer to a
    new chunk, behind the chunks that exist, which stay as they are; the new
    chunk has the id of the descriptor, no request counted, and the
    sequences of the descriptor.  When it throws, it is an error of one of
    these sequences, and the cache and the chunks are as they were. *)
Theorem GetChunk_miss (fuel : nat) (chunkId : Z) (parser : TextParser E)
    (file : list char) (indexer : Indexer) (descriptor : ChunkDescriptor) :
  m_file parser = Some file → m_indexer parser = Some indexer →
  GetIndex indexer !! Z.to_nat chunkId = Some descriptor →
  cache_find chunkId (m_chunkCache parser) = None →
  valid_ids (config parser) →
  (Reader.extent (m_window (state parser)) < fuel)%nat →
  sizes_in_range (chunk_sequences descriptor) →
  ensures (GetChunk BUFFER_SIZE fuel chunkId parser)
    (λ ptr parser',
       ptr = length (chunks parser) ∧ config parser' = config parser
       ∧ ∃ chunk,
           chunks parser' = chunks parser ++ [chunk]
           ∧ m_id chunk = chunk_id descriptor
           ∧ m_sequenceRequestCount chunk = 0
           ∧ loaded_chunk (config parser) chunk (chunk_sequences descriptor))
    (λ e parser',
       chunks parser' = chunks parser
       ∧ m_chunkCache parser' = m_chunkCache parser
       ∧ ∃ sequenceDsc, sequenceDsc ∈ chunk_sequences descriptor
           ∧ sequence_error (config parser) (negb (m_skipSequenceIds parser))
                            sequenceDsc e).
Proof.
  intros Hfile Hindexer Hdescriptor Hfind Hvalid Hfuel Hsizes.
  unfold GetChunk, attempt. rewrite Hfind, Hindexer, Hfile, Hdescriptor.
  pose proof (LoadChunk_sequences_safe (config parser) BUFFER_SIZE Hvalid fuel
                (negb (m_skipSequenceIds parser)) (chunk_sequences descriptor)
                (MkChunk ∅ (chunk_id descriptor) 0) (state parser) []
                Hfuel Hsizes) as Hload.
  unfold LoadChunk.
  destruct (LoadChunk_sequences _ _ _ _ _ _ _) as [chunk s|e s|];
    cbn [ensures app] in *.
  - destruct Hload as (Hloaded & Hid & Hcount).
    { split.
      - intros id'. cbn [m_sequenceMap]. rewrite lookup_empty. split.
        + by intros [? ?].
        + intros (d & Hd & _). by apply elem_of_nil in Hd.
      - intros id' sequence. cbn [m_sequenceMap]. by rewrite lookup_empty. }
    split; [done|]. split; [done|]. exists chunk.
    split; [done|]. split; [exact Hid|]. split; [exact Hcount|exact Hloaded].
  - split; [done|]. split; [done|]. apply Hload. split.
    + intros id'. cbn [m_sequenceMap]. rewrite lookup_empty. split.
      * by intros [? ?].
      * intros (d & Hd & _). by apply elem_of_nil in Hd.
    + intros id' sequence. cbn [m_sequenceMap]. by rewrite lookup_empty.
  - apply Hload. split.
    + intros id'. cbn [m_sequenceMap]. rewrite lookup_empty. split.
      * by intros [? ?].
      * intros (d & Hd & _). by apply elem_of_nil in Hd.
    + intros id' sequence. cbn [m_sequenceMap]. by rewrite lookup_empty.
Qed.

End GetChunk.

(** ** The data of a sequence *)

Lemma GetSequence_streams_spec {E : Type} (p : Config) streamInfos :
  ∀ j (sequenceData : list (InputStreamBuffer E)) chunk sequenceId result,
  dense_invariant p sequenceData → sparse_invariant p sequenceData →
  (∀ k stream, streamInfos !! k = Some stream →
     m_streamInfos p !! (j + k)%nat = Some stream
     ∧ is_Some (sequenceData !! (j + k)%nat)) →
  ∃ datas,
    GetSequence_streams streamInfos j sequenceData chunk sequenceId result
    = Some (result ++ datas)
    ∧ length datas = length streamInfos
    ∧ ∀ k stream, streamInfos !! k = Some stream →
        ∃ input data,
          sequenceData !! (j + k)%nat = Some input ∧ datas !! k = Some data
          ∧ consistent_data stream input chunk sequenceId data.
Proof.
  induction streamInfos as [|stream streamInfos IH];
    intros j sequenceData chunk sequenceId result Hdense Hsparse Hstreams;
    cbn [GetSequence_streams].
  { exists []. rewrite app_nil_r. split; [done|]. split; [done|]. by intros k ? ?. }
  destruct (Hstreams 0%nat stream eq_refl) as [Hstream [input Hinput]].
  rewrite Nat.add_0_r in Hstream, Hinput. rewrite Hinput.
  edestruct (IH (S j) sequenceData chunk sequenceId) as (datas & Heq & Hlen & Hdatas);
    [done|done| |].
  { intros k stream' Hk. rewrite Nat.add_succ_l, <- Nat.add_succ_r.
    by apply (Hstreams (S k)). }
  eexists (_ :: datas). split; [|split].
  - rewrite Heq. by rewrite <- app_assoc.
  - cbn [length]. by rewrite Hlen.
  - intros [|k] stream' Hk.
    + injection Hk as <-. rewrite Nat.add_0_r. eexists input, _.
      split; [done|]. split; [done|]. unfold consistent_data.
      destruct (m_type stream) eqn:Htype.
      * split; [done|]. by apply (Hdense j stream input).
      * destruct (Hsparse j stream input Hstream Htype Hinput) as (H1 & H2 & H3 & H4).
        by repeat split.
    + destruct (Hdatas k stream' Hk) as (input' & data & Hin & Hd & Hcons).
      exists input', data. rewrite Nat.add_succ_l, <- Nat.add_succ_r in Hin.
      by repeat split.
Qed.

(** X15.  [TextDataChunk::GetSequence] of a sequence of the chunk whose
    buffers are well formed appends to [result] one datum for each stream,
    made of the buffer of that stream and consistent: the assertion of the
    source, one count of non-zero values for each sample of a sparse
    stream, holds, and a dense datum has [m_numberOfSamples] times the
    sample layout values.  It counts one request more for the chunk. *)
Theorem TextDataChunk_GetSequence_data {E : Type} (parser : TextParser E)
    (chunk : nat) (c : TextDataChunk E) (sequenceId : Z)
    (sequenceData : list (InputStreamBuffer E)) (result : list (SequenceData E)) :
  chunks parser !! chunk = Some c →
  m_sequenceMap c !! sequenceId = Some sequenceData →
  well_formed_sequence (config parser) sequenceData →
  ∃ datas parser',
    TextDataChunk_GetSequence chunk sequenceId result parser
    = Ret (result ++ datas) parser'
    ∧ chunks parser'
      = <[chunk := MkChunk (m_sequenceMap c) (m_id c)
                     (wrap64 (m_sequenceRequestCount c + 1))]> (chunks parser)
    ∧ length datas = length (m_streamInfos (config parser))
    ∧ ∀ j stream, m_streamInfos (config parser) !! j = Some stream →
        ∃ input data,
          sequenceData !! j = Some input ∧ datas !! j = Some data
          ∧ consistent_data stream input chunk sequenceId data.
Proof.
  intros Hchunk Hsequence (Hlen & Hdense & Hsparse).
  unfold TextDataChunk_GetSequence. rewrite Hchunk, Hsequence. cbn [config].
  destruct (GetSequence_streams_spec (config parser) (m_streamInfos (config parser))
              0 sequenceData chunk sequenceId result Hdense Hsparse)
    as (datas & Heq & Hdatas & Hall).
  { intros k stream Hk. cbn [Nat.add]. split; [done|].
    apply lookup_lt_is_Some_2. rewrite Hlen. by eapply lookup_lt_Some. }
  rewrite Heq. eexists datas, _. split; [done|]. split; [done|]. by split.
Qed.

(** ** Samples at the edges *)

Lemma ends_sample_ends_name c : ends_sample c = true → ends_name c = true.
Proof. unfold ends_sample, ends_name, VALUE_DELIMITER, NAME_PREFIX. lia. Qed.

Lemma ends_name_space : ends_name VALUE_DELIMITER = true.
Proof. done. Qed.

Section Edges.

Context {D E : Type} `{RA : RealArith D E}.
Variable p : Config.

(** [TryReadSparseSample] passes over value delimiters up to the byte that
    ends the sample. *)
Lemma TryReadSparseSample_delimiters k : ∀ fuel (values : list E) indices
    sampleSize b s c rest,
  m_pos s = replicate k VALUE_DELIMITER ++ c :: rest → ends_sample c = true →
  Z.of_nat k < b → (k < fuel)%nat →
  TryReadSparseSample p fuel values indices sampleSize b s
  = Ret (true, values, indices, b - Z.of_nat k) (set_pos (c :: rest) s).
Proof.
  induction k as [|k IH]; intros fuel values indices sampleSize b s c rest
    Hpos Hc Hb Hfuel; (destruct fuel as [|fuel]; [lia|]);
    cbn [TryReadSparseSample]; rewrite (proj2 (Z.eqb_neq b 0)) by lia;
    rewrite Hpos; cbn [replicate app].
  - unfold ends_sample in Hc. rewrite Hc. destruct s. cbn.
    cbn in Hpos. subst. f_equal. f_equal. lia.
  - change ((VALUE_DELIMITER <? VALUE_DELIMITER) || (VALUE_DELIMITER =? NAME_PREFIX))
      with false.
    rewrite Z.eqb_refl. cbn match.
    rewrite (IH fuel values indices sampleSize (b - 1) (set_pos _ s) c rest);
      [|done|done|lia|lia].
    f_equal. f_equal. lia.
Qed.

(** X16.  An empty sample of a sparse stream is accepted, as the comment of
    [TryReadSparseSample] has it: after the name of the stream and value
    delimiters, on a byte that ends the sample, [TryReadSample] returns
    [true] without a warning and without taking from the budget, counts one
    sample more with no value, and leaves [m_pos] on that byte. *)
Theorem TryReadSample_empty_sparse (fuel : nat)
    (sequence : list (InputStreamBuffer E)) (b : Z) (s : PState)
    (alias : list char) (k : nat) (c : char) (rest : list char)
    (id : nat) (stream : StreamInfo) (data : InputStreamBuffer E) :
  m_pos s = NAME_PREFIX :: alias ++ replicate k VALUE_DELIMITER ++ c :: rest →
  alias ≠ [] → head alias ≠ Some ESCAPE_SYMBOL →
  forallb (λ x, negb (ends_name x)) alias = true →
  (length alias ≤ m_maxAliasLength p)%nat →
  m_aliasToIdMap p !! alias = Some id →
  m_streamInfos p !! id = Some stream → m_type stream = sparse_csc →
  sequence !! id = Some data → ends_sample c = true →
  1 + Z.of_nat (length alias) + Z.of_nat k < b < 2 ^ 64 → (k < fuel)%nat →
  TryReadSample p fuel sequence b s
  = Ret (true,
         <[id := MkBuffer (S (m_numberOfSamples data)) (m_buffer data)
                   (m_indices data) (m_nnzCounts data ++ [0])
                   (m_totalNnzCount data + 0)]> sequence,
         b - 1 - Z.of_nat (length alias) - Z.of_nat k)
        (set_pos (c :: rest) s).
Proof.
  intros Hpos Hne Hesc Hname Hlen Hmap Hstream Htype Hdata Hc Hb Hfuel.
  unfold TryReadSample. rewrite Hpos. rewrite Z.eqb_refl. cbn [negb].
  rewrite wrap64_pred by lia. cbn zeta.
  assert (Hnoesc : negb (b - 1 =? 0)
                   && match alias ++ replicate k VALUE_DELIMITER ++ c :: rest with
                      | [] => false
                      | c' :: _ => c' =? ESCAPE_SYMBOL
                      end = false).
  { destruct alias as [|a alias]; [done|]. cbn [app].
    destruct (Z.eqb_spec a ESCAPE_SYMBOL) as [->|]; [done|].
    by rewrite andb_false_r. }
  rewrite Hnoesc.
  assert (Hterm : ∃ c' rest', replicate k VALUE_DELIMITER ++ c :: rest = c' :: rest'
                              ∧ ends_name c' = true).
  { destruct k as [|k]; cbn [replicate app].
    - exists c, rest. split; [done|]. by apply ends_sample_ends_name.
    - eexists _, _. split; [done|]. apply ends_name_space. }
  destruct Hterm as (c' & rest' & Hrest & Hc').
  unfold TryGetInputId. erewrite bind_Ret by apply run_scan_eq.
  cbn [m_pos set_pos]. rewrite Hrest.
  rewrite (TryGetInputId_loop_known _ _ alias [] c' rest' (b - 1) id);
    [|done|done|done|done|done|lia].
  cbn [sc_result sc_bytes sc_rest sc_warning]. rewrite Hstream, Hdata, Htype.
  rewrite <- Hrest.
  erewrite bind_Ret.
  2:{ apply (TryReadSparseSample_delimiters k); [done|done|lia|done]. }
  cbn [negb]. unfold ret, to_IndexType. by rewrite Z.sub_diag.
Qed.



Lemma SkipToNextInput_scan_text text : ∀ rest b,
  forallb (λ c, negb (starts_input c)) text = true →
  Z.of_nat (length text) ≤ b →
  (b = Z.of_nat (length text)
   ∨ match rest with [] => True | c :: _ => starts_input c = true end) →
  SkipToNextInput_scan (text ++ rest) b = (rest, b - Z.of_nat (length text)).
Proof.
  induction text as [|c text IH]; intros rest b Htext Hb Hstop;
    cbn [app length forallb] in *.
  - rewrite Z.sub_0_r. destruct rest as [|c rest]; cbn [SkipToNextInput_scan].
    + by destruct (b =? 0).
    + destruct (Z.eqb_spec b 0) as [|Hb0]; [done|].
      destruct Hstop as [->|Hc]; [done|].
      fold (starts_input c). by rewrite Hc.
  - cbn [SkipToNextInput_scan]. rewrite (proj2 (Z.eqb_neq b 0)) by lia.
    apply andb_prop in Htext as [Hc Htext]. apply negb_true_iff in Hc.
    fold (starts_input c). rewrite Hc.
    rewrite IH; [f_equal; lia|done|lia|].
    destruct Hstop as [->|?]; [left; lia|by right].
Qed.

(** X18.  A comment costs nothing: at the escape sequence of a name prefix
    and the escape symbol, [TryReadRow] passes over the bytes up to the next
    name prefix or row delimiter (or the end of the input or of the bytes to
    read) and goes on as if it had started there, with the same buffers,
    the same count of samples, the same budget and nothing printed. *)
Theorem TryReadRow_loop_comment (fuel : nat)
    (sequence : list (InputStreamBuffer E)) (b : Z) (n : nat) (s : PState)
    (text rest : list char) :
  m_pos s = NAME_PREFIX :: ESCAPE_SYMBOL :: text ++ rest →
  forallb (λ c, negb (starts_input c)) text = true →
  2 + Z.of_nat (length text) ≤ b < 2 ^ 64 →
  (b = 2 + Z.of_nat (length text)
   ∨ match rest with [] => True | c :: _ => starts_input c = true end) →
  TryReadRow_loop p (S fuel) sequence b n s
  = TryReadRow_loop p fuel sequence (b - 2 - Z.of_nat (length text)) n
                    (set_pos rest s).
Proof.
  intros Hpos Htext Hb Hstop. cbn [TryReadRow_loop].
  rewrite (proj2 (Z.eqb_neq b 0)) by lia. rewrite Hpos.
  change ((NAME_PREFIX =? COLUMN_DELIMITER) || (NAME_PREFIX =? VALUE_DELIMITER)
          || (NAME_PREFIX =? CARRIAGE_RETURN)) with false.
  change (NAME_PREFIX =? ROW_DELIMITER) with false. cbn match.
  unfold bind at 1, TryReadSample. rewrite Hpos, Z.eqb_refl. cbn [negb].
  rewrite wrap64_pred by lia. cbn zeta.
  rewrite (proj2 (Z.eqb_neq (b - 1) 0)) by lia. rewrite Z.eqb_refl.
  cbn [negb andb tail]. unfold bind, SkipToNextInput. cbn [m_pos set_pos].
  rewrite SkipToNextInput_scan_text; [|done|lia|].
  - cbn [fst snd]. f_equal. lia.
  - destruct Hstop as [->|?]; [left; lia|by right].
Qed.

End Edges.

(** ** Dense samples, value by value *)

Section DenseSamples.

Context {D E : Type} `{RA : RealArith D E}.
Variable p : Config.

Lemma set_pos_id (s : PState) input : m_pos s = input → set_pos input s = s.
Proof. intros <-. by destruct s. Qed.

Lemma numeral_chars_head (n : Numeral) :
  numeral_wf n = true →
  ∃ x xs, numeral_chars n = x :: xs ∧ ends_sample x = false
          ∧ (x =? VALUE_DELIMITER) = false.
Proof.
  assert (Hd : ∀ x, isdigit x = true →
                 ends_sample x = false ∧ (x =? VALUE_DELIMITER) = false).
  { intros x Hx. unfold isdigit, ends_sample, VALUE_DELIMITER, NAME_PREFIX in *. lia. }
  assert (Hs : ∀ x, isSign x = true →
                 ends_sample x = false ∧ (x =? VALUE_DELIMITER) = false).
  { intros x Hx. unfold isSign, ends_sample, VALUE_DELIMITER, NAME_PREFIX in *. lia. }
  assert (Hm : ∀ m, mantissa_wf m = true →
                 ∃ x xs, mantissa_chars m = x :: xs ∧ ends_sample x = false
                         ∧ (x =? VALUE_DELIMITER) = false).
  { intros m Hwf.
    destruct m as [sign d ds|sign d ds|sign d ds f fs];
      cbn [mantissa_wf mantissa_chars] in *;
      repeat match goal with
             | H : _ && _ = true |- _ => apply andb_prop in H as [? ?]
             end;
      (destruct sign as [|c [|? ?]]; [|cbn [opt_sign] in *|done]);
      cbn [app]; eexists _, _; (split; [done|]); auto. }
  intros Hwf. destruct n as [m|m e esign x xs]; cbn [numeral_wf numeral_chars] in *.
  - by apply Hm.
  - repeat match goal with
           | H : _ && _ = true |- _ => apply andb_prop in H as [? ?]
           end.
    destruct (Hm m) as (y & ys & -> & ? & ?); [done|].
    cbn [app]. by eexists _, _.
Qed.

Lemma extends_end (n : Numeral) (c : char) :
  ends_name c = true → extends n c = false.
Proof.
  intros Hc.
  assert (isdigit c = false ∧ (c =? 46) = false ∧ isE c = false) as (H1 & H2 & H3).
  { unfold ends_name, isdigit, isE, VALUE_DELIMITER, NAME_PREFIX in *. lia. }
  destruct n as [[]|]; cbn [extends]; by rewrite ?H1, ?H2, ?H3.
Qed.

Lemma dense_text_head items trailing c rest :
  ends_sample c = true →
  ∃ c' rest', dense_text items trailing ++ c :: rest = c' :: rest'
              ∧ ends_name c' = true.
Proof.
  intros Hc. destruct items as [|[k n] items]; cbn [dense_text].
  - destruct trailing as [|k]; cbn [replicate app].
    + exists c, rest. split; [done|]. by apply ends_sample_ends_name.
    + eexists _, _. split; [done|]. apply ends_name_space.
  - cbn [replicate app]. eexists _, _. split; [done|]. apply ends_name_space.
Qed.

(** The loop of [TryReadDenseSample] over value delimiters. *)
Lemma TryReadDenseSample_loop_skip k : ∀ fuel (values : list E) sampleSize
    counter b s rest,
  m_pos s = replicate k VALUE_DELIMITER ++ rest → Z.of_nat k < b →
  TryReadDenseSample_loop p (k + fuel) values sampleSize counter b s
  = TryReadDenseSample_loop p fuel values sampleSize counter (b - Z.of_nat k)
                            (set_pos rest s).
Proof.
  induction k as [|k IH]; intros fuel values sampleSize counter b s rest Hpos Hb;
    cbn [replicate app] in Hpos.
  - rewrite set_pos_id by done. cbn [Nat.add]. f_equal. lia.
  - cbn [Nat.add TryReadDenseSample_loop].
    rewrite (proj2 (Z.eqb_neq b 0)) by lia. rewrite Hpos.
    change ((VALUE_DELIMITER <? VALUE_DELIMITER) || (VALUE_DELIMITER =? NAME_PREFIX))
      with false.
    rewrite Z.eqb_refl. cbn match.
    rewrite (IH fuel values sampleSize counter (b - 1) (set_pos _ s) rest);
      [|done|lia].
    cbn [set_pos]. f_equal. lia.
Qed.

(** The loop of [TryReadDenseSample] over the text of a sample: it reads
    every numeral, appends its value and counts it, and comes to the byte
    that ends the sample. *)
Lemma TryReadDenseSample_loop_items items : ∀ trailing fuel (values : list E)
    sampleSize counter b s c rest,
  Forall (λ item, numeral_wf item.2 = true) items → ends_sample c = true →
  m_pos s = dense_text items trailing ++ c :: rest →
  Z.of_nat (length (dense_text items trailing)) < b →
  (length (dense_text items trailing) < fuel)%nat →
  TryReadDenseSample_loop p fuel values sampleSize counter b s
  = TryReadDenseSample_loop p 1 (values ++ dense_values items) sampleSize
      (counter + length items)
      (b - Z.of_nat (length (dense_text items trailing)))
      (set_pos (c :: rest) s).
Proof.
  induction items as [|[k n] items IH];
    intros trailing fuel values sampleSize counter b s c rest Hwf Hc Hpos Hb Hfuel;
    cbn [dense_text] in *.
  - rewrite length_replicate in *.
    replace fuel with (trailing + S (fuel - S trailing))%nat by lia.
    rewrite (TryReadDenseSample_loop_skip trailing _ _ _ _ _ _ (c :: rest))
      by (done || lia).
    rewrite !(TryReadDenseSample_loop_end p _ _ _ _ _ _ c rest) by (done || lia).
    cbn [dense_values map length]. by rewrite app_nil_r, Nat.add_0_r.
  - apply Forall_cons in Hwf as [Hn Hwf]. cbn [snd] in Hn.
    rewrite !length_app, length_replicate in *.
    destruct (numeral_chars_head n Hn) as (x & xs & Hchars & Hx & Hxd).
    assert (0 < length (numeral_chars n))%nat by (rewrite Hchars; cbn; lia).
    set (text := dense_text items trailing) in *.
    replace fuel with (S k + S (fuel - S (S k)))%nat by lia.
    rewrite (TryReadDenseSample_loop_skip (S k) _ _ _ _ _ _
               (numeral_chars n ++ text ++ c :: rest));
      [|by rewrite Hpos, <- !app_assoc|lia].
    match goal with |- _ = ?r => set (rhs := r) end.
    cbn [TryReadDenseSample_loop].
    rewrite (proj2 (Z.eqb_neq _ 0)) by lia.
    cbn [m_pos set_pos]. rewrite Hchars. cbn [app].
    unfold ends_sample in Hx. rewrite Hx, Hxd.
    destruct (dense_text_head items trailing c rest Hc) as (c' & rest' & Htext & Hc').
    fold text in Htext.
    erewrite bind_Ret.
    2:{ unfold TryReadRealNumber. rewrite run_scan_eq. cbn [m_pos set_pos].
        change (x :: xs ++ text ++ c :: rest) with ((x :: xs) ++ text ++ c :: rest).
        rewrite <- Hchars, Htext.
        rewrite scan_numeral; [|done|by apply extends_end|lia].
        cbn [sc_result sc_bytes sc_rest sc_warning]. reflexivity. }
    cbn [set_pos].
    rewrite (IH trailing _ _ _ _ _ _ c rest); [|done|done|by rewrite <- Htext| |].
    + subst rhs. cbn [set_pos dense_values map length snd]. f_equal.
      * by rewrite <- app_assoc.
      * lia.
      * fold text. lia.
    + fold text. lia.
    + fold text. lia.
Qed.

(** C6.  [TryReadSample] keeps the invariant of the dense buffers, the
    length of the buffer being the number of samples times the dimension of
    the stream: whatever the input, the invariant holds after the call when
    it held before, a sample that is accepted has added [sample_dimension]
    values to one buffer, and when the call returns [false] every dense
    buffer is as it was; with fuel for the bytes that remain, the call
    returns or throws.  And for the sample of a dense stream that is the
    name of the stream, the numerals of [items] between value delimiters and
    a byte that ends the sample: with no more numerals than the dimension
    the call returns [true], the buffer has grown by the values of the
    numerals and then by zeros up to [sample_dimension] values, with a
    warning when zeros were added; with more numerals than the dimension
    the call warns, takes one from the error budget and returns [false]
    with the buffers as they were, or throws where the budget is used up. *)
Theorem dense_invariant_TryReadSample :
  (∀ (fuel : nat) (sequence : list (InputStreamBuffer E)) (bytesToRead : Z)
     (s : PState),
     dense_invariant p sequence →
     (length (m_pos s) ≤ fuel)%nat →
     ensures (TryReadSample p fuel sequence bytesToRead s)
       (λ r s',
          dense_invariant p r.1.2
          ∧ if r.1.1 then accepted_sample p sequence r.1.2
            else ∀ id stream, m_streamInfos p !! id = Some stream →
                   m_type stream = dense → r.1.2 !! id = sequence !! id)
       (λ e s', budget_exhausted p e ∨ e = Undefined))
  ∧ (∀ (fuel : nat) (sequence : list (InputStreamBuffer E)) (b : Z) (s : PState)
       (alias : list char) (items : list (nat * Numeral)) (trailing : nat)
       (c : char) (rest : list char) (id : nat) (stream : StreamInfo)
       (data : InputStreamBuffer E),
       m_pos s = NAME_PREFIX :: alias ++ dense_text items trailing ++ c :: rest →
       alias ≠ [] → head alias ≠ Some ESCAPE_SYMBOL →
       forallb (λ x, negb (ends_name x)) alias = true →
       (length alias ≤ m_maxAliasLength p)%nat →
       m_aliasToIdMap p !! alias = Some id →
       m_streamInfos p !! id = Some stream → m_type stream = dense →
       sequence !! id = Some data →
       Forall (λ item, numeral_wf item.2 = true) items →
       ends_sample c = true →
       1 + Z.of_nat (length alias) + Z.of_nat (length (dense_text items trailing))
         < b < 2 ^ 64 →
       (length (dense_text items trailing) < fuel)%nat →
       let sampleSize := m_sampleDimension stream in
       let counter := length items in
       let bytesToRead :=
         b - 1 - Z.of_nat (length alias)
         - Z.of_nat (length (dense_text items trailing)) in
       TryReadSample p fuel sequence b s
       = if (sampleSize <? counter)%nat
         then
           let s1 := after_warning p (W_DenseExceeds counter sampleSize)
                                   (set_pos (c :: rest) s) in
           if (m_numAllowedErrors s =? 0)%N
           then Throw (RuntimeError (MaxErrorsMessage (m_filename p)))
                      (with_notification p s1)
           else Ret (false, sequence, bytesToRead)
                    (with_budget (N.pred (m_numAllowedErrors s)) s1)
         else
           Ret (true,
                <[id := MkBuffer (S (m_numberOfSamples data))
                          (m_buffer data ++ dense_values items
                             ++ replicate (sampleSize - counter) e_zero)
                          (m_indices data) (m_nnzCounts data)
                          (m_totalNnzCount data)]> sequence,
                bytesToRead)
               (if (counter <? sampleSize)%nat
                then after_warning p (W_DenseSparseSuffix sampleSize counter)
                                   (set_pos (c :: rest) s)
                else set_pos (c :: rest) s)).
Proof.
  split; [intros; by apply TryReadSample_dense_invariant|].
  intros fuel sequence b s alias items trailing c rest id stream data
    Hpos Hne Hesc Hname Hlen Hmap Hstream Htype Hdata Hwf Hc Hb Hfuel.
  cbn zeta.
  unfold TryReadSample. rewrite Hpos. rewrite Z.eqb_refl. cbn [negb].
  rewrite wrap64_pred by lia. cbn zeta.
  set (text := dense_text items trailing) in *.
  assert (Hnoesc : negb (b - 1 =? 0)
                   && match alias ++ text ++ c :: rest with
                      | [] => false
                      | c' :: _ => c' =? ESCAPE_SYMBOL
                      end = false).
  { destruct alias as [|a alias]; [done|]. cbn [app].
    destruct (Z.eqb_spec a ESCAPE_SYMBOL) as [->|]; [done|].
    by rewrite andb_false_r. }
  rewrite Hnoesc.
  destruct (dense_text_head items trailing c rest Hc) as (c' & rest' & Hrest & Hc').
  fold text in Hrest.
  unfold TryGetInputId. erewrite bind_Ret by apply run_scan_eq.
  cbn [m_pos set_pos]. rewrite Hrest.
  rewrite (TryGetInputId_loop_known _ _ alias [] c' rest' (b - 1) id);
    [|done|done|done|done|done|lia].
  cbn [sc_result sc_bytes sc_rest sc_warning]. rewrite Hstream, Hdata, Htype.
  rewrite <- Hrest.
  unfold TryReadDenseSample.
  match goal with
  | |- bind (TryReadDenseSample_loop _ _ _ _ _ ?b1) _ ?s1 = _ =>
      assert (Hloop := TryReadDenseSample_loop_items items trailing fuel
                         (m_buffer data) (m_sampleDimension stream) 0 b1 s1
                         c rest Hwf Hc eq_refl)
  end.
  fold text in Hloop.
  rewrite (TryReadDenseSample_loop_end p _ _ _ _ _ _ c rest) in Hloop;
    [|done|lia|done].
  specialize (Hloop ltac:(lia) Hfuel).
  cbn [Nat.add set_pos] in Hloop.
  destruct (m_sampleDimension stream <? length items)%nat eqn:Hmore.
  - erewrite bind_Ret by exact Hloop. cbn [negb].
    rewrite restore_resize, buffer_eta, list_insert_id by done.
    destruct (N.eqb_spec (m_numAllowedErrors s) 0) as [H0|H0].
    + erewrite bind_Throw; [done|]. by apply IncrementNumberOfErrorsOrDie_zero.
    + erewrite bind_Ret by (by apply IncrementNumberOfErrorsOrDie_pos).
      unfold ret. repeat f_equal; lia.
  - destruct (length items <? m_sampleDimension stream)%nat eqn:Hless.
    + erewrite bind_Ret by exact Hloop. cbn [negb]. unfold ret.
      rewrite <- app_assoc. repeat f_equal; lia.
    + erewrite bind_Ret by exact Hloop. cbn [negb]. unfold ret.
      apply Nat.ltb_ge in Hmore, Hless.
      replace (m_sampleDimension stream - length items)%nat with 0%nat by lia.
      cbn [replicate]. rewrite app_nil_r. repeat f_equal; lia.
Qed.

End DenseSamples.
(** The sample [|x 1 2] for a dense stream of dimension four, accepted as
    [1; 2; 0; 0], and the sample [|x 1 2 3] for a dimension of two,
    rejected with the buffer as it was and one taken from a budget of
    three. *)
Lemma dense_invariant_TryReadSample_witness :
  ensures
    (TryReadSample (RA:=Q_RealArith)
       (example_config Warning [example_stream "x" dense 4]) 20
       [new_buffer] 7 (example_state ("|x 1 2" ++ line_feed) 3))
    (λ r s',
       dense_invariant (example_config Warning [example_stream "x" dense 4]) r.1.2
       ∧ if r.1.1
         then accepted_sample
                (example_config Warning [example_stream "x" dense 4])
                [new_buffer] r.1.2
         else ∀ id stream,
                m_streamInfos (example_config Warning [example_stream "x" dense 4])
                  !! id = Some stream →
                m_type stream = dense → r.1.2 !! id = [new_buffer] !! id)
    (λ e s',
       budget_exhausted (example_config Warning [example_stream "x" dense 4]) e
       ∨ e = Undefined)
  ∧ TryReadSample (RA:=Q_RealArith)
      (example_config Warning [example_stream "x" dense 4]) 20
      [new_buffer] 7 (example_state ("|x 1 2" ++ line_feed) 3)
    = Ret (true, [MkBuffer 1 [1%Q; 2%Q; 0%Q; 0%Q] [] [] 0], 1)
          (after_warning (example_config Warning [example_stream "x" dense 4])
             (W_DenseSparseSuffix 4 2)
             (set_pos (bytes_of line_feed)
                      (example_state ("|x 1 2" ++ line_feed) 3)))
  ∧ TryReadSample (RA:=Q_RealArith)
      (example_config Warning [example_stream "x" dense 2]) 20
      [new_buffer] 9 (example_state ("|x 1 2 3" ++ line_feed) 3)
    = Ret (false, [new_buffer], 1)
          (with_budget 2
             (after_warning (example_config Warning [example_stream "x" dense 2])
                (W_DenseExceeds 3 2)
                (set_pos (bytes_of line_feed)
                         (example_state ("|x 1 2 3" ++ line_feed) 3)))).
Proof.
  split; [|split].
  - apply (proj1 (dense_invariant_TryReadSample (RA:=Q_RealArith)
                    (example_config Warning [example_stream "x" dense 4]))).
    + intros id stream data Hs Hd Hdata.
      apply one_buffer_lookup in Hdata as [-> ->]. reflexivity.
    + vm_compute. lia.
  - apply (proj2 (dense_invariant_TryReadSample (RA:=Q_RealArith)
                    (example_config Warning [example_stream "x" dense 4]))
             20%nat [new_buffer] 7 (example_state ("|x 1 2" ++ line_feed) 3)
             (bytes_of "x")
             [(0%nat, Plain (Integral [] 49 [])); (0%nat, Plain (Integral [] 50 []))]
             0%nat 10 [] 0%nat
             {| m_type := dense; m_sampleDimension := 4 |} new_buffer).
    + reflexivity.
    + discriminate.
    + discriminate.
    + reflexivity.
    + vm_compute. lia.
    + vm_compute. reflexivity.
    + reflexivity.
    + reflexivity.
    + reflexivity.
    + repeat constructor.
    + reflexivity.
    + vm_compute. split; reflexivity.
    + vm_compute. lia.
  - apply (proj2 (dense_invariant_TryReadSample (RA:=Q_RealArith)
                    (example_config Warning [example_stream "x" dense 2]))
             20%nat [new_buffer] 9 (example_state ("|x 1 2 3" ++ line_feed) 3)
             (bytes_of "x")
             [(0%nat, Plain (Integral [] 49 [])); (0%nat, Plain (Integral [] 50 []));
              (0%nat, Plain (Integral [] 51 []))]
             0%nat 10 [] 0%nat
             {| m_type := dense; m_sampleDimension := 2 |} new_buffer).
    + reflexivity.
    + discriminate.
    + discriminate.
    + reflexivity.
    + vm_compute. lia.
    + vm_compute. reflexivity.
    + reflexivity.
    + reflexivity.
    + reflexivity.
    + repeat constructor.
    + reflexivity.
    + vm_compute. split; reflexivity.
    + vm_compute. lia.
Defined.

(** ** The window on the file *)

(** X19.  [TryRefillBuffer], called with [m_pos] at the end of a window
    that is coherent with the file, loses no byte and invents none: the
    bytes still to be read are the same after the call.  It returns [true]
    exactly when a byte is left, and then [m_pos] is on it, at the start of
    a new window that is coherent and not larger than [BUFFER_SIZE]; when it
    returns [false] the window is as it was. *)
Theorem TryRefillBuffer_keeps_bytes (BUFFER_SIZE : nat) (w : Reader.Window) :
  (0 < BUFFER_SIZE)%nat → Reader.coherent w →
  Reader.m_pos w = length (Reader.m_buffer w) →
  Reader.readable (Reader.TryRefillBuffer BUFFER_SIZE w).2 = Reader.readable w
  ∧ Reader.coherent (Reader.TryRefillBuffer BUFFER_SIZE w).2
  ∧ if (Reader.TryRefillBuffer BUFFER_SIZE w).1
    then Reader.readable w ≠ []
         ∧ Reader.m_pos (Reader.TryRefillBuffer BUFFER_SIZE w).2 = 0%nat
         ∧ (0 < length (Reader.m_buffer (Reader.TryRefillBuffer BUFFER_SIZE w).2)
            ≤ BUFFER_SIZE)%nat
    else Reader.readable w = []
         ∧ Reader.m_buffer (Reader.TryRefillBuffer BUFFER_SIZE w).2
           = Reader.m_buffer w
         ∧ Reader.m_pos (Reader.TryRefillBuffer BUFFER_SIZE w).2 = Reader.m_pos w.
Proof.
  intros Hsize (Hstart & Hend & Hposition & Hbuffer & Hle) Hpos.
  unfold Reader.TryRefillBuffer, Reader.fread, Reader.readable.
  set (left := drop (Z.to_nat (Reader.position (Reader.m_file w)))
                    (Reader.content (Reader.m_file w))).
  rewrite Hpos, drop_all. cbn [app].
  destruct (take BUFFER_SIZE left) as [|c bytes] eqn:Hbytes; cbn [length Nat.eqb fst snd].
  - cbn [Reader.m_pos Reader.m_buffer Reader.m_file Reader.position Reader.content].
    change (Z.of_nat 0) with 0. rewrite drop_all, Z.add_0_r. cbn [app]. fold left.
    assert (left = []) as Hleft.
    { destruct left; [done|]. destruct BUFFER_SIZE; [lia|done]. }
    split; [done|]. split; [|done].
    unfold Reader.coherent.
    cbn [Reader.m_pos Reader.m_buffer Reader.m_file Reader.position Reader.content
         Reader.m_fileOffsetStart Reader.m_fileOffsetEnd].
    by repeat split.
  - cbn [Reader.m_pos Reader.m_buffer Reader.m_file Reader.position Reader.content
         drop].
    assert (Hsplit : (c :: bytes) ++ drop (length (c :: bytes)) left = left).
    { rewrite <- Hbytes. apply take_drop_app. }
    assert (Hlen : (length (c :: bytes) ≤ BUFFER_SIZE)%nat).
    { rewrite <- Hbytes, length_take. lia. }
    split; [|split].
    + etrans; [|exact Hsplit]. f_equal. unfold left. rewrite drop_drop.
      f_equal. cbn [length]. lia.
    + unfold Reader.coherent.
      cbn [Reader.m_pos Reader.m_buffer Reader.m_file Reader.position Reader.content
           Reader.m_fileOffsetStart Reader.m_fileOffsetEnd].
      split; [lia|]. split; [done|]. split; [by rewrite Hposition|].
      split; [|lia].
      rewrite <- Hposition. fold left. rewrite <- Hbytes.
      by rewrite take_length_take.
    + split; [by destruct left|]. split; [done|]. cbn [length] in *. lia.
Qed.

(** X20.  The first lines of [LoadSequence] put [m_pos] on the byte of the
    file at the offset of the sequence: for a window that is coherent with
    the file and an offset inside the file, with or without a seek, the
    bytes still to be read are those of the file from the offset on, the
    window is coherent, and [m_fileOffsetStart] plus the distance of
    [m_pos] from the start of the window is the offset. *)
Theorem LoadSequence_seek_positions (BUFFER_SIZE : nat) (w : Reader.Window)
    (fileOffset : Z) :
  (0 < BUFFER_SIZE)%nat → Reader.coherent w →
  0 ≤ fileOffset < Z.of_nat (length (Reader.content (Reader.m_file w))) →
  fileOffset < 2 ^ 64 →
  ∃ w',
    Reader.LoadSequence_seek BUFFER_SIZE fileOffset w = Some w'
    ∧ Reader.coherent w'
    ∧ Reader.readable w'
      = drop (Z.to_nat fileOffset) (Reader.content (Reader.m_file w))
    ∧ Reader.m_fileOffsetStart w' + Z.of_nat (Reader.m_pos w') = fileOffset
    ∧ Reader.content (Reader.m_file w') = Reader.content (Reader.m_file w).
Proof.
  intros Hsize (Hstart & Hend & Hposition & Hbuffer & Hle) Hoffset Hmax.
  unfold Reader.LoadSequence_seek.
  destruct ((fileOffset <? Reader.m_fileOffsetStart w)
            || (fileOffset >? Reader.m_fileOffsetEnd w)) eqn:Hout.
  - unfold Reader.SetFileOffset, Reader._fseeki64.
    rewrite (proj2 (Z.ltb_ge fileOffset 0)) by lia.
    unfold Reader.TryRefillBuffer, Reader.fread.
    cbn [Reader.m_file Reader.position Reader.content Reader.m_fileOffsetEnd].
    set (left := drop (Z.to_nat fileOffset) (Reader.content (Reader.m_file w))).
    assert (Hleft : (0 < length left)%nat).
    { unfold left. rewrite length_drop. lia. }
    destruct (take BUFFER_SIZE left) as [|c bytes] eqn:Hbytes.
    { destruct left; [cbn [length] in Hleft; lia|]. destruct BUFFER_SIZE; [lia|done]. }
    cbn [length Nat.eqb snd Reader.m_file Reader.m_buffer Reader.m_fileOffsetStart
         Reader.m_fileOffsetEnd].
    rewrite Z.sub_diag. change (wrap64 0) with 0. change (Z.to_nat 0) with 0%nat.
    eexists. split; [done|].
    assert (Hsplit : (c :: bytes) ++ drop (length (c :: bytes)) left = left).
    { rewrite <- Hbytes. apply take_drop_app. }
    split; [|split; [|split]].
    + unfold Reader.coherent.
      cbn [Reader.m_pos Reader.m_buffer Reader.m_file Reader.position Reader.content
           Reader.m_fileOffsetStart Reader.m_fileOffsetEnd length].
      split; [lia|]. split; [done|]. split; [done|]. split; [|lia].
      fold left. change (S (length bytes)) with (length (c :: bytes)).
      rewrite <- Hbytes. by rewrite take_length_take.
    + unfold Reader.readable.
      cbn [Reader.m_pos Reader.m_buffer Reader.m_file Reader.position Reader.content
           drop].
      etrans; [|exact Hsplit]. f_equal. unfold left. rewrite drop_drop.
      f_equal. cbn [length]. lia.
    + cbn [Reader.m_pos Reader.m_fileOffsetStart]. lia.
    + done.
  - apply orb_false_elim in Hout as [Hlo Hhi].
    apply Z.ltb_ge in Hlo. assert (fileOffset ≤ Reader.m_fileOffsetEnd w) by lia.
    rewrite wrap64_small by lia.
    eexists. split; [done|]. split; [|split; [|split]].
    + unfold Reader.coherent.
      cbn [Reader.m_pos Reader.m_buffer Reader.m_file Reader.position Reader.content
           Reader.m_fileOffsetStart Reader.m_fileOffsetEnd].
      repeat split; try done. lia.
    + unfold Reader.readable.
      cbn [Reader.m_pos Reader.m_buffer Reader.m_file].
      set (k := Z.to_nat (fileOffset - Reader.m_fileOffsetStart w)).
      set (L := drop (Z.to_nat (Reader.m_fileOffsetStart w))
                     (Reader.content (Reader.m_file w))) in *.
      replace (drop (Z.to_nat (Reader.position (Reader.m_file w)))
                    (Reader.content (Reader.m_file w)))
        with (drop (length (Reader.m_buffer w)) L).
      2:{ unfold L. rewrite drop_drop. f_equal. lia. }
      replace (drop (Z.to_nat fileOffset) (Reader.content (Reader.m_file w)))
        with (drop k L).
      2:{ unfold L, k. rewrite drop_drop. f_equal. lia. }
      rewrite Hbuffer at 1.
      rewrite <- (take_drop (length (Reader.m_buffer w)) L) at 3.
      rewrite drop_app_le; [done|].
      rewrite <- Hbuffer. unfold k. lia.
    + cbn [Reader.m_pos Reader.m_fileOffsetStart]. lia.
    + done.
Qed.

(** X21.  [SetFileOffset] does not look at what [TryRefillBuffer] returns:
    when the offset of the sequence is outside the window and at or after
    the end of the file, nothing is read, the old window stays, and the
    first lines of [LoadSequence] put [m_pos] at its start, so the bytes
    still to be read are those of the old window, although
    [m_fileOffsetStart] is now the offset. *)
Theorem LoadSequence_seek_past_the_end (BUFFER_SIZE : nat) (w : Reader.Window)
    (fileOffset : Z) :
  Reader.coherent w →
  fileOffset < Reader.m_fileOffsetStart w ∨ Reader.m_fileOffsetEnd w < fileOffset →
  Z.of_nat (length (Reader.content (Reader.m_file w))) ≤ fileOffset →
  ∃ w',
    Reader.LoadSequence_seek BUFFER_SIZE fileOffset w = Some w'
    ∧ Reader.readable w' = Reader.m_buffer w
    ∧ Reader.m_fileOffsetStart w' = fileOffset ∧ Reader.m_pos w' = 0%nat.
Proof.
  intros (Hstart & Hend & Hposition & Hbuffer & Hle) Hout Hoffset.
  unfold Reader.LoadSequence_seek.
  assert ((fileOffset <? Reader.m_fileOffsetStart w)
          || (fileOffset >? Reader.m_fileOffsetEnd w) = true) as -> by lia.
  unfold Reader.SetFileOffset, Reader._fseeki64.
  rewrite (proj2 (Z.ltb_ge fileOffset 0)) by lia.
  unfold Reader.TryRefillBuffer, Reader.fread.
  cbn [Reader.m_file Reader.position Reader.content Reader.m_fileOffsetEnd].
  rewrite (drop_ge (Reader.content (Reader.m_file w))) by lia.
  rewrite take_nil.
  cbn [length Nat.eqb snd Reader.m_file Reader.m_buffer Reader.m_fileOffsetStart
       Reader.m_fileOffsetEnd].
  rewrite Z.sub_diag. change (wrap64 0) with 0. change (Z.to_nat 0) with 0%nat.
  eexists. split; [done|]. split; [|done].
  unfold Reader.readable.
  cbn [Reader.m_pos Reader.m_buffer Reader.m_file Reader.position Reader.content
       drop].
  rewrite (drop_ge (Reader.content (Reader.m_file w))) by lia. apply app_nil_r.
Qed.

(** ** Initialisation and eviction *)

Section Initialization.

Context {D E : Type} `{RA : RealArith D E}.
Variable rows_have_sequence_ids : list char → bool.
Variable build_index : list char → bool → Z → list ChunkDescriptor.

(** X22.  [Initialize] does its work once: after a call that returned,
    another call, whatever the file has become, returns at once and leaves
    the parser, with its indexer and its flag for the sequence ids, as it
    is. *)
Theorem Initialize_once (disk disk' : option (list char))
    (parser parser' : TextParser E) :
  Initialize rows_have_sequence_ids build_index disk parser = Ret tt parser' →
  Initialize rows_have_sequence_ids build_index disk' parser' = Ret tt parser'
  ∧ is_Some (m_indexer parser').
Proof.
  unfold Initialize at 1, attempt.
  destruct (m_indexer parser) as [indexer|] eqn:Hindexer.
  - intros [= <-]. unfold Initialize. rewrite Hindexer. split; [done|by eexists].
  - destruct disk as [file|]; [|done]. destruct (funicode file); [done|].
    intros [= <-]. unfold Initialize. cbn [m_indexer]. split; [done|by eexists].
Qed.

End Initialization.

Section Eviction.

Context {E : Type}.

(** X23.  The eviction loop of [GetChunk] breaks ties by the order of
    iteration: when it finds a candidate, the candidate is the first entry
    of the cache with the fewest sequences left, every entry before it has
    more left and every entry after it has as many or more. *)
Theorem GetChunk_candidate_first (chunks : list (TextDataChunk E))
    (cache : ChunkCache) (candidateId minNumSequencesLeft : Z) :
  (GetChunk_candidate chunks cache SIZE_MAX SIZE_MAX)
  = (candidateId, minNumSequencesLeft) →
  minNumSequencesLeft < SIZE_MAX →
  ∃ before ptr chunk after,
    cache = before ++ (candidateId, ptr) :: after
    ∧ chunks !! ptr = Some chunk
    ∧ numSequencesLeft chunk = minNumSequencesLeft
    ∧ (∀ id left, cached_left chunks before id left → minNumSequencesLeft < left)
    ∧ (∀ id left, cached_left chunks after id left → minNumSequencesLeft ≤ left).
Proof.
  assert (Hgen : ∀ cache cand m cand' m',
    GetChunk_candidate chunks cache cand m = (cand', m') →
    (cand' = cand ∧ m' = m
     ∧ ∀ id left, cached_left chunks cache id left → m ≤ left)
    ∨ (m' < m
       ∧ ∃ before ptr chunk after,
           cache = before ++ (cand', ptr) :: after
           ∧ chunks !! ptr = Some chunk ∧ numSequencesLeft chunk = m'
           ∧ (∀ id left, cached_left chunks before id left → m' < left)
           ∧ (∀ id left, cached_left chunks after id left → m' ≤ left))).
  { clear. intros cache. induction cache as [|[id ptr] cache IH];
      intros cand m cand' m'; cbn [GetChunk_candidate].
    { intros [= <- <-]. left. split; [done|]. split; [done|].
      intros id left (? & ? & Hin & _). by apply elem_of_nil in Hin. }
    assert (Hcons : ∀ id' left,
              cached_left chunks ((id, ptr) :: cache) id' left →
              (∃ chunk, chunks !! ptr = Some chunk ∧ numSequencesLeft chunk = left)
              ∨ cached_left chunks cache id' left).
    { intros id' left (ptr' & chunk' & Hin & ? & ?).
      apply elem_of_cons in Hin as [[= -> ->]|Hin]; [left; eauto|].
      right. by exists ptr', chunk'. }
    assert (Hbefore : ∀ before id' left,
              cached_left chunks ((id, ptr) :: before) id' left →
              (∃ chunk, chunks !! ptr = Some chunk ∧ numSequencesLeft chunk = left)
              ∨ cached_left chunks before id' left).
    { intros before id' left (ptr' & chunk' & Hin & ? & ?).
      apply elem_of_cons in Hin as [[= -> ->]|Hin]; [left; eauto|].
      right. by exists ptr', chunk'. }
    destruct (chunks !! ptr) as [chunk|] eqn:Hchunk.
    - destruct (Z.ltb_spec (numSequencesLeft chunk) m) as [Hlt|Hge].
      + intros Heq. right.
        destruct (IH _ _ _ _ Heq) as [(-> & -> & Hmin)
                                     |(Hlt' & before & ptr' & chunk' & after
                                       & -> & Hptr & Hleft & Hb & Ha)].
        * split; [done|]. exists [], ptr, chunk, cache.
          split; [done|]. split; [done|]. split; [done|]. split; [|done].
          intros ? ? (? & ? & Hin & _). by apply elem_of_nil in Hin.
        * split; [lia|]. exists ((id, ptr) :: before), ptr', chunk', after.
          split; [done|]. split; [done|]. split; [done|]. split; [|done].
          intros id' left Hc.
          apply Hbefore in Hc as [(chunk'' & Hc'' & <-)|Hc]; [|by eapply Hb].
          assert (chunk'' = chunk) as -> by congruence. lia.
      + intros Heq.
        destruct (IH _ _ _ _ Heq) as [(-> & -> & Hmin)
                                     |(Hlt' & before & ptr' & chunk' & after
                                       & -> & Hptr & Hleft & Hb & Ha)].
        * left. split; [done|]. split; [done|]. intros id' left Hc.
          apply Hcons in Hc as [(chunk'' & Hc'' & <-)|Hc]; [|by eapply Hmin].
          assert (chunk'' = chunk) as -> by congruence. lia.
        * right. split; [done|]. exists ((id, ptr) :: before), ptr', chunk', after.
          split; [done|]. split; [done|]. split; [done|]. split; [|done].
          intros id' left Hc.
          apply Hbefore in Hc as [(chunk'' & Hc'' & <-)|Hc]; [|by eapply Hb].
          assert (chunk'' = chunk) as -> by congruence. lia.
    - intros Heq.
      destruct (IH _ _ _ _ Heq) as [(-> & -> & Hmin)
                                   |(Hlt' & before & ptr' & chunk' & after
                                     & -> & Hptr & Hleft & Hb & Ha)].
      + left. split; [done|]. split; [done|]. intros id' left Hc.
        apply Hcons in Hc as [(chunk'' & Hc'' & _)|Hc]; [congruence|by eapply Hmin].
      + right. split; [done|]. exists ((id, ptr) :: before), ptr', chunk', after.
        split; [done|]. split; [done|]. split; [done|]. split; [|done].
        intros id' left Hc.
        apply Hbefore in Hc as [(chunk'' & Hc'' & _)|Hc]; [congruence|by eapply Hb]. }
  intros Heq Hlt.
  destruct (Hgen _ _ _ _ _ Heq) as [(_ & -> & _)|(_ & H)]; [lia|exact H].
Qed.

End Eviction.


(** ** Rows and lines *)

Lemma same_line_refl s s' : m_pos s' = m_pos s → same_line s s'.
Proof. intros Hpos. exists []. rewrite Hpos. by split. Qed.

Lemma same_line_trans s1 s2 s3 : same_line s1 s2 → same_line s2 s3 → same_line s1 s3.
Proof.
  intros (t1 & H1 & ?) (t2 & H2 & ?). exists (t1 ++ t2).
  rewrite H1, H2, <- app_assoc. split; [done|]. by apply Forall_app.
Qed.

Lemma same_line_cons s s' c :
  m_pos s = c :: m_pos s' → c ≠ ROW_DELIMITER → same_line s s'.
Proof.
  intros Hpos Hc. exists [c]. rewrite Hpos. split; [done|].
  by apply Forall_singleton.
Qed.

Lemma same_line_pos s s' t t' :
  m_pos t = m_pos s → m_pos t' = m_pos s' → same_line s s' → same_line t t'.
Proof. unfold same_line. by intros -> ->. Qed.

(** A scanner that takes no row delimiter. *)
Lemma run_scan_same_line {A} p (scan : list char → Scan A) s :
  (∃ taken, m_pos s = taken ++ sc_rest (scan (m_pos s))
            ∧ Forall (λ c, c ≠ ROW_DELIMITER) taken) →
  ∃ s', run_scan p scan s
        = Ret (sc_result (scan (m_pos s)), sc_bytes (scan (m_pos s))) s'
        ∧ same_line s s'.
Proof.
  intros (taken & Hpos & Hline). rewrite run_scan_eq. eexists. split; [done|].
  exists taken. split; [|done]. by destruct (sc_warning (scan (m_pos s))).
Qed.

Lemma digit_not_row_delimiter c : isdigit c = true → c ≠ ROW_DELIMITER.
Proof. unfold isdigit, ROW_DELIMITER. lia. Qed.

Lemma TryReadUint64_loop_line input : ∀ b value found,
  ∃ taken,
    input = taken ++ sc_rest (TryReadUint64_loop input b value found)
    ∧ Forall (λ c, c ≠ ROW_DELIMITER) taken.
Proof.
  induction input as [|c rest IH]; intros b value found; cbn [TryReadUint64_loop].
  - exists []. by destruct (b =? 0).
  - destruct (b =? 0); [by exists []|].
    destruct (isdigit c) eqn:Hc; cbn [negb].
    + destruct (_ >? _); [by exists []|].
      destruct (IH (b - 1) (wrap64 (value * 10 + (c - 48))) true)
        as (taken & Heq & Hline).
      exists (c :: taken). cbn [app]. split; [by rewrite <- Heq|].
      apply Forall_cons. split; [by apply digit_not_row_delimiter|done].
    + exists []. by destruct (isDelimiter c).
Qed.

Lemma TryGetInputId_loop_line aliasToIdMap maxAliasLength input : ∀ b scratch,
  ∃ taken,
    input = taken ++ sc_rest (TryGetInputId_loop aliasToIdMap maxAliasLength
                                                 input b scratch)
    ∧ Forall (λ c, c ≠ ROW_DELIMITER) taken.
Proof.
  induction input as [|c rest IH]; intros b scratch; cbn [TryGetInputId_loop].
  - exists []. by destruct (b =? 0).
  - destruct (b =? 0); [by exists []|].
    destruct ((c <=? VALUE_DELIMITER) || (c =? NAME_PREFIX)) eqn:Hc.
    + exists []. destruct scratch; [done|]. by destruct (aliasToIdMap !! _).
    + destruct (_ <? _)%nat; [|by exists []].
      destruct (IH (b - 1) (scratch ++ [c])) as (taken & Heq & Hline).
      exists (c :: taken). cbn [app]. split; [by rewrite <- Heq|].
      apply Forall_cons. split; [|done].
      unfold VALUE_DELIMITER, NAME_PREFIX, ROW_DELIMITER in *. lia.
Qed.

Lemma SkipToNextInput_scan_line input : ∀ b,
  ∃ taken,
    input = taken ++ fst (SkipToNextInput_scan input b)
    ∧ Forall (λ c, c ≠ ROW_DELIMITER) taken.
Proof.
  induction input as [|c rest IH]; intros b; cbn [SkipToNextInput_scan].
  - exists []. by destruct (b =? 0).
  - destruct (b =? 0); [by exists []|].
    destruct ((c =? NAME_PREFIX) || (c =? ROW_DELIMITER)) eqn:Hc; [by exists []|].
    destruct (IH (b - 1)) as (taken & Heq & Hline).
    exists (c :: taken). cbn [app]. split; [by rewrite <- Heq|].
    apply Forall_cons. split; [|done]. lia.
Qed.

Lemma SkipSequenceId_scan_line input : ∀ b,
  ∃ taken,
    input = taken ++ fst (SkipSequenceId_scan input b)
    ∧ Forall (λ c, c ≠ ROW_DELIMITER) taken.
Proof.
  induction input as [|c rest IH]; intros b; cbn [SkipSequenceId_scan].
  - exists []. by destruct (b =? 0).
  - destruct (b =? 0); [by exists []|].
    destruct (isdigit c) eqn:Hc; [|by exists []].
    destruct (IH (b - 1)) as (taken & Heq & Hline).
    exists (c :: taken). cbn [app]. split; [by rewrite <- Heq|].
    apply Forall_cons. split; [by apply digit_not_row_delimiter|done].
Qed.

Section Lines.

Context {D E : Type} `{RA : RealArith D E}.
Variable p : Config.

Lemma TryReadRealNumber_loop_line input : ∀ b state co num dv neg,
  ∃ taken,
    input = taken ++ sc_rest (TryReadRealNumber_loop (E:=E) input b state co num dv neg)
    ∧ Forall (λ c, c ≠ ROW_DELIMITER) taken.
Proof.
  induction input as [|c rest IH]; intros b state co num dv neg;
    cbn [TryReadRealNumber_loop].
  - exists []. by destruct (b =? 0).
  - destruct (b =? 0); [by exists []|].
    destruct state;
      repeat match goal with
             | |- context [if ?x then _ else _] =>
                 match type of x with bool => destruct x eqn:? end
             end;
      lazymatch goal with
      | |- context [TryReadRealNumber_loop rest (b - 1) ?st ?x ?y ?z ?n] =>
          destruct (IH (b - 1) st x y z n) as (taken & Heq & Hline);
          exists (c :: taken); cbn [app]; (split; [by rewrite <- Heq|]);
          apply Forall_cons; (split; [|done]);
          unfold isdigit, isSign, isE, ROW_DELIMITER in *; lia
      | |- _ => by exists []
      end.
Qed.

Lemma TryReadRealNumber_same_line b s :
  ∃ r b' s', TryReadRealNumber (E:=E) p b s = Ret (r, b') s' ∧ same_line s s'
             ∧ (is_Some r → (length (m_pos s') < length (m_pos s))%nat).
Proof.
  unfold TryReadRealNumber.
  destruct (run_scan_same_line p (λ input, TryReadRealNumber_scan (E:=E) input b) s)
    as (s' & Hrun & Hline); [apply TryReadRealNumber_loop_line|].
  eexists _, _, s'. split; [exact Hrun|]. split; [done|].
  intros [v Hv]. apply TryReadRealNumber_scan_Some in Hv as (c & rest & Hs & Hsuf).
  rewrite run_scan_eq in Hrun. injection Hrun as <-.
  apply suffix_length in Hsuf. apply (f_equal length) in Hs. cbn [length] in Hs.
  destruct (sc_warning _); cbn [m_pos after_warning set_pos]; lia.
Qed.

Lemma TryReadDenseSample_loop_same_line fuel : ∀ values sampleSize counter b s,
  (length (m_pos s) < fuel)%nat →
  ensures (TryReadDenseSample_loop p fuel values sampleSize counter b s)
    (λ r s', same_line s s') (λ e s', True).
Proof.
  induction fuel as [|fuel IH]; intros values sampleSize counter b s Hfuel; [lia|].
  cbn [TryReadDenseSample_loop].
  assert (Hexh : ensures
    ((IncrementNumberOfErrorsOrDie p;; warn p W_DenseExhausted;;
      ret (false, values, b)) s)
    (λ r s', same_line s s') (λ e s', True)).
  { apply ensures_bind.
    eapply ensures_mono; [apply IncrementNumberOfErrorsOrDie_m_pos| |done].
    intros [] s1 Hs1. cbn beta in Hs1. apply ensures_warn_ret.
    by apply same_line_refl. }
  destruct (b =? 0); [done|].
  destruct (m_pos s) as [|c rest] eqn:Hpos; [done|].
  destruct (_ || _).
  - destruct (sampleSize <? counter)%nat.
    + apply ensures_warn_ret. by apply same_line_refl.
    + destruct (counter <? sampleSize)%nat.
      * apply ensures_warn_ret. by apply same_line_refl.
      * by apply same_line_refl.
  - destruct (Z.eqb_spec c VALUE_DELIMITER) as [->|Hc].
    + eapply ensures_mono; [apply IH| |done].
      * cbn [m_pos set_pos]. cbn [length] in Hfuel. lia.
      * intros r s' Hline. eapply same_line_trans; [|exact Hline].
        by apply (same_line_cons _ _ VALUE_DELIMITER).
    + destruct (TryReadRealNumber_same_line b s)
        as ([value|] & b' & s1 & Hrun & Hline & Hlt);
        erewrite bind_Ret by exact Hrun; [|exact Hline].
      eapply ensures_mono; [apply IH| |done].
      * specialize (Hlt ltac:(by eexists)). rewrite Hpos in Hlt. lia.
      * intros r s' Hline'. by eapply same_line_trans.
Qed.

Lemma TryReadUint64_same_line b s :
  ∃ r b' s', TryReadUint64 p b s = Ret (r, b') s' ∧ same_line s s'
    ∧ (is_Some r →
       (length (m_pos s') < length (m_pos s))%nat
       ∧ ∃ c rest, m_pos s' = c :: rest ∧ isDelimiter c = true).
Proof.
  unfold TryReadUint64.
  destruct (run_scan_same_line p (λ input, TryReadUint64_scan input b) s)
    as (s' & Hrun & Hline); [apply TryReadUint64_loop_line|].
  eexists _, _, s'. split; [exact Hrun|]. split; [done|].
  intros [v Hv].
  destruct (TryReadUint64_loop_true _ _ _ _ _ Hv)
    as (ds & c & rest & Hs & _ & Hc & Hval & Hloop & _).
  rewrite run_scan_eq in Hrun. injection Hrun as <-.
  unfold TryReadUint64_scan. rewrite Hloop. cbn [sc_warning sc_rest m_pos set_pos].
  split; [|by exists c, rest]. rewrite Hs.
  destruct ds as [|d ds]; [by destruct Hval|].
  rewrite length_app. cbn [length]. lia.
Qed.

Lemma TryGetInputId_same_line b s :
  ∃ r b' s', TryGetInputId p b s = Ret (r, b') s' ∧ same_line s s'.
Proof.
  unfold TryGetInputId.
  destruct (run_scan_same_line p
              (λ input, TryGetInputId_loop (m_aliasToIdMap p) (m_maxAliasLength p)
                                           input b []) s)
    as (s' & Hrun & Hline); [apply TryGetInputId_loop_line|].
  by eexists _, _, s'.
Qed.

Lemma TryReadSparseSample_same_line fuel : ∀ values indices sampleSize b s,
  (length (m_pos s) < fuel)%nat →
  ensures (TryReadSparseSample p fuel values indices sampleSize b s)
    (λ r s', same_line s s') (λ e s', True).
Proof.
  induction fuel as [|fuel IH]; intros values indices sampleSize b s Hfuel; [lia|].
  cbn [TryReadSparseSample].
  destruct (b =? 0); [apply ensures_warn_ret; by apply same_line_refl|].
  destruct (m_pos s) as [|c rest] eqn:Hpos;
    [apply ensures_warn_ret; by apply same_line_refl|].
  destruct (_ || _); [by apply same_line_refl|].
  destruct (Z.eqb_spec c VALUE_DELIMITER) as [->|Hc].
  { eapply ensures_mono; [apply IH| |done].
    - cbn [m_pos set_pos]. cbn [length] in Hfuel. lia.
    - intros r s' Hline. eapply same_line_trans; [|exact Hline].
      by apply (same_line_cons _ _ VALUE_DELIMITER). }
  destruct (TryReadUint64_same_line b s)
    as ([index|] & b1 & s1 & Hrun & Hline1 & Hsome);
    erewrite bind_Ret by exact Hrun; [|exact Hline1].
  destruct (Hsome ltac:(by eexists)) as (Hlt1 & c1 & rest1 & Hpos1 & _).
  destruct (index >? Z.of_nat sampleSize).
  { apply ensures_warn_ret. by eapply same_line_pos; [| |exact Hline1]. }
  rewrite Hpos1.
  destruct (Z.eqb_spec c1 INDEX_DELIMITER) as [->|Hc1]; cbn [negb].
  2:{ apply ensures_warn_ret. eapply same_line_pos; [| |exact Hline1]; [done|].
      by rewrite Hpos1. }
  assert (Hstep : same_line s (set_pos rest1 s1)).
  { eapply same_line_trans; [exact Hline1|].
    by apply (same_line_cons _ _ INDEX_DELIMITER). }
  apply ensures_bind. cbn [modify ensures].
  destruct (TryReadRealNumber_same_line (wrap64 (b1 - 1)) (set_pos rest1 s1))
    as ([value|] & b2 & s2 & Hrun2 & Hline2 & Hlt2);
    erewrite bind_Ret by exact Hrun2; [|by eapply same_line_trans].
  specialize (Hlt2 ltac:(by eexists)). cbn [m_pos set_pos] in Hlt2.
  eapply ensures_mono; [apply IH| |done].
  - rewrite Hpos in Hlt1. rewrite Hpos1 in Hlt1. cbn [length] in Hfuel, Hlt1. lia.
  - intros r s' Hline. eapply same_line_trans; [|exact Hline].
    by eapply same_line_trans.
Qed.

Lemma ensures_Increment_same_line {A} (a : A) s (Q : A → PState → Prop) :
  (∀ s', m_pos s' = m_pos s → Q a s') →
  ensures ((IncrementNumberOfErrorsOrDie p;; ret a) s) Q (λ e s', True).
Proof.
  intros HQ. apply ensures_bind.
  eapply ensures_mono; [apply IncrementNumberOfErrorsOrDie_m_pos| |done].
  intros [] s1 Hs1. cbn beta in Hs1. by apply HQ.
Qed.

(** [TryReadSample] takes no row delimiter; at a name prefix it takes a
    byte, and anywhere else it takes none and returns [false]. *)
Lemma TryReadSample_same_line fuel (sequence : list (InputStreamBuffer E)) b s :
  (length (m_pos s) ≤ fuel)%nat →
  ensures (TryReadSample p fuel sequence b s)
    (λ r s', same_line s s') (λ e s', True).
Proof.
  intros Hfuel. unfold TryReadSample.
  destruct (m_pos s) as [|c rest] eqn:Hpos; [done|].
  destruct (Z.eqb_spec c NAME_PREFIX) as [->|Hc]; cbn [negb].
  2:{ apply ensures_bind. rewrite warn_eq. cbn [ensures].
      apply ensures_Increment_same_line. intros s' Hs'.
      by apply same_line_refl. }
  cbn zeta.
  assert (Hstep : same_line s (set_pos rest s)).
  { by apply (same_line_cons _ _ NAME_PREFIX). }
  destruct (negb (wrap64 (b - 1) =? 0) && _) eqn:Hesc.
  { apply andb_prop in Hesc as [_ Hrest].
    destruct rest as [|c' rest']; [done|]. apply Z.eqb_eq in Hrest as ->.
    cbn [ensures tail]. eapply same_line_trans; [exact Hstep|].
    by apply (same_line_cons _ _ ESCAPE_SYMBOL). }
  destruct (TryGetInputId_same_line (wrap64 (b - 1)) (set_pos rest s))
    as ([id|] & b1 & s1 & Hrun & Hline1);
    erewrite bind_Ret by exact Hrun.
  2:{ apply ensures_Increment_same_line. intros s' Hs'.
      eapply same_line_pos; [| |eapply same_line_trans; [exact Hstep|exact Hline1]];
        done. }
  cbv beta iota.
  assert (Hs1 : same_line s s1) by (by eapply same_line_trans).
  assert (Hfuel1 : (length (m_pos s1) < fuel)%nat).
  { destruct Hline1 as (taken & Htaken & _). cbn [m_pos set_pos] in Htaken.
    apply (f_equal length) in Htaken. rewrite length_app in Htaken.
    cbn [length] in Hfuel. lia. }
  match goal with
  | |- ensures (match ?x with Some _ => _ | None => _ end _) _ _ =>
      destruct x as [stream|]
  end; [|exact I].
  match goal with
  | |- ensures (match ?x with Some _ => _ | None => _ end _) _ _ =>
      destruct x as [data|]
  end; [|exact I].
  destruct (m_type stream).
  - apply ensures_bind. unfold TryReadDenseSample.
    eapply ensures_mono; [by apply TryReadDenseSample_loop_same_line| |done].
    intros [[ok values] b2] s2 Hline2.
    assert (Hs2 : same_line s s2) by (by eapply same_line_trans).
    destruct ok; cbn [negb]; [done|].
    apply ensures_Increment_same_line. intros s' Hs'.
    by eapply same_line_pos; [| |exact Hs2].
  - apply ensures_bind.
    eapply ensures_mono; [by apply TryReadSparseSample_same_line| |done].
    intros [[[ok values] indices] b2] s2 Hline2.
    assert (Hs2 : same_line s s2) by (by eapply same_line_trans).
    destruct ok; cbn [negb]; [done|].
    apply ensures_Increment_same_line. intros s' Hs'.
    by eapply same_line_pos; [| |exact Hs2].
Qed.

Lemma same_line_row_read s1 s2 s3 :
  same_line s1 s2 → row_read s2 s3 → row_read s1 s3.
Proof.
  intros (t1 & H1 & ?) (t2 & H2 & ?). exists (t1 ++ t2).
  rewrite H1, H2, <- app_assoc. split; [done|]. by apply Forall_app.
Qed.

Lemma TryReadRow_loop_row fuel : ∀ (sequence : list (InputStreamBuffer E)) b n s,
  (length (m_pos s) < fuel)%nat →
  ensures (TryReadRow_loop p fuel sequence b n s)
    (λ r s', row_read s s'
             ∨ (r.1.1 = false ∧ same_line s s' ∧ (r.2 = 0 ∨ m_pos s' = [])))
    (λ e s', True).
Proof.
  induction fuel as [|fuel IH]; intros sequence b n s Hfuel; [lia|].
  cbn [TryReadRow_loop].
  destruct (Z.eqb_spec b 0) as [Hb|Hb].
  { apply ensures_warn_ret. right. split; [done|].
    split; [by apply same_line_refl|by left]. }
  destruct (m_pos s) as [|c rest] eqn:Hpos.
  { apply ensures_warn_ret. right. split; [done|].
    split; [by apply same_line_refl|by right]. }
  cbn [length] in Hfuel.
  assert (Hafter : ∀ s1 : PState,
    same_line s s1 → (length (m_pos s1) < fuel)%nat → ∀ sequence1 b1 n1,
    ensures (TryReadRow_loop p fuel sequence1 b1 n1 s1)
      (λ r s', row_read s s'
               ∨ (r.1.1 = false ∧ same_line s s' ∧ (r.2 = 0 ∨ m_pos s' = [])))
      (λ e s', True)).
  { intros s1 Hline Hlen sequence1 b1 n1.
    eapply ensures_mono; [by apply IH| |done].
    intros r s' [Hrow|(Hok & Hline' & Hend)].
    - left. by eapply same_line_row_read.
    - right. split; [done|]. split; [by eapply same_line_trans|done]. }
  destruct (_ || _) eqn:Hdelim.
  { apply Hafter; [|cbn [m_pos set_pos]; lia].
    apply (same_line_cons _ _ c); [done|].
    unfold COLUMN_DELIMITER, VALUE_DELIMITER, CARRIAGE_RETURN, ROW_DELIMITER in *.
    lia. }
  destruct (Z.eqb_spec c ROW_DELIMITER) as [->|Hrd].
  { unfold bind at 1, modify at 1. apply ensures_bind.
    assert (Hrow : ∀ s1, m_pos s1 = rest → row_read s s1).
    { intros s1 Hs1. exists []. rewrite Hpos, Hs1. by split. }
    destruct (n =? 0)%nat; [|destruct (_ <? _)%nat].
    - rewrite warn_eq. cbn [ensures]. left. by apply Hrow.
    - rewrite warn_eq. cbn [ensures]. left. by apply Hrow.
    - cbn [ensures]. left. by apply Hrow. }
  apply ensures_bind.
  eapply ensures_mono;
    [apply ensures_and; [apply TryReadSample_spec|apply TryReadSample_same_line]
    | |done];
    [rewrite Hpos; cbn [length]; lia..|].
  intros [[ok sequence1] b1] s1 [(_ & Hpos1 & _) Hline1]. cbn [fst snd] in *.
  specialize (Hpos1 c rest Hpos).
  destruct ok.
  - destruct (c =? NAME_PREFIX); [|by destruct Hpos1].
    apply Hafter; [done|]. apply suffix_length in Hpos1. lia.
  - unfold bind at 1, SkipToNextInput at 1.
    assert (Hskip : fst (SkipToNextInput_scan (m_pos s1) b1) `suffix_of` rest).
    { destruct (c =? NAME_PREFIX) eqn:Hnp.
      - etrans; [apply SkipToNextInput_scan_suffix|done].
      - destruct Hpos1 as (_ & -> & ->).
        apply SkipToNextInput_scan_progress; [done..|]. by apply Z.eqb_neq. }
    apply Hafter.
    + eapply same_line_trans; [exact Hline1|].
      destruct (SkipToNextInput_scan_line (m_pos s1) b1) as (taken & Htaken & Hno).
      by exists taken.
    + cbn [m_pos set_pos]. apply suffix_length in Hskip. lia.
Qed.

(** X26. [TryReadRow] reads at most one row of text. Whenever it returns, the
    bytes it has taken hold no row delimiter except as their last byte; when
    it returns [true] it stands right after that row delimiter, and it stops
    short of one only with [false], at the end of the input or of the bytes
    to read. A malformed row never costs the row after it. *)
Theorem TryReadRow_one_row (fuel : nat) (sequence : list (InputStreamBuffer E))
    (b : Z) (s : PState) ok sequence' b' s' :
  (length (m_pos s) < fuel)%nat →
  TryReadRow p fuel sequence b s = Ret (ok, sequence', b') s' →
  row_read s s'
  ∨ (ok = false ∧ same_line s s' ∧ (b' = 0 ∨ m_pos s' = [])).
Proof.
  intros Hfuel Hrun. unfold TryReadRow in Hrun.
  pose proof (SkipSequenceId_scan_suffix (m_pos s) b) as Hsuf.
  destruct (SkipSequenceId_scan_line (m_pos s) b) as (taken & Htaken & Hno).
  assert (Hline : same_line s (set_pos (fst (SkipSequenceId_scan (m_pos s) b)) s)).
  { by exists taken. }
  pose proof (TryReadRow_loop_row fuel sequence
                (snd (SkipSequenceId_scan (m_pos s) b)) 0
                (set_pos (fst (SkipSequenceId_scan (m_pos s) b)) s)) as Hloop.
  rewrite Hrun in Hloop. cbn [ensures fst snd] in Hloop.
  destruct Hloop as [Hrow|(Hok & Hline' & Hend)].
  - cbn [m_pos set_pos]. apply suffix_length in Hsuf. lia.
  - left. by eapply same_line_row_read.
  - right. split; [done|]. split; [by eapply same_line_trans|done].
Qed.

End Lines.

(** ** The further properties on examples *)

(** The digits [42] before an index delimiter. *)
Lemma TryReadUint64_reads_decimal_witness :
  TryReadUint64 (example_config Warning [example_stream "x" dense 1]) 3
    (example_state "42:" 0)
  = Ret (Some 42, 1) (set_pos (bytes_of ":") (example_state "42:" 0)).
Proof.
  apply (TryReadUint64_reads_decimal
           (example_config Warning [example_stream "x" dense 1])
           (example_state "42:" 0) (bytes_of "42") 58 [] 3);
    [reflexivity|discriminate|reflexivity|vm_compute; reflexivity
    |reflexivity|vm_compute; reflexivity].
Defined.

Lemma TryReadUint64_true_inv_witness :
  ∃ ds c rest,
    m_pos (example_state "42:" 0) = ds ++ c :: rest ∧ ds ≠ []
    ∧ all_digits ds = true ∧ isDelimiter c = true ∧ 42 = wrap64 (decimal 0 ds)
    ∧ 1 = 3 - Z.of_nat (length ds) ∧ 1 ≠ 0
    ∧ set_pos (bytes_of ":") (example_state "42:" 0)
      = set_pos (c :: rest) (example_state "42:" 0).
Proof.
  apply (TryReadUint64_true_inv
           (example_config Warning [example_stream "x" dense 1])
           (example_state "42:" 0)
           (set_pos (bytes_of ":") (example_state "42:" 0)) 3 1 42).
  vm_compute. reflexivity.
Defined.

(** The name [x] before a value delimiter. *)
Lemma TryGetInputId_true_inv_witness :
  ∃ name c rest,
    m_pos (example_state "x 1" 0) = name ++ c :: rest ∧ name ≠ []
    ∧ (length name
       ≤ m_maxAliasLength (example_config Warning [example_stream "x" dense 1]))%nat
    ∧ forallb (λ x, negb (ends_name x)) name = true ∧ ends_name c = true
    ∧ m_aliasToIdMap (example_config Warning [example_stream "x" dense 1]) !! name
      = Some 0%nat
    ∧ 2 = 3 - Z.of_nat (length name) ∧ 2 ≠ 0
    ∧ set_pos (bytes_of " 1") (example_state "x 1" 0)
      = set_pos (c :: rest) (example_state "x 1" 0).
Proof.
  apply (TryGetInputId_true_inv
           (example_config Warning [example_stream "x" dense 1])
           (example_state "x 1" 0)
           (set_pos (bytes_of " 1") (example_state "x 1" 0)) 3 2 0%nat).
  vm_compute. reflexivity.
Defined.

(** The second of two streams, [y], in the sample [|y 1:2]. *)
Lemma declared_alias_is_recognised_witness :
  TryGetInputId
    (config (TextParser_new (E:=Q) "input.txt"
               [example_stream "x" dense 1; example_stream "y" sparse_csc 3]))
    5 (example_state "y 1:2" 0)
  = Ret (Some 1%nat,
         5 - Z.of_nat (length (m_alias (example_stream "y" sparse_csc 3))))
        (set_pos (32 :: bytes_of "1:2") (example_state "y 1:2" 0))
  ∧ m_streamInfos
      (config (TextParser_new (E:=Q) "input.txt"
                 [example_stream "x" dense 1; example_stream "y" sparse_csc 3]))
    !! 1%nat
    = Some {| m_type := m_storageType (example_stream "y" sparse_csc 3);
              m_sampleDimension := sd_sampleDimension (example_stream "y" sparse_csc 3) |}.
Proof.
  apply (declared_alias_is_recognised (E:=Q) "input.txt"
           [example_stream "x" dense 1; example_stream "y" sparse_csc 3] 1
           (example_stream "y" sparse_csc 3) (example_state "y 1:2" 0)
           32 (bytes_of "1:2") 5).
  - reflexivity.
  - intros j' stream' Hlt Hj'. destruct j' as [|[|j']]; [lia|lia|discriminate].
  - discriminate.
  - reflexivity.
  - reflexivity.
  - reflexivity.
  - simpl. lia.
Defined.

(** The window of an example state is coherent with its file. *)
Lemma example_state_coherent B input budget :
  Reader.coherent (window_now B (example_state input budget)).
Proof.
  unfold window_now, bytes_read, example_state, Reader.readable,
    Reader.opened, Reader.closed.
  cbn [m_window m_pos Reader.m_pos Reader.m_buffer
       Reader.m_file Reader.position Reader.content drop app].
  change (Z.to_nat 0) with 0%nat. rewrite drop_0, Nat.sub_diag.
  cbn [Reader.read]. unfold Reader.coherent.
  cbn [Reader.m_pos Reader.m_buffer Reader.m_file Reader.position Reader.content
       Reader.m_fileOffsetStart Reader.m_fileOffsetEnd length take].
  repeat split; lia.
Qed.

(** The second sequence of the example file, [|x 2] at offset five, for
    which the window is moved with [SetFileOffset]. *)
Lemma LoadSequence_reads_its_bytes_witness :
  ensures
    (LoadSequence (RA:=Q_RealArith)
       (example_config Warning [example_stream "x" dense 1]) example_buffer 40
       false
       {| seq_id := 1; seq_fileOffsetBytes := 5; seq_byteSize := 5;
          seq_numberOfSamples := 1 |}
       (example_state example_file 0))
    (λ _ s', ∃ taken,
       drop 5 (Reader.content
                 (Reader.m_file (m_window (example_state example_file 0))))
       = taken ++ m_pos s'
       ∧ Z.of_nat (length taken) ≤ 5)
    (λ _ s', ∃ taken,
       drop 5 (Reader.content
                 (Reader.m_file (m_window (example_state example_file 0))))
       = taken ++ m_pos s'
       ∧ Z.of_nat (length taken) ≤ 5).
Proof.
  apply (LoadSequence_reads_its_bytes (RA:=Q_RealArith)
           (example_config Warning [example_stream "x" dense 1]) example_buffer 40
           false
           {| seq_id := 1; seq_fileOffsetBytes := 5; seq_byteSize := 5;
              seq_numberOfSamples := 1 |}
           (example_state example_file 0)).
  - apply example_config_valid_ids.
  - vm_compute. lia.
  - simpl. lia.
  - apply example_state_coherent.
  - vm_compute. lia.
  - simpl. lia.
Defined.


Lemma LoadSequence_result_well_formed_witness :
  ∃ sequence s',
    LoadSequence (RA:=Q_RealArith)
      (example_config Warning [example_stream "x" dense 1]) example_buffer 20
      false (example_sequence ("|x 1" ++ line_feed) 1)
      (example_state ("|x 1" ++ line_feed) 0)
    = Ret sequence s'
    ∧ length sequence
      = length (m_streamInfos (example_config Warning [example_stream "x" dense 1]))
    ∧ Forall (λ data, (0 < m_numberOfSamples data)%nat) sequence
    ∧ dense_invariant (example_config Warning [example_stream "x" dense 1]) sequence
    ∧ sparse_invariant (example_config Warning [example_stream "x" dense 1]) sequence.
Proof.
  assert (H : ∃ sequence s',
            LoadSequence (RA:=Q_RealArith)
              (example_config Warning [example_stream "x" dense 1])
              example_buffer 20 false
              (example_sequence ("|x 1" ++ line_feed) 1)
              (example_state ("|x 1" ++ line_feed) 0)
            = Ret sequence s') by (eexists _, _; vm_compute; reflexivity).
  destruct H as (sequence & s' & H). exists sequence, s'. split; [exact H|].
  apply (LoadSequence_result_well_formed (RA:=Q_RealArith)
           (example_config Warning [example_stream "x" dense 1]) example_buffer 20
           false (example_sequence ("|x 1" ++ line_feed) 1)
           (example_state ("|x 1" ++ line_feed) 0) s' sequence).
  - apply example_config_valid_ids.
  - vm_compute. lia.
  - simpl. lia.
  - exact H.
Defined.

(** The sequence [0|x 1], whose id is verified. *)
Lemma LoadSequence_verifies_id_witness :
  ∃ ds c rest,
    drop (seq_fileOffsetBytes (example_sequence ("0|x 1" ++ line_feed) 1))
         (Reader.content
            (Reader.m_file (m_window (example_state ("0|x 1" ++ line_feed) 0))))
    = ds ++ c :: rest
    ∧ ds ≠ [] ∧ all_digits ds = true ∧ isDelimiter c = true
    ∧ seq_id (example_sequence ("0|x 1" ++ line_feed) 1) = wrap64 (decimal 0 ds).
Proof.
  assert (H : ∃ sequence s',
            LoadSequence (RA:=Q_RealArith)
              (example_config Warning [example_stream "x" dense 1])
              example_buffer 20 true
              (example_sequence ("0|x 1" ++ line_feed) 1)
              (example_state ("0|x 1" ++ line_feed) 0)
            = Ret sequence s') by (eexists _, _; vm_compute; reflexivity).
  destruct H as (sequence & s' & H).
  apply (LoadSequence_verifies_id (RA:=Q_RealArith)
           (example_config Warning [example_stream "x" dense 1]) example_buffer 20
           (example_sequence ("0|x 1" ++ line_feed) 1)
           (example_state ("0|x 1" ++ line_feed) 0) s' sequence).
  - apply example_state_coherent.
  - vm_compute. lia.
  - simpl. lia.
  - exact H.
Defined.

(** The first chunk of the example file. *)
Lemma LoadChunk_loads_descriptor_witness :
  ensures
    (LoadChunk (RA:=Q_RealArith)
       (example_config Warning [example_stream "x" dense 1]) example_buffer 40
       true (MkChunk ∅ 0 0)
       {| chunk_id := 0;
          chunk_sequences := [example_sequence ("|x 1" ++ line_feed) 1] |}
       (example_state example_file 0))
    (λ chunk s',
       loaded_chunk (example_config Warning [example_stream "x" dense 1]) chunk
                    [example_sequence ("|x 1" ++ line_feed) 1]
       ∧ m_id chunk = 0 ∧ m_sequenceRequestCount chunk = 0)
    (λ e s',
       ∃ sequenceDsc,
         sequenceDsc ∈ [example_sequence ("|x 1" ++ line_feed) 1]
         ∧ sequence_error (example_config Warning [example_stream "x" dense 1])
                          (negb true) sequenceDsc e).
Proof.
  apply (LoadChunk_loads_descriptor (RA:=Q_RealArith) example_buffer
           (example_config Warning [example_stream "x" dense 1]) 40
           true 0
           {| chunk_id := 0;
              chunk_sequences := [example_sequence ("|x 1" ++ line_feed) 1] |}
           (example_state example_file 0)).
  - apply example_config_valid_ids.
  - vm_compute. lia.
  - apply Forall_cons. split; [simpl; lia|apply Forall_nil_2].
Defined.

(** The first chunk of the example parser, asked for twice. *)
Lemma GetChunk_again_witness :
  ∃ chunk parser',
    GetChunk (RA:=Q_RealArith) example_buffer 20 0 (example_parser 1)
    = Ret chunk parser'
    ∧ GetChunk (RA:=Q_RealArith) example_buffer 0 0 parser' = Ret chunk parser'.
Proof.
  assert (H : ∃ chunk parser',
            GetChunk (RA:=Q_RealArith) example_buffer 20 0 (example_parser 1)
            = Ret chunk parser')
    by (eexists _, _; vm_compute; reflexivity).
  destruct H as (chunk & parser' & H). exists chunk, parser'. split; [exact H|].
  apply (GetChunk_again (RA:=Q_RealArith) example_buffer 20 0 0
           (example_parser 1) parser' chunk);
    [reflexivity|exact H].
Defined.

Lemma GetChunk_keeps_log_witness :
  ensures (GetChunk (RA:=Q_RealArith) example_buffer 40 0 (example_parser 1))
    (λ _ parser',
       (m_numAllowedErrors (state parser')
        ≤ m_numAllowedErrors (state (example_parser 1)))%N
       ∧ (m_hadWarnings (state (example_parser 1)) = true →
          m_hadWarnings (state parser') = true)
       ∧ stderr (state (example_parser 1)) `prefix_of` stderr (state parser'))
    (λ _ parser',
       (m_numAllowedErrors (state parser')
        ≤ m_numAllowedErrors (state (example_parser 1)))%N
       ∧ (m_hadWarnings (state (example_parser 1)) = true →
          m_hadWarnings (state parser') = true)
       ∧ stderr (state (example_parser 1)) `prefix_of` stderr (state parser')).
Proof.
  apply (GetChunk_keeps_log (RA:=Q_RealArith) example_buffer 40 0
           (example_parser 1)).
  vm_compute. lia.
Defined.

Lemma GetChunk_miss_witness :
  ensures (GetChunk (RA:=Q_RealArith) example_buffer 40 0 (example_parser 1))
    (λ ptr parser',
       ptr = length (chunks (example_parser 1))
       ∧ config parser' = config (example_parser 1)
       ∧ ∃ chunk,
           chunks parser' = chunks (example_parser 1) ++ [chunk]
           ∧ m_id chunk = 0 ∧ m_sequenceRequestCount chunk = 0
           ∧ loaded_chunk (config (example_parser 1)) chunk
               [ {| seq_id := 0; seq_fileOffsetBytes := 0;
                    seq_byteSize := 5; seq_numberOfSamples := 1 |} ])
    (λ e parser',
       chunks parser' = chunks (example_parser 1)
       ∧ m_chunkCache parser' = m_chunkCache (example_parser 1)
       ∧ ∃ sequenceDsc,
           sequenceDsc ∈ [ {| seq_id := 0; seq_fileOffsetBytes := 0;
                              seq_byteSize := 5; seq_numberOfSamples := 1 |} ]
           ∧ sequence_error (config (example_parser 1))
               (negb (m_skipSequenceIds (example_parser 1))) sequenceDsc e).
Proof.
  apply (GetChunk_miss (RA:=Q_RealArith) example_buffer 40 0 (example_parser 1)
           (bytes_of example_file)
           (Indexer_Build (λ _, false) example_index (bytes_of example_file) true 5)
           {| chunk_id := 0;
              chunk_sequences :=
                [ {| seq_id := 0; seq_fileOffsetBytes := 0;
                     seq_byteSize := 5; seq_numberOfSamples := 1 |} ] |}).
  - vm_compute. reflexivity.
  - vm_compute. reflexivity.
  - reflexivity.
  - vm_compute. reflexivity.
  - exact (example_config_valid_ids Warning [example_stream "x" dense 1]).
  - vm_compute. lia.
  - apply Forall_cons. split; [simpl; lia|apply Forall_nil_2].
Defined.

(** The only sequence of the first chunk of the example parser. *)
Lemma TextDataChunk_GetSequence_data_witness :
  ∃ datas parser',
    TextDataChunk_GetSequence 0 0 [] (example_loaded 1) = Ret ([] ++ datas) parser'
    ∧ length datas = length (m_streamInfos (config (example_loaded 1))).
Proof.
  assert (H : ∃ c sequenceData,
            chunks (example_loaded 1) !! 0%nat = Some c
            ∧ m_sequenceMap c !! 0 = Some sequenceData
            ∧ sequenceData = [MkBuffer 1 [1%Q] [] [] 0]).
  { eexists _, _. split; [vm_compute; reflexivity|].
    split; vm_compute; reflexivity. }
  destruct H as (c & sequenceData & Hc & Hs & Hdata).
  destruct (TextDataChunk_GetSequence_data (example_loaded 1) 0 c 0 sequenceData []
              Hc Hs) as (datas & parser' & Hget & _ & Hlen & _).
  - subst sequenceData. split; [reflexivity|]. split.
    + intros id stream data Hstream Hdense Hd.
      apply one_buffer_lookup in Hd as [-> ->].
      injection Hstream as <-. reflexivity.
    + intros id stream data Hstream Hsparse Hd.
      apply one_buffer_lookup in Hd as [-> ->].
      injection Hstream as <-. discriminate.
  - exists datas, parser'. split; [exact Hget|exact Hlen].
Defined.

(** The empty sample [|y] at the end of a row. *)
Lemma TryReadSample_empty_sparse_witness :
  TryReadSample (RA:=Q_RealArith)
    (example_config Warning [example_stream "y" sparse_csc 3]) 1
    [new_buffer] 3 (example_state ("|y" ++ line_feed) 0)
  = Ret (true,
         <[0%nat := MkBuffer 1 [] [] [0] 0]> [new_buffer],
         3 - 1 - Z.of_nat (length (bytes_of "y")) - Z.of_nat 0)
        (set_pos (bytes_of line_feed) (example_state ("|y" ++ line_feed) 0)).
Proof.
  apply (TryReadSample_empty_sparse (RA:=Q_RealArith)
           (example_config Warning [example_stream "y" sparse_csc 3]) 1
           [new_buffer] 3 (example_state ("|y" ++ line_feed) 0)
           (bytes_of "y") 0 10 [] 0
           {| m_type := sparse_csc; m_sampleDimension := 3 |} new_buffer).
  - reflexivity.
  - discriminate.
  - discriminate.
  - reflexivity.
  - vm_compute. lia.
  - vm_compute. reflexivity.
  - reflexivity.
  - reflexivity.
  - reflexivity.
  - reflexivity.
  - simpl. lia.
  - lia.
Defined.


(** The row [|#ab|x 1] with its comment. *)
Lemma TryReadRow_loop_comment_witness :
  TryReadRow_loop (RA:=Q_RealArith)
    (example_config Warning [example_stream "x" dense 1]) 6
    [new_buffer] 9 0 (example_state ("|#ab|x 1" ++ line_feed) 0)
  = TryReadRow_loop (RA:=Q_RealArith)
      (example_config Warning [example_stream "x" dense 1]) 5
      [new_buffer] (9 - 2 - Z.of_nat (length (bytes_of "ab"))) 0
      (set_pos (bytes_of ("|x 1" ++ line_feed))
               (example_state ("|#ab|x 1" ++ line_feed) 0)).
Proof.
  apply (TryReadRow_loop_comment (RA:=Q_RealArith)
           (example_config Warning [example_stream "x" dense 1]) 5
           [new_buffer] 9 0 (example_state ("|#ab|x 1" ++ line_feed) 0)
           (bytes_of "ab") (bytes_of ("|x 1" ++ line_feed))).
  - reflexivity.
  - reflexivity.
  - simpl. lia.
  - right. reflexivity.
Defined.

(** A window of four bytes at its end, in a file of ten, refilled. *)
Lemma example_window_coherent : Reader.coherent example_window.
Proof.
  unfold Reader.coherent, example_window.
  cbn [Reader.m_file Reader.m_buffer Reader.m_pos Reader.m_fileOffsetStart
       Reader.m_fileOffsetEnd Reader.position Reader.content].
  split; [lia|]. split; [reflexivity|]. split; [reflexivity|].
  split; [reflexivity|]. vm_compute. lia.
Qed.

Lemma TryRefillBuffer_keeps_bytes_witness :
  Reader.readable (Reader.TryRefillBuffer 4 example_window).2
  = Reader.readable example_window
  ∧ Reader.coherent (Reader.TryRefillBuffer 4 example_window).2
  ∧ if (Reader.TryRefillBuffer 4 example_window).1
    then Reader.readable example_window ≠ []
         ∧ Reader.m_pos (Reader.TryRefillBuffer 4 example_window).2 = 0%nat
         ∧ (0 < length (Reader.m_buffer (Reader.TryRefillBuffer 4 example_window).2)
            ≤ 4)%nat
    else Reader.readable example_window = []
         ∧ Reader.m_buffer (Reader.TryRefillBuffer 4 example_window).2
           = Reader.m_buffer example_window
         ∧ Reader.m_pos (Reader.TryRefillBuffer 4 example_window).2
           = Reader.m_pos example_window.
Proof.
  apply (TryRefillBuffer_keeps_bytes 4 example_window);
    [lia|apply example_window_coherent|reflexivity].
Defined.

(** A sequence at the offset 8, behind the window. *)
Lemma LoadSequence_seek_positions_witness :
  ∃ w',
    Reader.LoadSequence_seek 4 8 example_window = Some w'
    ∧ Reader.coherent w'
    ∧ Reader.readable w'
      = drop (Z.to_nat 8) (Reader.content (Reader.m_file example_window))
    ∧ Reader.m_fileOffsetStart w' + Z.of_nat (Reader.m_pos w') = 8
    ∧ Reader.content (Reader.m_file w')
      = Reader.content (Reader.m_file example_window).
Proof.
  apply (LoadSequence_seek_positions 4 example_window 8);
    [lia|apply example_window_coherent|vm_compute; split; [discriminate|reflexivity]
    |reflexivity].
Defined.

(** A sequence at the offset 10, the end of the file. *)
Lemma LoadSequence_seek_past_the_end_witness :
  ∃ w',
    Reader.LoadSequence_seek 4 10 example_window = Some w'
    ∧ Reader.readable w' = Reader.m_buffer example_window
    ∧ Reader.m_fileOffsetStart w' = 10 ∧ Reader.m_pos w' = 0%nat.
Proof.
  apply (LoadSequence_seek_past_the_end 4 example_window 10);
    [apply example_window_coherent|right; reflexivity|vm_compute; discriminate].
Defined.

(** The example parser, initialised once more without a file. *)
Lemma Initialize_once_witness :
  ∃ parser' : TextParser Q,
    TextParser_of_config (λ _, false) example_index
      (Some (bytes_of example_file)) (example_helper 1 true) = Ret tt parser'
    ∧ Initialize (λ _, false) example_index None parser' = Ret tt parser'.
Proof.
  assert (H : ∃ parser' : TextParser Q,
            TextParser_of_config (λ _, false) example_index
              (Some (bytes_of example_file)) (example_helper 1 true)
            = Ret tt parser') by (eexists; vm_compute; reflexivity).
  destruct H as [parser' H]. exists parser'. split; [exact H|].
  exact (proj1 (Initialize_once (λ _, false) example_index
                  (Some (bytes_of example_file)) None _ parser' H)).
Defined.

(** Two chunks in the cache, the second with no sequence left. *)
Lemma GetChunk_candidate_first_witness :
  ∃ before ptr chunk after,
    [(0, 0%nat); (1, 1%nat)] = before ++ (1, ptr) :: after
    ∧ [MkChunk (E:=Q) {[0 := []]} 0 0; MkChunk ∅ 1 0] !! ptr = Some chunk
    ∧ numSequencesLeft chunk = 0
    ∧ (∀ id left,
         cached_left [MkChunk (E:=Q) {[0 := []]} 0 0; MkChunk ∅ 1 0] before id left →
         0 < left)
    ∧ (∀ id left,
         cached_left [MkChunk (E:=Q) {[0 := []]} 0 0; MkChunk ∅ 1 0] after id left →
         0 ≤ left).
Proof.
  apply (GetChunk_candidate_first
           [MkChunk (E:=Q) {[0 := []]} 0 0; MkChunk ∅ 1 0]
           [(0, 0%nat); (1, 1%nat)] 1 0);
    [vm_compute; reflexivity|reflexivity].
Defined.

(** The example parser without a cache. *)
Lemma GetChunk_cache_disabled_witness :
  ∃ chunk parser',
    GetChunk (RA:=Q_RealArith) example_buffer 20 0 (example_parser 0) = Ret chunk parser'
    ∧ m_chunkCache parser' = [] ∧ m_chunkCacheSize parser' = 0
    ∧ chunk = length (chunks (example_parser 0))
    ∧ length (chunks parser') = S (length (chunks (example_parser 0))).
Proof.
  assert (H : ∃ chunk parser',
            GetChunk (RA:=Q_RealArith) example_buffer 20 0 (example_parser 0) = Ret chunk parser')
    by (eexists _, _; vm_compute; reflexivity).
  destruct H as (chunk & parser' & H). exists chunk, parser'. split; [exact H|].
  apply (GetChunk_cache_disabled (RA:=Q_RealArith) example_buffer 20 0
           (example_parser 0) parser' chunk); [reflexivity|reflexivity|exact H].
Defined.

(** The example parser with a cache of one chunk that holds the first chunk,
    asked for the second. *)
Lemma GetChunk_cache_bounded_witness :
  ∃ chunk parser',
    GetChunk (RA:=Q_RealArith) example_buffer 20 1 (example_loaded 1) = Ret chunk parser'
    ∧ Z.of_nat (length (m_chunkCache parser')) ≤ m_chunkCacheSize parser'.
Proof.
  assert (H : ∃ chunk parser',
            GetChunk (RA:=Q_RealArith) example_buffer 20 1 (example_loaded 1) = Ret chunk parser')
    by (eexists _, _; vm_compute; reflexivity).
  destruct H as (chunk & parser' & H). exists chunk, parser'. split; [exact H|].
  refine (proj1 (GetChunk_cache_bounded (RA:=Q_RealArith) example_buffer 20 1
                   (example_loaded 1) parser' chunk _ _ H)).
  - vm_compute. discriminate.
  - exists 0, 1.
    assert (Hc : ∃ c, chunks (example_loaded 1) !! 0%nat = Some c
                      ∧ numSequencesLeft c = 1)
      by (eexists; split; [vm_compute; reflexivity|]; vm_compute; reflexivity).
    destruct Hc as (c & Hc & Hleft). split; [|reflexivity].
    exists 0%nat, c. split; [|by split].
    assert (Hcache : m_chunkCache (example_loaded 1) = [(0, 0%nat)])
      by (vm_compute; reflexivity).
    rewrite Hcache. apply list_elem_of_here.
Defined.

(** The row [|y 1], of an unknown input, before the row [|x 2]. *)
Lemma TryReadRow_one_row_witness :
  ∃ ok sequence' b' s',
    TryReadRow (RA:=Q_RealArith)
      (example_config Warning [example_stream "x" dense 1]) 20
      [new_buffer] 10
      (example_state ("|y 1" ++ line_feed ++ "|x 2" ++ line_feed) 1)
    = Ret (ok, sequence', b') s'
    ∧ (row_read (example_state ("|y 1" ++ line_feed ++ "|x 2" ++ line_feed) 1) s'
       ∨ (ok = false
          ∧ same_line
              (example_state ("|y 1" ++ line_feed ++ "|x 2" ++ line_feed) 1) s'
          ∧ (b' = 0 ∨ m_pos s' = []))).
Proof.
  assert (H : ∃ ok sequence' b' s',
            TryReadRow (RA:=Q_RealArith)
              (example_config Warning [example_stream "x" dense 1]) 20
              [new_buffer] 10
              (example_state ("|y 1" ++ line_feed ++ "|x 2" ++ line_feed) 1)
            = Ret (ok, sequence', b') s')
    by (eexists _, _, _, _; vm_compute; reflexivity).
  destruct H as (ok & sequence' & b' & s' & H).
  exists ok, sequence', b', s'. split; [exact H|].
  apply (TryReadRow_one_row (RA:=Q_RealArith)
           (example_config Warning [example_stream "x" dense 1]) 20
           [new_buffer] 10
           (example_state ("|y 1" ++ line_feed ++ "|x 2" ++ line_feed) 1)
           ok sequence' b' s').
  - vm_compute. lia.
  - exact H.
Defined.
(** ** Empty rows *)

Section EmptyRow.

Context {D E : Type} `{RA : RealArith D E}.
Variable p : Config.
Variable BUFFER_SIZE : positive.

Lemma samples_insert (sequence : list (InputStreamBuffer E)) i data data' :
  sequence !! i = Some data →
  (samples (<[i := data']> sequence) + m_numberOfSamples data
   = samples sequence + m_numberOfSamples data')%nat.
Proof.
  assert (Hcons : ∀ a l, sum_list (a :: l) = (a + sum_list l)%nat) by done.
  unfold samples. revert i.
  induction sequence as [|x sequence IH]; intros [|i] Hi; try done.
  - injection Hi as ->. cbn [map insert list_insert]. rewrite !Hcons. lia.
  - specialize (IH i Hi). change (<[S i:=data']> (x :: sequence))
      with (x :: <[i:=data']> sequence).
    cbn [map]. rewrite !Hcons. lia.
Qed.

(** A sample that is accepted counts as one sample more; a sample that is
    rejected leaves the counts of the samples as they are. *)
Lemma TryReadSample_samples fuel (sequence : list (InputStreamBuffer E)) b s
    ok sequence' b' s' :
  TryReadSample p fuel sequence b s = Ret (ok, sequence', b') s' →
  samples sequence' = (samples sequence + if ok then 1 else 0)%nat.
Proof.
  unfold TryReadSample, bind, ret, throw. intros Hrun.
  repeat (case_match; simplify_eq); try lia;
    match goal with
    | H : sequence !! _ = Some _ |- context [<[_ := ?d]> sequence] =>
        pose proof (samples_insert _ _ _ d H) as Hins
    end; cbn [m_numberOfSamples] in Hins; lia.
Qed.

Lemma ensures_run {St A} (r : Result St A) (Q : A → St → Prop)
    (QE : Exn → St → Prop) :
  ensures r Q QE → ensures r (λ a s, r = Ret a s ∧ Q a s) QE.
Proof. by destruct r. Qed.

Lemma row_read_same_line s s' : row_read s s' → same_line s s' → False.
Proof.
  intros (line & Hline & _) (taken & Htaken & Hno).
  assert (Heq : (line ++ [ROW_DELIMITER]) ++ m_pos s' = taken ++ m_pos s').
  { rewrite <- app_assoc. cbn [app]. by rewrite <- Hline, <- Htaken. }
  apply app_inv_tail in Heq. subst taken.
  apply Forall_app in Hno as [_ Hno]. by apply Forall_cons in Hno as [? _].
Qed.

(** The loop of [TryReadRow] counts in [numSampleRead] the samples that the
    buffers gain, and at the row delimiter it returns whether it has counted
    one. *)
Lemma TryReadRow_loop_count fuel : ∀ (sequence : list (InputStreamBuffer E)) b n s,
  (length (m_pos s) < fuel)%nat →
  ensures (TryReadRow_loop p fuel sequence b n s)
    (λ r s',
       (row_read s s'
        ∧ (samples sequence ≤ samples r.1.2)%nat
        ∧ r.1.1 = (0 <? n + (samples r.1.2 - samples sequence))%nat
        ∧ (r.1.1 = false → ∃ s1, s' = after_warning p W_EmptyRow s1))
       ∨ (r.1.1 = false ∧ same_line s s'))
    (λ e s', True).
Proof.
  induction fuel as [|fuel IH]; intros sequence b n s Hfuel; [lia|].
  cbn [TryReadRow_loop].
  destruct (Z.eqb_spec b 0) as [Hb|Hb].
  { apply ensures_warn_ret. right. split; [done|]. by apply same_line_refl. }
  destruct (m_pos s) as [|c rest] eqn:Hpos.
  { apply ensures_warn_ret. right. split; [done|]. by apply same_line_refl. }
  cbn [length] in Hfuel.
  assert (Hafter : ∀ s1 : PState,
    same_line s s1 → (length (m_pos s1) < fuel)%nat → ∀ sequence1 b1 n1,
    (samples sequence ≤ samples sequence1)%nat →
    (n1 = n + (samples sequence1 - samples sequence))%nat →
    ensures (TryReadRow_loop p fuel sequence1 b1 n1 s1)
      (λ r s',
         (row_read s s'
          ∧ (samples sequence ≤ samples r.1.2)%nat
          ∧ r.1.1 = (0 <? n + (samples r.1.2 - samples sequence))%nat
          ∧ (r.1.1 = false → ∃ s1, s' = after_warning p W_EmptyRow s1))
         ∨ (r.1.1 = false ∧ same_line s s'))
      (λ e s', True)).
  { intros s1 Hline Hlen sequence1 b1 n1 Hle Hn1.
    eapply ensures_mono; [by apply IH| |done].
    intros r s' [(Hrow & Hle' & Hok & Hw)|(Hok & Hline')].
    - left. split; [by eapply same_line_row_read|]. split; [lia|].
      split; [|done]. rewrite Hok. f_equal. lia.
    - right. split; [done|]. by eapply same_line_trans. }
  destruct (_ || _) eqn:Hdelim.
  { apply Hafter; [|cbn [m_pos set_pos]; lia|lia|lia].
    apply (same_line_cons _ _ c); [done|].
    unfold COLUMN_DELIMITER, VALUE_DELIMITER, CARRIAGE_RETURN, ROW_DELIMITER in *.
    lia. }
  destruct (Z.eqb_spec c ROW_DELIMITER) as [->|Hrd].
  { unfold bind at 1, modify at 1. apply ensures_bind.
    assert (Hrow : ∀ s1, m_pos s1 = rest → row_read s s1).
    { intros s1 Hs1. exists []. rewrite Hpos, Hs1. by split. }
    destruct n as [|n]; cbn [Nat.eqb].
    - rewrite warn_eq. cbn [ensures fst snd]. left. split; [by apply Hrow|].
      split; [done|]. rewrite Nat.sub_diag. split; [done|]. intros _. by eexists.
    - destruct (_ <? _)%nat; [rewrite warn_eq|]; cbn [ensures fst snd]; left;
        (split; [by apply Hrow|]); (split; [done|]); by split. }
  apply ensures_bind.
  eapply ensures_mono;
    [apply ensures_run, ensures_and;
       [apply TryReadSample_spec|apply TryReadSample_same_line]
    | |done];
    [rewrite Hpos; cbn [length]; lia..|].
  intros [[ok sequence1] b1] s1 (Hrun & (_ & Hpos1 & _) & Hline1).
  cbn [fst snd] in *.
  apply TryReadSample_samples in Hrun.
  specialize (Hpos1 c rest Hpos).
  destruct ok.
  - destruct (c =? NAME_PREFIX); [|by destruct Hpos1].
    apply Hafter; [done| |lia|lia]. apply suffix_length in Hpos1. lia.
  - unfold bind at 1, SkipToNextInput at 1.
    assert (Hskip : fst (SkipToNextInput_scan (m_pos s1) b1) `suffix_of` rest).
    { destruct (c =? NAME_PREFIX) eqn:Hnp.
      - etrans; [apply SkipToNextInput_scan_suffix|done].
      - destruct Hpos1 as (_ & -> & ->).
        apply SkipToNextInput_scan_progress; [done..|]. by apply Z.eqb_neq. }
    apply Hafter; [| |lia|lia].
    + eapply same_line_trans; [exact Hline1|].
      destruct (SkipToNextInput_scan_line (m_pos s1) b1) as (taken & Htaken & Hno).
      by exists taken.
    + cbn [m_pos set_pos]. apply suffix_length in Hskip. lia.
Qed.

(** A row that ends at its row delimiter is accepted exactly when the
    buffers have gained a sample. *)
Lemma TryReadRow_count fuel (sequence : list (InputStreamBuffer E)) b s
    ok sequence' b' s' :
  (length (m_pos s) < fuel)%nat →
  TryReadRow p fuel sequence b s = Ret (ok, sequence', b') s' →
  row_read s s' →
  (samples sequence ≤ samples sequence')%nat
  ∧ ok = (samples sequence <? samples sequence')%nat
  ∧ (ok = false → ∃ s1, s' = after_warning p W_EmptyRow s1).
Proof.
  intros Hfuel Hrun Hrow. unfold TryReadRow in Hrun.
  pose proof (SkipSequenceId_scan_suffix (m_pos s) b) as Hsuf.
  destruct (SkipSequenceId_scan_line (m_pos s) b) as (taken & Htaken & Hno).
  assert (Hline : same_line s (set_pos (fst (SkipSequenceId_scan (m_pos s) b)) s)).
  { by exists taken. }
  pose proof (TryReadRow_loop_count fuel sequence
                (snd (SkipSequenceId_scan (m_pos s) b)) 0
                (set_pos (fst (SkipSequenceId_scan (m_pos s) b)) s)) as Hloop.
  rewrite Hrun in Hloop. cbn [ensures fst snd] in Hloop.
  destruct Hloop as [(_ & Hle & Hok & Hw)|(_ & Hline')].
  - cbn [m_pos set_pos]. apply suffix_length in Hsuf. lia.
  - split; [done|]. split; [|done]. rewrite Hok. cbn [Nat.add].
    destruct (Nat.ltb_spec 0 (samples sequence' - samples sequence)),
      (Nat.ltb_spec (samples sequence) (samples sequence')); done || lia.
  - destruct (row_read_same_line s s'); [done|]. by eapply same_line_trans.
Qed.

(** The loop of [TryReadRow] over blanks and over comments. *)
Lemma TryReadRow_loop_blanks blanks : ∀ fuel (sequence : list (InputStreamBuffer E))
    b n s rest,
  forallb is_blank blanks = true → m_pos s = blanks ++ rest →
  Z.of_nat (length blanks) < b →
  TryReadRow_loop p (length blanks + fuel) sequence b n s
  = TryReadRow_loop p fuel sequence (b - Z.of_nat (length blanks)) n
                    (set_pos rest s).
Proof.
  induction blanks as [|c blanks IH]; intros fuel sequence b n s rest Hbl Hpos Hb;
    cbn [app length Nat.add] in *.
  - rewrite set_pos_id by done. f_equal. lia.
  - cbn [TryReadRow_loop]. rewrite (proj2 (Z.eqb_neq b 0)), Hpos by lia.
    cbn [forallb] in Hbl. apply andb_prop in Hbl as [Hc Hbl].
    unfold is_blank in Hc. rewrite Hc.
    rewrite (IH fuel sequence (b - 1) n (set_pos (blanks ++ rest) s) rest)
      by (done || lia).
    cbn [set_pos]. f_equal. lia.
Qed.

Lemma comments_text_head comments rest :
  match rest with [] => True | c :: _ => starts_input c = true end →
  match comments_text comments ++ rest with
  | [] => True
  | c :: _ => starts_input c = true
  end.
Proof. by destruct comments. Qed.

Lemma TryReadRow_loop_comments comments : ∀ fuel
    (sequence : list (InputStreamBuffer E)) b n s rest,
  Forall (λ text, is_comment text = true) comments →
  m_pos s = comments_text comments ++ rest →
  match rest with [] => True | c :: _ => starts_input c = true end →
  Z.of_nat (length (comments_text comments)) < b < 2 ^ 64 →
  TryReadRow_loop p (length comments + fuel) sequence b n s
  = TryReadRow_loop p fuel sequence
      (b - Z.of_nat (length (comments_text comments))) n (set_pos rest s).
Proof.
  induction comments as [|text comments IH];
    intros fuel sequence b n s rest Hcomments Hpos Hrest Hb.
  - cbn [comments_text map concat app length Nat.add] in *.
    rewrite set_pos_id by done. f_equal. lia.
  - apply Forall_cons in Hcomments as [Htext Hcomments].
    change (comments_text (text :: comments))
      with ((NAME_PREFIX :: ESCAPE_SYMBOL :: text) ++ comments_text comments) in *.
    rewrite length_app in *. cbn [length app Nat.add] in *.
    rewrite <- app_assoc in Hpos.
    cbn [TryReadRow_loop].
    rewrite (proj2 (Z.eqb_neq b 0)) by lia. rewrite Hpos.
    change ((NAME_PREFIX =? COLUMN_DELIMITER) || (NAME_PREFIX =? VALUE_DELIMITER)
            || (NAME_PREFIX =? CARRIAGE_RETURN)) with false.
    change (NAME_PREFIX =? ROW_DELIMITER) with false. cbn match.
    unfold bind at 1, TryReadSample. rewrite Hpos, Z.eqb_refl. cbn [negb].
    rewrite wrap64_pred by lia. cbn zeta.
    rewrite (proj2 (Z.eqb_neq (b - 1) 0)) by lia. rewrite Z.eqb_refl.
    cbn [negb andb tail]. unfold bind, SkipToNextInput. cbn [m_pos set_pos].
    rewrite SkipToNextInput_scan_text;
      [|done|lia|right; by apply comments_text_head].
    cbn [fst snd].
    rewrite (IH fuel sequence _ n (set_pos (comments_text comments ++ rest) s) rest);
      [|done|done|done|lia].
    cbn [set_pos]. f_equal. lia.
Qed.

(** A row of the digits of a sequence id, blanks and comments. *)
Lemma TryReadRow_comments fuel (sequence : list (InputStreamBuffer E)) b s
    digits blanks comments rest :
  m_pos s = digits ++ blanks ++ comments_text comments ++ ROW_DELIMITER :: rest →
  all_digits digits = true → forallb is_blank blanks = true →
  Forall (λ text, is_comment text = true) comments →
  Z.of_nat (length digits + length blanks + length (comments_text comments))
    < b < 2 ^ 64 →
  (length blanks + length comments < fuel)%nat →
  TryReadRow p fuel sequence b s
  = Ret (false, sequence,
         b - Z.of_nat (length digits + length blanks
                       + length (comments_text comments)) - 1)
        (after_warning p W_EmptyRow (set_pos rest s)).
Proof.
  intros Hpos Hd Hbl Hcomments Hb Hfuel. unfold TryReadRow. rewrite Hpos.
  rewrite SkipSequenceId_scan_digits; [|done|lia|].
  2:{ destruct blanks as [|c blanks].
      - cbn [app]. by destruct comments.
      - cbn [app forallb] in *. apply andb_prop in Hbl as [Hc _].
        by apply is_blank_not_digit. }
  cbn [fst snd].
  replace fuel
    with (length blanks + (length comments + S (fuel - S (length blanks + length comments))))%nat
    by lia.
  rewrite (TryReadRow_loop_blanks blanks _ _ _ _ _
             (comments_text comments ++ ROW_DELIMITER :: rest)); [|done|done|lia].
  rewrite (TryReadRow_loop_comments comments _ _ _ _ _ (ROW_DELIMITER :: rest));
    [|done|done|done|lia].
  rewrite (TryReadRow_loop_end p _ _ _ _ _ rest); [|done|lia].
  cbn [Nat.ltb Nat.leb Nat.eqb set_pos]. f_equal. f_equal. lia.
Qed.

(** The state in which [LoadSequence] comes to its rows. *)
Lemma rows_start_le_state verifyId sequenceDsc s b0 s0 :
  rows_start p verifyId sequenceDsc s b0 s0 →
  (length (m_pos s0) ≤ length (m_pos s))%nat
  ∧ m_numAllowedErrors s0 = m_numAllowedErrors s.
Proof.
  unfold rows_start. destruct verifyId; [|by intros [_ ->]].
  intros Hrun.
  destruct (TryReadUint64_same_line p (seq_byteSize sequenceDsc) s)
    as (r & b' & s' & Hrun' & (taken & Htaken & _) & _).
  rewrite Hrun in Hrun'. injection Hrun' as _ _ <-.
  split; [rewrite Htaken, length_app; lia|].
  unfold TryReadUint64 in Hrun. rewrite run_scan_eq in Hrun.
  injection Hrun as _ _ <-. by destruct (sc_warning _).
Qed.

(** C10.  An empty row makes [TryReadRow] return [false], and
    [LoadSequence] then takes one from the error budget.  A row that
    [TryReadRow] has read up to its row delimiter is accepted exactly when
    the buffers have gained a sample, and it is rejected after the warning
    of an empty row.  Such is a row of nothing but the digits of a sequence
    id, blanks and comments: [TryReadRow] returns [false] after that
    warning, with the buffers and the budget as they were.  In
    [LoadSequence], whether it verifies the sequence id or not, after [k]
    rows that were read a row that ends at its row delimiter with no sample
    gained makes the call throw the [RuntimeError] of the exhausted budget
    where the budget is zero, as it is when the call started with a budget
    of zero, and otherwise go on with a budget of one less after the warning
    that the row could not be read. *)
Theorem empty_row_is_fatal :
  (∀ (fuel : nat) (sequence : list (InputStreamBuffer E)) (b : Z) (s : PState)
     (ok : bool) (sequence' : list (InputStreamBuffer E)) (b' : Z) (s' : PState),
     (length (m_pos s) < fuel)%nat →
     TryReadRow p fuel sequence b s = Ret (ok, sequence', b') s' →
     row_read s s' →
     (samples sequence ≤ samples sequence')%nat
     ∧ ok = (samples sequence <? samples sequence')%nat
     ∧ (ok = false → ∃ s1, s' = after_warning p W_EmptyRow s1))
  ∧ (∀ (fuel : nat) (sequence : list (InputStreamBuffer E)) (b : Z) (s : PState)
       (digits blanks : list char) (comments : list (list char))
       (rest : list char),
       m_pos s = digits ++ blanks ++ comments_text comments
                   ++ ROW_DELIMITER :: rest →
       all_digits digits = true → forallb is_blank blanks = true →
       Forall (λ text, is_comment text = true) comments →
       Z.of_nat (length digits + length blanks
                 + length (comments_text comments)) < b < 2 ^ 64 →
       (length blanks + length comments < fuel)%nat →
       TryReadRow p fuel sequence b s
       = Ret (false, sequence,
              b - Z.of_nat (length digits + length blanks
                            + length (comments_text comments)) - 1)
             (after_warning p W_EmptyRow (set_pos rest s)))
  ∧ (∀ (fuel : nat) (verifyId : bool) (sequenceDsc : SequenceDescriptor)
       (s : PState) (w : Reader.Window) (b0 : Z) (s0 : PState) (k : nat)
       (sequence1 : list (InputStreamBuffer E)) (b1 : Z) (s1 : PState)
       (ok : bool) (sequence2 : list (InputStreamBuffer E)) (b2 : Z)
       (s2 : PState),
       (Reader.extent (m_window s) < fuel)%nat →
       Reader.LoadSequence_seek (Pos.to_nat BUFFER_SIZE)
         (Z.of_nat (seq_fileOffsetBytes sequenceDsc)) (window_now BUFFER_SIZE s)
       = Some w →
       rows_start p verifyId sequenceDsc (set_window w s) b0 s0 →
       rows_read p fuel k (map (λ _, new_buffer) (m_streamInfos p)) b0 s0
                 sequence1 b1 s1 →
       (k < seq_numberOfSamples sequenceDsc)%nat →
       TryReadRow p fuel sequence1 b1 s1 = Ret (ok, sequence2, b2) s2 →
       row_read s1 s2 → samples sequence2 = samples sequence1 →
       let id := seq_id sequenceDsc in
       let expectedRowCount := seq_numberOfSamples sequenceDsc in
       (m_numAllowedErrors s2 ≤ m_numAllowedErrors s)%N
       ∧ LoadSequence p BUFFER_SIZE fuel verifyId sequenceDsc s
         = if (m_numAllowedErrors s2 =? 0)%N
           then Throw (RuntimeError (MaxErrorsMessage (m_filename p)))
                      (with_notification p s2)
           else
             ('(sequence, numRowsRead) ←
                (if (b2 =? 0) && (k <? expectedRowCount)%nat
                 then warn p (W_ExhaustedSequence id k expectedRowCount);;
                      ret (sequence2, k)
                 else LoadSequence_rows p fuel id expectedRowCount
                        (expectedRowCount - S k) (S k) sequence2 b2 k);
              LoadSequence_finish p sequenceDsc sequence numRowsRead)
               (after_warning p (W_CouldNotReadRow (k + 1) id)
                  (with_budget (N.pred (m_numAllowedErrors s2)) s2))).
Proof.
  split; [intros; by eapply TryReadRow_count|].
  split; [intros; by apply TryReadRow_comments|].
  intros fuel verifyId sequenceDsc s w b0 s0 k sequence1 b1 s1 ok sequence2 b2 s2
    Hfuel Hseek Hstart Hrows Hk Hrow Hread Hsamples. cbn zeta.
  assert (Hfuel0 : (length (m_pos s0) < fuel)%nat).
  { destruct (rows_start_le_state _ _ _ _ _ Hstart) as [Hlen _].
    cbn [m_pos set_window] in Hlen.
    pose proof (readable_extent w).
    pose proof (LoadSequence_seek_extent _ _ _ _ Hseek).
    pose proof (read_extent (Pos.to_nat BUFFER_SIZE) (bytes_read s) (m_window s)).
    unfold window_now in *. lia. }
  pose proof (rows_read_le_state _ _ _ _ _ _ _ _ _ Hrows Hfuel0) as Hle1.
  assert (Hfuel1 : (length (m_pos s1) < fuel)%nat).
  { apply le_state_length in Hle1. lia. }
  assert (ok = false) as ->.
  { destruct (TryReadRow_count _ _ _ _ _ _ _ _ Hfuel1 Hrow Hread) as (_ & -> & _).
    apply Nat.ltb_ge. lia. }
  pose proof (TryReadRow_spec p fuel sequence1 b1 s1 Hfuel1) as Hspec.
  rewrite Hrow in Hspec. destruct Hspec as [Hle2 _].
  split.
  { destruct (rows_start_le_state _ _ _ _ _ Hstart) as [_ Hn].
    cbn [m_numAllowedErrors set_window] in Hn.
    destruct Hle1 as (_ & ? & _), Hle2 as (_ & ? & _). lia. }
  unfold LoadSequence. rewrite Hseek. unfold LoadSequence_read.
  erewrite bind_Ret.
  2:{ unfold rows_start in Hstart. destruct verifyId.
      - erewrite bind_Ret by exact Hstart. cbn iota beta.
        rewrite Z.eqb_refl. reflexivity.
      - destruct Hstart as [-> ->]. reflexivity. }
  cbn beta zeta. unfold bind at 1.
  replace (seq_numberOfSamples sequenceDsc)
    with (k + S (seq_numberOfSamples sequenceDsc - S k))%nat at 2 by lia.
  rewrite (LoadSequence_rows_after _ _ _ _ _ _ _ _ _ _ _ Hrows).
  rewrite !Nat.add_0_r.
  set (remaining := (seq_numberOfSamples sequenceDsc - S k)%nat).
  assert (Hstep :
    LoadSequence_rows p fuel (seq_id sequenceDsc)
      (seq_numberOfSamples sequenceDsc) (S remaining) k sequence1 b1 k s1
    = if (m_numAllowedErrors s2 =? 0)%N
      then Throw (RuntimeError (MaxErrorsMessage (m_filename p)))
                 (with_notification p s2)
      else
        (if (b2 =? 0) && (k <? seq_numberOfSamples sequenceDsc)%nat
         then warn p (W_ExhaustedSequence (seq_id sequenceDsc) k
                        (seq_numberOfSamples sequenceDsc));;
              ret (sequence2, k)
         else LoadSequence_rows p fuel (seq_id sequenceDsc)
                (seq_numberOfSamples sequenceDsc) remaining (S k) sequence2 b2 k)
          (after_warning p (W_CouldNotReadRow (k + 1) (seq_id sequenceDsc))
             (with_budget (N.pred (m_numAllowedErrors s2)) s2))).
  { cbn [LoadSequence_rows]. erewrite bind_Ret by exact Hrow. cbn iota beta.
    destruct (N.eqb_spec (m_numAllowedErrors s2) 0) as [H0|H0].
    - apply bind_Throw, bind_Throw. by apply IncrementNumberOfErrorsOrDie_zero.
    - erewrite bind_Ret.
      2:{ erewrite bind_Ret by (by apply IncrementNumberOfErrorsOrDie_pos).
          erewrite bind_Ret by apply warn_eq. reflexivity. }
      reflexivity. }
  rewrite Hstep. by destruct (m_numAllowedErrors s2 =? 0)%N.
Qed.

End EmptyRow.

(** The row [|# note], and the sequence [example_empty_row] loaded with its id
    verified, with a budget of one and with a budget of zero. *)
Lemma empty_row_is_fatal_witness :
  TryReadRow (RA:=Q_RealArith)
    (example_config Warning [example_stream "x" dense 1]) 20 [new_buffer] 8
    (example_state ("|# note" ++ line_feed) 1)
  = Ret (false, [new_buffer], 0)
        (after_warning (example_config Warning [example_stream "x" dense 1])
           W_EmptyRow (set_pos [] (example_state ("|# note" ++ line_feed) 1)))
  ∧ ((samples (E:=Q) [new_buffer] ≤ samples (E:=Q) [new_buffer])%nat
     ∧ false = (samples (E:=Q) [new_buffer] <? samples (E:=Q) [new_buffer])%nat
     ∧ (false = false →
        ∃ s1,
          after_warning (example_config Warning [example_stream "x" dense 1])
            W_EmptyRow (set_pos [] (example_state ("|# note" ++ line_feed) 1))
          = after_warning (example_config Warning [example_stream "x" dense 1])
              W_EmptyRow s1))
  ∧ LoadSequence (RA:=Q_RealArith)
      (example_config Warning [example_stream "x" dense 1]) example_buffer 40
      true (example_sequence example_empty_row 2)
      (example_state example_empty_row 1)
    = Ret [MkBuffer 1 [1%Q] [] [] 0]
          {| m_pos := []; m_numAllowedErrors := 0; m_hadWarnings := true;
             stderr := [W_EmptyRow; W_CouldNotReadRow 2 0;
                        W_ExhaustedSequence 0 1 2];
             m_window := m_window (example_state example_empty_row 1) |}
  ∧ LoadSequence (RA:=Q_RealArith)
      (example_config Warning [example_stream "x" dense 1]) example_buffer 40
      true (example_sequence example_empty_row 2)
      (example_state example_empty_row 0)
    = Throw (RuntimeError
               "Reached the maximum number of allowed errors while reading the input file (input.txt).")
            {| m_pos := []; m_numAllowedErrors := 0; m_hadWarnings := true;
               stderr := [W_EmptyRow];
               m_window := m_window (example_state example_empty_row 0) |}.
Proof.
  pose (p := example_config Warning [example_stream "x" dense 1]).
  assert (Hrow : TryReadRow (RA:=Q_RealArith) p 20 [new_buffer] 8
                   (example_state ("|# note" ++ line_feed) 1)
                 = Ret (false, [new_buffer], 0)
                       (after_warning p W_EmptyRow
                          (set_pos [] (example_state ("|# note" ++ line_feed) 1)))).
  { apply (proj1 (proj2 (empty_row_is_fatal (RA:=Q_RealArith) p example_buffer))
             20%nat [new_buffer] 8 (example_state ("|# note" ++ line_feed) 1)
             [] [] [bytes_of " note"] []).
    - reflexivity.
    - reflexivity.
    - reflexivity.
    - repeat constructor.
    - vm_compute. split; reflexivity.
    - vm_compute. lia. }
  assert (Hline : ∀ s s', m_pos s = bytes_of ("|# note" ++ line_feed) →
                    m_pos s' = [] → row_read s s').
  { intros s s' Hs Hs'. exists (bytes_of "|# note"). rewrite Hs, Hs'.
    split; [reflexivity|]. repeat constructor; discriminate. }
  split; [exact Hrow|]. split; [|split].
  - apply (proj1 (empty_row_is_fatal (RA:=Q_RealArith) p example_buffer)
             20%nat [new_buffer] 8 (example_state ("|# note" ++ line_feed) 1)
             false [new_buffer] 0
             (after_warning p W_EmptyRow
                (set_pos [] (example_state ("|# note" ++ line_feed) 1)))).
    + vm_compute. lia.
    + exact Hrow.
    + by apply Hline.
  - refine (eq_trans (proj2 (proj2 (proj2
      (empty_row_is_fatal (RA:=Q_RealArith) p example_buffer))
        40%nat true (example_sequence example_empty_row 2)
        (example_state example_empty_row 1)
        (m_window (example_state example_empty_row 1)) 14
        (set_pos (bytes_of (" |x 1" ++ line_feed ++ "|# note" ++ line_feed))
                 (example_state example_empty_row 1))
        1%nat [MkBuffer 1 [1%Q] [] [] 0] 8
        (set_pos (bytes_of ("|# note" ++ line_feed))
                 (example_state example_empty_row 1))
        false [MkBuffer 1 [1%Q] [] [] 0] 0
        (after_warning p W_EmptyRow
           (set_pos [] (example_state example_empty_row 1)))
        _ _ _ _ _ _ _ _)) _).
    + vm_compute. lia.
    + vm_compute. reflexivity.
    + vm_compute. reflexivity.
    + eapply rows_read_S; [| |apply rows_read_O]; [vm_compute; reflexivity|lia].
    + vm_compute. lia.
    + vm_compute. reflexivity.
    + by apply Hline.
    + reflexivity.
    + vm_compute. reflexivity.
  - refine (eq_trans (proj2 (proj2 (proj2
      (empty_row_is_fatal (RA:=Q_RealArith) p example_buffer))
        40%nat true (example_sequence example_empty_row 2)
        (example_state example_empty_row 0)
        (m_window (example_state example_empty_row 0)) 14
        (set_pos (bytes_of (" |x 1" ++ line_feed ++ "|# note" ++ line_feed))
                 (example_state example_empty_row 0))
        1%nat [MkBuffer 1 [1%Q] [] [] 0] 8
        (set_pos (bytes_of ("|# note" ++ line_feed))
                 (example_state example_empty_row 0))
        false [MkBuffer 1 [1%Q] [] [] 0] 0
        (after_warning p W_EmptyRow
           (set_pos [] (example_state example_empty_row 0)))
        _ _ _ _ _ _ _ _)) _).
    + vm_compute. lia.
    + vm_compute. reflexivity.
    + vm_compute. reflexivity.
    + eapply rows_read_S; [| |apply rows_read_O]; [vm_compute; reflexivity|lia].
    + vm_compute. lia.
    + vm_compute. reflexivity.
    + by apply Hline.
    + reflexivity.
    + vm_compute. reflexivity.
Defined.
